(** * The full inliner of libjulia (libjulia/optimiser/FullInliner.cpp)

    A shallow embedding of the inlining pass: the name dispenser, the body
    copier, the call-site rewriter (InlineModifier) and the driver
    (FullInliner), followed by the properties the pass is specified by. *)

From stdpp Require Import gmap strings pretty list.

Set Warnings "-register-all,-clear-no-such-hyp".

(** ** The abstract syntax tree

    The node types are declared in libsolidity/inlineasm/AsmData.h, which
    is not part of the sources at hand.  The variants below are the ones
    the data model of the pass names (Block, FunctionDefinition,
    VariableDeclaration, ForLoop, FunctionCall, Identifier,
    FunctionalInstruction, TypedName), together with literals, assignments
    and expression statements, which the scenarios of the pass use. *)

(** Modelled from the spec: the source location every node carries,
    declared outside the sources at hand; the pass copies it and never
    looks into it. *)
Record SourceLocation := mkLoc { loc_start : Z; loc_end : Z }.

(** Modelled from the spec: the type tag of a typed name, which the pass
    copies verbatim, and the opcode of an instruction, opaque to the
    pass. *)
Definition Type_ := string.
Definition Instruction := N.

(** Modelled from the spec: TypedName, a (name, type-tag) pair used in
    declarations, parameters and return variables. *)
Record TypedName := mkTypedName {
  tn_location : SourceLocation;
  tn_name : string;
  tn_type : Type_
}.

(** Modelled from the spec: the variant Expression of AsmData.h.  A call
    has the name of its callee and its ordered arguments; an instruction
    has its ordered arguments and is opaque otherwise. *)
Inductive Expression :=
| FunctionalInstruction (location : SourceLocation) (instruction : Instruction)
    (arguments : list Expression)
| FunctionCall (location : SourceLocation) (functionName : string)
    (arguments : list Expression)
| Identifier (location : SourceLocation) (name : string)
| Literal (location : SourceLocation) (value : string) (type : Type_).

(** Modelled from the spec: the variant Statement of AsmData.h.  A
    [Block] is a located sequence of statements; the body of a function
    and the pre, post and body parts of a loop are such blocks, given here
    by their location and their statements. *)
Inductive Statement :=
| ExpressionStatement (location : SourceLocation) (expression : Expression)
| Assignment (location : SourceLocation) (variableNames : list (SourceLocation * string))
    (value : Expression)
| VariableDeclaration (location : SourceLocation) (variables : list TypedName)
    (value : option Expression)
| FunctionDefinition (location : SourceLocation) (name : string)
    (parameters returnVariables : list TypedName)
    (bodyLocation : SourceLocation) (body : list Statement)
| ForLoop (location : SourceLocation)
    (preLocation : SourceLocation) (pre : list Statement)
    (condition : Expression)
    (postLocation : SourceLocation) (post : list Statement)
    (bodyLocation : SourceLocation) (body : list Statement)
| Block (location : SourceLocation) (statements : list Statement).

(** Modelled from the spec: [locationOf], declared outside the sources at
    hand: the location of the node the variant holds. *)
Definition locationOf (e : Expression) : SourceLocation :=
  match e with
  | FunctionalInstruction l _ _ | FunctionCall l _ _
  | Identifier l _ | Literal l _ _ => l
  end.

Definition isIdentifier (e : Expression) : bool :=
  match e with Identifier _ _ => true | _ => false end.

Definition isFunctionCall (e : Expression) : bool :=
  match e with FunctionCall _ _ _ => true | _ => false end.

(** ** NameDispenser *)

Module NameDispenser.

(** [std::to_string] on an unsigned number: its decimal digits. *)
Definition to_string (n : N) : string := pretty n.

(** The loop condition [name.empty() || m_usedNames.count(name)]. *)
Definition taken (m_usedNames : gset string) (name : string) : bool :=
  bool_decide (name = "") || bool_decide (name ∈ m_usedNames).

(** The candidate built by one round of the loop. *)
Definition candidate (_prefix : string) (suffix : N) : string :=
  _prefix +:+ "_" +:+ to_string suffix.

(** The while loop of [newName], entered with the current [suffix] and
    [name].  [rounds] bounds the number of iterations; [newName] below
    passes a bound no run can reach.  The counter is a [size_t] in the
    source; it is not reduced modulo 2^64 here because the loop leaves
    after at most [size m_usedNames + 1] rounds, and a set of 2^64 names
    does not fit the address space the counter is sized for. *)
Fixpoint newName_loop (rounds : nat) (m_usedNames : gset string)
    (_prefix : string) (suffix : N) (name : string) : option string :=
  if taken m_usedNames name then
    match rounds with
    | O => None
    | S rounds' =>
        let suffix' := (suffix + 1)%N in
        newName_loop rounds' m_usedNames _prefix suffix' (candidate _prefix suffix')
    end
  else Some name.

(** The name the loop ends with.  The loop returns within the bound it is
    given here (that is [newName_loop_total] below), so the default is
    never taken. *)
Definition newName_name (m_usedNames : gset string) (_prefix : string) : string :=
  default _prefix
    (newName_loop (S (size m_usedNames)) m_usedNames _prefix 0 _prefix).

(** [newName]: the dispensed name and the used-name set after the call. *)
Definition newName (_prefix : string) (m_usedNames : gset string)
    : string * gset string :=
  let name := newName_name m_usedNames _prefix in
  (name, {[name]} ∪ m_usedNames).

End NameDispenser.


(** ** Outcomes of the pass

    The pass either runs to completion or is aborted by an exception that
    nothing in it catches.  An abort is recorded with the exception alone.
    The pass rewrites in place a tree it does not own, and unwinding
    undoes none of it; what an abort leaves in the tree is therefore read
    off the states of the steps that have returned before it: a step is
    aborted in the state the steps before it have left. *)

Inductive Exception :=
| AssertionFailure (message : string)
    (** [solAssert(false, message)] *)
| OutOfRange
    (** [std::map::at] on an absent key *)
| BadGet
    (** [boost::get<T>] on a variant holding another alternative *)
| IndexOutOfBounds
    (** [operator[]] past the end of a vector, which the source does not
        check: undefined behaviour there, the end of the run here *)
| InvalidPointer
    (** a function pointer of the driver not pointing to a definition *)
| OutOfFuel.
    (** the recursion bound of the embedding was reached *)

Inductive Result (A : Type) :=
| Ok (a : A)
| Fatal (why : Exception).
Arguments Ok {A} a.
Arguments Fatal {A} why.

(** State passing with abortion: a member function of a class with state
    [S] that returns an [A]. *)
Definition SE (S A : Type) : Type := S → Result (A * S).

Definition ret {S A} (a : A) : SE S A := λ s, Ok (a, s).

Definition bind {S A B} (m : SE S A) (k : A → SE S B) : SE S B :=
  λ s, match m s with
       | Ok (a, s') => k a s'
       | Fatal why => Fatal why
       end.

Definition throw {S A} (why : Exception) : SE S A := λ _, Fatal why.

Definition gets {S A} (f : S → A) : SE S A := λ s, Ok (f s, s).

Definition modify {S} (f : S → S) : SE S unit := λ s, Ok (tt, f s).

Notation "'let*' x ':=' m 'in' k" := (bind m (λ x, k))
  (at level 10, x pattern, m at level 100, k at level 200).

Notation "m ';;' k" := (bind m (λ _, k))
  (at level 100, k at level 200, right associativity).

(** ** BodyCopier

    The copier of a function body.  [m_variableReplacements] is its own
    map; [m_nameDispenser] is the dispenser it shares with the pass, kept
    here as the used-name set the dispenser holds. *)

Module BodyCopier.

Record t := mk {
  m_variableReplacements : gmap string string;
  m_nameDispenser : gset string
}.

Definition translateIdentifier (m_variableReplacements : gmap string string)
    (_name : string) : string :=
  match m_variableReplacements !! _name with
  | Some replacement => replacement
  | None => _name
  end.

(** Modelled from the spec: ASTCopier (libjulia/optimiser/ASTCopier.cpp),
    the base class of the copier, is not part of the sources at hand.  It
    produces a structurally deep copy in which every name reference goes
    through [translateIdentifier], the name of the callee of a call being
    an identifier node like any other; the parts of a node are copied in
    the order of its fields. *)
Fixpoint translateExpression (repl : gmap string string) (e : Expression)
    : Expression :=
  match e with
  | FunctionalInstruction l i args =>
      FunctionalInstruction l i (map (translateExpression repl) args)
  | FunctionCall l f args =>
      FunctionCall l (translateIdentifier repl f) (map (translateExpression repl) args)
  | Identifier l n => Identifier l (translateIdentifier repl n)
  | Literal l v ty => Literal l v ty
  end.

(** Modelled from the spec: the copy of a typed name by ASTCopier, its
    name being a name reference too. *)
Definition translateTypedName (repl : gmap string string) (v : TypedName)
    : TypedName :=
  mkTypedName (tn_location v) (translateIdentifier repl (tn_name v)) (tn_type v).

(** Modelled from the spec: [translateVector] of ASTCopier, the copies of
    the elements in their order. *)
Definition translateVector (translate : Statement → SE t Statement)
    : list Statement → SE t (list Statement) :=
  fix go (statements : list Statement) : SE t (list Statement) :=
    match statements with
    | [] => ret []
    | s :: rest =>
        let* s' := translate s in
        let* rest' := go rest in
        ret (s' :: rest')
    end.

Section copier.
Variable m_varNamePrefix : string.

(** The loop of [operator()(VariableDeclaration const&)]: every declared
    variable gets a newly dispensed name, entered into the map. *)
Fixpoint registerVariables (variables : list TypedName) : SE t unit :=
  match variables with
  | [] => ret tt
  | var :: rest =>
      (λ c,
        let (fresh, used) :=
          NameDispenser.newName (m_varNamePrefix +:+ tn_name var) (m_nameDispenser c) in
        Ok (tt, mk (<[tn_name var := fresh]> (m_variableReplacements c)) used));;
      registerVariables rest
  end.

(** Modelled from the spec: [operator()(VariableDeclaration const&)] of
    ASTCopier, which is not part of the sources at hand: the copy of the
    declared names and of the initializer, each name reference going
    through [translateIdentifier]. *)
Definition ASTCopier_VariableDeclaration (l : SourceLocation)
    (variables : list TypedName) (value : option Expression) : SE t Statement :=
  let* repl := gets m_variableReplacements in
  ret (VariableDeclaration l (map (translateTypedName repl) variables)
         (option_map (translateExpression repl) value)).

Definition op_VariableDeclaration (l : SourceLocation)
    (variables : list TypedName) (value : option Expression) : SE t Statement :=
  registerVariables variables;;
  ASTCopier_VariableDeclaration l variables value.

Definition op_FunctionDefinition : SE t Statement :=
  throw (AssertionFailure "Function hoisting has to be done before function inlining.").

(** Modelled from the spec: the dispatch of ASTCopier over a statement,
    ASTCopier not being part of the sources at hand.  A declaration and a
    function definition go to the overloads of BodyCopier; the other
    statements are copied part by part, in the order of their fields. *)
Fixpoint translateStatement (s : Statement) : SE t Statement :=
  match s with
  | ExpressionStatement l e =>
      let* repl := gets m_variableReplacements in
      ret (ExpressionStatement l (translateExpression repl e))
  | Assignment l names v =>
      let* repl := gets m_variableReplacements in
      ret (Assignment l
             (map (λ n, (n.1, translateIdentifier repl n.2)) names)
             (translateExpression repl v))
  | VariableDeclaration l variables value =>
      op_VariableDeclaration l variables value
  | FunctionDefinition _ _ _ _ _ _ =>
      op_FunctionDefinition
  | ForLoop l lpre pre c lpost post lbody body =>
      let* pre' := translateVector translateStatement pre in
      let* repl := gets m_variableReplacements in
      let c' := translateExpression repl c in
      let* post' := translateVector translateStatement post in
      let* body' := translateVector translateStatement body in
      ret (ForLoop l lpre pre' c' lpost post' lbody body')
  | Block l statements =>
      let* statements' := translateVector translateStatement statements in
      ret (Block l statements')
  end.

(** Modelled from the spec: [operator()(Block const&)], which the copier
    takes from ASTCopier: the copy of a block, as a statement. *)
Definition op_Block (l : SourceLocation) (statements : list Statement)
    : SE t Statement :=
  translateStatement (Block l statements).

End copier.
End BodyCopier.

(** ** The driver as the modifier sees it

    [m_ast] holds the statements of the root block.  The driver keeps
    pointers to the function definitions among them; the root block is
    never resized, so such a pointer is the position of the definition in
    [m_ast], and the pointer set [m_functionsToVisit], ordered by address,
    is the increasing list of the positions still to visit.
    [m_usedNames] is the set of [m_nameDispenser].  [handled] is not a
    member of the class: it records, in order, the functions
    [handleFunction] has gone on to process, and nothing reads it. *)

Module Driver.

Record t := mk {
  m_ast : list Statement;
  m_functions : gmap string nat;
  m_functionsToVisit : list nat;
  m_usedNames : gset string;
  handled : list nat
}.

Definition set_ast (f : list Statement → list Statement) (d : t) : t :=
  mk (f (m_ast d)) (m_functions d) (m_functionsToVisit d) (m_usedNames d) (handled d).

Definition set_usedNames (used : gset string) (d : t) : t :=
  mk (m_ast d) (m_functions d) (m_functionsToVisit d) used (handled d).

(** [m_functionsToVisit.erase(&_fun)], noted in [handled]. *)
Definition erase (_fun : nat) (d : t) : t :=
  mk (m_ast d) (m_functions d)
     (filter (λ p, p ≠ _fun) (m_functionsToVisit d))
     (m_usedNames d) (handled d ++ [_fun]).

(** The members of a function definition. *)
Record FunctionDefinition_ := mkFun {
  fun_location : SourceLocation;
  fun_name : string;
  fun_parameters : list TypedName;
  fun_returnVariables : list TypedName;
  fun_bodyLocation : SourceLocation;
  fun_body : list Statement
}.

(** Reading through a pointer to a function definition. *)
Definition deref (_fun : nat) (d : t) : option FunctionDefinition_ :=
  match m_ast d !! _fun with
  | Some (FunctionDefinition l n ps rs lb b) => Some (mkFun l n ps rs lb b)
  | _ => None
  end.

Definition read (_fun : nat) : SE t FunctionDefinition_ :=
  λ d, match deref _fun d with
       | Some f => Ok (f, d)
       | None => Fatal InvalidPointer
       end.

(** [FullInliner::function]: [*m_functions.at(_name)]. *)
Definition function (_name : string) : SE t nat :=
  λ d, match m_functions d !! _name with
       | Some p => Ok (p, d)
       | None => Fatal OutOfRange
       end.

(** A reference to a node below the root block: the way a new value for
    the node is stored into the tree the driver owns. *)
Definition Ref (A : Type) : Type := A → t → t.

(** The reference to the top-level statement at a position. *)
Definition statementRef (i : nat) : Ref Statement :=
  λ s, set_ast (λ ast, <[i := s]> ast).

(** The reference to the statements of [_fun.body]. *)
Definition bodyRef (_fun : nat) : Ref (list Statement) :=
  λ b d, match deref _fun d with
         | Some f =>
             statementRef _fun
               (FunctionDefinition (fun_location f) (fun_name f) (fun_parameters f)
                  (fun_returnVariables f) (fun_bodyLocation f) b) d
         | None => d
         end.

End Driver.

(** ** InlineModifier

    [m_driver] and [m_nameDispenser] are references to the driver and to
    its dispenser, so the state of a modifier is its own
    [m_statementsToPrefix] together with the state of the driver;
    [m_currentFunction] never changes after construction.  A member
    function that takes a reference to a node takes here the reference (to
    store what it assigns, so that a body that is copied while it is being
    rewritten is copied as rewritten so far) and the node as it is at the
    call, and returns the node as it is at the return; that the node
    returned is the node then held at the reference is
    [visit_stores_result] and [visitStatement_stores_result] below. *)

Module InlineModifier.

Record t := mk {
  m_statementsToPrefix : list Statement;
  m_driver : Driver.t
}.

Definition driver {A} (m : SE Driver.t A) : SE t A :=
  λ im, match m (m_driver im) with
        | Ok (a, d) => Ok (a, mk (m_statementsToPrefix im) d)
        | Fatal why => Fatal why
        end.

(** Assignment through a reference. *)
Definition assign {A} (r : Driver.Ref A) (a : A) : SE t unit :=
  driver (modify (r a)).

(** [m_statementsToPrefix += statements] and [emplace_back]. *)
Definition append (statements : list Statement) : SE t unit :=
  modify (λ im, mk (m_statementsToPrefix im ++ statements) (m_driver im)).

Definition clear : SE t unit :=
  modify (λ im, mk [] (m_driver im)).

Definition newName (_prefix : string) : SE t string :=
  driver (λ d,
    let (name, used) := NameDispenser.newName _prefix (Driver.m_usedNames d) in
    Ok (name, Driver.set_usedNames used d)).

(** [visitRecursively], given the visit of the expression: the buffer
    is swapped out, the visit runs on an empty buffer, and what it left
    there is returned while the saved buffer is swapped back in. *)
Definition visitRecursively (visit : SE t Expression)
    : SE t (Expression * list Statement) :=
  λ im,
    let saved := m_statementsToPrefix im in
    match visit (mk [] (m_driver im)) with
    | Ok (e, im') => Ok ((e, m_statementsToPrefix im'), mk saved (m_driver im'))
    | Fatal why => Fatal why
    end.

Definition isEmpty {A} (l : list A) : bool :=
  match l with [] => true | _ => false end.

(** The loop of [visitArguments].  [done] holds the arguments left of
    position [i], as rewritten; [rest] those from [i] on. *)
Definition visitArguments_loop
    (visit : Driver.Ref Expression → Expression → SE t Expression)
    (r : Driver.Ref (list Expression)) (_nameHints _types : list string)
    : list Expression → list Expression → bool → list Statement →
      SE t (list Expression * list Statement) :=
  fix loop (done rest : list Expression) (_moveToFront : bool)
      (prefix : list Statement) {struct rest} :=
    match rest with
    | [] => ret (done, prefix)
    | arg :: rest' =>
        let i := length done in
        let argRef : Driver.Ref Expression := λ a, r (done ++ a :: rest') in
        let* (arg, internalPrefix) := visitRecursively (visit argRef arg) in
        if negb (isEmpty internalPrefix) then
          loop (done ++ [arg]) rest' true (internalPrefix ++ prefix)
        else if _moveToFront then
          let location := locationOf arg in
          let* var := newName (default "" (_nameHints !! i)) in
          let declaration :=
            VariableDeclaration location
              [mkTypedName location var (default "" (_types !! i))]
              (Some arg) in
          assign argRef (Identifier location var);;
          loop (done ++ [Identifier location var]) rest' _moveToFront
               (declaration :: prefix)
        else
          loop (done ++ [arg]) rest' _moveToFront prefix
    end.

Definition visitArguments
    (visit : Driver.Ref Expression → Expression → SE t Expression)
    (r : Driver.Ref (list Expression)) (_arguments : list Expression)
    (_nameHints _types : list string) (_moveToFront : bool)
    : SE t (list Expression) :=
  let* (arguments, prefix) :=
    visitArguments_loop visit r _nameHints _types [] _arguments _moveToFront [] in
  append prefix;;
  ret arguments.

(** The loop of [visit] that fills [variableReplacements] from the
    parameters and the arguments, which it takes for identifiers.  In
    [variableReplacements[fun.parameters[i].name] = boost::get<Identifier>
    (funCall.arguments[i]).name] the right-hand side of the assignment
    is evaluated first, so an argument that is no identifier throws before
    the parameter is looked at.  [fun.parameters[i]] is not checked in the
    source: past the end of the parameters the behaviour is undefined, and
    the embedding ends the run there with [IndexOutOfBounds]. *)
Fixpoint bindParameters (parameters : list TypedName) (arguments : list Expression)
    (i : nat) (variableReplacements : gmap string string)
    : Result (gmap string string) :=
  match arguments with
  | [] => Ok variableReplacements
  | a :: rest =>
      match a with
      | Identifier _ name =>
          match parameters !! i with
          | None => Fatal IndexOutOfBounds
          | Some p =>
              bindParameters parameters rest (S i)
                (<[tn_name p := name]> variableReplacements)
          end
      | _ => Fatal BadGet
      end
  end.

(** [BodyCopier(m_nameDispenser, prefix, variableReplacements)(block)]. *)
Definition copyBody (_varNamePrefix : string)
    (variableReplacements : gmap string string)
    (l : SourceLocation) (statements : list Statement) : SE t Statement :=
  driver (λ d,
    match BodyCopier.op_Block _varNamePrefix l statements
            (BodyCopier.mk variableReplacements (Driver.m_usedNames d)) with
    | Ok (s, c) => Ok (s, Driver.set_usedNames (BodyCopier.m_nameDispenser c) d)
    | Fatal why => Fatal why
    end).

Definition op_FunctionCall : SE t Expression :=
  throw (AssertionFailure "Should be handled in visit() instead.").

Section modifier.
Variable handleFunction : nat → SE Driver.t unit.
Variable m_currentFunction : string.

(** The decision of [visit] on a call. *)
Definition doInline (functionName : string) (returnVariables : list TypedName) : bool :=
  let doInline := negb (String.eqb functionName m_currentFunction) in
  if negb (length returnVariables =? 1) then false else doInline.

(** The part of [visit] after [visitArguments], for a call to inline. *)
Definition inlineCall (r : Driver.Ref Expression) (location : SourceLocation)
    (_fun : nat) (arguments : list Expression) : SE t Expression :=
  let* f := driver (Driver.read _fun) in
  let* returnVar :=
    match Driver.fun_returnVariables f !! 0 with
    | Some v => ret v
    | None => throw IndexOutOfBounds
    end in
  let returnVariable := tn_name returnVar in
  let* variableReplacements :=
    match bindParameters (Driver.fun_parameters f) arguments 0 ∅ with
    | Ok m => ret m
    | Fatal why => throw why
    end in
  let* result := newName (Driver.fun_name f +:+ "_" +:+ returnVariable) in
  let variableReplacements := <[returnVariable := result]> variableReplacements in
  append [VariableDeclaration location
            [mkTypedName location result (tn_type returnVar)] None];;
  let* f := driver (Driver.read _fun) in
  let* copy :=
    copyBody (Driver.fun_name f +:+ "_") variableReplacements
      (Driver.fun_bodyLocation f) (Driver.fun_body f) in
  append [copy];;
  assign r (Identifier location result);;
  ret (Identifier location result).

(** [operator()(FunctionalInstruction&)], given the visit of an
    expression.  The source passes the arguments alone to [visitArguments];
    the other parameters take the defaults of its declaration, which is
    not part of the sources at hand: no name hints, no types, and no order
    to move the arguments to the front (the order the source gives only
    for a call it inlines, and that the loop raises by itself). *)
Definition op_FunctionalInstruction_with
    (visit : Driver.Ref Expression → Expression → SE t Expression)
    (r : Driver.Ref Expression) (location : SourceLocation)
    (instruction : Instruction) (arguments : list Expression) : SE t Expression :=
  let* arguments :=
    visitArguments visit (λ a, r (FunctionalInstruction location instruction a))
      arguments [] [] false in
  ret (FunctionalInstruction location instruction arguments).

(** Modelled from the spec: ASTModifier (libjulia/optimiser/ASTWalker.h),
    the base class of the modifier, is not part of the sources at hand.
    Its [visit(Expression&)] dispatches on the variant to the overload of
    [operator()] for it; the overloads for identifiers and literals do
    nothing. *)
Definition ASTModifier_visit_with
    (visit : Driver.Ref Expression → Expression → SE t Expression)
    (r : Driver.Ref Expression) (_e : Expression) : SE t Expression :=
  match _e with
  | FunctionalInstruction location instruction arguments =>
      op_FunctionalInstruction_with visit r location instruction arguments
  | FunctionCall _ _ _ => op_FunctionCall
  | Identifier _ _ | Literal _ _ _ => ret _e
  end.

(** [InlineModifier::visit(Expression&)]. *)
Fixpoint visit (r : Driver.Ref Expression) (_expression : Expression)
    {struct _expression} : SE t Expression :=
  match _expression with
  | FunctionCall location functionName arguments =>
      let* _fun := driver (Driver.function functionName) in
      driver (handleFunction _fun);;
      let* f := driver (Driver.read _fun) in
      let doInline := doInline functionName (Driver.fun_returnVariables f) in
      let argNames :=
        map (λ arg, Driver.fun_name f +:+ "_" +:+ tn_name arg) (Driver.fun_parameters f) in
      let argTypes := map tn_type (Driver.fun_parameters f) in
      let* arguments :=
        visitArguments visit (λ a, r (FunctionCall location functionName a))
          arguments argNames argTypes doInline in
      if negb doInline then ret (FunctionCall location functionName arguments)
      else inlineCall r location _fun arguments
  | _ => ASTModifier_visit_with visit r _expression
  end.

Definition op_FunctionalInstruction := op_FunctionalInstruction_with visit.

(** The loop of [operator()(Block&)], given the visit of a statement.
    [done] holds the statements left of position [i], among them the
    statements inserted so far; [rest] those from [i] on. *)
Definition op_Block_loop
    (visitStatement : Driver.Ref Statement → Statement → SE t Statement)
    (r : Driver.Ref (list Statement))
    : list Statement → list Statement → SE t (list Statement) :=
  fix loop (done rest : list Statement) {struct rest} :=
    match rest with
    | [] => ret done
    | statement :: rest' =>
        let* statement :=
          visitStatement (λ s, r (done ++ s :: rest')) statement in
        let* prefix := gets m_statementsToPrefix in
        if negb (isEmpty prefix) then
          assign r (done ++ prefix ++ statement :: rest');;
          clear;;
          loop (done ++ prefix ++ [statement]) rest'
        else
          loop (done ++ [statement]) rest'
    end.

Definition op_Block_with
    (visitStatement : Driver.Ref Statement → Statement → SE t Statement)
    (r : Driver.Ref (list Statement)) (statements : list Statement)
    : SE t (list Statement) :=
  op_Block_loop visitStatement r [] statements.

(** [operator()(ForLoop&)], given the visit of a statement. *)
Definition op_ForLoop_with
    (visitStatement : Driver.Ref Statement → Statement → SE t Statement)
    (r : Driver.Ref Statement) (l lpre : SourceLocation) (pre : list Statement)
    (condition : Expression) (lpost : SourceLocation) (post : list Statement)
    (lbody : SourceLocation) (body : list Statement) : SE t Statement :=
  let* pre :=
    op_Block_with visitStatement
      (λ b, r (ForLoop l lpre b condition lpost post lbody body)) pre in
  (* Do not visit the condition because we cannot inline there. *)
  let* post :=
    op_Block_with visitStatement
      (λ b, r (ForLoop l lpre pre condition lpost b lbody body)) post in
  let* body :=
    op_Block_with visitStatement
      (λ b, r (ForLoop l lpre pre condition lpost post lbody b)) body in
  ret (ForLoop l lpre pre condition lpost post lbody body).

(** Modelled from the spec: [visit(Statement&)], which the modifier
    takes from ASTModifier, not part of the sources at hand: the dispatch
    on the variant.  Loops and blocks go to the overloads of the modifier;
    an expression statement, an assignment and a declaration have their
    expression visited, and a function definition its body. *)
Fixpoint visitStatement (r : Driver.Ref Statement) (_statement : Statement)
    {struct _statement} : SE t Statement :=
  match _statement with
  | ExpressionStatement l e =>
      let* e := visit (λ x, r (ExpressionStatement l x)) e in
      ret (ExpressionStatement l e)
  | Assignment l names value =>
      let* value := visit (λ x, r (Assignment l names x)) value in
      ret (Assignment l names value)
  | VariableDeclaration l variables (Some value) =>
      let* value := visit (λ x, r (VariableDeclaration l variables (Some x))) value in
      ret (VariableDeclaration l variables (Some value))
  | VariableDeclaration l variables None => ret _statement
  | FunctionDefinition l name parameters returnVariables lbody body =>
      let* body :=
        op_Block_with visitStatement
          (λ b, r (FunctionDefinition l name parameters returnVariables lbody b)) body in
      ret (FunctionDefinition l name parameters returnVariables lbody body)
  | ForLoop l lpre pre condition lpost post lbody body =>
      op_ForLoop_with visitStatement r l lpre pre condition lpost post lbody body
  | Block l statements =>
      let* statements :=
        op_Block_with visitStatement (λ b, r (Block l b)) statements in
      ret (Block l statements)
  end.

Definition op_Block := op_Block_with visitStatement.

Definition op_ForLoop := op_ForLoop_with visitStatement.

End modifier.
End InlineModifier.

(** ** FullInliner *)

Module FullInliner.

(** The loop of the constructor over the statements of the root block,
    from position [i] on. *)
Fixpoint collectFunctions (i : nat) (statements : list Statement)
    (m_functions : gmap string nat) (m_functionsToVisit : list nat)
    : gmap string nat * list nat :=
  match statements with
  | [] => (m_functions, m_functionsToVisit)
  | FunctionDefinition _ name _ _ _ _ :: rest =>
      collectFunctions (S i) rest (<[name := i]> m_functions) (m_functionsToVisit ++ [i])
  | _ :: rest =>
      collectFunctions (S i) rest m_functions m_functionsToVisit
  end.

(** The constructor.  [names] is [NameCollector(m_ast).names()], the
    collector not being part of the sources at hand. *)
Definition new (_ast : list Statement) (names : gset string) : Driver.t :=
  let (m_functions, m_functionsToVisit) := collectFunctions 0 _ast ∅ [] in
  Driver.mk _ast m_functions m_functionsToVisit names [].

(** A modifier is constructed, run on an empty buffer, and dropped. *)
Definition withModifier {A} (m : SE InlineModifier.t A) : SE Driver.t A :=
  λ d, match m (InlineModifier.mk [] d) with
       | Ok (a, im) => Ok (a, InlineModifier.m_driver im)
       | Fatal why => Fatal why
       end.

(** [handleFunction].  The function calls itself through the modifier it
    runs; a call that goes on to process its function has taken the
    function out of [m_functionsToVisit] first, so calls are nested no
    deeper than that set is large, and [nesting] is the depth still
    allowed. *)
Fixpoint handleFunction_nested (nesting : nat) (_fun : nat) : SE Driver.t unit :=
  λ d,
    if negb (bool_decide (_fun ∈ Driver.m_functionsToVisit d)) then Ok (tt, d)
    else
      match nesting with
      | O => Fatal OutOfFuel
      | S nesting' =>
          (modify (Driver.erase _fun);;
           let* f := Driver.read _fun in
           withModifier
             (InlineModifier.op_Block (handleFunction_nested nesting') (Driver.fun_name f)
                (Driver.bodyRef _fun) (Driver.fun_body f));;
           ret tt) d
      end.

Definition handleFunction (_fun : nat) : SE Driver.t unit :=
  λ d, handleFunction_nested (length (Driver.m_functionsToVisit d)) _fun d.

(** The first loop of [run], over the positions of the root block from
    [i] on, [n] of them being left. *)
Fixpoint run_statements (n : nat) (i : nat) : SE Driver.t unit :=
  match n with
  | O => ret tt
  | S n' =>
      let* statement := gets (λ d, Driver.m_ast d !! i) in
      match statement with
      | Some (Block l statements) =>
          withModifier
            (InlineModifier.visitStatement handleFunction ""
               (Driver.statementRef i) (Block l statements));;
          run_statements n' (S i)
      | Some (FunctionDefinition _ _ _ _ _ _) => run_statements n' (S i)
      | Some _ =>
          throw (AssertionFailure
            "Invalid top-level element. Inline requires function hoister and grouper.")
      | None => throw IndexOutOfBounds
      end
  end.

(** The second loop of [run].  Every round takes at least the function
    it handles out of the set, and [rounds] is the number of rounds still
    allowed. *)
Fixpoint run_functions (rounds : nat) : SE Driver.t unit :=
  λ d,
    match Driver.m_functionsToVisit d with
    | [] => Ok (tt, d)
    | begin :: _ =>
        match rounds with
        | O => Fatal OutOfFuel
        | S rounds' => (handleFunction begin;; run_functions rounds') d
        end
    end.

Definition run : SE Driver.t unit :=
  (λ d, run_statements (length (Driver.m_ast d)) 0 d);;
  (λ d, run_functions (length (Driver.m_functionsToVisit d)) d).

End FullInliner.

(** ** Notions the properties are stated with *)

(** A function definition occurs in the statement, at any depth. *)
Fixpoint containsFunctionDefinition (s : Statement) : bool :=
  match s with
  | FunctionDefinition _ _ _ _ _ _ => true
  | ForLoop _ _ pre _ _ post _ body =>
      existsb containsFunctionDefinition pre
      || existsb containsFunctionDefinition post
      || existsb containsFunctionDefinition body
  | Block _ statements => existsb containsFunctionDefinition statements
  | _ => false
  end.

Definition hoistingAssertion : Exception :=
  AssertionFailure "Function hoisting has to be done before function inlining.".


(** The names of the identifier nodes of an expression, left to right. *)
Fixpoint identifiersOf (e : Expression) : list string :=
  match e with
  | FunctionalInstruction _ _ args | FunctionCall _ _ args =>
      concat (map identifiersOf args)
  | Identifier _ n => [n]
  | Literal _ _ _ => []
  end.

(** How a copy of a piece of code holding, or not, a function definition
    comes out. *)
Definition copyOutcome {A} (holdsDefinition : bool) (outcome : Result A) : Prop :=
  match outcome with
  | Ok _ => holdsDefinition = false
  | Fatal why => why = hoistingAssertion ∧ holdsDefinition = true
  end.

(** The outcome of a run of the whole pass: the root block it leaves, or
    the exception that ended it. *)
Definition outcome (result : Result (unit * Driver.t)) : list Statement + Exception :=
  match result with
  | Ok (_, d) => inl (Driver.m_ast d)
  | Fatal why => inr why
  end.

(** The name hints and the types [visit] hands to [visitArguments] for a
    call of [f]. *)
Definition argNames (f : Driver.FunctionDefinition_) : list string :=
  map (λ arg, Driver.fun_name f +:+ "_" +:+ tn_name arg) (Driver.fun_parameters f).

Definition argTypes (f : Driver.FunctionDefinition_) : list string :=
  map tn_type (Driver.fun_parameters f).

(** No argument's own rewrite leaves statements to hoist: the chain of
    the calls of [visitRecursively] that the loop of [visitArguments] makes,
    each returning no statement.  [done] holds the arguments already
    passed and [rest] those still to come, as in the loop. *)
Fixpoint argumentsHoistNothing
    (visit : Driver.Ref Expression → Expression → SE InlineModifier.t Expression)
    (r : Driver.Ref (list Expression)) (done rest : list Expression)
    (im : InlineModifier.t) : Prop :=
  match rest with
  | [] => True
  | arg :: rest' =>
      ∃ arg' im',
        InlineModifier.visitRecursively (visit (λ a, r (done ++ a :: rest')) arg) im
          = Ok ((arg', []), im')
        ∧ argumentsHoistNothing visit r (done ++ [arg']) rest' im'
  end.

(** The expression is an identifier of the given name. *)
Definition identifierNamed (a : Expression) (n : string) : Prop :=
  ∃ l, a = Identifier l n.

(** The map that sends the name of each parameter to the name at the same
    position, a later entry replacing an earlier one for the same
    parameter name. *)
Definition substitution (parameters : list TypedName) (names : list string)
    : gmap string string :=
  foldl (λ m pn, <[pn.1 := pn.2]> m) ∅ (zip (tn_name <$> parameters) names).

(** The statements declare a temporary holding [a] first and a temporary
    holding [c] last, with whatever was hoisted in between: the order of
    the arguments from left to right. *)
Definition hoistedLeftToRight (a c : Expression) (prefix : list Statement) : Prop :=
  ∃ la ta between lc tc,
    prefix = [VariableDeclaration la [ta] (Some a)] ++ between
             ++ [VariableDeclaration lc [tc] (Some c)].

(** No call occurs in the expression, resp. in the statement. *)
Fixpoint callFree (e : Expression) : bool :=
  match e with
  | FunctionalInstruction _ _ args => forallb callFree args
  | FunctionCall _ _ _ => false
  | Identifier _ _ | Literal _ _ _ => true
  end.

Fixpoint callFreeStatement (s : Statement) : bool :=
  match s with
  | ExpressionStatement _ e | Assignment _ _ e => callFree e
  | VariableDeclaration _ _ value => from_option callFree true value
  | FunctionDefinition _ _ _ _ _ body => forallb callFreeStatement body
  | ForLoop _ _ pre c _ post _ body =>
      forallb callFreeStatement pre && callFree c
      && forallb callFreeStatement post && forallb callFreeStatement body
  | Block _ statements => forallb callFreeStatement statements
  end.

(** From [d] to [d'] the functions of [l] have been processed, each once,
    and taken out of the set of the functions to visit, where they were;
    nothing has been put into that set. *)
Definition progress (d d' : Driver.t) : Prop :=
  ∃ l : list nat,
    Driver.handled d' = Driver.handled d ++ l
    ∧ Driver.m_functionsToVisit d' = filter (λ p, p ∉ l) (Driver.m_functionsToVisit d)
    ∧ (∀ p, p ∈ l → p ∈ Driver.m_functionsToVisit d)
    ∧ NoDup l.

(** Storing through the reference changes the tree only. *)
Definition treeRef {A} (r : Driver.Ref A) : Prop :=
  ∀ a d,
    Driver.m_functionsToVisit (r a d) = Driver.m_functionsToVisit d
    ∧ Driver.handled (r a d) = Driver.handled d.

(** Run with at most [n] functions left to visit, the computation does
    not run out of its recursion bound, and if it returns, the driver has
    made progress. *)
Definition advances {S A} (driverOf : S → Driver.t) (n : nat) (m : SE S A) : Prop :=
  ∀ s, length (Driver.m_functionsToVisit (driverOf s)) ≤ n →
       match m s with
       | Ok (_, s') => progress (driverOf s) (driverOf s')
       | Fatal why => why ≠ OutOfFuel
       end.

(** The positions of the function definitions among the statements,
    the first statement being at position [i]. *)
Fixpoint functionPositions (i : nat) (statements : list Statement) : list nat :=
  match statements with
  | [] => []
  | FunctionDefinition _ _ _ _ _ _ :: rest => i :: functionPositions (S i) rest
  | _ :: rest => functionPositions (S i) rest
  end.

(** The two computations do the same when run with at most [n]
    functions left to visit. *)
Definition agree {S A} (driverOf : S → Driver.t) (n : nat) (m1 m2 : SE S A) : Prop :=
  ∀ s, length (Driver.m_functionsToVisit (driverOf s)) ≤ n → m1 s = m2 s.

(** The reference stores its value into the top-level statement at
    position [own], which becomes [C] of the value, whenever that statement
    is [C] of some value. *)
Definition storesAt {A} (own : nat) (C : A → Statement) (r : Driver.Ref A) : Prop :=
  ∀ a d, (∃ a0, Driver.m_ast d !! own = Some (C a0)) →
         r a d = Driver.set_ast (λ ast, <[own := C a]> ast) d.

(** From [d] to [d'] nothing was put into the set of the functions to
    visit, and the top-level statements were left as they were, but for
    those at the positions [own] and for the functions that were to
    visit. *)
Definition framed (own : list nat) (d d' : Driver.t) : Prop :=
  (∀ p, p ∈ Driver.m_functionsToVisit d' → p ∈ Driver.m_functionsToVisit d)
  ∧ ∀ i, i ∉ own → i ∉ Driver.m_functionsToVisit d →
         Driver.m_ast d' !! i = Driver.m_ast d !! i.

(** The statement is a function definition of the given name. *)
Definition definesFunction (name : string) (s : Statement) : Prop :=
  ∃ l ps rs lb b, s = FunctionDefinition l name ps rs lb b.

(** The statement is a function definition. *)
Definition isFunctionDefinition (s : Statement) : bool :=
  match s with FunctionDefinition _ _ _ _ _ _ => true | _ => false end.

(** Position [j] holds the last definition of a function of the given
    name among the statements. *)
Definition lastDefinition (name : string) (statements : list Statement) (j : nat) : Prop :=
  (∃ s, statements !! j = Some s ∧ definesFunction name s)
  ∧ ∀ k s', j < k → statements !! k = Some s' → ¬ definesFunction name s'.

(** The outcome of a computation of the modifier, with the statements
    [saved] put back before those it has left in the buffer. *)
Definition withPrefix {A} (saved : list Statement)
    (outcome : Result (A * InlineModifier.t)) : Result (A * InlineModifier.t) :=
  match outcome with
  | Ok (a, im) =>
      Ok (a, InlineModifier.mk (saved ++ InlineModifier.m_statementsToPrefix im)
               (InlineModifier.m_driver im))
  | Fatal why => Fatal why
  end.

(** The computation does not look at the buffer and only appends to it:
    run on any buffer it does what it does on the empty one, and leaves
    the buffer followed by what it leaves there. *)
Definition appendsOnly {A} (m : SE InlineModifier.t A) : Prop :=
  ∀ saved d,
    m (InlineModifier.mk saved d) = withPrefix saved (m (InlineModifier.mk [] d)).

(** The reference changes nothing of the driver but the tree. *)
Definition writesTree {A} (r : Driver.Ref A) : Prop :=
  ∀ a d, ∃ ast, r a d = Driver.set_ast (λ _, ast) d.

(** The declaration [visitArguments] makes for the argument [a] at
    position [i] when it moves it to the front under the name [v]. *)
Definition argumentDeclaration (types : list string) (i : nat) (a : Expression)
    (v : string) : Statement :=
  VariableDeclaration (locationOf a)
    [mkTypedName (locationOf a) v (default "" (types !! i))] (Some a).

(** The names of the variables the declarations of a statement declare,
    in the order of the text. *)
Fixpoint declaredNames (s : Statement) : list string :=
  match s with
  | VariableDeclaration _ variables _ => map tn_name variables
  | FunctionDefinition _ _ _ _ _ body => concat (map declaredNames body)
  | ForLoop _ _ pre _ _ post _ body =>
      concat (map declaredNames pre) ++ concat (map declaredNames post)
      ++ concat (map declaredNames body)
  | Block _ statements => concat (map declaredNames statements)
  | _ => []
  end.

(** No declaration of the statement declares a name twice. *)
Fixpoint declaresDistinct (s : Statement) : bool :=
  match s with
  | VariableDeclaration _ variables _ => bool_decide (NoDup (map tn_name variables))
  | FunctionDefinition _ _ _ _ _ body => forallb declaresDistinct body
  | ForLoop _ _ pre _ _ post _ body =>
      forallb declaresDistinct pre && forallb declaresDistinct post
      && forallb declaresDistinct body
  | Block _ statements => forallb declaresDistinct statements
  | _ => true
  end.

(** From the used names [used] to [used'] exactly the names [names] have
    been dispensed: they are non-empty, were not in use, differ from each
    other, and are what the set has grown by. *)
Definition dispensed (used : gset string) (names : list string) (used' : gset string)
    : Prop :=
  NoDup names
  ∧ (∀ x, x ∈ names → x ≠ "" ∧ x ∉ used)
  ∧ used' = list_to_set names ∪ used.

(** The two statements are of the same kind and differ at most in the
    expressions they hold and in the statements of their blocks: the
    locations, the assigned and declared names, the name, parameters and
    return variables of a function and the condition of a loop are the
    same. *)
Definition sameHeader (s s' : Statement) : Prop :=
  match s, s' with
  | ExpressionStatement l _, ExpressionStatement l' _ => l = l'
  | Assignment l names _, Assignment l' names' _ => l = l' ∧ names = names'
  | VariableDeclaration l variables value, VariableDeclaration l' variables' value' =>
      l = l' ∧ variables = variables' ∧ (is_Some value ↔ is_Some value')
  | FunctionDefinition l name ps rs lb _, FunctionDefinition l' name' ps' rs' lb' _ =>
      l = l' ∧ name = name' ∧ ps = ps' ∧ rs = rs' ∧ lb = lb'
  | ForLoop l lpre _ c lpost _ lbody _, ForLoop l' lpre' _ c' lpost' _ lbody' _ =>
      l = l' ∧ lpre = lpre' ∧ c = c' ∧ lpost = lpost' ∧ lbody = lbody'
  | Block l _, Block l' _ => l = l'
  | _, _ => False
  end.

(** The pointers of the driver are valid: every entry of the function
    table and every function still to visit points to a top-level function
    definition, the entry of a name to a definition of that name. *)
Definition wellFormed (d : Driver.t) : Prop :=
  (∀ name p, Driver.m_functions d !! name = Some p →
             ∃ s, Driver.m_ast d !! p = Some s ∧ definesFunction name s)
  ∧ (∀ p, p ∈ Driver.m_functionsToVisit d →
          ∃ s, Driver.m_ast d !! p = Some s ∧ isFunctionDefinition s = true).

(** From [d] to [d'] the function table is the same, no used name has
    been given up, nothing has been put into the set of the functions to
    visit, which has not grown, the root block has as many statements,
    each with the header it had, and the functions still to visit are
    exactly as they were. *)
Definition preserved (d d' : Driver.t) : Prop :=
  Driver.m_functions d' = Driver.m_functions d
  ∧ Driver.m_usedNames d ⊆ Driver.m_usedNames d'
  ∧ (∀ p, p ∈ Driver.m_functionsToVisit d' → p ∈ Driver.m_functionsToVisit d)
  ∧ Forall2 sameHeader (Driver.m_ast d) (Driver.m_ast d')
  ∧ length (Driver.m_functionsToVisit d') ≤ length (Driver.m_functionsToVisit d)
  ∧ (∀ p, p ∈ Driver.m_functionsToVisit d' →
          Driver.m_ast d' !! p = Driver.m_ast d !! p).

(** Run in a state of which [J] holds, the computation does not follow an
    invalid pointer, and if it returns, the driver is preserved. *)
Definition preserves {S A} (driverOf : S → Driver.t) (J : Driver.t → Prop)
    (m : SE S A) : Prop :=
  ∀ s, J (driverOf s) →
       match m s with
       | Ok (_, s') => preserved (driverOf s) (driverOf s')
       | Fatal why => why ≠ InvalidPointer
       end.

(** The property of the driver is not lost as long as the driver is
    preserved. *)
Definition stable (J : Driver.t → Prop) : Prop :=
  ∀ d d', J d → preserved d d' → J d'.

(** A top-level statement [run] accepts. *)
Definition validTopLevel (s : Statement) : bool :=
  match s with
  | Block _ _ | FunctionDefinition _ _ _ _ _ _ => true
  | _ => false
  end.

(** The exception is none of the assertions of the modifier but those
    on a top-level statement and on a function definition to copy. *)
Definition knownAssertion (why : Exception) : Prop :=
  ∀ msg, why = AssertionFailure msg →
    msg = "Invalid top-level element. Inline requires function hoister and grouper."
    ∨ msg = "Function hoisting has to be done before function inlining.".

(** The computation fails with exceptions of the given kind only. *)
Definition failsOnlyWith {S A} (allowed : Exception → Prop) (m : SE S A) : Prop :=
  ∀ s why, m s = Fatal why → allowed why.

(** The ways the pass fails. *)
Definition runFailure (why : Exception) : Prop :=
  why = AssertionFailure
          "Invalid top-level element. Inline requires function hoister and grouper."
  ∨ why = hoistingAssertion
  ∨ why = OutOfRange
  ∨ why = BadGet
  ∨ why = IndexOutOfBounds.

(** The names of the functions called in an expression. *)
Fixpoint calledNames (e : Expression) : list string :=
  match e with
  | FunctionCall _ f args => f :: concat (map calledNames args)
  | FunctionalInstruction _ _ args => concat (map calledNames args)
  | Identifier _ _ | Literal _ _ _ => []
  end.

(** A call of [f] met while the function [cur] is processed is one
    [visit] inlines: [f] is not [cur], and the function table leads to a
    definition with exactly one return variable. *)
Definition inlinable (cur : string) (d : Driver.t) (f : string) : Prop :=
  f ≠ cur
  ∧ ∃ p fd, Driver.m_functions d !! f = Some p
            ∧ Driver.deref p d = Some fd
            ∧ length (Driver.fun_returnVariables fd) = 1.

(** What the driver can tell of a call of [fn] with [n] arguments: the
    function table has an entry for the name, and it leads to a definition
    with at least [n] parameters. *)
Definition callable (d : Driver.t) (fn : string) (n : nat) : bool :=
  match Driver.m_functions d !! fn with
  | Some p =>
      match Driver.deref p d with
      | Some f => n <=? length (Driver.fun_parameters f)
      | None => false
      end
  | None => false
  end.

(** Every call of the expression is accepted by [ok], with its name and
    the number of its arguments, and has arguments without calls. *)
Fixpoint flatCalls (ok : string → nat → bool) (e : Expression) : bool :=
  match e with
  | FunctionCall _ fn args => ok fn (length args) && forallb callFree args
  | FunctionalInstruction _ _ args => forallb (flatCalls ok) args
  | Identifier _ _ | Literal _ _ _ => true
  end.

(** The same for the expressions a visit of the statement reaches, which
    are all but the conditions of loops; and no function is defined in the
    statement. *)
Fixpoint flatStatement (ok : string → nat → bool) (s : Statement) : bool :=
  match s with
  | ExpressionStatement _ e | Assignment _ _ e => flatCalls ok e
  | VariableDeclaration _ _ value => from_option (flatCalls ok) true value
  | FunctionDefinition _ _ _ _ _ _ => false
  | ForLoop _ _ pre _ _ post _ body =>
      forallb (flatStatement ok) pre && forallb (flatStatement ok) post
      && forallb (flatStatement ok) body
  | Block _ statements => forallb (flatStatement ok) statements
  end.

(** The same for a top-level statement, a block or a function
    definition. *)
Definition flatTopLevel (ok : string → nat → bool) (s : Statement) : bool :=
  match s with
  | Block _ statements | FunctionDefinition _ _ _ _ _ statements =>
      forallb (flatStatement ok) statements
  | _ => false
  end.

(** No function is defined in the statement. *)
Definition definitionFree (s : Statement) : Prop :=
  containsFunctionDefinition s = false.

(** No function is defined in the body of a top-level function. *)
Definition hoisted (d : Driver.t) : Prop :=
  ∀ p f, Driver.deref p d = Some f →
         existsb containsFunctionDefinition (Driver.fun_body f) = false.

(** What the driver needs to handle the functions still to visit: valid
    pointers, every call [ok] accepts callable, and the bodies of the
    functions to visit flat. *)
Definition ready (ok : string → nat → bool) (d : Driver.t) : Prop :=
  wellFormed d
  ∧ (∀ fn n, ok fn n = true → callable d fn n = true)
  ∧ (∀ p, p ∈ Driver.m_functionsToVisit d →
          ∃ f, Driver.deref p d = Some f
               ∧ forallb (flatStatement ok) (Driver.fun_body f) = true).

(** Run in a state of which [J] holds, with function definitions hoisted
    and none in the buffer, the computation returns a value of which [V]
    holds, and function definitions are still hoisted and none is in the
    buffer. *)
Definition succeeds {A} (J : Driver.t → Prop) (V : A → Prop)
    (m : SE InlineModifier.t A) : Prop :=
  ∀ im,
    J (InlineModifier.m_driver im) → hoisted (InlineModifier.m_driver im) →
    Forall definitionFree (InlineModifier.m_statementsToPrefix im) →
    ∃ a im',
      m im = Ok (a, im') ∧ V a
      ∧ hoisted (InlineModifier.m_driver im')
      ∧ Forall definitionFree (InlineModifier.m_statementsToPrefix im').

(** The names of the functions whose calls a visit of the statement
    reaches: the calls of its expressions, but for the conditions of
    loops. *)
Fixpoint reachedCalls (s : Statement) : list string :=
  match s with
  | ExpressionStatement _ e | Assignment _ _ e => calledNames e
  | VariableDeclaration _ _ value => from_option calledNames [] value
  | FunctionDefinition _ _ _ _ _ body => concat (map reachedCalls body)
  | ForLoop _ _ pre _ _ post _ body =>
      concat (map reachedCalls pre) ++ concat (map reachedCalls post)
      ++ concat (map reachedCalls body)
  | Block _ statements => concat (map reachedCalls statements)
  end.

(** A call of [fn], once inlined, copies a body in which a function is
    defined: the function table leads to a definition with exactly one
    return variable, the body of which holds a function definition. *)
Definition copiesDefinition (d : Driver.t) (fn : string) : Prop :=
  ∃ p f, Driver.m_functions d !! fn = Some p
         ∧ Driver.deref p d = Some f
         ∧ length (Driver.fun_returnVariables f) = 1
         ∧ existsb containsFunctionDefinition (Driver.fun_body f) = true.

(** The name [m_currentFunction] of the modifier that [run] or
    [handleFunction] makes for a top-level statement: the name of the
    function, and the empty name for a block. *)
Definition currentFunction (s : Statement) : string :=
  match s with
  | FunctionDefinition _ name _ _ _ _ => name
  | _ => ""
  end.

(** A top-level statement with flat calls and no function defined in it,
    or a function in whose body nothing is called. *)
Definition flatOrCallFree (ok : string → nat → bool) (s : Statement) : bool :=
  flatTopLevel ok s || (isFunctionDefinition s && callFreeStatement s).

(** What the driver needs for that: valid pointers, every call [ok]
    accepts callable, and the body of every function to visit flat or
    without calls. *)
Definition prepared (ok : string → nat → bool) (d : Driver.t) : Prop :=
  wellFormed d
  ∧ (∀ fn n, ok fn n = true → callable d fn n = true)
  ∧ (∀ p, p ∈ Driver.m_functionsToVisit d →
          ∃ f, Driver.deref p d = Some f
               ∧ (forallb (flatStatement ok) (Driver.fun_body f)
                  || forallb callFreeStatement (Driver.fun_body f)) = true).

(** None of the calls named is a call of a function [bad] says, but for
    calls of the current function. *)
Definition spares (bad : string → Prop) (cur : string) (names : list string) : Prop :=
  ∀ fn, fn ∈ names → bad fn → fn = cur.

(** The body of the function at [q] reaches a call of another function,
    one that [bad] says. *)
Definition offender (bad : string → Prop) (d : Driver.t) (q : nat) : Prop :=
  ∃ f fn, Driver.deref q d = Some f
          ∧ fn ∈ concat (map reachedCalls (Driver.fun_body f))
          ∧ bad fn ∧ fn ≠ Driver.fun_name f.

(** Run in a state of which [J] and [T] hold, the computation is aborted
    by the assertion of the copier, or returns a value of which [V] holds
    and leaves a state of which [T] holds. *)
Definition assertsOr {A} (J T : Driver.t → Prop) (V : A → Prop)
    (m : SE InlineModifier.t A) : Prop :=
  ∀ im,
    J (InlineModifier.m_driver im) → T (InlineModifier.m_driver im) →
    m im = Fatal hoistingAssertion
    ∨ ∃ a im', m im = Ok (a, im') ∧ V a ∧ T (InlineModifier.m_driver im').

(** The top-level statement at position [own] is not a function still
    to visit, and has the header of [s0]. *)
Definition holdsAt (own : nat) (s0 : Statement) (d : Driver.t) : Prop :=
  (own ∉ Driver.m_functionsToVisit d)
  ∧ ∃ s, Driver.m_ast d !! own = Some s ∧ sameHeader s0 s.

(** What the loop of [visitArguments] does with one argument: the
    driver as the visit of the argument finds it, the argument and the
    statements the visit leaves, and the driver as the visit leaves it. *)
Record ArgumentStep := mkStep {
  before : Driver.t;
  visited : Expression;
  hoistedBy : list Statement;
  after : Driver.t
}.

(** The visit of the argument has hoisted statements. *)
Definition hoists (step : ArgumentStep) : bool :=
  negb (InlineModifier.isEmpty (hoistedBy step)).

(** The arguments from position [i] on are to move to the front: the
    loop was entered with that order, or an argument before has hoisted
    statements. *)
Definition movedAt (moveToFront : bool) (steps : list ArgumentStep) (i : nat) : bool :=
  moveToFront || existsb hoists (take i steps).

(** The name the dispenser gives for the argument at position [i], asked
    when the visit of the argument has returned. *)
Definition temporary (hints : list string) (i : nat) (step : ArgumentStep) : string :=
  (NameDispenser.newName (default "" (hints !! i))
     (Driver.m_usedNames (after step))).1.

(** The argument as the loop leaves it, the statements the loop gathers
    for it, and the driver as the loop leaves it when it goes on to the
    next argument, [argRef] being the reference to the argument. *)
Definition argumentAfter (hints : list string) (moved : bool) (i : nat)
    (step : ArgumentStep) : Expression :=
  if hoists step then visited step
  else if moved then Identifier (locationOf (visited step)) (temporary hints i step)
  else visited step.

Definition hoistedFor (hints types : list string) (moved : bool) (i : nat)
    (step : ArgumentStep) : list Statement :=
  if hoists step then hoistedBy step
  else if moved then [argumentDeclaration types i (visited step) (temporary hints i step)]
  else [].

Definition driverAfter (argRef : Driver.Ref Expression) (hints : list string)
    (moved : bool) (i : nat) (step : ArgumentStep) : Driver.t :=
  if hoists step then after step
  else if moved then
    argRef (Identifier (locationOf (visited step)) (temporary hints i step))
      (Driver.set_usedNames
         (NameDispenser.newName (default "" (hints !! i))
            (Driver.m_usedNames (after step))).2
         (after step))
  else after step.

(** The driver as step [i] finds it: as the step before has left it, and
    as the loop was entered for the first. *)
Fixpoint entered (d : Driver.t) (left : list Driver.t) (i : nat) : Driver.t :=
  match i, left with
  | S j, d' :: rest => entered d' rest j
  | _, _ => d
  end.

(** ** Sample programs *)

Module Sample.

Definition at0 : SourceLocation := mkLoc 0 0.
Definition typed (n : string) : TypedName := mkTypedName at0 n "".
Definition num (v : string) : Expression := Literal at0 v "".
Definition var (n : string) : Expression := Identifier at0 n.
Definition call (f : string) (args : list Expression) : Expression :=
  FunctionCall at0 f args.
Definition add (a b : Expression) : Expression :=
  FunctionalInstruction at0 1%N [a; b].
Definition set (n : string) (e : Expression) : Statement :=
  Assignment at0 [(at0, n)] e.
Definition declare (n : string) (e : Expression) : Statement :=
  VariableDeclaration at0 [typed n] (Some e).
Definition function (n : string) (ps rs : list string) (body : list Statement)
    : Statement :=
  FunctionDefinition at0 n (map typed ps) (map typed rs) at0 body.

(** function f(x) -> y { y := x }
    function h(x) -> y { y := x }
    { let r := f(add(h(1), 2)) } *)
Definition nestedArgument : list Statement :=
  [ function "f" ["x"] ["y"] [set "y" (var "x")];
    function "h" ["x"] ["y"] [set "y" (var "x")];
    Block at0 [declare "r" (call "f" [add (call "h" [num "1"]) (num "2")])] ].

Definition nestedArgument_names : gset string :=
  list_to_set ["f"; "h"; "x"; "y"; "r"].

(** The reference to the arguments of the call of f. *)
Definition nestedArgument_reference : Driver.Ref (list Expression) :=
  λ args, Driver.statementRef 2 (Block at0 [declare "r" (call "f" args)]).

(** function f(a, b, c) -> x, z { x := a z := c }
    function g(p) -> q { q := p }
    { f(10, g(2), 30) } *)
Definition threeArguments : list Statement :=
  [ function "f" ["a"; "b"; "c"] ["x"; "z"]
      [set "x" (var "a"); set "z" (var "c")];
    function "g" ["p"] ["q"] [set "q" (var "p")];
    Block at0 [ExpressionStatement at0
                 (call "f" [num "10"; call "g" [num "2"]; num "30"])] ].

Definition threeArguments_names : gset string :=
  list_to_set ["f"; "g"; "a"; "b"; "c"; "x"; "z"; "p"; "q"].

(** The arguments of the call of f, and the reference to them. *)
Definition threeArguments_arguments : list Expression :=
  [num "10"; call "g" [num "2"]; num "30"].

Definition threeArguments_reference : Driver.Ref (list Expression) :=
  λ args, Driver.statementRef 2 (Block at0 [ExpressionStatement at0 (call "f" args)]).

(** The same with a single return variable: the outer call is inlined.
    function f(a, b, c) -> x { x := a }
    function g(p) -> q { q := p }
    { let r := f(10, g(2), 30) } *)
Definition threeArgumentsInlined : list Statement :=
  [ function "f" ["a"; "b"; "c"] ["x"] [set "x" (var "a")];
    function "g" ["p"] ["q"] [set "q" (var "p")];
    Block at0 [declare "r" (call "f" [num "10"; call "g" [num "2"]; num "30"])] ].

Definition threeArgumentsInlined_names : gset string :=
  list_to_set ["f"; "g"; "a"; "b"; "c"; "x"; "p"; "q"; "r"].

(** function id(x) -> y { y := x }
    { let r := id(5) } *)
Definition identity : list Statement :=
  [ function "id" ["x"] ["y"] [set "y" (var "x")];
    Block at0 [declare "r" (call "id" [num "5"])] ].

Definition identity_names : gset string := list_to_set ["id"; "x"; "y"; "r"].

(** The reference to the initializer of the declaration of r. *)
Definition identity_initializer : Driver.Ref Expression :=
  λ e, Driver.statementRef 1 (Block at0 [declare "r" e]).

(** function twoRet(x) -> a, b { a := x b := x }
    { let r := twoRet(1) } *)
Definition twoReturns : list Statement :=
  [ function "twoRet" ["x"] ["a"; "b"] [set "a" (var "x"); set "b" (var "x")];
    Block at0 [declare "r" (call "twoRet" [num "1"])] ].

Definition twoReturns_names : gset string :=
  list_to_set ["twoRet"; "x"; "a"; "b"; "r"].

Definition twoReturns_initializer : Driver.Ref Expression :=
  λ e, Driver.statementRef 1 (Block at0 [declare "r" e]).

(** function id(x) -> y { y := x }
    { for { } id(5) { } { let t := 7 } } *)
Definition loopWithCall : Statement :=
  ForLoop at0 at0 [] (call "id" [num "5"]) at0 [] at0 [declare "t" (num "7")].

Definition loopCondition : list Statement :=
  [ function "id" ["x"] ["y"] [set "y" (var "x")];
    Block at0 [loopWithCall] ].

Definition loopCondition_names : gset string := list_to_set ["id"; "x"; "y"; "t"].

Definition loopCondition_reference : Driver.Ref Statement :=
  λ s, Driver.statementRef 1 (Block at0 [s]).

(** function g(x) -> a, b { a := x  b := x }
    function f(x) -> y { y := x }
    { let r := add(g(f(1)), 1) } *)
Definition twoCallees : list Statement :=
  [ function "g" ["x"] ["a"; "b"] [set "a" (var "x"); set "b" (var "x")];
    function "f" ["x"] ["y"] [set "y" (var "x")];
    Block at0 [declare "r" (add (call "g" [call "f" [num "1"]]) (num "1"))] ].

Definition twoCallees_names : gset string :=
  list_to_set ["g"; "f"; "x"; "a"; "b"; "y"; "r"].

(** function f(x) -> y { y := x }
    function g(x) -> y { function k() { } y := x }
    { let a := f(1) }
    { let b := g(2) } *)
Definition nestedDefinition : list Statement :=
  [ function "f" ["x"] ["y"] [set "y" (var "x")];
    function "g" ["x"] ["y"] [function "k" [] [] []; set "y" (var "x")];
    Block at0 [declare "a" (call "f" [num "1"])];
    Block at0 [declare "b" (call "g" [num "2"])] ].

Definition nestedDefinition_names : gset string :=
  list_to_set ["f"; "g"; "k"; "x"; "y"; "a"; "b"].

(** The first block with the call of f inlined:
    { let f_x := 1  let f_y  { f_y := f_x }  let a := f_y } *)
Definition nestedDefinition_inlined : Statement :=
  Block at0
    [ declare "f_x" (num "1");
      VariableDeclaration at0 [typed "f_y"] None;
      Block at0 [set "f_y" (var "f_x")];
      declare "a" (var "f_y") ].

End Sample.

(** ** Properties of the name dispenser *)

Import NameDispenser.

Section NameDispenser_facts.

Implicit Types (used : gset string) (pfx name : string) (k : N).

Lemma string_app_nil_inv (s t : string) : s +:+ t = "" → s = "" ∧ t = "".
Proof. destruct s; simpl; [tauto | discriminate]. Qed.

Lemma string_app_inj_l (s t1 t2 : string) : s +:+ t1 = s +:+ t2 → t1 = t2.
Proof. induction s as [|c s IH]; simpl; [done | intros [= H]; auto]. Qed.

Lemma candidate_nonempty pfx k : candidate pfx k ≠ "".
Proof.
  unfold candidate. intros H.
  apply string_app_nil_inv in H as [_ H]. discriminate H.
Qed.

Lemma candidate_inj pfx : Inj (=) (=) (candidate pfx).
Proof.
  intros k1 k2 H. unfold candidate in H.
  apply string_app_inj_l in H. simpl in H. injection H as H.
  by apply (inj pretty).
Qed.

Lemma taken_candidate used pfx k :
  taken used (candidate pfx k) = bool_decide (candidate pfx k ∈ used).
Proof.
  unfold taken. rewrite bool_decide_eq_false_2; [done|].
  apply candidate_nonempty.
Qed.

Lemma taken_false used name : taken used name = false ↔ name ≠ "" ∧ name ∉ used.
Proof.
  unfold taken. rewrite orb_false_iff, !bool_decide_eq_false. tauto.
Qed.

(** When the loop gives up, every candidate it tried is a used name. *)
Lemma newName_loop_None rounds used pfx k name :
  newName_loop rounds used pfx k name = None →
  ∀ j, (j < rounds)%nat → candidate pfx (k + 1 + N.of_nat j) ∈ used.
Proof.
  revert k name. induction rounds as [|r IH]; intros k name H j Hj; [lia|].
  simpl in H. destruct (taken used name); [|done].
  destruct j as [|j].
  - destruct r; simpl in H.
    + rewrite taken_candidate in H. case_bool_decide; [|done].
      by rewrite N.add_0_r.
    + rewrite taken_candidate in H. case_bool_decide; [|done].
      by rewrite N.add_0_r.
  - specialize (IH _ _ H j ltac:(lia)).
    by replace (k + 1 + N.of_nat (S j))%N with (k + 1 + 1 + N.of_nat j)%N by lia.
Qed.

(** The bound [newName] passes to the loop is never reached. *)
Lemma newName_loop_total used pfx :
  is_Some (newName_loop (S (size used)) used pfx 0 pfx).
Proof.
  destruct (newName_loop _ _ _ _ _) as [name|] eqn:H; [by eexists|].
  exfalso.
  pose proof (newName_loop_None _ _ _ _ _ H) as Hall.
  set (n := S (size used)) in *.
  set (cs := (λ j : nat, candidate pfx (0 + 1 + N.of_nat j)) <$> seq 0 n).
  assert (NoDup cs) as Hnd.
  { apply NoDup_fmap_2; [|apply NoDup_seq].
    intros i j Hij. apply candidate_inj in Hij. lia. }
  assert (cs ⊆ elements used) as Hsub.
  { intros c Hc. apply list_elem_of_fmap in Hc as (j & -> & Hj).
    apply elem_of_seq in Hj. apply elem_of_elements, Hall. lia. }
  pose proof (submseteq_length _ _ (NoDup_submseteq _ _ Hnd Hsub)) as Hlen.
  unfold cs in Hlen. rewrite length_fmap, length_seq in Hlen.
  fold (size used) in Hlen. unfold n in Hlen.
  change (length (elements used)) with (size used) in Hlen. lia.
Qed.

(** What the loop returns: the entry name if it is free, otherwise the
    first free candidate after the entry counter. *)
Lemma newName_loop_Some rounds used pfx k name r :
  newName_loop rounds used pfx k name = Some r →
  (taken used name = false ∧ r = name) ∨
  (taken used name = true ∧
   ∃ j : N, (k < j)%N ∧ r = candidate pfx j ∧ (r ∉ used) ∧
     (∀ i : N, (k < i < j)%N → candidate pfx i ∈ used)).
Proof.
  revert k name. induction rounds as [|n IH]; intros k name H; simpl in H.
  - destruct (taken used name) eqn:Ht; [done|]. left. by injection H as <-.
  - destruct (taken used name) eqn:Ht; [|left; by injection H as <-].
    right. split; [done|].
    apply IH in H as [[Hf ->]|[Ht' (j & Hj & -> & Hfree & Hmin)]].
    + exists (k + 1)%N. rewrite taken_candidate, bool_decide_eq_false in Hf.
      repeat split; [lia|done|]. intros i Hi. lia.
    + exists j. repeat split; [lia|done|].
      intros i Hi. destruct (decide (i = k + 1)%N) as [->|Hne].
      * rewrite taken_candidate in Ht'. by apply bool_decide_eq_true in Ht'.
      * apply Hmin. lia.
Qed.


Lemma newName_name_loop used pfx :
  newName_loop (S (size used)) used pfx 0 pfx = Some (newName_name used pfx).
Proof.
  unfold newName_name. by destruct (newName_loop_total used pfx) as [r ->].
Qed.

Lemma newName_name_fresh used pfx :
  newName_name used pfx ≠ "" ∧ newName_name used pfx ∉ used.
Proof.
  pose proof (newName_name_loop used pfx) as H.
  apply newName_loop_Some in H as [[Hf Heq]|[_ (j & _ & Heq & Hfree & _)]].
  - rewrite Heq. by apply taken_false.
  - split; [rewrite Heq; apply candidate_nonempty | done].
Qed.

Lemma newName_fresh pfx used name used' :
  newName pfx used = (name, used') →
  name ≠ "" ∧ (name ∉ used) ∧ used' = {[name]} ∪ used.
Proof.
  unfold newName. intros [= <- <-].
  destruct (newName_name_fresh used pfx). done.
Qed.

(** C4.  [newName] leaves its loop within the bound it is run with.  If the
    prefix is non-empty and unused it is returned as it is; otherwise the
    result is the prefix followed by "_" and the decimal digits of the
    smallest N >= 1 for which that name is unused.  The result is never
    empty, is not in the used-name set of the call, and is in the set after
    the call, which otherwise is the set of the call; so a later call
    returns a name different from it and from every name of the first
    set. *)
Theorem NameDispenser_newName_spec (pfx : string) (used : gset string) :
  let name := (newName pfx used).1 in
  let used' := (newName pfx used).2 in
  newName_loop (S (size used)) used pfx 0 pfx = Some name
  ∧ (pfx ≠ "" ∧ pfx ∉ used → name = pfx)
  ∧ (¬ (pfx ≠ "" ∧ pfx ∉ used) →
       ∃ n : N, (1 ≤ n)%N ∧ name = pfx +:+ "_" +:+ to_string n
         ∧ (∀ i : N, (1 ≤ i < n)%N → pfx +:+ "_" +:+ to_string i ∈ used))
  ∧ name ≠ ""
  ∧ (name ∉ used)
  ∧ used' = {[name]} ∪ used
  ∧ (∀ pfx2 : string,
       let name2 := (newName pfx2 used').1 in
       name2 ≠ name ∧ ∀ seed : string, seed ∈ used → name2 ≠ seed).
Proof.
  simpl. pose proof (newName_name_loop used pfx) as Hloop.
  pose proof (newName_name_fresh used pfx) as [Hne Hfresh].
  split; [done|]. split; [|split; [|split; [done|split; [done|split; [done|]]]]].
  - intros Hfree. apply taken_false in Hfree.
    apply newName_loop_Some in Hloop as [[_ Heq]|[Ht _]]; [done|congruence].
  - intros Hnot.
    apply newName_loop_Some in Hloop as [[Hf _]|[_ (j & Hj & Heq & _ & Hmin)]].
    + by apply taken_false in Hf.
    + exists j. split; [lia|]. split; [done|].
      intros i Hi. apply Hmin. lia.
  - intros pfx2.
    pose proof (newName_name_fresh ({[newName_name used pfx]} ∪ used) pfx2) as [_ H2].
    split.
    + intros Heq. apply H2. rewrite Heq. set_solver.
    + intros seed Hseed Heq. apply H2. rewrite Heq. set_solver.
Qed.

End NameDispenser_facts.

(** ** State passing *)

Lemma bind_Ok {S A B} (m : SE S A) (k : A → SE S B) s b s' :
  bind m k s = Ok (b, s') ↔ ∃ a s1, m s = Ok (a, s1) ∧ k a s1 = Ok (b, s').
Proof.
  unfold bind. split.
  - destruct (m s) as [[a s1]|why]; [eauto | done].
  - by intros (a & s1 & -> & ?).
Qed.

Lemma bind_Fatal {S A B} (m : SE S A) (k : A → SE S B) s why :
  bind m k s = Fatal why ↔
  m s = Fatal why ∨ ∃ a s1, m s = Ok (a, s1) ∧ k a s1 = Fatal why.
Proof.
  unfold bind. split.
  - destruct (m s) as [[a s1]|w]; [eauto | intros [= ->]; by left].
  - by intros [-> | (a & s1 & -> & ?)].
Qed.

Lemma bind_step {S A B} (m : SE S A) (k : A → SE S B) s a s1 :
  m s = Ok (a, s1) → bind m k s = k a s1.
Proof. unfold bind. by intros ->. Qed.

Lemma bind_abort {S A B} (m : SE S A) (k : A → SE S B) s why :
  m s = Fatal why → bind m k s = Fatal why.
Proof. unfold bind. by intros ->. Qed.

(** ** The body copier *)

Lemma registerVariables_Ok pfx variables c :
  ∃ c', BodyCopier.registerVariables pfx variables c = Ok (tt, c').
Proof.
  revert c. induction variables as [|v vs IH]; intros c; simpl; [by eexists|].
  unfold bind at 1. cbn. apply IH.
Qed.

Lemma op_VariableDeclaration_Ok pfx l variables value c :
  ∃ s c', BodyCopier.op_VariableDeclaration pfx l variables value c = Ok (s, c').
Proof.
  unfold BodyCopier.op_VariableDeclaration.
  destruct (registerVariables_Ok pfx variables c) as [c' H].
  rewrite (bind_step _ _ _ _ _ H). by do 2 eexists.
Qed.

(** An induction principle for statements that reaches the statements of
    the blocks nested in them. *)
Lemma Statement_nested_ind (P : Statement → Prop) :
  (∀ l e, P (ExpressionStatement l e)) →
  (∀ l names v, P (Assignment l names v)) →
  (∀ l vars v, P (VariableDeclaration l vars v)) →
  (∀ l n ps rs lb body, Forall P body → P (FunctionDefinition l n ps rs lb body)) →
  (∀ l lpre pre c lpost post lbody body,
     Forall P pre → Forall P post → Forall P body →
     P (ForLoop l lpre pre c lpost post lbody body)) →
  (∀ l ss, Forall P ss → P (Block l ss)) →
  ∀ s, P s.
Proof.
  intros HE HA HV HF HL HB.
  fix IH 1. intros [l e|l names v|l vars v|l n ps rs lb body
    |l lpre pre c lpost post lbody body|l ss].
  - apply HE.
  - apply HA.
  - apply HV.
  - apply HF. induction body; constructor; [apply IH | assumption].
  - apply HL.
    + induction pre; constructor; [apply IH | assumption].
    + induction post; constructor; [apply IH | assumption].
    + induction body; constructor; [apply IH | assumption].
  - apply HB. induction ss; constructor; [apply IH | assumption].
Qed.

Lemma Expression_nested_ind (P : Expression → Prop) :
  (∀ l i args, Forall P args → P (FunctionalInstruction l i args)) →
  (∀ l f args, Forall P args → P (FunctionCall l f args)) →
  (∀ l n, P (Identifier l n)) →
  (∀ l v ty, P (Literal l v ty)) →
  ∀ e, P e.
Proof.
  intros HI HC HId HL.
  fix IH 1. intros [l i args|l f args|l n|l v ty].
  - apply HI. induction args; constructor; [apply IH | assumption].
  - apply HC. induction args; constructor; [apply IH | assumption].
  - apply HId.
  - apply HL.
Qed.

Lemma translateVector_outcome pfx ss :
  Forall (λ s, ∀ c, copyOutcome (containsFunctionDefinition s)
                      (BodyCopier.translateStatement pfx s c)) ss →
  ∀ c, copyOutcome (existsb containsFunctionDefinition ss)
         (BodyCopier.translateVector (BodyCopier.translateStatement pfx) ss c).
Proof.
  induction 1 as [|s ss Hs _ IH]; intros c; simpl; [done|].
  unfold bind at 1. specialize (Hs c).
  destruct (BodyCopier.translateStatement pfx s c) as [[s' c1]|why]; simpl in *.
  - rewrite Hs. simpl. unfold bind at 1. specialize (IH c1).
    destruct (BodyCopier.translateVector _ ss c1) as [[ss' c2]|why]; simpl in *; done.
  - destruct Hs as [-> ->]. done.
Qed.

Lemma translateStatement_outcome pfx s :
  ∀ c, copyOutcome (containsFunctionDefinition s)
         (BodyCopier.translateStatement pfx s c).
Proof.
  induction s as [l e|l names v|l vars v|l n ps rs lb body IH
    |l lpre pre cnd lpost post lbody body IHpre IHpost IHbody|l ss IH]
    using Statement_nested_ind; intros c; simpl; try done.
  - destruct (op_VariableDeclaration_Ok pfx l vars v c) as (s & c' & ->). done.
  - pose proof (translateVector_outcome pfx pre IHpre c) as Hpre.
    unfold bind at 1.
    destruct (BodyCopier.translateVector _ pre c) as [[pre' c1]|why];
      simpl in *; [rewrite Hpre; simpl|destruct Hpre as [-> ->]; done].
    pose proof (translateVector_outcome pfx post IHpost c1) as Hpost.
    unfold bind at 1. simpl. unfold bind at 1.
    destruct (BodyCopier.translateVector _ post c1) as [[post' c2]|why];
      simpl in *; [rewrite Hpost; simpl|destruct Hpost as [-> ->]; done].
    pose proof (translateVector_outcome pfx body IHbody c2) as Hbody.
    unfold bind at 1.
    destruct (BodyCopier.translateVector _ body c2) as [[body' c3]|why];
      simpl in *; done.
  - pose proof (translateVector_outcome pfx ss IH c) as Hss.
    unfold bind at 1.
    destruct (BodyCopier.translateVector _ ss c) as [[ss' c1]|why];
      simpl in *; done.
Qed.

Lemma copyBody_outcome pfx repl l body im :
  copyOutcome (existsb containsFunctionDefinition body)
    (InlineModifier.copyBody pfx repl l body im).
Proof.
  unfold InlineModifier.copyBody, InlineModifier.driver, BodyCopier.op_Block.
  pose proof (translateStatement_outcome pfx (Block l body)
                (BodyCopier.mk repl (Driver.m_usedNames (InlineModifier.m_driver im)))) as H.
  destruct (BodyCopier.translateStatement _ _ _) as [[s c]|why]; simpl in *; done.
Qed.

Lemma identifiersOf_translateExpression repl e :
  identifiersOf (BodyCopier.translateExpression repl e)
  = map (BodyCopier.translateIdentifier repl) (identifiersOf e).
Proof.
  induction e as [l i args IH|l f args IH|l n|l v ty] using Expression_nested_ind;
    simpl; try done.
  - induction IH as [|a args Ha _ IHargs]; simpl; [done|].
    by rewrite Ha, IHargs, map_app.
  - induction IH as [|a args Ha _ IHargs]; simpl; [done|].
    by rewrite Ha, IHargs, map_app.
Qed.

(** What the loop over the declared variables leaves in the map and in
    the set of used names. *)
Lemma registerVariables_spec pfx variables c c' :
  BodyCopier.registerVariables pfx variables c = Ok (tt, c') →
  BodyCopier.m_nameDispenser c ⊆ BodyCopier.m_nameDispenser c'
  ∧ (∀ v, v ∈ variables →
       ∃ fresh, BodyCopier.m_variableReplacements c' !! tn_name v = Some fresh
         ∧ (fresh ∉ BodyCopier.m_nameDispenser c)
         ∧ fresh ∈ BodyCopier.m_nameDispenser c')
  ∧ (∀ x, x ∉ map tn_name variables →
       BodyCopier.m_variableReplacements c' !! x
       = BodyCopier.m_variableReplacements c !! x).
Proof.
  revert c. induction variables as [|v vs IH]; intros c H; simpl in H.
  - injection H as <-. split; [done|]. split; [|done].
    intros v Hv. by apply elem_of_nil in Hv.
  - unfold bind at 1 in H. cbn in H.
    set (fresh := newName_name (BodyCopier.m_nameDispenser c) (pfx +:+ tn_name v)) in *.
    destruct (newName_name_fresh (BodyCopier.m_nameDispenser c) (pfx +:+ tn_name v))
      as [_ Hfresh]. fold fresh in Hfresh.
    apply IH in H as (Hsub & Hvars & Hother). simpl in *.
    split; [set_solver|]. split.
    + intros w Hw. apply elem_of_cons in Hw as [->|Hw].
      * destruct (decide (tn_name v ∈ map tn_name vs)) as [Hin|Hnotin].
        -- apply list_elem_of_fmap in Hin as (w & Hname & Hw).
           destruct (Hvars w Hw) as (fr & Hlook & Hnew & Hused).
           exists fr. rewrite Hname. split; [done|]. split; [set_solver|done].
        -- exists fresh. rewrite (Hother _ Hnotin), lookup_insert_eq.
           split; [done|]. split; [done|]. set_solver.
      * destruct (Hvars w Hw) as (fr & Hlook & Hnew & Hused).
        exists fr. split; [done|]. split; [set_solver|done].
    + intros x Hx. rewrite not_elem_of_cons in Hx. destruct Hx as [Hne Hx].
      rewrite (Hother _ Hx). by rewrite lookup_insert_ne.
Qed.

(** C10.  The copier, on a declaration, first runs the loop that gives
    every declared variable a newly dispensed name and enters it into the
    replacement map, and only then copies the declaration, under the map
    so extended.  Every declared variable is then mapped to a name that
    was not in use before the statement was copied, the declared names and
    the initializer are translated with that map, and so every identifier
    of the initializer that bears the name of a variable of the statement
    becomes the fresh name of that variable. *)
Theorem BodyCopier_VariableDeclaration_renames_initializer
    (pfx : string) (l : SourceLocation) (variables : list TypedName)
    (value : option Expression) (c : BodyCopier.t) :
  ∃ c' : BodyCopier.t,
    let repl' := BodyCopier.m_variableReplacements c' in
    BodyCopier.registerVariables pfx variables c = Ok (tt, c')
    ∧ BodyCopier.op_VariableDeclaration pfx l variables value c
      = Ok (VariableDeclaration l
              (map (BodyCopier.translateTypedName repl') variables)
              (option_map (BodyCopier.translateExpression repl') value), c')
    ∧ BodyCopier.translateStatement pfx (VariableDeclaration l variables value) c
      = BodyCopier.op_VariableDeclaration pfx l variables value c
    ∧ (∀ v : TypedName, v ∈ variables →
         ∃ fresh : string,
           repl' !! tn_name v = Some fresh
           ∧ (fresh ∉ BodyCopier.m_nameDispenser c)
           ∧ fresh ∈ BodyCopier.m_nameDispenser c'
           ∧ BodyCopier.translateIdentifier repl' (tn_name v) = fresh
           ∧ ∀ li, BodyCopier.translateExpression repl' (Identifier li (tn_name v))
                   = Identifier li fresh)
    ∧ (∀ init : Expression,
         identifiersOf (BodyCopier.translateExpression repl' init)
         = map (BodyCopier.translateIdentifier repl') (identifiersOf init)).
Proof.
  destruct (registerVariables_Ok pfx variables c) as [c' Hreg].
  exists c'. simpl. split; [done|]. split; [|split; [done|split]].
  - unfold BodyCopier.op_VariableDeclaration.
    by rewrite (bind_step _ _ _ _ _ Hreg).
  - intros v Hv. apply registerVariables_spec in Hreg as (_ & Hvars & _).
    destruct (Hvars v Hv) as (fresh & Hlook & Hnew & Hused).
    exists fresh. unfold BodyCopier.translateIdentifier. simpl.
    unfold BodyCopier.translateIdentifier. by rewrite Hlook.
  - intros init. apply identifiersOf_translateExpression.
Qed.

(** ** The modifier: expressions *)

Section modifier_facts.
Variable h : nat → SE Driver.t unit.
Variable cur : string.

Local Abbreviation visit := (InlineModifier.visit h cur).
Local Abbreviation visitArguments := (InlineModifier.visitArguments (InlineModifier.visit h cur)).
Local Abbreviation visitArguments_loop :=
  (InlineModifier.visitArguments_loop (InlineModifier.visit h cur)).
Local Abbreviation IM := InlineModifier.mk.
Local Abbreviation buffer := InlineModifier.m_statementsToPrefix.
Local Abbreviation driverOf := InlineModifier.m_driver.

Arguments NameDispenser.newName_name : simpl never.

Lemma newName_Ok pfx im :
  InlineModifier.newName pfx im =
  let name := newName_name (Driver.m_usedNames (driverOf im)) pfx in
  Ok (name, IM (buffer im)
              (Driver.set_usedNames ({[name]} ∪ Driver.m_usedNames (driverOf im))
                 (driverOf im))).
Proof. reflexivity. Qed.

Lemma append_Ok statements im :
  InlineModifier.append statements im = Ok (tt, IM (buffer im ++ statements) (driverOf im)).
Proof. reflexivity. Qed.

Lemma assign_Ok {A} (r : Driver.Ref A) a im :
  InlineModifier.assign r a im = Ok (tt, IM (buffer im) (r a (driverOf im))).
Proof. reflexivity. Qed.

Lemma clear_Ok im : InlineModifier.clear im = Ok (tt, IM [] (driverOf im)).
Proof. reflexivity. Qed.

Lemma driver_read_Ok p im f im' :
  InlineModifier.driver (Driver.read p) im = Ok (f, im') ↔
  Driver.deref p (driverOf im) = Some f ∧ im' = im.
Proof.
  unfold InlineModifier.driver, Driver.read. destruct im as [b d]; simpl.
  destruct (Driver.deref p d); split; intros H; try done.
  - by injection H as -> <-.
  - by destruct H as [[= ->] ->].
  - by destruct H.
Qed.

Lemma driver_function_Ok name im p im' :
  InlineModifier.driver (Driver.function name) im = Ok (p, im') ↔
  Driver.m_functions (driverOf im) !! name = Some p ∧ im' = im.
Proof.
  unfold InlineModifier.driver, Driver.function. destruct im as [b d]; simpl.
  destruct (Driver.m_functions d !! name); split; intros H; try done.
  - by injection H as -> <-.
  - by destruct H as [[= ->] ->].
  - by destruct H.
Qed.

Lemma driver_Ok {A} (m : SE Driver.t A) im a im' :
  InlineModifier.driver m im = Ok (a, im') ↔
  ∃ d', m (driverOf im) = Ok (a, d') ∧ im' = IM (buffer im) d'.
Proof.
  unfold InlineModifier.driver. destruct (m (driverOf im)) as [[a0 d0]|why]; split; intros H; try done.
  - injection H as -> <-. eauto.
  - by destruct H as (d' & [= -> ->] & ->).
  - by destruct H as (? & ? & ?).
Qed.

Lemma copyBody_Ok pfx repl l statements im s im' :
  InlineModifier.copyBody pfx repl l statements im = Ok (s, im') ↔
  ∃ c', BodyCopier.op_Block pfx l statements
          (BodyCopier.mk repl (Driver.m_usedNames (driverOf im))) = Ok (s, c')
      ∧ im' = IM (buffer im)
                 (Driver.set_usedNames (BodyCopier.m_nameDispenser c') (driverOf im)).
Proof.
  unfold InlineModifier.copyBody, InlineModifier.driver.
  destruct (BodyCopier.op_Block _ _ _ _) as [[s0 c0]|why]; split; intros H; try done.
  - injection H as -> <-. eauto.
  - by destruct H as (c' & [= -> ->] & ->).
  - by destruct H as (? & ? & ?).
Qed.

Lemma deref_set_usedNames p used d :
  Driver.deref p (Driver.set_usedNames used d) = Driver.deref p d.
Proof. reflexivity. Qed.

Lemma inlineCall_Ok r l p args im e' im' :
  InlineModifier.inlineCall r l p args im = Ok (e', im') ↔
  ∃ f rv repl copy c',
    Driver.deref p (driverOf im) = Some f ∧
    Driver.fun_returnVariables f !! 0 = Some rv ∧
    InlineModifier.bindParameters (Driver.fun_parameters f) args 0 ∅ = Ok repl ∧
    let d := driverOf im in
    let result := newName_name (Driver.m_usedNames d) (Driver.fun_name f +:+ "_" +:+ tn_name rv) in
    BodyCopier.op_Block (Driver.fun_name f +:+ "_") (Driver.fun_bodyLocation f) (Driver.fun_body f)
      (BodyCopier.mk (<[tn_name rv := result]> repl) ({[result]} ∪ Driver.m_usedNames d)) = Ok (copy, c') ∧
    e' = Identifier l result ∧
    im' = IM (buffer im ++ [VariableDeclaration l [mkTypedName l result (tn_type rv)] None; copy])
             (r (Identifier l result) (Driver.set_usedNames (BodyCopier.m_nameDispenser c') d)).
Proof.
  unfold InlineModifier.inlineCall. split.
  - intros H.
    apply bind_Ok in H as (f & im1 & H1 & H).
    apply driver_read_Ok in H1 as [Hf ->].
    apply bind_Ok in H as (rv & im2 & H2 & H).
    destruct (Driver.fun_returnVariables f !! 0) as [rv0|] eqn:Hrv; [|done].
    injection H2 as <- <-.
    apply bind_Ok in H as (repl & im3 & H3 & H).
    destruct (InlineModifier.bindParameters _ _ _ _) as [repl0|] eqn:Hrepl; [|done].
    injection H3 as <- <-.
    apply bind_Ok in H as (result & im4 & H4 & H).
    rewrite newName_Ok in H4. cbn zeta in H4. injection H4 as <- <-.
    apply bind_Ok in H as ([] & im5 & H5 & H).
    rewrite append_Ok in H5. injection H5 as <-.
    apply bind_Ok in H as (f' & im6 & H6 & H).
    apply driver_read_Ok in H6 as [Hf' ->]. simpl in Hf'.
    rewrite deref_set_usedNames, Hf in Hf'. injection Hf' as <-.
    apply bind_Ok in H as (copy & im7 & H7 & H).
    apply copyBody_Ok in H7 as (c' & Hcopy & ->).
    apply bind_Ok in H as ([] & im8 & H8 & H).
    rewrite append_Ok in H8. injection H8 as <-.
    apply bind_Ok in H as ([] & im9 & H9 & H).
    rewrite assign_Ok in H9. injection H9 as <-.
    injection H as <- <-.
    exists f, rv0, repl0, copy, c'. simpl in *.
    rewrite <- app_assoc. done.
  - intros (f & rv & repl & copy & c' & Hf & Hrv & Hrepl & Hcopy & -> & ->).
    rewrite (bind_step _ _ _ f im) by (by apply driver_read_Ok).
    rewrite Hrv. unfold bind at 1, ret at 1.
    rewrite Hrepl. unfold bind at 1, ret at 1.
    rewrite (bind_step _ _ _ _ _ (newName_Ok _ _)).
    rewrite (bind_step _ _ _ _ _ (append_Ok _ _)).
    erewrite (bind_step _ _ _ f); [|by apply driver_read_Ok].
    erewrite (bind_step (InlineModifier.copyBody _ _ _ _)); [|apply copyBody_Ok; simpl; eauto].
    rewrite (bind_step _ _ _ _ _ (append_Ok _ _)).
    rewrite (bind_step _ _ _ _ _ (assign_Ok _ _ _)).
    unfold ret. simpl. by rewrite <- app_assoc.
Qed.
Lemma isEmpty_true {A} (l : list A) : InlineModifier.isEmpty l = true ↔ l = [].
Proof. by destruct l. Qed.

Lemma visitRecursively_Ok (v : SE InlineModifier.t Expression) im e pfx im' :
  InlineModifier.visitRecursively v im = Ok ((e, pfx), im') ↔
  ∃ d', v (IM [] (driverOf im)) = Ok (e, IM pfx d') ∧ im' = IM (buffer im) d'.
Proof.
  unfold InlineModifier.visitRecursively. split.
  - destruct (v _) as [[e0 [pfx0 d0]]|why]; [|done].
    simpl. intros [= -> -> <-]. eauto.
  - intros (d' & -> & ->). done.
Qed.

Lemma visitArguments_loop_nil r hints types done m prefix :
  visitArguments_loop r hints types done [] m prefix = ret (done, prefix).
Proof. reflexivity. Qed.

Lemma visitArguments_loop_cons r hints types done arg rest m prefix :
  visitArguments_loop r hints types done (arg :: rest) m prefix =
  let i := length done in
  let argRef : Driver.Ref Expression := λ a, r (done ++ a :: rest) in
  let* (arg, internalPrefix) :=
    InlineModifier.visitRecursively (visit argRef arg) in
  if negb (InlineModifier.isEmpty internalPrefix) then
    visitArguments_loop r hints types (done ++ [arg]) rest true (internalPrefix ++ prefix)
  else if m then
    let location := locationOf arg in
    let* var := InlineModifier.newName (default "" (hints !! i)) in
    let declaration :=
      VariableDeclaration location
        [mkTypedName location var (default "" (types !! i))] (Some arg) in
    InlineModifier.assign argRef (Identifier location var);;
    visitArguments_loop r hints types (done ++ [Identifier location var]) rest m
      (declaration :: prefix)
  else
    visitArguments_loop r hints types (done ++ [arg]) rest m prefix.
Proof. reflexivity. Qed.

Lemma visit_FunctionCall r location functionName arguments :
  visit r (FunctionCall location functionName arguments) =
  let* _fun := InlineModifier.driver (Driver.function functionName) in
  InlineModifier.driver (h _fun);;
  let* f := InlineModifier.driver (Driver.read _fun) in
  let doInline :=
    InlineModifier.doInline cur functionName (Driver.fun_returnVariables f) in
  let argNames :=
    map (λ arg, Driver.fun_name f +:+ "_" +:+ tn_name arg) (Driver.fun_parameters f) in
  let argTypes := map tn_type (Driver.fun_parameters f) in
  let* arguments :=
    visitArguments (λ a, r (FunctionCall location functionName a))
      arguments argNames argTypes doInline in
  if negb doInline then ret (FunctionCall location functionName arguments)
  else InlineModifier.inlineCall r location _fun arguments.
Proof. reflexivity. Qed.

Lemma visit_FunctionalInstruction r location instruction arguments :
  visit r (FunctionalInstruction location instruction arguments) =
  let* arguments :=
    visitArguments (λ a, r (FunctionalInstruction location instruction a))
      arguments [] [] false in
  ret (FunctionalInstruction location instruction arguments).
Proof. reflexivity. Qed.

(** The statements the loop has gathered are never dropped. *)
Lemma visitArguments_loop_grows r hints types rest :
  ∀ done m prefix im args' prefix' im',
    visitArguments_loop r hints types done rest m prefix im
      = Ok ((args', prefix'), im') →
    length prefix ≤ length prefix'.
Proof.
  induction rest as [|arg rest IH]; intros done m prefix im args' prefix' im' H.
  - rewrite visitArguments_loop_nil in H. by injection H as _ <- _.
  - rewrite visitArguments_loop_cons in H. cbn zeta in H.
    apply bind_Ok in H as ([arg1 ip] & im1 & _ & H).
    destruct (InlineModifier.isEmpty ip) eqn:Hip; simpl in H.
    + destruct m.
      * apply bind_Ok in H as (var & im2 & _ & H).
        apply bind_Ok in H as ([] & im3 & _ & H).
        apply IH in H. simpl in H. lia.
      * by apply IH in H.
    + apply IH in H. rewrite length_app in H. lia.
Qed.

(** When the loop, entered without the order to move the arguments to the
    front, ends with as many statements as it was entered with, no
    argument was touched, provided that holds of the visit of each
    argument. *)
Lemma visitArguments_loop_quiet r hints types rest :
  Forall (λ e, ∀ r d e' d', visit r e (IM [] d) = Ok (e', IM [] d') → e' = e) rest →
  ∀ done prefix im args' prefix' im',
    visitArguments_loop r hints types done rest false prefix im
      = Ok ((args', prefix'), im') →
    length prefix' ≤ length prefix →
    args' = done ++ rest ∧ prefix' = prefix.
Proof.
  induction 1 as [|arg rest Harg _ IH]; intros done prefix im args' prefix' im' H Hlen.
  - rewrite visitArguments_loop_nil in H. injection H as <- <- _.
    by rewrite app_nil_r.
  - rewrite visitArguments_loop_cons in H. cbn zeta in H.
    apply bind_Ok in H as ([arg1 ip] & im1 & Hrec & H).
    destruct (InlineModifier.isEmpty ip) eqn:Hip; simpl in H.
    + apply isEmpty_true in Hip as ->.
      apply visitRecursively_Ok in Hrec as (d' & Hv & ->).
      apply Harg in Hv as ->.
      apply IH in H as [-> ->]; [|done]. by rewrite <- app_assoc.
    + apply visitArguments_loop_grows in H. rewrite length_app in H.
      destruct ip; [done|]. simpl in H. lia.
Qed.

End modifier_facts.

(** ** The modifier: calls *)

Section call_facts.
Variable h : nat → SE Driver.t unit.
Variable cur : string.
Local Abbreviation visit := (InlineModifier.visit h cur).
Local Abbreviation visitArguments := (InlineModifier.visitArguments (InlineModifier.visit h cur)).
Local Abbreviation visitArguments_loop :=
  (InlineModifier.visitArguments_loop (InlineModifier.visit h cur)).
Local Abbreviation IM := InlineModifier.mk.
Local Abbreviation buffer := InlineModifier.m_statementsToPrefix.
Local Abbreviation driverOf := InlineModifier.m_driver.

Lemma visitArguments_Ok r args hints types m im args' im' :
  visitArguments r args hints types m im = Ok (args', im') ↔
  ∃ prefix im1,
    visitArguments_loop r hints types [] args m [] im = Ok ((args', prefix), im1)
    ∧ im' = IM (buffer im1 ++ prefix) (driverOf im1).
Proof.
  unfold InlineModifier.visitArguments. split.
  - intros H. apply bind_Ok in H as ([args1 prefix] & im1 & Hloop & H).
    apply bind_Ok in H as ([] & im2 & Happ & H).
    rewrite append_Ok in Happ. injection Happ as <-. injection H as <- <-. eauto.
  - intros (prefix & im1 & Hloop & ->).
    rewrite (bind_step _ _ _ _ _ Hloop).
    by rewrite (bind_step _ _ _ _ _ (append_Ok _ _)).
Qed.

Lemma visit_FunctionCall_Ok r l fn args im e' im' :
  visit r (FunctionCall l fn args) im = Ok (e', im') ↔
  ∃ p d1 f args' im2,
    Driver.m_functions (driverOf im) !! fn = Some p
    ∧ h p (driverOf im) = Ok (tt, d1)
    ∧ Driver.deref p d1 = Some f
    ∧ visitArguments (λ a, r (FunctionCall l fn a)) args (argNames f) (argTypes f)
        (InlineModifier.doInline cur fn (Driver.fun_returnVariables f))
        (IM (buffer im) d1) = Ok (args', im2)
    ∧ if InlineModifier.doInline cur fn (Driver.fun_returnVariables f)
      then InlineModifier.inlineCall r l p args' im2 = Ok (e', im')
      else e' = FunctionCall l fn args' ∧ im' = im2.
Proof.
  rewrite visit_FunctionCall. cbn zeta. split.
  - intros H.
    apply bind_Ok in H as (p & im1 & Hp & H).
    apply driver_function_Ok in Hp as [Hp ->].
    apply bind_Ok in H as ([] & im2 & Hh & H).
    apply driver_Ok in Hh as (d1 & Hh & ->).
    apply bind_Ok in H as (f & im3 & Hf & H).
    apply driver_read_Ok in Hf as [Hf ->]. simpl in Hf.
    apply bind_Ok in H as (args' & im4 & Hargs & H).
    exists p, d1, f, args', im4. repeat split; try done.
    destruct (InlineModifier.doInline _ _ _); simpl in H; [done|].
    by injection H as <- <-.
  - intros (p & d1 & f & args' & im2 & Hp & Hh & Hf & Hargs & H).
    erewrite bind_step; [|by apply driver_function_Ok].
    erewrite bind_step; [|apply driver_Ok; eauto].
    erewrite bind_step; [|by apply driver_read_Ok].
    fold (argNames f) (argTypes f).
    rewrite (bind_step _ _ _ _ _ Hargs).
    destruct (InlineModifier.doInline _ _ _); simpl; [done|].
    by destruct H as [-> ->].
Qed.

Lemma doInline_true functionName returnVariables :
  InlineModifier.doInline cur functionName returnVariables = true ↔
  functionName ≠ cur ∧ length returnVariables = 1.
Proof.
  unfold InlineModifier.doInline.
  destruct (Nat.eqb_spec (length returnVariables) 1) as [Hl|Hl]; simpl.
  - rewrite negb_true_iff. destruct (String.eqb_spec functionName cur); split; try done.
    + by intros [].
  - split; [done|]. by intros [].
Qed.

(** A visit that leaves no statement in an empty buffer has not touched
    the expression. *)
Lemma visit_quiet e :
  ∀ r d e' d', visit r e (IM [] d) = Ok (e', IM [] d') → e' = e.
Proof.
  induction e as [l i args IH|l f args IH|l n|l v ty] using Expression_nested_ind;
    intros r d e' d' H.
  - rewrite visit_FunctionalInstruction in H.
    apply bind_Ok in H as (args' & im1 & Hargs & H). injection H as <- ->.
    apply visitArguments_Ok in Hargs as (prefix & im2 & Hloop & [= Hb _]).
    symmetry in Hb. apply app_eq_nil in Hb as [_ ->].
    apply (visitArguments_loop_quiet h cur) in Hloop as [-> _]; done.
  - apply visit_FunctionCall_Ok in H as (p & d1 & fd & args' & im2 & _ & _ & _ & Hargs & H).
    apply visitArguments_Ok in Hargs as (prefix & im1 & Hloop & ->).
    destruct (InlineModifier.doInline _ _ _).
    + apply inlineCall_Ok in H as (? & ? & ? & ? & ? & _ & _ & _ & _ & _ & [= Hb _]).
      symmetry in Hb. apply app_eq_nil in Hb as [_ Hb]. done.
    + destruct H as [-> [= Hb _]].
      symmetry in Hb. apply app_eq_nil in Hb as [_ ->].
      apply (visitArguments_loop_quiet h cur) in Hloop as [-> _]; done.
  - by injection H as <- _.
  - by injection H as <- _.
Qed.
End call_facts.

Section not_inlined_facts.
Variable h : nat → SE Driver.t unit.
Variable cur : string.
Local Abbreviation visit := (InlineModifier.visit h cur).
Local Abbreviation visitArguments := (InlineModifier.visitArguments (InlineModifier.visit h cur)).
Local Abbreviation visitArguments_loop :=
  (InlineModifier.visitArguments_loop (InlineModifier.visit h cur)).
Local Abbreviation IM := InlineModifier.mk.
Local Abbreviation buffer := InlineModifier.m_statementsToPrefix.
Local Abbreviation driverOf := InlineModifier.m_driver.

Lemma visitArguments_loop_hoistNothing r hints types rest :
  ∀ done prefix im,
    argumentsHoistNothing visit r done rest im →
    ∃ im', visitArguments_loop r hints types done rest false prefix im
             = Ok ((done ++ rest, prefix), im')
           ∧ buffer im' = buffer im.
Proof.
  induction rest as [|arg rest IH]; intros done prefix im Hq.
  - rewrite visitArguments_loop_nil, app_nil_r. by eexists.
  - destruct Hq as (arg' & im1 & Hrec & Hq).
    rewrite visitArguments_loop_cons. cbn zeta.
    rewrite (bind_step _ _ _ _ _ Hrec). simpl.
    apply visitRecursively_Ok in Hrec as (d' & Hv & ->).
    apply (visit_quiet h cur) in Hv as ->.
    destruct (IH _ prefix _ Hq) as (im' & -> & Hb).
    exists im'. by rewrite <- app_assoc.
Qed.

Lemma visitArguments_hoistNothing r args hints types im :
  argumentsHoistNothing visit r [] args im →
  ∃ im', visitArguments r args hints types false im = Ok (args, im')
         ∧ buffer im' = buffer im.
Proof.
  intros Hq.
  destruct (visitArguments_loop_hoistNothing r hints types args [] [] im Hq)
    as (im1 & Hloop & Hb).
  eexists. split.
  - apply (visitArguments_Ok h cur). eauto.
  - simpl. by rewrite app_nil_r.
Qed.

(** C1.  When [visit] comes to a call and returns, the callee having been
    looked up by the name in the call and handled first, the call is
    inlined exactly when that name differs from the name of the current
    function and the callee has exactly one return variable: then, and
    only then, the call has become an identifier.  A call of the current
    function itself, or of a function with no or with two or more return
    variables, is not inlined and is still a call of the same function. *)
Theorem visit_call_inlined_iff r l fn args im e' im' :
  (∀ returnVariables,
     InlineModifier.doInline cur fn returnVariables = true
     ↔ fn ≠ cur ∧ length returnVariables = 1)
  ∧ (visit r (FunctionCall l fn args) im = Ok (e', im') →
     ∃ p d1 f,
       Driver.m_functions (driverOf im) !! fn = Some p
       ∧ h p (driverOf im) = Ok (tt, d1)
       ∧ Driver.deref p d1 = Some f
       ∧ let inlined := InlineModifier.doInline cur fn (Driver.fun_returnVariables f) in
         (isIdentifier e' = true ↔ inlined = true)
         ∧ (isFunctionCall e' = true ↔ inlined = false)
         ∧ (fn = cur ∨ length (Driver.fun_returnVariables f) = 0
            ∨ 2 ≤ length (Driver.fun_returnVariables f) →
            inlined = false ∧ ∃ args', e' = FunctionCall l fn args')).
Proof.
  split; [intros; apply doInline_true|].
  intros H.
  apply (visit_FunctionCall_Ok h cur) in H as (p & d1 & f & args' & im2 & Hp & Hh & Hf & Hargs & H).
  exists p, d1, f. split; [done|]. split; [done|]. split; [done|].
  pose proof (doInline_true cur fn (Driver.fun_returnVariables f)) as Hiff.
  cbn zeta.
  destruct (InlineModifier.doInline cur fn _) eqn:Hd.
  - apply (inlineCall_Ok) in H as (? & ? & ? & ? & ? & _ & _ & _ & _ & -> & _).
    simpl. split; [done|]. split; [done|].
    intros Hor. destruct (proj1 Hiff eq_refl) as [Hne Hlen]. exfalso.
    destruct Hor as [?|[?|?]]; [done|lia|lia].
  - destruct H as [-> ->]. simpl. split; [done|]. split; [done|].
    intros _. split; [done|]. by eexists.
Qed.

(** C8.  A call that is not to be inlined is still a call of the same
    function when [visit] returns, never an identifier; and if in addition
    no argument's own rewrite leaves statements to hoist, the call is
    returned with its arguments as they were and the buffer of statements
    to prefix is as it was.  The same holds of [visitArguments] on its own,
    entered without the order to move the arguments to the front: it
    returns the arguments as they were and adds no statement. *)
Theorem visit_call_not_inlined r l fn args im :
  (∀ e' im' p d1 f,
     visit r (FunctionCall l fn args) im = Ok (e', im') →
     Driver.m_functions (driverOf im) !! fn = Some p →
     h p (driverOf im) = Ok (tt, d1) →
     Driver.deref p d1 = Some f →
     InlineModifier.doInline cur fn (Driver.fun_returnVariables f) = false →
     (∃ args', e' = FunctionCall l fn args')
     ∧ isIdentifier e' = false
     ∧ (argumentsHoistNothing visit (λ a, r (FunctionCall l fn a)) [] args
          (IM (buffer im) d1) →
        e' = FunctionCall l fn args ∧ buffer im' = buffer im))
  ∧ (∀ (ra : Driver.Ref (list Expression)) hints types,
       argumentsHoistNothing visit ra [] args im →
       ∃ im', visitArguments ra args hints types false im = Ok (args, im')
              ∧ buffer im' = buffer im).
Proof.
  split; [|intros; by apply visitArguments_hoistNothing].
  intros e' im' p d1 f H Hp Hh Hf Hd.
  apply (visit_FunctionCall_Ok h cur) in H
    as (p' & d1' & f' & args' & im2 & Hp' & Hh' & Hf' & Hargs & H).
  rewrite Hp in Hp'. injection Hp' as <-.
  rewrite Hh in Hh'. injection Hh' as <-.
  rewrite Hf in Hf'. injection Hf' as <-.
  rewrite Hd in H, Hargs. destruct H as [-> ->].
  split; [by eexists|]. split; [done|].
  intros Hq.
  destruct (visitArguments_hoistNothing _ _ (argNames f) (argTypes f) _ Hq) as (im2' & Heq & Hb).
  rewrite Heq in Hargs. injection Hargs as <- <-. done.
Qed.
End not_inlined_facts.

Section inlined_facts.
Variable h : nat → SE Driver.t unit.
Variable cur : string.
Local Abbreviation visit := (InlineModifier.visit h cur).
Local Abbreviation visitArguments := (InlineModifier.visitArguments (InlineModifier.visit h cur)).
Local Abbreviation visitArguments_loop :=
  (InlineModifier.visitArguments_loop (InlineModifier.visit h cur)).
Local Abbreviation IM := InlineModifier.mk.
Local Abbreviation buffer := InlineModifier.m_statementsToPrefix.
Local Abbreviation driverOf := InlineModifier.m_driver.

Lemma bindParameters_Ok parameters arguments :
  ∀ i m m',
    InlineModifier.bindParameters parameters arguments i m = Ok m' →
    ∃ names,
      Forall2 identifierNamed arguments names
      ∧ m' = foldl (λ m pn, <[pn.1 := pn.2]> m) m
               (zip (tn_name <$> drop i parameters) names).
Proof.
  induction arguments as [|a rest IH]; intros i m m' H; simpl in H.
  - injection H as <-. exists []. split; [constructor|].
    by rewrite zip_with_nil_r.
  - destruct a as [| |la n|]; try done.
    destruct (parameters !! i) as [p|] eqn:Hp; [|done].
    apply IH in H as (names & Hnames & ->).
    exists (n :: names). split; [constructor; [by eexists|done]|].
    rewrite (drop_S _ _ _ Hp). done.
Qed.

Lemma foldl_insert_notin (kvs : list (string * string)) (m : gmap string string) k :
  k ∉ kvs.*1 → foldl (λ m pn, <[pn.1 := pn.2]> m) m kvs !! k = m !! k.
Proof.
  revert m. induction kvs as [|[k0 v0] kvs IH]; intros m Hk; simpl; [done|].
  simpl in Hk. apply not_elem_of_cons in Hk as [Hne Hk].
  rewrite IH by done. by rewrite lookup_insert_ne.
Qed.

Lemma foldl_insert_lookup (kvs : list (string * string)) (m : gmap string string) j k v :
  NoDup kvs.*1 → kvs !! j = Some (k, v) →
  foldl (λ m pn, <[pn.1 := pn.2]> m) m kvs !! k = Some v.
Proof.
  revert m j. induction kvs as [|[k0 v0] kvs IH]; intros m j Hnd Hj; [done|].
  simpl in Hnd. apply NoDup_cons in Hnd as [Hnotin Hnd].
  destruct j as [|j]; simpl in *.
  - injection Hj as -> ->. rewrite foldl_insert_notin by done.
    apply lookup_insert_eq.
  - by apply (IH _ j).
Qed.

Lemma fst_zip_sublist {A B} (l : list A) (k : list B) : (zip l k).*1 `sublist_of` l.
Proof.
  revert k. induction l as [|x l IH]; intros [|y k]; simpl.
  - constructor.
  - constructor.
  - apply sublist_nil_l.
  - by apply sublist_skip.
Qed.

Lemma substitution_lookup parameters names j p n :
  NoDup (tn_name <$> parameters) →
  parameters !! j = Some p → names !! j = Some n →
  substitution parameters names !! tn_name p = Some n.
Proof.
  intros Hnd Hp Hn. unfold substitution.
  apply (foldl_insert_lookup _ _ j).
  - eapply sublist_NoDup; [apply Hnd|]. apply fst_zip_sublist.
  - apply lookup_zip_with_Some. exists (tn_name p), n.
    split; [done|]. split; [|done]. by rewrite list_lookup_fmap, Hp.
Qed.

(** C2.  When a call is visited and is to be inlined, the arguments are
    rewritten first, with the order to move them to the front.  Then, for
    the callee as it is at that point and its return variable, the
    arguments are identifiers, and with the result name newly dispensed for
    the name of the callee, "_" and the name of the return variable, and
    the map that sends every parameter to the name of its argument and the
    return variable to the result name, the buffer of statements to prefix
    receives, after what the arguments left there, a declaration without
    value of the result name with the type of the return variable, and then
    the copy that the body copier makes of the body of the callee under
    that map with the name of the callee and "_" as prefix.  The call
    itself is replaced by an identifier of the result name, in what [visit]
    returns and through the reference. *)
Theorem visit_call_inlines r l fn args im e' im' p d1 f :
  visit r (FunctionCall l fn args) im = Ok (e', im') →
  Driver.m_functions (driverOf im) !! fn = Some p →
  h p (driverOf im) = Ok (tt, d1) →
  Driver.deref p d1 = Some f →
  InlineModifier.doInline cur fn (Driver.fun_returnVariables f) = true →
  ∃ args' im2 callee rv names copy c',
    visitArguments (λ a, r (FunctionCall l fn a)) args (argNames f) (argTypes f)
      true (IM (buffer im) d1) = Ok (args', im2)
    ∧ Driver.deref p (driverOf im2) = Some callee
    ∧ Driver.fun_returnVariables callee !! 0 = Some rv
    ∧ Forall2 identifierNamed args' names
    ∧ let used := Driver.m_usedNames (driverOf im2) in
      let result :=
        (NameDispenser.newName
           (Driver.fun_name callee +:+ "_" +:+ tn_name rv) used).1 in
      let variableReplacements :=
        <[tn_name rv := result]> (substitution (Driver.fun_parameters callee) names) in
      (result ∉ used)
      ∧ variableReplacements !! tn_name rv = Some result
      ∧ (NoDup (tn_name <$> Driver.fun_parameters callee) →
         ∀ j q n, Driver.fun_parameters callee !! j = Some q →
                  names !! j = Some n → tn_name q ≠ tn_name rv →
                  variableReplacements !! tn_name q = Some n)
      ∧ BodyCopier.op_Block (Driver.fun_name callee +:+ "_")
          (Driver.fun_bodyLocation callee) (Driver.fun_body callee)
          (BodyCopier.mk variableReplacements ({[result]} ∪ used)) = Ok (copy, c')
      ∧ e' = Identifier l result
      ∧ buffer im' =
          buffer im2 ++
          [VariableDeclaration l [mkTypedName l result (tn_type rv)] None; copy]
      ∧ driverOf im' =
          r (Identifier l result)
            (Driver.set_usedNames (BodyCopier.m_nameDispenser c') (driverOf im2)).
Proof.
  intros H Hp Hh Hf Hd.
  apply (visit_FunctionCall_Ok h cur) in H
    as (p' & d1' & f' & args' & im2 & Hp' & Hh' & Hf' & Hargs & H).
  rewrite Hp in Hp'. injection Hp' as <-.
  rewrite Hh in Hh'. injection Hh' as <-.
  rewrite Hf in Hf'. injection Hf' as <-.
  rewrite Hd in H, Hargs.
  apply inlineCall_Ok in H
    as (callee & rv & repl & copy & c' & Hc & Hrv & Hrepl & Hcopy & -> & ->).
  apply bindParameters_Ok in Hrepl as (names & Hnames & ->).
  rewrite drop_0 in Hcopy. fold (substitution (Driver.fun_parameters callee) names) in Hcopy.
  exists args', im2, callee, rv, names, copy, c'.
  split; [done|]. split; [done|]. split; [done|]. split; [done|].
  cbn zeta. simpl.
  split; [apply newName_name_fresh|].
  split; [apply lookup_insert_eq|].
  split; [|done].
  intros Hnd j q n Hq Hn Hne. rewrite lookup_insert_ne by done.
  by apply (substitution_lookup _ _ j).
Qed.
End inlined_facts.

(** The call id(5) of the one-return function id, visited at the top
    level, has become an identifier. *)
Lemma visit_call_inlined_iff_witness :
  ∃ e' im',
    InlineModifier.visit FullInliner.handleFunction "" Sample.identity_initializer
      (Sample.call "id" [Sample.num "5"])
      (InlineModifier.mk [] (FullInliner.new Sample.identity Sample.identity_names))
    = Ok (e', im')
    ∧ isIdentifier e' = true.
Proof.
  eexists _, _. split; [vm_compute; reflexivity|].
  edestruct (visit_call_inlined_iff FullInliner.handleFunction ""
               Sample.identity_initializer Sample.at0 "id" [Sample.num "5"]
               (InlineModifier.mk [] (FullInliner.new Sample.identity Sample.identity_names)))
    as (Hiff & Hvisit).
  edestruct Hvisit as (p & d1 & f & Hp & Hh & Hf & Hid & _);
    [vm_compute; reflexivity|].
  vm_compute in Hp. injection Hp as <-.
  vm_compute in Hh. injection Hh as <-.
  vm_compute in Hf. injection Hf as <-.
  apply Hid, Hiff. split; [discriminate|reflexivity].
Defined.

(** The same call is replaced by an identifier of the result name. *)
Lemma visit_call_inlines_witness :
  ∃ e' im',
    InlineModifier.visit FullInliner.handleFunction "" Sample.identity_initializer
      (Sample.call "id" [Sample.num "5"])
      (InlineModifier.mk [] (FullInliner.new Sample.identity Sample.identity_names))
    = Ok (e', im')
    ∧ ∃ result, e' = Identifier Sample.at0 result.
Proof.
  eexists _, _. split; [vm_compute; reflexivity|].
  edestruct (visit_call_inlines FullInliner.handleFunction "" Sample.identity_initializer
               Sample.at0 "id" [Sample.num "5"]
               (InlineModifier.mk [] (FullInliner.new Sample.identity Sample.identity_names)))
    as (args' & im2 & callee & rv & names & copy & c' & _ & _ & _ & _ & _ & _ & _ & _ & He & _);
    [vm_compute; reflexivity ..|].
  eexists. exact He.
Defined.

(** The call twoRet(1) of a function with two return variables is left
    as it is, and nothing is hoisted. *)
Lemma visit_call_not_inlined_witness :
  ∃ e' im',
    InlineModifier.visit FullInliner.handleFunction "" Sample.twoReturns_initializer
      (Sample.call "twoRet" [Sample.num "1"])
      (InlineModifier.mk [] (FullInliner.new Sample.twoReturns Sample.twoReturns_names))
    = Ok (e', im')
    ∧ e' = Sample.call "twoRet" [Sample.num "1"]
    ∧ InlineModifier.m_statementsToPrefix im' = [].
Proof.
  eexists _, _. split; [vm_compute; reflexivity|].
  edestruct (visit_call_not_inlined FullInliner.handleFunction ""
               Sample.twoReturns_initializer Sample.at0 "twoRet" [Sample.num "1"]
               (InlineModifier.mk [] (FullInliner.new Sample.twoReturns Sample.twoReturns_names)))
    as [Hcall _].
  edestruct Hcall as (_ & _ & Hquiet); [vm_compute; reflexivity ..|].
  apply Hquiet. simpl. eexists _, _. split; [vm_compute; reflexivity|exact I].
Defined.


(** C9.  The pass on
      function f(x) -> y { y := x }  function h(x) -> y { y := x }
      { let r := f(add(h(1), 2)) }
    The call of f is to be inlined, so its arguments are visited with the
    order to move them to the front.  The rewrite of the argument
    add(h(1), 2) hoists statements, so the argument is left as it is after
    that rewrite, the instruction add(h_y, _1), and is not an identifier
    when [visitArguments] returns; taking it for an identifier then aborts
    the pass. *)
Theorem visitArguments_leaves_instruction_argument :
  (∃ im',
     InlineModifier.visitArguments (InlineModifier.visit FullInliner.handleFunction "")
       Sample.nestedArgument_reference
       [Sample.add (Sample.call "h" [Sample.num "1"]) (Sample.num "2")]
       ["f_x"] [""] true
       (InlineModifier.mk []
          (FullInliner.new Sample.nestedArgument Sample.nestedArgument_names))
     = Ok ([Sample.add (Sample.var "h_y") (Sample.var "_1")], im'))
  ∧ isIdentifier (Sample.add (Sample.var "h_y") (Sample.var "_1")) = false
  ∧ InlineModifier.bindParameters [Sample.typed "x"]
      [Sample.add (Sample.var "h_y") (Sample.var "_1")] 0 ∅ = Fatal BadGet
  ∧ outcome (FullInliner.run
               (FullInliner.new Sample.nestedArgument Sample.nestedArgument_names))
    = inr BadGet.
Proof.
  split; [eexists; vm_compute; reflexivity|].
  split; [reflexivity|]. split; [reflexivity|].
  vm_compute. reflexivity.
Qed.

(** The arguments 10, g(2), 30 of a call of f, of which only g(2) is an
    inlinable call: with or without the order to move the arguments to the
    front, the first statement hoisted is the temporary for 30, and the
    statements are not in the order of the arguments from left to right. *)
Lemma visitArguments_order_counterexample :
  (∃ args' im',
     InlineModifier.visitArguments (InlineModifier.visit FullInliner.handleFunction "")
       Sample.threeArguments_reference Sample.threeArguments_arguments
       ["f_a"; "f_b"; "f_c"] [""; ""; ""] false
       (InlineModifier.mk []
          (FullInliner.new Sample.threeArguments Sample.threeArguments_names))
     = Ok (args', im')
     ∧ args' = [Sample.num "10"; Sample.var "g_q"; Sample.var "f_c"]
     ∧ InlineModifier.m_statementsToPrefix im' =
         [Sample.declare "f_c" (Sample.num "30");
          Sample.declare "g_p" (Sample.num "2");
          VariableDeclaration Sample.at0 [Sample.typed "g_q"] None;
          Block Sample.at0 [Sample.set "g_q" (Sample.var "g_p")]]
     ∧ ¬ hoistedLeftToRight (Sample.num "10") (Sample.num "30")
           (InlineModifier.m_statementsToPrefix im'))
  ∧ (∃ args' im',
     InlineModifier.visitArguments (InlineModifier.visit FullInliner.handleFunction "")
       Sample.threeArguments_reference Sample.threeArguments_arguments
       ["f_a"; "f_b"; "f_c"] [""; ""; ""] true
       (InlineModifier.mk []
          (FullInliner.new Sample.threeArguments Sample.threeArguments_names))
     = Ok (args', im')
     ∧ args' = [Sample.var "f_a"; Sample.var "g_q"; Sample.var "f_c"]
     ∧ InlineModifier.m_statementsToPrefix im' =
         [Sample.declare "f_c" (Sample.num "30");
          Sample.declare "g_p" (Sample.num "2");
          VariableDeclaration Sample.at0 [Sample.typed "g_q"] None;
          Block Sample.at0 [Sample.set "g_q" (Sample.var "g_p")];
          Sample.declare "f_a" (Sample.num "10")]
     ∧ ¬ hoistedLeftToRight (Sample.num "10") (Sample.num "30")
           (InlineModifier.m_statementsToPrefix im')).
Proof.
  split.
  - eexists _, _. split; [vm_compute; reflexivity|].
    split; [reflexivity|]. split; [reflexivity|].
    intros (la & ta & between & lc & tc & H). simpl in H. discriminate H.
  - eexists _, _. split; [vm_compute; reflexivity|].
    split; [reflexivity|]. split; [reflexivity|].
    intros (la & ta & between & lc & tc & H). simpl in H. discriminate H.
Qed.

(** ** The order of the arguments *)

Section argument_order.
Variable h : nat → SE Driver.t unit.
Variable cur : string.
Local Abbreviation visit := (InlineModifier.visit h cur).
Local Abbreviation visitArguments := (InlineModifier.visitArguments (InlineModifier.visit h cur)).
Local Abbreviation visitArguments_loop :=
  (InlineModifier.visitArguments_loop (InlineModifier.visit h cur)).
Local Abbreviation IM := InlineModifier.mk.
Local Abbreviation buffer := InlineModifier.m_statementsToPrefix.
Local Abbreviation driverOf := InlineModifier.m_driver.

(** C3, as the code has it.  For arguments a, b, c of which only the
    rewrite of b leaves statements to hoist, [visitArguments] adds to the
    buffer, in this order: the declaration of a fresh temporary holding c;
    the statements hoisted out of b; and, only if it was entered with the
    order to move the arguments to the front, the declaration of a fresh
    temporary holding a.  The arguments are so evaluated from right to
    left.  In the call, c is replaced by its temporary, b is what its
    rewrite made of it, and a is replaced by its temporary in the case of
    that order and stays in place otherwise. *)
Theorem visitArguments_hoists_right_to_left
    (r : Driver.Ref (list Expression)) (a b c : Expression)
    (hints types : list string) (m : bool) (im : InlineModifier.t)
    (a1 b1 c1 : Expression) (hoisted : list Statement)
    (im1 im2 im3 : InlineModifier.t) :
  InlineModifier.visitRecursively (visit (λ x, r [x; b; c]) a) im
    = Ok ((a1, []), im1) →
  let ta := (newName (default "" (hints !! 0)) (Driver.m_usedNames (driverOf im1))).1 in
  let a2 := if m then Identifier (locationOf a1) ta else a1 in
  let im1' :=
    if m then
      IM (buffer im1)
         (r [a2; b; c]
            (Driver.set_usedNames ({[ta]} ∪ Driver.m_usedNames (driverOf im1))
               (driverOf im1)))
    else im1 in
  InlineModifier.visitRecursively (visit (λ x, r [a2; x; c]) b) im1'
    = Ok ((b1, hoisted), im2) →
  hoisted ≠ [] →
  InlineModifier.visitRecursively (visit (λ x, r [a2; b1; x]) c) im2
    = Ok ((c1, []), im3) →
  let tc := (newName (default "" (hints !! 2)) (Driver.m_usedNames (driverOf im3))).1 in
  let c2 := Identifier (locationOf c1) tc in
  a1 = a ∧ c1 = c ∧ buffer im3 = buffer im
  ∧ visitArguments r [a; b; c] hints types m im =
      Ok ([a2; b1; c2],
          IM (buffer im
              ++ [VariableDeclaration (locationOf c)
                    [mkTypedName (locationOf c) tc (default "" (types !! 2))] (Some c)]
              ++ hoisted
              ++ (if m then
                    [VariableDeclaration (locationOf a)
                       [mkTypedName (locationOf a) ta (default "" (types !! 0))] (Some a)]
                  else []))
             (r [a2; b1; c2]
                (Driver.set_usedNames ({[tc]} ∪ Driver.m_usedNames (driverOf im3))
                   (driverOf im3)))).
Proof.
  intros Ha ta a2 im1' Hb Hne Hc tc c2.
  assert (a1 = a) as Ea.
  { apply visitRecursively_Ok in Ha as (d' & Hv & _).
    by apply (visit_quiet h cur) in Hv. }
  assert (c1 = c) as Ec.
  { apply visitRecursively_Ok in Hc as (d' & Hv & _).
    by apply (visit_quiet h cur) in Hv. }
  assert (buffer im3 = buffer im) as Eb.
  { apply visitRecursively_Ok in Ha as (da & _ & Ea1).
    apply visitRecursively_Ok in Hb as (db & _ & Eb2).
    apply visitRecursively_Ok in Hc as (dc & _ & Ec3).
    subst im3 im2. simpl. unfold im1'. destruct m; subst im1; done. }
  split; [done|]. split; [done|]. split; [done|].
  apply (visitArguments_Ok h cur).
  exists ([VariableDeclaration (locationOf c)
             [mkTypedName (locationOf c) tc (default "" (types !! 2))] (Some c)]
          ++ hoisted
          ++ (if m then
                [VariableDeclaration (locationOf a)
                   [mkTypedName (locationOf a) ta (default "" (types !! 0))] (Some a)]
              else [])),
         (IM (buffer im3)
            (r [a2; b1; c2]
               (Driver.set_usedNames ({[tc]} ∪ Driver.m_usedNames (driverOf im3))
                  (driverOf im3)))).
  split; [|simpl; by rewrite Eb].
  assert (hoisted_nonempty : InlineModifier.isEmpty hoisted = false)
    by (by destruct hoisted).
  subst a1 c1. unfold c2, tc. clear c2 tc.
  destruct m; unfold im1', a2, ta in *; clear im1' a2 ta; cbv iota in Hb, Hc |- *.
  - rewrite visitArguments_loop_cons.
    cbn [negb InlineModifier.isEmpty app length].
    rewrite (bind_step _ _ _ _ _ Ha).
    cbn [negb InlineModifier.isEmpty app length].
    rewrite (bind_step _ _ _ _ _ (newName_Ok _ _)).
    cbn [negb InlineModifier.isEmpty app length].
    rewrite (bind_step _ _ _ _ _ (assign_Ok _ _ _)).
    rewrite visitArguments_loop_cons.
    cbn [negb InlineModifier.isEmpty app length buffer driverOf].
    rewrite (bind_step _ _ _ _ _ Hb).
    cbn [negb InlineModifier.isEmpty app length]. rewrite hoisted_nonempty.
    cbn [negb InlineModifier.isEmpty app length].
    rewrite visitArguments_loop_cons.
    cbn [negb InlineModifier.isEmpty app length].
    rewrite (bind_step _ _ _ _ _ Hc).
    cbn [negb InlineModifier.isEmpty app length].
    rewrite (bind_step _ _ _ _ _ (newName_Ok _ _)).
    cbn [negb InlineModifier.isEmpty app length].
    rewrite (bind_step _ _ _ _ _ (assign_Ok _ _ _)).
    rewrite visitArguments_loop_nil. unfold ret.
    cbn [negb InlineModifier.isEmpty app length buffer driverOf].
    reflexivity.
  - rewrite visitArguments_loop_cons.
    cbn [negb InlineModifier.isEmpty app length].
    rewrite (bind_step _ _ _ _ _ Ha).
    cbn [negb InlineModifier.isEmpty app length].
    rewrite visitArguments_loop_cons.
    cbn [negb InlineModifier.isEmpty app length buffer driverOf].
    rewrite (bind_step _ _ _ _ _ Hb).
    cbn [negb InlineModifier.isEmpty app length]. rewrite hoisted_nonempty.
    cbn [negb InlineModifier.isEmpty app length].
    rewrite visitArguments_loop_cons.
    cbn [negb InlineModifier.isEmpty app length].
    rewrite (bind_step _ _ _ _ _ Hc).
    cbn [negb InlineModifier.isEmpty app length].
    rewrite (bind_step _ _ _ _ _ (newName_Ok _ _)).
    cbn [negb InlineModifier.isEmpty app length].
    rewrite (bind_step _ _ _ _ _ (assign_Ok _ _ _)).
    rewrite visitArguments_loop_nil. unfold ret.
    cbn [negb InlineModifier.isEmpty app length buffer driverOf].
    reflexivity.
Qed.
End argument_order.

(** The arguments 10, g(2), 30, visited without the order to move them to
    the front: the temporary for 30 comes first, then what g(2) hoists. *)
Lemma visitArguments_hoists_right_to_left_witness :
  ∃ im',
    InlineModifier.visitArguments (InlineModifier.visit FullInliner.handleFunction "")
      Sample.threeArguments_reference Sample.threeArguments_arguments
      ["f_a"; "f_b"; "f_c"] [""; ""; ""] false
      (InlineModifier.mk []
         (FullInliner.new Sample.threeArguments Sample.threeArguments_names))
    = Ok ([Sample.num "10"; Sample.var "g_q"; Sample.var "f_c"], im')
    ∧ InlineModifier.m_statementsToPrefix im' =
        [Sample.declare "f_c" (Sample.num "30");
         Sample.declare "g_p" (Sample.num "2");
         VariableDeclaration Sample.at0 [Sample.typed "g_q"] None;
         Block Sample.at0 [Sample.set "g_q" (Sample.var "g_p")]].
Proof.
  edestruct (visitArguments_hoists_right_to_left FullInliner.handleFunction ""
               Sample.threeArguments_reference
               (Sample.num "10") (Sample.call "g" [Sample.num "2"]) (Sample.num "30")
               ["f_a"; "f_b"; "f_c"] [""; ""; ""] false
               (InlineModifier.mk []
                  (FullInliner.new Sample.threeArguments Sample.threeArguments_names)))
    as (_ & _ & _ & Hres).
  - vm_compute. reflexivity.
  - vm_compute. reflexivity.
  - discriminate.
  - vm_compute. reflexivity.
  - eexists. split; [exact Hres|]. reflexivity.
Defined.

(** ** Termination: the functions to visit only get fewer *)

Section progress_facts.
Context {S : Type} (driverOf : S → Driver.t) (n : nat).

Lemma progress_refl d : progress d d.
Proof.
  exists []. rewrite app_nil_r. split; [done|]. split.
  - induction (Driver.m_functionsToVisit d) as [|p ps IH]; [done|].
    rewrite filter_cons_True by apply not_elem_of_nil. by f_equal.
  - split; [|constructor]. intros p Hp. by apply elem_of_nil in Hp.
Qed.

Lemma progress_same d d' :
  Driver.m_functionsToVisit d' = Driver.m_functionsToVisit d →
  Driver.handled d' = Driver.handled d →
  progress d d'.
Proof.
  intros Hv Hh. destruct (progress_refl d) as (l & ? & ? & ? & ?).
  exists l. by rewrite Hv, Hh.
Qed.

Lemma filter_filter_notin (l1 l2 ps : list nat) :
  filter (λ p, p ∉ l2) (filter (λ p, p ∉ l1) ps) = filter (λ p, p ∉ l1 ++ l2) ps.
Proof.
  induction ps as [|p ps IH]; [done|].
  destruct (decide (p ∈ l1)) as [H1|H1].
  - rewrite (filter_cons_False (λ p, p ∉ l1)) by (intros ?; done).
    rewrite (filter_cons_False (λ p, p ∉ l1 ++ l2)); [done|].
    intros Hn. apply Hn, elem_of_app. by left.
  - rewrite (filter_cons_True (λ p, p ∉ l1)) by done.
    destruct (decide (p ∈ l2)) as [H2|H2].
    + rewrite (filter_cons_False (λ p, p ∉ l2)) by (intros ?; done).
      rewrite (filter_cons_False (λ p, p ∉ l1 ++ l2)); [done|].
      intros Hn. apply Hn, elem_of_app. by right.
    + rewrite (filter_cons_True (λ p, p ∉ l2)) by done.
      rewrite (filter_cons_True (λ p, p ∉ l1 ++ l2)); [by f_equal|].
      rewrite elem_of_app. tauto.
Qed.

Lemma progress_trans d1 d2 d3 : progress d1 d2 → progress d2 d3 → progress d1 d3.
Proof.
  intros (l1 & Hh1 & Hv1 & Hin1 & Hnd1) (l2 & Hh2 & Hv2 & Hin2 & Hnd2).
  exists (l1 ++ l2). split; [by rewrite Hh2, Hh1, app_assoc|]. split.
  - by rewrite Hv2, Hv1, filter_filter_notin.
  - split.
    + intros p Hp. apply elem_of_app in Hp as [Hp|Hp]; [by apply Hin1|].
      apply Hin2 in Hp. rewrite Hv1 in Hp.
      by apply list_elem_of_filter in Hp as [_ Hp].
    + apply NoDup_app. split; [done|]. split; [|done].
      intros p Hp1 Hp2. apply Hin2 in Hp2. rewrite Hv1 in Hp2.
      by apply list_elem_of_filter in Hp2 as [Hp2 _].
Qed.

Lemma progress_length d d' :
  progress d d' →
  length (Driver.m_functionsToVisit d') ≤ length (Driver.m_functionsToVisit d).
Proof. intros (l & _ & -> & _). apply length_filter. Qed.

Lemma advances_ret {A} (a : A) : advances driverOf n (ret a).
Proof. intros s _. apply progress_refl. Qed.

Lemma advances_throw {A} why : why ≠ OutOfFuel → advances (A:=A) driverOf n (throw why).
Proof. intros Hne s _. done. Qed.

Lemma advances_bind {A B} (m : SE S A) (k : A → SE S B) :
  advances driverOf n m → (∀ a, advances driverOf n (k a)) →
  advances driverOf n (bind m k).
Proof.
  intros Hm Hk s Hs. unfold bind. specialize (Hm s Hs).
  destruct (m s) as [[a s1]|why]; [|done].
  specialize (Hk a s1). 
  assert (length (Driver.m_functionsToVisit (driverOf s1)) ≤ n) as Hs1.
  { apply progress_length in Hm. lia. }
  specialize (Hk Hs1). destruct (k a s1) as [[b s2]|why]; [|done].
  by eapply progress_trans.
Qed.

Lemma advances_gets {A} (f : S → A) : advances driverOf n (gets f).
Proof. intros s _. apply progress_refl. Qed.

Lemma advances_if {A} (b : bool) (m1 m2 : SE S A) :
  advances driverOf n m1 → advances driverOf n m2 →
  advances driverOf n (if b then m1 else m2).
Proof. by destruct b. Qed.
End progress_facts.

Section expression_advances.
Variable h : nat → SE Driver.t unit.
Variable cur : string.
Variable n : nat.
Hypothesis h_advances : ∀ p, advances id n (h p).

Local Abbreviation visit := (InlineModifier.visit h cur).
Local Abbreviation visitArguments := (InlineModifier.visitArguments (InlineModifier.visit h cur)).
Local Abbreviation visitArguments_loop :=
  (InlineModifier.visitArguments_loop (InlineModifier.visit h cur)).
Local Abbreviation IM := InlineModifier.mk.
Local Abbreviation buffer := InlineModifier.m_statementsToPrefix.
Local Abbreviation driverOf := InlineModifier.m_driver.
Local Abbreviation advancesM := (advances InlineModifier.m_driver n).

Lemma advances_driver {A} (m : SE Driver.t A) :
  advances id n m → advancesM (InlineModifier.driver m).
Proof.
  intros Hm im Him. unfold InlineModifier.driver. specialize (Hm (driverOf im) Him).
  by destruct (m (driverOf im)) as [[a d]|why].
Qed.

Lemma advances_read p : advances id n (Driver.read p).
Proof.
  intros d _. unfold Driver.read. destruct (Driver.deref p d); [apply progress_refl|done].
Qed.

Lemma advances_function name : advances id n (Driver.function name).
Proof.
  intros d _. unfold Driver.function.
  destruct (Driver.m_functions d !! name); [apply progress_refl|done].
Qed.

Lemma advances_assign {A} (r : Driver.Ref A) a :
  treeRef r → advancesM (InlineModifier.assign r a).
Proof.
  intros Hr im _. rewrite assign_Ok. simpl.
  destruct (Hr a (driverOf im)). by apply progress_same.
Qed.

Lemma advances_append statements : advancesM (InlineModifier.append statements).
Proof. intros im _. rewrite append_Ok. apply progress_refl. Qed.

Lemma advances_clear : advancesM InlineModifier.clear.
Proof. intros im _. rewrite clear_Ok. apply progress_refl. Qed.

Lemma advances_newName pfx : advancesM (InlineModifier.newName pfx).
Proof. intros im _. rewrite newName_Ok. by apply progress_same. Qed.

Lemma advances_copyBody pfx repl l statements :
  advancesM (InlineModifier.copyBody pfx repl l statements).
Proof.
  intros im _.
  destruct (InlineModifier.copyBody pfx repl l statements im) as [[s im']|why] eqn:H.
  - apply copyBody_Ok in H as (c' & _ & ->). by apply progress_same.
  - pose proof (copyBody_outcome pfx repl l statements im) as Ho.
    rewrite H in Ho. destruct Ho as [-> _]. done.
Qed.

Lemma advances_visitRecursively (v : SE InlineModifier.t Expression) :
  advancesM v → advancesM (InlineModifier.visitRecursively v).
Proof.
  intros Hv im Him. unfold InlineModifier.visitRecursively.
  specialize (Hv (IM [] (driverOf im)) Him).
  by destruct (v _) as [[e im']|why].
Qed.

Lemma advances_bindParameters {A} ps args (k : gmap string string → SE InlineModifier.t A) :
  (∀ m, advancesM (k m)) →
  advancesM (let* m := match InlineModifier.bindParameters ps args 0 ∅ with
                       | Ok m => ret m
                       | Fatal why => throw why
                       end in k m).
Proof.
  intros Hk. apply advances_bind; [|done].
  destruct (InlineModifier.bindParameters ps args 0 ∅) as [m|why] eqn:H.
  - apply advances_ret.
  - apply advances_throw. intros ->.
    clear Hk. revert H. generalize (∅ : gmap string string). generalize 0.
    induction args as [|a rest IH]; intros i m H; simpl in H; [done|].
    destruct a; try done. destruct (ps !! i); [|done]. by eapply IH.
Qed.

Lemma advances_inlineCall r l p args :
  treeRef r → advancesM (InlineModifier.inlineCall r l p args).
Proof.
  intros Hr. unfold InlineModifier.inlineCall.
  apply advances_bind; [apply advances_driver, advances_read|]. intros f.
  apply advances_bind.
  { destruct (_ !! 0); [apply advances_ret|by apply advances_throw]. }
  intros rv. apply advances_bindParameters. intros repl.
  apply advances_bind; [apply advances_newName|]. intros result.
  apply advances_bind; [apply advances_append|]. intros _.
  apply advances_bind; [apply advances_driver, advances_read|]. intros f'.
  apply advances_bind; [apply advances_copyBody|]. intros copy.
  apply advances_bind; [apply advances_append|]. intros _.
  apply advances_bind; [by apply advances_assign|]. intros _.
  apply advances_ret.
Qed.

Lemma advances_visitArguments_loop r hints types rest :
  treeRef r →
  Forall (λ e, ∀ r, treeRef r → advancesM (visit r e)) rest →
  ∀ done m prefix, advancesM (visitArguments_loop r hints types done rest m prefix).
Proof.
  intros Hr. induction 1 as [|arg rest Harg _ IH]; intros done m prefix.
  - rewrite visitArguments_loop_nil. apply advances_ret.
  - rewrite visitArguments_loop_cons. cbn zeta.
    apply advances_bind.
    { apply advances_visitRecursively, Harg. intros a d. apply Hr. }
    intros [arg1 ip]. apply advances_if; [apply IH|].
    apply advances_if; [|apply IH].
    apply advances_bind; [apply advances_newName|]. intros var.
    apply advances_bind; [|intros _; apply IH].
    apply advances_assign. intros a d. apply Hr.
Qed.

Lemma advances_visitArguments r args hints types m :
  treeRef r →
  Forall (λ e, ∀ r, treeRef r → advancesM (visit r e)) args →
  advancesM (visitArguments r args hints types m).
Proof.
  intros Hr Hargs. unfold InlineModifier.visitArguments.
  apply advances_bind; [by apply advances_visitArguments_loop|].
  intros [args' prefix].
  apply advances_bind; [apply advances_append|]. intros _. apply advances_ret.
Qed.

Lemma advances_visit e : ∀ r, treeRef r → advancesM (visit r e).
Proof.
  induction e as [l i args IH|l f args IH|l x|l v ty] using Expression_nested_ind;
    intros r Hr.
  - rewrite visit_FunctionalInstruction.
    apply advances_bind.
    + apply advances_visitArguments; [|done]. intros a d. apply Hr.
    + intros args'. apply advances_ret.
  - rewrite visit_FunctionCall.
    apply advances_bind; [apply advances_driver, advances_function|]. intros p.
    apply advances_bind; [apply advances_driver, h_advances|]. intros _.
    apply advances_bind; [apply advances_driver, advances_read|]. intros fd.
    cbn zeta. apply advances_bind.
    + apply advances_visitArguments; [|done]. intros a d. apply Hr.
    + intros args'. apply advances_if; [apply advances_ret|].
      by apply advances_inlineCall.
  - apply advances_ret.
  - apply advances_ret.
Qed.
End expression_advances.

Section statement_facts.
Variable h : nat → SE Driver.t unit.
Variable cur : string.

Local Abbreviation visit := (InlineModifier.visit h cur).
Local Abbreviation visitStatement := (InlineModifier.visitStatement h cur).
Local Abbreviation op_Block_loop :=
  (InlineModifier.op_Block_loop (InlineModifier.visitStatement h cur)).
Local Abbreviation op_Block := (InlineModifier.op_Block h cur).
Local Abbreviation op_ForLoop := (InlineModifier.op_ForLoop h cur).
Local Abbreviation IM := InlineModifier.mk.
Local Abbreviation buffer := InlineModifier.m_statementsToPrefix.
Local Abbreviation driverOf := InlineModifier.m_driver.

Lemma op_Block_loop_nil r done : op_Block_loop r done [] = ret done.
Proof. reflexivity. Qed.

Lemma op_Block_loop_cons r done statement rest :
  op_Block_loop r done (statement :: rest) =
  let* statement := visitStatement (λ s, r (done ++ s :: rest)) statement in
  let* prefix := gets buffer in
  if negb (InlineModifier.isEmpty prefix) then
    InlineModifier.assign r (done ++ prefix ++ statement :: rest);;
    InlineModifier.clear;;
    op_Block_loop r (done ++ prefix ++ [statement]) rest
  else
    op_Block_loop r (done ++ [statement]) rest.
Proof. reflexivity. Qed.

Lemma op_Block_unfold r statements :
  op_Block r statements = op_Block_loop r [] statements.
Proof. reflexivity. Qed.

Lemma op_ForLoop_unfold r l lpre pre condition lpost post lbody body :
  op_ForLoop r l lpre pre condition lpost post lbody body =
  let* pre := op_Block (λ b, r (ForLoop l lpre b condition lpost post lbody body)) pre in
  let* post := op_Block (λ b, r (ForLoop l lpre pre condition lpost b lbody body)) post in
  let* body := op_Block (λ b, r (ForLoop l lpre pre condition lpost post lbody b)) body in
  ret (ForLoop l lpre pre condition lpost post lbody body).
Proof. reflexivity. Qed.

Lemma visitStatement_ExpressionStatement r l e :
  visitStatement r (ExpressionStatement l e) =
  let* e := visit (λ x, r (ExpressionStatement l x)) e in
  ret (ExpressionStatement l e).
Proof. reflexivity. Qed.

Lemma visitStatement_Assignment r l names value :
  visitStatement r (Assignment l names value) =
  let* value := visit (λ x, r (Assignment l names x)) value in
  ret (Assignment l names value).
Proof. reflexivity. Qed.

Lemma visitStatement_VariableDeclaration_Some r l variables value :
  visitStatement r (VariableDeclaration l variables (Some value)) =
  let* value := visit (λ x, r (VariableDeclaration l variables (Some x))) value in
  ret (VariableDeclaration l variables (Some value)).
Proof. reflexivity. Qed.

Lemma visitStatement_VariableDeclaration_None r l variables :
  visitStatement r (VariableDeclaration l variables None) =
  ret (VariableDeclaration l variables None).
Proof. reflexivity. Qed.

Lemma visitStatement_FunctionDefinition r l name ps rs lbody body :
  visitStatement r (FunctionDefinition l name ps rs lbody body) =
  let* body := op_Block (λ b, r (FunctionDefinition l name ps rs lbody b)) body in
  ret (FunctionDefinition l name ps rs lbody body).
Proof. reflexivity. Qed.

Lemma visitStatement_ForLoop r l lpre pre condition lpost post lbody body :
  visitStatement r (ForLoop l lpre pre condition lpost post lbody body) =
  op_ForLoop r l lpre pre condition lpost post lbody body.
Proof. reflexivity. Qed.

Lemma visitStatement_Block r l statements :
  visitStatement r (Block l statements) =
  let* statements := op_Block (λ b, r (Block l b)) statements in
  ret (Block l statements).
Proof. reflexivity. Qed.

Section advances.
Variable n : nat.
Hypothesis h_advances : ∀ p, advances id n (h p).
Local Abbreviation advancesM := (advances InlineModifier.m_driver n).

Lemma advances_op_Block_loop r rest :
  treeRef r →
  Forall (λ s, ∀ r, treeRef r → advancesM (visitStatement r s)) rest →
  ∀ done, advancesM (op_Block_loop r done rest).
Proof.
  intros Hr. induction 1 as [|s rest Hs _ IH]; intros done.
  - rewrite op_Block_loop_nil. apply advances_ret.
  - rewrite op_Block_loop_cons.
    apply advances_bind; [apply Hs; intros a d; apply Hr|]. intros s'.
    apply advances_bind; [apply advances_gets|]. intros prefix.
    apply advances_if; [|apply IH].
    apply advances_bind; [by apply advances_assign|]. intros _.
    apply advances_bind; [apply advances_clear|]. intros _. apply IH.
Qed.

Lemma advances_visitStatement s : ∀ r, treeRef r → advancesM (visitStatement r s).
Proof.
  induction s as [l e|l names v|l vars v|l name ps rs lb body IH
    |l lpre pre cnd lpost post lbody body IHpre IHpost IHbody|l ss IH]
    using Statement_nested_ind; intros r Hr.
  - rewrite visitStatement_ExpressionStatement.
    apply advances_bind; [|intros; apply advances_ret].
    apply advances_visit; [done|]. intros a d. apply Hr.
  - rewrite visitStatement_Assignment.
    apply advances_bind; [|intros; apply advances_ret].
    apply advances_visit; [done|]. intros a d. apply Hr.
  - destruct v as [v|].
    + rewrite visitStatement_VariableDeclaration_Some.
      apply advances_bind; [|intros; apply advances_ret].
      apply advances_visit; [done|]. intros a d. apply Hr.
    + apply advances_ret.
  - rewrite visitStatement_FunctionDefinition.
    apply advances_bind; [|intros; apply advances_ret].
    apply advances_op_Block_loop; [|done]. intros a d. apply Hr.
  - rewrite visitStatement_ForLoop, op_ForLoop_unfold.
    apply advances_bind.
    { apply advances_op_Block_loop; [|done]. intros a d. apply Hr. }
    intros pre'. apply advances_bind.
    { apply advances_op_Block_loop; [|done]. intros a d. apply Hr. }
    intros post'. apply advances_bind; [|intros; apply advances_ret].
    apply advances_op_Block_loop; [|done]. intros a d. apply Hr.
  - rewrite visitStatement_Block.
    apply advances_bind; [|intros; apply advances_ret].
    apply advances_op_Block_loop; [|done]. intros a d. apply Hr.
Qed.

Lemma advances_op_Block r statements :
  treeRef r → advancesM (op_Block r statements).
Proof.
  intros Hr. apply advances_op_Block_loop; [done|].
  apply Forall_forall. intros s _. apply advances_visitStatement.
Qed.
End advances.
End statement_facts.

Section driver_facts.
Local Abbreviation pending := Driver.m_functionsToVisit.

Lemma treeRef_statementRef i : treeRef (Driver.statementRef i).
Proof. done. Qed.

Lemma treeRef_bodyRef p : treeRef (Driver.bodyRef p).
Proof. intros b d. unfold Driver.bodyRef. by destruct (Driver.deref p d). Qed.

Lemma advances_withModifier {A} n (m : SE InlineModifier.t A) :
  advances InlineModifier.m_driver n m → advances id n (FullInliner.withModifier m).
Proof.
  intros Hm d Hd. unfold FullInliner.withModifier.
  specialize (Hm (InlineModifier.mk [] d) Hd).
  by destruct (m _) as [[a im]|why].
Qed.

Lemma length_filter_elem (p : nat) (ps : list nat) :
  p ∈ ps → length (filter (λ q, q ≠ p) ps) < length ps.
Proof.
  induction ps as [|q ps IH]; intros Hp; [by apply elem_of_nil in Hp|].
  destruct (decide (q = p)) as [->|Hne].
  - rewrite filter_cons_False by (intros ?; done). simpl.
    pose proof (length_filter (λ q, q ≠ p) ps). lia.
  - rewrite filter_cons_True by done. simpl.
    apply elem_of_cons in Hp as [->|Hp]; [done|]. apply IH in Hp. lia.
Qed.

Lemma progress_erase p d : p ∈ pending d → progress d (Driver.erase p d).
Proof.
  intros Hp. exists [p]. simpl. split; [done|]. split.
  - apply list_filter_iff. intros q. rewrite list_elem_of_singleton. done.
  - split; [|apply NoDup_singleton].
    intros q Hq. by apply list_elem_of_singleton in Hq as ->.
Qed.

Lemma handleFunction_nested_skip n p d :
  p ∉ pending d → FullInliner.handleFunction_nested n p d = Ok (tt, d).
Proof.
  intros Hp. destruct n; simpl; by rewrite bool_decide_eq_false_2.
Qed.

Lemma handleFunction_nested_go n p d :
  p ∈ pending d →
  FullInliner.handleFunction_nested (S n) p d =
  (modify (Driver.erase p);;
   let* f := Driver.read p in
   FullInliner.withModifier
     (InlineModifier.op_Block (FullInliner.handleFunction_nested n) (Driver.fun_name f)
        (Driver.bodyRef p) (Driver.fun_body f));;
   ret tt) d.
Proof. intros Hp. simpl. by rewrite bool_decide_eq_true_2. Qed.

Lemma handleFunction_body_advances n p :
  (∀ q, advances id n (FullInliner.handleFunction_nested n q)) →
  advances id n
    (let* f := Driver.read p in
     FullInliner.withModifier
       (InlineModifier.op_Block (FullInliner.handleFunction_nested n) (Driver.fun_name f)
          (Driver.bodyRef p) (Driver.fun_body f));;
     ret tt).
Proof.
  intros IH.
  apply advances_bind; [apply advances_read|]. intros f.
  apply advances_bind; [|intros; apply advances_ret].
  apply advances_withModifier, advances_op_Block; [done|apply treeRef_bodyRef].
Qed.

(** With at most [n] functions left to visit, [nesting] n suffices. *)
Lemma advances_handleFunction_nested n :
  ∀ p, advances id n (FullInliner.handleFunction_nested n p).
Proof.
  induction n as [|n IH]; intros p d Hd; simpl in Hd.
  - rewrite handleFunction_nested_skip; [apply progress_refl|].
    destruct (pending d); [apply not_elem_of_nil|simpl in Hd; lia].
  - destruct (decide (p ∈ pending d)) as [Hp|Hp].
    2:{ rewrite handleFunction_nested_skip by done. apply progress_refl. }
    rewrite handleFunction_nested_go by done.
    unfold bind at 1, modify at 1.
    assert (length (pending (Driver.erase p d)) ≤ n) as Hlen.
    { simpl. pose proof (length_filter_elem p _ Hp). lia. }
    pose proof (handleFunction_body_advances n p IH _ Hlen) as Hrest.
    destruct (bind _ _ (Driver.erase p d)) as [[[] d']|why]; [|done].
    eapply progress_trans; [by apply progress_erase|exact Hrest].
Qed.

Lemma handleFunction_unfold p d :
  FullInliner.handleFunction p d
  = FullInliner.handleFunction_nested (length (pending d)) p d.
Proof. reflexivity. Qed.

Lemma advances_handleFunction n p : advances id n (FullInliner.handleFunction p).
Proof.
  intros d _. rewrite handleFunction_unfold.
  by apply (advances_handleFunction_nested (length (pending d)) p d).
Qed.

(** A function that has been handled is no longer to visit. *)
Lemma handleFunction_nested_done n p d d' :
  FullInliner.handleFunction_nested n p d = Ok (tt, d') →
  length (pending d) ≤ n → p ∉ pending d'.
Proof.
  intros H Hlen. destruct (decide (p ∈ pending d)) as [Hp|Hp].
  2:{ rewrite handleFunction_nested_skip in H by done. by injection H as <-. }
  destruct n as [|n]; [destruct (pending d); [by apply elem_of_nil in Hp|simpl in Hlen; lia]|].
  rewrite handleFunction_nested_go in H by done.
  unfold bind at 1, modify at 1 in H.
  assert (length (pending (Driver.erase p d)) ≤ n) as Hlen'.
  { simpl. pose proof (length_filter_elem p _ Hp). lia. }
  pose proof (handleFunction_body_advances n p (advances_handleFunction_nested n)
                _ Hlen') as Hrest.
  rewrite H in Hrest.
  destruct Hrest as (l & _ & Hv & _). unfold id in Hv. rewrite Hv. simpl.
  intros Hin. apply list_elem_of_filter in Hin as [_ Hin].
  by apply list_elem_of_filter in Hin as [Hin _].
Qed.
End driver_facts.

Section run_facts.
Local Abbreviation pending := Driver.m_functionsToVisit.

Lemma run_statements_S n i :
  FullInliner.run_statements (S n) i =
  let* statement := gets (λ d, Driver.m_ast d !! i) in
  match statement with
  | Some (Block l statements) =>
      FullInliner.withModifier
        (InlineModifier.visitStatement FullInliner.handleFunction ""
           (Driver.statementRef i) (Block l statements));;
      FullInliner.run_statements n (S i)
  | Some (FunctionDefinition _ _ _ _ _ _) => FullInliner.run_statements n (S i)
  | Some _ =>
      throw (AssertionFailure
        "Invalid top-level element. Inline requires function hoister and grouper.")
  | None => throw IndexOutOfBounds
  end.
Proof. reflexivity. Qed.

Lemma advances_run_statements N n : ∀ i, advances id N (FullInliner.run_statements n i).
Proof.
  induction n as [|n IH]; intros i; [apply advances_ret|].
  rewrite run_statements_S.
  apply advances_bind; [apply advances_gets|]. intros [s|]; [|by apply advances_throw].
  destruct s; try (by apply advances_throw); [apply IH|].
  apply advances_bind; [|intros; apply IH].
  apply advances_withModifier, advances_visitStatement.
  - intros p. apply advances_handleFunction.
  - apply treeRef_statementRef.
Qed.

Lemma length_filter_lt {A} (P : A → Prop) `{∀ x, Decision (P x)} (l : list A) x :
  x ∈ l → x ∉ filter P l → length (filter P l) < length l.
Proof.
  induction l as [|y l IH]; intros Hx Hnot; [by apply elem_of_nil in Hx|].
  destruct (decide (P y)) as [Hy|Hy].
  - rewrite filter_cons_True in Hnot |- * by done. simpl.
    apply not_elem_of_cons in Hnot as [Hne Hnot].
    apply elem_of_cons in Hx as [->|Hx]; [done|].
    specialize (IH Hx Hnot). lia.
  - rewrite filter_cons_False by done. simpl.
    pose proof (length_filter P l). lia.
Qed.

Lemma handleFunction_done p d d' :
  FullInliner.handleFunction p d = Ok (tt, d') → p ∉ pending d'.
Proof.
  rewrite handleFunction_unfold. intros H.
  by apply handleFunction_nested_done in H.
Qed.

Lemma handleFunction_progress p d d' :
  FullInliner.handleFunction p d = Ok (tt, d') → progress d d'.
Proof.
  intros H. pose proof (advances_handleFunction (length (pending d)) p d) as Ha.
  rewrite H in Ha. by apply Ha.
Qed.

Lemma handleFunction_not_OutOfFuel p d :
  FullInliner.handleFunction p d ≠ Fatal OutOfFuel.
Proof.
  intros H. pose proof (advances_handleFunction (length (pending d)) p d) as Ha.
  rewrite H in Ha. by apply Ha.
Qed.

Lemma run_functions_spec rounds :
  ∀ d, length (pending d) ≤ rounds →
       match FullInliner.run_functions rounds d with
       | Ok (_, d') => progress d d' ∧ pending d' = []
       | Fatal why => why ≠ OutOfFuel
       end.
Proof.
  induction rounds as [|rounds IH]; intros d Hd.
  - destruct (pending d) as [|p ps] eqn:Hp; [|simpl in Hd; lia].
    simpl. rewrite Hp. split; [apply progress_refl|done].
  - simpl. destruct (pending d) as [|p ps] eqn:Hp.
    { split; [apply progress_refl|done]. }
    unfold bind.
    destruct (FullInliner.handleFunction p d) as [[[] d1]|why] eqn:Hh.
    2:{ intros ->. by apply handleFunction_not_OutOfFuel in Hh. }
    pose proof (handleFunction_progress _ _ _ Hh) as Hprog.
    pose proof (handleFunction_done _ _ _ Hh) as Hdone.
    assert (length (pending d1) ≤ rounds) as Hlen.
    { destruct Hprog as (l & _ & Hv & _). rewrite Hv in Hdone |- *.
      assert (p ∈ pending d) as Hin by (rewrite Hp; apply elem_of_cons; by left).
      pose proof (length_filter_lt _ _ _ Hin Hdone) as Hlt.
      rewrite Hp in Hlt at 2. simpl in Hlt, Hd. lia. }
    specialize (IH d1 Hlen).
    destruct (FullInliner.run_functions rounds d1) as [[[] d2]|why]; [|done].
    destruct IH as [Hprog2 Hnil]. split; [|done]. by eapply progress_trans.
Qed.

Lemma run_spec d :
  match FullInliner.run d with
  | Ok (_, d') => progress d d' ∧ pending d' = []
  | Fatal why => why ≠ OutOfFuel
  end.
Proof.
  unfold FullInliner.run, bind.
  pose proof (advances_run_statements (length (pending d)) (length (Driver.m_ast d)) 0 d
                (le_n _)) as H1.
  destruct (FullInliner.run_statements _ 0 d) as [[[] d1]|why]; [|done].
  pose proof (run_functions_spec (length (pending d1)) d1 (le_n _)) as H2.
  destruct (FullInliner.run_functions _ d1) as [[[] d2]|why]; [|done].
  destruct H2 as [H2 Hnil]. split; [|done]. by eapply progress_trans.
Qed.



Lemma collectFunctions_toVisit statements :
  ∀ i fs tv, (FullInliner.collectFunctions i statements fs tv).2
             = tv ++ functionPositions i statements.
Proof.
  induction statements as [|s rest IH]; intros i fs tv; simpl.
  - by rewrite app_nil_r.
  - destruct s; rewrite IH; try done. by rewrite <- app_assoc.
Qed.

Lemma functionPositions_ge statements :
  ∀ i p, p ∈ functionPositions i statements → i ≤ p.
Proof.
  induction statements as [|s rest IH]; intros i p Hp; simpl in Hp.
  - by apply elem_of_nil in Hp.
  - destruct s; try (apply IH in Hp; lia).
    apply elem_of_cons in Hp as [->|Hp]; [lia|]. apply IH in Hp. lia.
Qed.


Lemma new_toVisit _ast names :
  pending (FullInliner.new _ast names) = functionPositions 0 _ast
  ∧ Driver.handled (FullInliner.new _ast names) = []
  ∧ Driver.m_ast (FullInliner.new _ast names) = _ast
  ∧ Driver.m_usedNames (FullInliner.new _ast names) = names.
Proof.
  unfold FullInliner.new.
  pose proof (collectFunctions_toVisit _ast 0 ∅ []) as H.
  destruct (FullInliner.collectFunctions 0 _ast ∅ []) as [fs tv]. simpl in *.
  by rewrite H.
Qed.
End run_facts.

(** ** The nesting bound does not matter *)

Section agreement_facts.
Local Abbreviation pending := Driver.m_functionsToVisit.

Section generic.
Context {S : Type} (driverOf : S → Driver.t) (n : nat).

Lemma agree_refl {A} (m : SE S A) : agree driverOf n m m.
Proof. by intros s _. Qed.

Lemma agree_bind {A B} (m1 m2 : SE S A) (k1 k2 : A → SE S B) :
  agree driverOf n m1 m2 → advances driverOf n m1 →
  (∀ a, agree driverOf n (k1 a) (k2 a)) →
  agree driverOf n (bind m1 k1) (bind m2 k2).
Proof.
  intros Hm Ha Hk s Hs. unfold bind. rewrite <- (Hm s Hs).
  specialize (Ha s Hs). destruct (m1 s) as [[a s1]|why]; [|done].
  apply Hk. apply progress_length in Ha. lia.
Qed.

Lemma agree_if {A} (b : bool) (m1 m2 m1' m2' : SE S A) :
  agree driverOf n m1 m1' → agree driverOf n m2 m2' →
  agree driverOf n (if b then m1 else m2) (if b then m1' else m2').
Proof. by destruct b. Qed.

Lemma advances_mono {A} k (m : SE S A) :
  k ≤ n → advances driverOf n m → advances driverOf k m.
Proof. intros Hk Hm s Hs. apply Hm. lia. Qed.
End generic.

Section traversal.
Variables h1 h2 : nat → SE Driver.t unit.
Variable cur : string.
Variable n : nat.
Hypothesis h_agree : ∀ p, agree id n (h1 p) (h2 p).
Hypothesis h_advances : ∀ p, advances id n (h1 p).
Local Abbreviation agreeM := (agree InlineModifier.m_driver n).

Lemma agree_driver {A} (m1 m2 : SE Driver.t A) :
  agree id n m1 m2 → agreeM (InlineModifier.driver m1) (InlineModifier.driver m2).
Proof. intros Hm im Him. unfold InlineModifier.driver. by rewrite (Hm _ Him). Qed.

Lemma agree_visitRecursively (v1 v2 : SE InlineModifier.t Expression) :
  agreeM v1 v2 →
  agreeM (InlineModifier.visitRecursively v1) (InlineModifier.visitRecursively v2).
Proof.
  intros Hv im Him. unfold InlineModifier.visitRecursively.
  by rewrite (Hv (InlineModifier.mk [] (InlineModifier.m_driver im)) Him).
Qed.

Lemma agree_visitArguments_loop r hints types rest :
  treeRef r →
  Forall (λ e, ∀ r, treeRef r →
            agreeM (InlineModifier.visit h1 cur r e) (InlineModifier.visit h2 cur r e)) rest →
  ∀ done m prefix,
    agreeM (InlineModifier.visitArguments_loop (InlineModifier.visit h1 cur) r hints types done rest m prefix)
           (InlineModifier.visitArguments_loop (InlineModifier.visit h2 cur) r hints types done rest m prefix).
Proof.
  intros Hr. induction 1 as [|arg rest Harg _ IH]; intros done m prefix.
  - apply agree_refl.
  - rewrite !visitArguments_loop_cons. cbn zeta.
    assert (treeRef (λ a, r (done ++ a :: rest))) as Hr' by (intros a d; apply Hr).
    apply agree_bind.
    + by apply agree_visitRecursively, Harg.
    + by apply advances_visitRecursively, advances_visit.
    + intros [arg1 ip]. apply agree_if; [apply IH|].
      apply agree_if; [|apply IH].
      apply agree_bind; [apply agree_refl|apply advances_newName|]. intros var.
      apply agree_bind; [apply agree_refl|by apply advances_assign|].
      intros _. apply IH.
Qed.

Lemma agree_visitArguments r args hints types m :
  treeRef r →
  Forall (λ e, ∀ r, treeRef r →
            agreeM (InlineModifier.visit h1 cur r e) (InlineModifier.visit h2 cur r e)) args →
  agreeM (InlineModifier.visitArguments (InlineModifier.visit h1 cur) r args hints types m)
         (InlineModifier.visitArguments (InlineModifier.visit h2 cur) r args hints types m).
Proof.
  intros Hr Hargs. unfold InlineModifier.visitArguments.
  apply agree_bind.
  - by apply agree_visitArguments_loop.
  - apply advances_visitArguments_loop; [done..|].
    apply Forall_forall. intros e _. by apply advances_visit.
  - intros [args' prefix]. apply agree_refl.
Qed.

Lemma agree_visit e :
  ∀ r, treeRef r →
       agreeM (InlineModifier.visit h1 cur r e) (InlineModifier.visit h2 cur r e).
Proof.
  induction e as [l i args IH|l f args IH|l x|l v ty] using Expression_nested_ind;
    intros r Hr.
  - rewrite !visit_FunctionalInstruction.
    assert (treeRef (λ a, r (FunctionalInstruction l i a))) as Hr' by (intros a d; apply Hr).
    apply agree_bind.
    + by apply agree_visitArguments.
    + apply advances_visitArguments; [done|].
      apply Forall_forall. intros e _. by apply advances_visit.
    + intros args'. apply agree_refl.
  - rewrite !visit_FunctionCall.
    assert (treeRef (λ a, r (FunctionCall l f a))) as Hr' by (intros a d; apply Hr).
    apply agree_bind; [apply agree_refl|apply advances_driver, advances_function|].
    intros p.
    apply agree_bind; [apply agree_driver, h_agree|apply advances_driver, h_advances|].
    intros _.
    apply agree_bind; [apply agree_refl|apply advances_driver, advances_read|].
    intros fd. cbn zeta.
    apply agree_bind.
    + by apply agree_visitArguments.
    + apply advances_visitArguments; [done|].
      apply Forall_forall. intros e _. by apply advances_visit.
    + intros args'. apply agree_refl.
  - apply agree_refl.
  - apply agree_refl.
Qed.

Lemma agree_op_Block_loop r rest :
  treeRef r →
  Forall (λ s, ∀ r, treeRef r →
            agreeM (InlineModifier.visitStatement h1 cur r s)
                   (InlineModifier.visitStatement h2 cur r s)) rest →
  ∀ done,
    agreeM (InlineModifier.op_Block_loop (InlineModifier.visitStatement h1 cur) r done rest)
           (InlineModifier.op_Block_loop (InlineModifier.visitStatement h2 cur) r done rest).
Proof.
  intros Hr. induction 1 as [|s rest Hs _ IH]; intros done.
  - apply agree_refl.
  - rewrite !op_Block_loop_cons.
    assert (treeRef (λ a, r (done ++ a :: rest))) as Hr' by (intros a d; apply Hr).
    apply agree_bind; [by apply Hs|by apply advances_visitStatement|].
    intros s'.
    apply agree_bind; [apply agree_refl|apply advances_gets|]. intros prefix.
    apply agree_if; [|apply IH].
    apply agree_bind; [apply agree_refl|by apply advances_assign|]. intros _.
    apply agree_bind; [apply agree_refl|apply advances_clear|]. intros _.
    apply IH.
Qed.

Lemma agree_visitStatement s :
  ∀ r, treeRef r →
       agreeM (InlineModifier.visitStatement h1 cur r s)
              (InlineModifier.visitStatement h2 cur r s).
Proof.
  induction s as [l e|l names v|l vars v|l name ps rs lb body IH
    |l lpre pre cnd lpost post lbody body IHpre IHpost IHbody|l ss IH]
    using Statement_nested_ind; intros r Hr.
  - rewrite !visitStatement_ExpressionStatement.
    assert (treeRef (λ x, r (ExpressionStatement l x))) as Hr' by (intros a d; apply Hr).
    apply agree_bind; [by apply agree_visit|by apply advances_visit|].
    intros. apply agree_refl.
  - rewrite !visitStatement_Assignment.
    assert (treeRef (λ x, r (Assignment l names x))) as Hr' by (intros a d; apply Hr).
    apply agree_bind; [by apply agree_visit|by apply advances_visit|].
    intros. apply agree_refl.
  - destruct v as [v|]; [|apply agree_refl].
    rewrite !visitStatement_VariableDeclaration_Some.
    assert (treeRef (λ x, r (VariableDeclaration l vars (Some x)))) as Hr'
      by (intros a d; apply Hr).
    apply agree_bind; [by apply agree_visit|by apply advances_visit|].
    intros. apply agree_refl.
  - rewrite !visitStatement_FunctionDefinition.
    assert (treeRef (λ b, r (FunctionDefinition l name ps rs lb b))) as Hr'
      by (intros a d; apply Hr).
    apply agree_bind; [by apply agree_op_Block_loop|by apply advances_op_Block|].
    intros. apply agree_refl.
  - rewrite !visitStatement_ForLoop, !op_ForLoop_unfold.
    apply agree_bind.
    { apply agree_op_Block_loop; [|done]. intros a d. apply Hr. }
    { apply advances_op_Block; [done|]. intros a d. apply Hr. }
    intros pre'. apply agree_bind.
    { apply agree_op_Block_loop; [|done]. intros a d. apply Hr. }
    { apply advances_op_Block; [done|]. intros a d. apply Hr. }
    intros post'. apply agree_bind.
    { apply agree_op_Block_loop; [|done]. intros a d. apply Hr. }
    { apply advances_op_Block; [done|]. intros a d. apply Hr. }
    intros. apply agree_refl.
  - rewrite !visitStatement_Block.
    assert (treeRef (λ b, r (Block l b))) as Hr' by (intros a d; apply Hr).
    apply agree_bind; [by apply agree_op_Block_loop|by apply advances_op_Block|].
    intros. apply agree_refl.
Qed.

Lemma agree_op_Block r statements :
  treeRef r →
  agreeM (InlineModifier.op_Block h1 cur r statements)
         (InlineModifier.op_Block h2 cur r statements).
Proof.
  intros Hr. apply agree_op_Block_loop; [done|].
  apply Forall_forall. intros s _. apply agree_visitStatement.
Qed.
End traversal.

Lemma agree_withModifier {A} n (m1 m2 : SE InlineModifier.t A) :
  agree InlineModifier.m_driver n m1 m2 →
  agree id n (FullInliner.withModifier m1) (FullInliner.withModifier m2).
Proof.
  intros Hm d Hd. unfold FullInliner.withModifier.
  by rewrite (Hm (InlineModifier.mk [] d) Hd).
Qed.

(** The processing of a function after it was taken out of the set, for
    two drivers that agree. *)
Lemma agree_handleFunction_body n p (h1 h2 : nat → SE Driver.t unit) :
  (∀ q, agree id n (h1 q) (h2 q)) → (∀ q, advances id n (h1 q)) →
  agree id n
    (let* f := Driver.read p in
     FullInliner.withModifier
       (InlineModifier.op_Block h1 (Driver.fun_name f)
          (Driver.bodyRef p) (Driver.fun_body f));;
     ret tt)
    (let* f := Driver.read p in
     FullInliner.withModifier
       (InlineModifier.op_Block h2 (Driver.fun_name f)
          (Driver.bodyRef p) (Driver.fun_body f));;
     ret tt).
Proof.
  intros Hag Hadv.
  apply agree_bind; [apply agree_refl|apply advances_read|]. intros f.
  apply agree_bind; [| |intros; apply agree_refl].
  - apply agree_withModifier, agree_op_Block; [done..|apply treeRef_bodyRef].
  - apply advances_withModifier, advances_op_Block; [done|apply treeRef_bodyRef].
Qed.

(** Any nesting bound that is at least the number of functions left to
    visit gives the same run. *)
Lemma handleFunction_nested_enough n :
  ∀ m p d, length (pending d) ≤ n → length (pending d) ≤ m →
    FullInliner.handleFunction_nested n p d = FullInliner.handleFunction_nested m p d.
Proof.
  induction n as [|n IH]; intros m p d Hn Hm.
  - rewrite !handleFunction_nested_skip; [done|..];
      destruct (pending d); simpl in Hn; try lia; apply not_elem_of_nil.
  - destruct (decide (p ∈ pending d)) as [Hp|Hp].
    2:{ by rewrite !handleFunction_nested_skip. }
    destruct m as [|m].
    { destruct (pending d); [by apply elem_of_nil in Hp|simpl in Hm; lia]. }
    rewrite !handleFunction_nested_go by done.
    unfold bind at 1 3, modify.
    pose proof (length_filter_elem p _ Hp) as Hlt.
    apply (agree_handleFunction_body (length (pending (Driver.erase p d)))); [| |done].
    + intros q d' Hd'. simpl in Hd'. apply IH; unfold id in *; lia.
    + intros q. apply (advances_mono id n); [simpl; lia|].
      apply advances_handleFunction_nested.
Qed.

(** [handleFunction] is the function the source defines: it runs the
    modifier with itself as the driver's [handleFunction]. *)
Lemma handleFunction_go p d :
  p ∈ pending d →
  FullInliner.handleFunction p d =
  (modify (Driver.erase p);;
   let* f := Driver.read p in
   FullInliner.withModifier
     (InlineModifier.op_Block FullInliner.handleFunction (Driver.fun_name f)
        (Driver.bodyRef p) (Driver.fun_body f));;
   ret tt) d.
Proof.
  intros Hp. rewrite handleFunction_unfold.
  destruct (length (pending d)) as [|n] eqn:Hlen.
  { destruct (pending d); [by apply elem_of_nil in Hp|done]. }
  rewrite handleFunction_nested_go by done.
  unfold bind at 1 3, modify.
  pose proof (length_filter_elem p _ Hp) as Hlt.
  apply (agree_handleFunction_body n); [| |simpl; lia].
  - intros q d' Hd'. rewrite handleFunction_unfold.
    apply handleFunction_nested_enough; unfold id in *; lia.
  - intros q. apply advances_handleFunction_nested.
Qed.
End agreement_facts.

(** ** Loops *)

Section loop_facts.
Variable h : nat → SE Driver.t unit.
Variable cur : string.
Local Abbreviation visit := (InlineModifier.visit h cur).
Local Abbreviation visitStatement := (InlineModifier.visitStatement h cur).
Local Abbreviation op_Block := (InlineModifier.op_Block h cur).
Local Abbreviation IM := InlineModifier.mk.
Local Abbreviation buffer := InlineModifier.m_statementsToPrefix.
Local Abbreviation driverOf := InlineModifier.m_driver.

Lemma visitArguments_loop_callFree r hints types rest :
  Forall (λ e, callFree e = true → ∀ r im, visit r e im = Ok (e, im)) rest →
  forallb callFree rest = true →
  ∀ done prefix im,
    InlineModifier.visitArguments_loop visit r hints types done rest false prefix im
    = Ok ((done ++ rest, prefix), im).
Proof.
  induction 1 as [|arg rest Harg _ IH]; intros Hfree done prefix im.
  - by rewrite visitArguments_loop_nil, app_nil_r.
  - simpl in Hfree. apply andb_true_iff in Hfree as [Hfa Hfr].
    rewrite visitArguments_loop_cons. cbn zeta.
    erewrite bind_step.
    2:{ apply visitRecursively_Ok. exists (driverOf im). split; [by apply Harg|done]. }
    cbn [negb InlineModifier.isEmpty]. destruct im as [b d]. simpl.
    rewrite IH by done. by rewrite <- app_assoc.
Qed.

Lemma visit_callFree e : callFree e = true → ∀ r im, visit r e im = Ok (e, im).
Proof.
  induction e as [l i args IH|l f args IH|l x|l v ty] using Expression_nested_ind;
    intros Hfree r im; try done.
  rewrite visit_FunctionalInstruction. simpl in Hfree.
  erewrite bind_step; [done|].
  apply (visitArguments_Ok h cur). exists [], im. split.
  - by apply visitArguments_loop_callFree.
  - destruct im. simpl. by rewrite app_nil_r.
Qed.

Lemma op_Block_loop_callFree rest :
  Forall (λ s, callFreeStatement s = true →
               ∀ r im, buffer im = [] → visitStatement r s im = Ok (s, im)) rest →
  forallb callFreeStatement rest = true →
  ∀ r done im, buffer im = [] →
    InlineModifier.op_Block_loop visitStatement r done rest im = Ok (done ++ rest, im).
Proof.
  induction 1 as [|s rest Hs _ IH]; intros Hfree r done im Hb.
  - by rewrite op_Block_loop_nil, app_nil_r.
  - simpl in Hfree. apply andb_true_iff in Hfree as [Hfs Hfr].
    rewrite op_Block_loop_cons.
    rewrite (bind_step _ _ _ _ _ (Hs Hfs _ im Hb)).
    unfold bind at 1, gets at 1. rewrite Hb. cbn [negb InlineModifier.isEmpty].
    rewrite IH by done. by rewrite <- app_assoc.
Qed.

Lemma visitStatement_callFree s :
  callFreeStatement s = true →
  ∀ r im, buffer im = [] → visitStatement r s im = Ok (s, im).
Proof.
  induction s as [l e|l names v|l vars v|l name ps rs lb body IH
    |l lpre pre cnd lpost post lbody body IHpre IHpost IHbody|l ss IH]
    using Statement_nested_ind; intros Hfree r im Hb; simpl in Hfree.
  - rewrite visitStatement_ExpressionStatement.
    by rewrite (bind_step _ _ _ _ _ (visit_callFree e Hfree _ im)).
  - rewrite visitStatement_Assignment.
    by rewrite (bind_step _ _ _ _ _ (visit_callFree v Hfree _ im)).
  - destruct v as [v|]; [|done].
    rewrite visitStatement_VariableDeclaration_Some.
    by rewrite (bind_step _ _ _ _ _ (visit_callFree v Hfree _ im)).
  - rewrite visitStatement_FunctionDefinition, op_Block_unfold.
    by rewrite (bind_step _ _ _ _ _ (op_Block_loop_callFree body IH Hfree _ [] im Hb)).
  - apply andb_true_iff in Hfree as [Hfree Hfbody].
    apply andb_true_iff in Hfree as [Hfree Hfpost].
    apply andb_true_iff in Hfree as [Hfpre _].
    assert (∀ r, op_Block r pre im = Ok (pre, im)) as Hpre.
    { intros r'. rewrite op_Block_unfold.
      by apply (op_Block_loop_callFree pre IHpre Hfpre _ [] im Hb). }
    assert (∀ r, op_Block r post im = Ok (post, im)) as Hpost.
    { intros r'. rewrite op_Block_unfold.
      by apply (op_Block_loop_callFree post IHpost Hfpost _ [] im Hb). }
    assert (∀ r, op_Block r body im = Ok (body, im)) as Hbody.
    { intros r'. rewrite op_Block_unfold.
      by apply (op_Block_loop_callFree body IHbody Hfbody _ [] im Hb). }
    rewrite visitStatement_ForLoop, op_ForLoop_unfold.
    rewrite (bind_step _ _ _ _ _ (Hpre _)). cbv beta.
    rewrite (bind_step _ _ _ _ _ (Hpost _)). cbv beta.
    by rewrite (bind_step _ _ _ _ _ (Hbody _)).
  - rewrite visitStatement_Block, op_Block_unfold.
    by rewrite (bind_step _ _ _ _ _ (op_Block_loop_callFree ss IH Hfree _ [] im Hb)).
Qed.

Lemma op_Block_callFree statements :
  forallb callFreeStatement statements = true →
  ∀ r im, buffer im = [] → op_Block r statements im = Ok (statements, im).
Proof.
  intros Hfree r im Hb. rewrite op_Block_unfold.
  apply (op_Block_loop_callFree statements); [|done..].
  apply Forall_forall. intros s _. apply visitStatement_callFree.
Qed.

(** C5.  The visit of a loop is the visit of its pre block, then of its
    post block, then of its body, each through the overload for blocks;
    the condition is handed on as it is.  So the loop that the visit
    returns has the condition it was given, whatever the condition is; and
    when no call occurs in the pre block, the post block and the body, the
    visit, entered with an empty buffer, returns the loop as it was and
    leaves the state of the modifier and of the driver as it was: a call in
    the condition is neither looked up nor inlined, and nothing is
    hoisted. *)
Theorem ForLoop_condition_not_visited
    (r : Driver.Ref Statement) (l lpre : SourceLocation) (pre : list Statement)
    (condition : Expression) (lpost : SourceLocation) (post : list Statement)
    (lbody : SourceLocation) (body : list Statement) (im : InlineModifier.t) :
  visitStatement r (ForLoop l lpre pre condition lpost post lbody body) =
    (let* pre' :=
       op_Block (λ b, r (ForLoop l lpre b condition lpost post lbody body)) pre in
     let* post' :=
       op_Block (λ b, r (ForLoop l lpre pre' condition lpost b lbody body)) post in
     let* body' :=
       op_Block (λ b, r (ForLoop l lpre pre' condition lpost post' lbody b)) body in
     ret (ForLoop l lpre pre' condition lpost post' lbody body'))
  ∧ (∀ s' im',
       visitStatement r (ForLoop l lpre pre condition lpost post lbody body) im
         = Ok (s', im') →
       ∃ pre' post' body', s' = ForLoop l lpre pre' condition lpost post' lbody body')
  ∧ (forallb callFreeStatement pre = true →
     forallb callFreeStatement post = true →
     forallb callFreeStatement body = true →
     buffer im = [] →
     visitStatement r (ForLoop l lpre pre condition lpost post lbody body) im
       = Ok (ForLoop l lpre pre condition lpost post lbody body, im)).
Proof.
  split; [reflexivity|]. split.
  - rewrite visitStatement_ForLoop, op_ForLoop_unfold. intros s' im' H.
    apply bind_Ok in H as (pre' & im1 & _ & H).
    apply bind_Ok in H as (post' & im2 & _ & H).
    apply bind_Ok in H as (body' & im3 & _ & H).
    injection H as <- _. by eexists _, _, _.
  - intros Hpre Hpost Hbody Hb.
    rewrite visitStatement_ForLoop, op_ForLoop_unfold.
    rewrite (bind_step _ _ _ _ _ (op_Block_callFree pre Hpre _ im Hb)).
    cbv beta.
    rewrite (bind_step _ _ _ _ _ (op_Block_callFree post Hpost _ im Hb)).
    cbv beta.
    by rewrite (bind_step _ _ _ _ _ (op_Block_callFree body Hbody _ im Hb)).
Qed.
End loop_facts.

(** A loop whose condition is the inlinable call id(5) is left as it is,
    by the visit and by the whole pass. *)
Lemma ForLoop_condition_not_visited_witness :
  InlineModifier.visitStatement FullInliner.handleFunction ""
    Sample.loopCondition_reference Sample.loopWithCall
    (InlineModifier.mk []
       (FullInliner.new Sample.loopCondition Sample.loopCondition_names))
  = Ok (Sample.loopWithCall,
        InlineModifier.mk []
          (FullInliner.new Sample.loopCondition Sample.loopCondition_names))
  ∧ outcome (FullInliner.run
               (FullInliner.new Sample.loopCondition Sample.loopCondition_names))
    = inl Sample.loopCondition.
Proof.
  split; [|vm_compute; reflexivity].
  apply (ForLoop_condition_not_visited FullInliner.handleFunction ""
           Sample.loopCondition_reference); reflexivity.
Defined.

(** ** The driver *)

Section driver_results.
Local Abbreviation pending := Driver.m_functionsToVisit.

End driver_results.


(** With a and a_1 in use, the prefix b is returned as it is and the
    prefix a gives a_2. *)
Lemma NameDispenser_newName_spec_witness :
  (newName "b" {["a"; "a_1"]}).1 = "b"
  ∧ (newName "a" {["a"; "a_1"]}).1 = "a_2".
Proof.
  split.
  - apply (NameDispenser_newName_spec "b" {["a"; "a_1"]}).
    split; [discriminate|]. set_solver.
  - destruct (NameDispenser_newName_spec "a" {["a"; "a_1"]})
      as (_ & _ & Hnext & _ & Hfresh & _).
    destruct Hnext as (k & Hk & Hname & Hmin).
    { intros [_ Hnot]. apply Hnot. set_solver. }
    rewrite Hname in Hfresh |- *.
    destruct (decide (k = 1)%N) as [->|Hk1].
    { exfalso. apply Hfresh. vm_compute. set_solver. }
    destruct (decide (k = 2)%N) as [->|Hk2]; [reflexivity|].
    exfalso. specialize (Hmin 2%N ltac:(lia)).
    change ("a" +:+ "_" +:+ to_string 2) with "a_2" in Hmin. set_solver.
Defined.

(** The copy of  let x := add(x, y)  with prefix f_ :  let f_x := add(f_x, y). *)
Lemma BodyCopier_VariableDeclaration_renames_initializer_witness :
  ∃ c',
    BodyCopier.op_VariableDeclaration "f_" Sample.at0 [Sample.typed "x"]
      (Some (Sample.add (Sample.var "x") (Sample.var "y")))
      (BodyCopier.mk ∅ {["x"; "y"]})
    = Ok (Sample.declare "f_x" (Sample.add (Sample.var "f_x") (Sample.var "y")), c').
Proof.
  destruct (BodyCopier_VariableDeclaration_renames_initializer "f_" Sample.at0
              [Sample.typed "x"]
              (Some (Sample.add (Sample.var "x") (Sample.var "y")))
              (BodyCopier.mk ∅ {["x"; "y"]}))
    as (c' & Hreg & Hcopy & _ & Hvars & _).
  exists c'. rewrite Hcopy.
  destruct (Hvars (Sample.typed "x")) as (fresh & Hx & _ & _ & Htr & _);
    [apply elem_of_cons; by left|].
  vm_compute in Hreg. injection Hreg as <-.
  vm_compute. reflexivity.
Defined.

(** ** References: the tree and the nodes handed on by value *)

Section reference_facts.
Variable h : nat → SE Driver.t unit.
Variable cur : string.
Hypothesis h_framed : ∀ p d d', h p d = Ok (tt, d') → framed [] d d'.

Local Abbreviation pending := Driver.m_functionsToVisit.
Local Abbreviation visit := (InlineModifier.visit h cur).
Local Abbreviation visitStatement := (InlineModifier.visitStatement h cur).
Local Abbreviation IM := InlineModifier.mk.
Local Abbreviation buffer := InlineModifier.m_statementsToPrefix.
Local Abbreviation driverOf := InlineModifier.m_driver.

Lemma framed_refl own d : framed own d d.
Proof. by split. Qed.

Lemma framed_trans own d1 d2 d3 : framed own d1 d2 → framed own d2 d3 → framed own d1 d3.
Proof.
  intros [Hp1 Ha1] [Hp2 Ha2]. split; [auto|].
  intros i Hi Hn. rewrite Ha2; [by apply Ha1|done|]. intros Hin. by apply Hn, Hp1.
Qed.

Lemma framed_weaken own d d' : framed [] d d' → framed own d d'.
Proof.
  intros [Hp Ha]. split; [done|]. intros i _ Hn. apply Ha; [apply not_elem_of_nil|done].
Qed.

Lemma framed_usedNames own used d : framed own d (Driver.set_usedNames used d).
Proof. by split. Qed.

(** Storing through a reference that stores at [own]. *)
Lemma storesAt_assign {A} own (C : A → Statement) (r : Driver.Ref A) a d a0 :
  storesAt own C r → Driver.m_ast d !! own = Some (C a0) →
  Driver.m_ast (r a d) !! own = Some (C a) ∧ framed [own] d (r a d).
Proof.
  intros Hr Hs. rewrite (Hr a d) by eauto. simpl. split.
  - apply list_lookup_insert_eq. by eapply lookup_lt_Some.
  - split; [done|]. intros i Hi _. simpl.
    apply list_lookup_insert_ne. intros ->. apply Hi, elem_of_cons. by left.
Qed.

Lemma storesAt_compose {A B} own (C : A → Statement) (r : Driver.Ref A) (F : B → A) :
  storesAt own C r → storesAt own (λ b, C (F b)) (λ b, r (F b)).
Proof. intros Hr b d [b0 Hs]. apply Hr. eauto. Qed.

(** The loop of [visitArguments] keeps the tree in step with the arguments
    it holds. *)
Lemma visitArguments_loop_stores own (C : list Expression → Statement) r hints types rest :
  storesAt own C r →
  Forall (λ e, ∀ (C : Expression → Statement) r im e' im',
            storesAt own C r →
            own ∉ pending (driverOf im) →
            Driver.m_ast (driverOf im) !! own = Some (C e) →
            visit r e im = Ok (e', im') →
            Driver.m_ast (driverOf im') !! own = Some (C e')
            ∧ framed [own] (driverOf im) (driverOf im')) rest →
  ∀ done m prefix im args' prefix' im',
    own ∉ pending (driverOf im) →
    Driver.m_ast (driverOf im) !! own = Some (C (done ++ rest)) →
    InlineModifier.visitArguments_loop visit r hints types done rest m prefix im
      = Ok ((args', prefix'), im') →
    Driver.m_ast (driverOf im') !! own = Some (C args')
    ∧ framed [own] (driverOf im) (driverOf im').
Proof.
  intros Hr. induction 1 as [|arg rest Harg _ IH];
    intros done m prefix im args' prefix' im' Hown Hs H.
  - rewrite visitArguments_loop_nil in H. injection H as <- _ <-.
    rewrite app_nil_r in Hs. split; [done|apply framed_refl].
  - rewrite visitArguments_loop_cons in H. cbn zeta in H.
    apply bind_Ok in H as ([arg1 ip] & im1 & Hrec & H).
    apply visitRecursively_Ok in Hrec as (d1 & Hv & ->).
    eapply (Harg (λ a, C (done ++ a :: rest))) in Hv as [Hs1 Hf1];
      [|by apply (storesAt_compose own C r (λ a, done ++ a :: rest))|done|done].
    simpl in Hs1, Hf1.
    assert (own ∉ pending d1) as Hown1.
    { intros Hin. by apply Hown, Hf1. }
    destruct (InlineModifier.isEmpty ip); simpl in H.
    + destruct m.
      * apply bind_Ok in H as (var & im2 & Hn & H).
        rewrite newName_Ok in Hn. cbn zeta in Hn. injection Hn as <- <-.
        apply bind_Ok in H as ([] & im3 & Ha & H).
        rewrite assign_Ok in Ha. injection Ha as <-. simpl in H.
        set (var := newName_name _ _) in H.
        set (d2 := Driver.set_usedNames _ d1) in H.
        pose proof (storesAt_assign own (λ a, C (done ++ a :: rest))
                      (λ a, r (done ++ a :: rest))
                      (Identifier (locationOf arg1) var) d2 arg1
                      (storesAt_compose own C r (λ a, done ++ a :: rest) Hr) Hs1)
          as [Hs2 Hf2].
        apply IH in H as [Hs3 Hf3]; simpl.
        -- split; [done|]. eapply framed_trans; [exact Hf1|].
           eapply framed_trans; [|exact Hf3]. exact Hf2.
        -- intros Hin. apply Hown1. by apply Hf2.
        -- rewrite <- app_assoc. exact Hs2.
      * apply IH in H as [Hs3 Hf3]; simpl.
        -- split; [done|]. by eapply framed_trans.
        -- done.
        -- by rewrite <- app_assoc.
    + apply IH in H as [Hs3 Hf3]; simpl.
      * split; [done|]. by eapply framed_trans.
      * done.
      * by rewrite <- app_assoc.
Qed.

Lemma visitArguments_stores own (C : list Expression → Statement) r args hints types m
    im args' im' :
  storesAt own C r →
  Forall (λ e, ∀ (C : Expression → Statement) r im e' im',
            storesAt own C r →
            own ∉ pending (driverOf im) →
            Driver.m_ast (driverOf im) !! own = Some (C e) →
            visit r e im = Ok (e', im') →
            Driver.m_ast (driverOf im') !! own = Some (C e')
            ∧ framed [own] (driverOf im) (driverOf im')) args →
  own ∉ pending (driverOf im) →
  Driver.m_ast (driverOf im) !! own = Some (C args) →
  InlineModifier.visitArguments visit r args hints types m im = Ok (args', im') →
  Driver.m_ast (driverOf im') !! own = Some (C args')
  ∧ framed [own] (driverOf im) (driverOf im').
Proof.
  intros Hr Hargs Hown Hs H.
  apply (visitArguments_Ok h cur) in H as (prefix & im1 & Hloop & ->). simpl.
  by eapply visitArguments_loop_stores in Hloop.
Qed.

(** What [visit] returns is what the tree holds at the reference. *)
Lemma visit_stores own e :
  ∀ (C : Expression → Statement) r im e' im',
    storesAt own C r →
    own ∉ pending (driverOf im) →
    Driver.m_ast (driverOf im) !! own = Some (C e) →
    visit r e im = Ok (e', im') →
    Driver.m_ast (driverOf im') !! own = Some (C e')
    ∧ framed [own] (driverOf im) (driverOf im').
Proof.
  induction e as [l i args IH|l f args IH|l x|l v ty] using Expression_nested_ind;
    intros C r im e' im' Hr Hown Hs H.
  - rewrite visit_FunctionalInstruction in H.
    apply bind_Ok in H as (args' & im1 & Hargs & H). injection H as <- <-.
    eapply (visitArguments_stores own (λ a, C (FunctionalInstruction l i a))) in Hargs;
      [done|by apply (storesAt_compose own C r)|done..].
  - apply (visit_FunctionCall_Ok h cur) in H
      as (p & d1 & fd & args' & im2 & Hp & Hh & Hf & Hargs & H).
    apply h_framed in Hh as Hf1.
    assert (own ∉ pending d1) as Hown1 by (intros Hin; by apply Hown, Hf1).
    assert (Driver.m_ast d1 !! own = Some (C (FunctionCall l f args))) as Hs1.
    { destruct Hf1 as [_ Ha]. rewrite Ha; [done|apply not_elem_of_nil|done]. }
    eapply (visitArguments_stores own (λ a, C (FunctionCall l f a))) in Hargs
      as [Hs2 Hf2]; [|by apply (storesAt_compose own C r)|done..].
    simpl in Hf2.
    assert (framed [own] (driverOf im) (driverOf im2)) as Hf12.
    { eapply framed_trans; [by apply framed_weaken|done]. }
    destruct (InlineModifier.doInline _ _ _).
    + apply inlineCall_Ok in H
        as (callee & rv & repl & copy & c' & _ & _ & _ & _ & -> & ->). simpl.
      set (result := newName_name _ _).
      set (d3 := Driver.set_usedNames _ (driverOf im2)).
      pose proof (storesAt_assign own C r (Identifier l result) d3 _ Hr Hs2)
        as [Hs3 Hf3].
      split; [exact Hs3|].
      eapply framed_trans; [exact Hf12|].
      eapply framed_trans; [apply framed_usedNames|exact Hf3].
    + by destruct H as [-> ->].
  - injection H as <- <-. split; [done|apply framed_refl].
  - injection H as <- <-. split; [done|apply framed_refl].
Qed.

Lemma op_Block_loop_stores own (C : list Statement → Statement) r rest :
  storesAt own C r →
  Forall (λ s, ∀ (C : Statement → Statement) r im s' im',
            storesAt own C r →
            own ∉ pending (driverOf im) →
            Driver.m_ast (driverOf im) !! own = Some (C s) →
            visitStatement r s im = Ok (s', im') →
            Driver.m_ast (driverOf im') !! own = Some (C s')
            ∧ framed [own] (driverOf im) (driverOf im')) rest →
  ∀ done im statements' im',
    own ∉ pending (driverOf im) →
    Driver.m_ast (driverOf im) !! own = Some (C (done ++ rest)) →
    InlineModifier.op_Block_loop visitStatement r done rest im = Ok (statements', im') →
    Driver.m_ast (driverOf im') !! own = Some (C statements')
    ∧ framed [own] (driverOf im) (driverOf im').
Proof.
  intros Hr. induction 1 as [|s rest Hstmt _ IH];
    intros done im statements' im' Hown Hs H.
  - rewrite op_Block_loop_nil in H. injection H as <- <-.
    rewrite app_nil_r in Hs. split; [done|apply framed_refl].
  - rewrite op_Block_loop_cons in H.
    apply bind_Ok in H as (s1 & im1 & Hv & H).
    eapply (Hstmt (λ x, C (done ++ x :: rest))) in Hv as [Hs1 Hf1];
      [|by apply (storesAt_compose own C r (λ x, done ++ x :: rest))|done|done].
    assert (own ∉ pending (driverOf im1)) as Hown1.
    { intros Hin. by apply Hown, Hf1. }
    apply bind_Ok in H as (prefix & im2 & Hg & H). injection Hg as <- <-.
    destruct (InlineModifier.isEmpty (buffer im1)); simpl in H.
    + apply IH in H as [Hs3 Hf3].
      * split; [done|]. by eapply framed_trans.
      * done.
      * by rewrite <- app_assoc.
    + apply bind_Ok in H as ([] & im3 & Ha & H).
      rewrite assign_Ok in Ha. injection Ha as <-.
      apply bind_Ok in H as ([] & im4 & Hc & H).
      rewrite clear_Ok in Hc. injection Hc as <-. simpl in H.
      pose proof (storesAt_assign own C r (done ++ buffer im1 ++ s1 :: rest)
                    (driverOf im1) _ Hr Hs1) as [Hs2 Hf2].
      apply IH in H as [Hs3 Hf3]; simpl.
      * split; [done|]. eapply framed_trans; [exact Hf1|].
        eapply framed_trans; [exact Hf2|exact Hf3].
      * intros Hin. apply Hown1. by apply Hf2.
      * rewrite <- !app_assoc. exact Hs2.
Qed.

(** What [visit(Statement&)] returns is what the tree holds at the
    reference. *)
Lemma visitStatement_stores own s :
  ∀ (C : Statement → Statement) r im s' im',
    storesAt own C r →
    own ∉ pending (driverOf im) →
    Driver.m_ast (driverOf im) !! own = Some (C s) →
    visitStatement r s im = Ok (s', im') →
    Driver.m_ast (driverOf im') !! own = Some (C s')
    ∧ framed [own] (driverOf im) (driverOf im').
Proof.
  induction s as [l e|l names v|l vars v|l name ps rs lb body IH
    |l lpre pre cnd lpost post lbody body IHpre IHpost IHbody|l ss IH]
    using Statement_nested_ind; intros C r im s' im' Hr Hown Hs H.
  - rewrite visitStatement_ExpressionStatement in H.
    apply bind_Ok in H as (e' & im1 & Hv & H). injection H as <- <-.
    eapply (visit_stores own e (λ x, C (ExpressionStatement l x))) in Hv;
      [done|by apply (storesAt_compose own C r)|done..].
  - rewrite visitStatement_Assignment in H.
    apply bind_Ok in H as (e' & im1 & Hv & H). injection H as <- <-.
    eapply (visit_stores own v (λ x, C (Assignment l names x))) in Hv;
      [done|by apply (storesAt_compose own C r)|done..].
  - destruct v as [v|].
    + rewrite visitStatement_VariableDeclaration_Some in H.
      apply bind_Ok in H as (e' & im1 & Hv & H). injection H as <- <-.
      eapply (visit_stores own v (λ x, C (VariableDeclaration l vars (Some x)))) in Hv;
        [done|by apply (storesAt_compose own C r)|done..].
    + injection H as <- <-. split; [done|apply framed_refl].
  - rewrite visitStatement_FunctionDefinition, op_Block_unfold in H.
    apply bind_Ok in H as (b' & im1 & Hv & H). injection H as <- <-.
    eapply (op_Block_loop_stores own (λ b, C (FunctionDefinition l name ps rs lb b)))
      in Hv; [done|by apply (storesAt_compose own C r)|done..].
  - rewrite visitStatement_ForLoop, op_ForLoop_unfold in H.
    apply bind_Ok in H as (pre' & im1 & Hv1 & H). rewrite op_Block_unfold in Hv1.
    eapply (op_Block_loop_stores own
              (λ b, C (ForLoop l lpre b cnd lpost post lbody body))) in Hv1
      as [Hs1 Hf1]; [|by apply (storesAt_compose own C r)|done..].
    assert (own ∉ pending (driverOf im1)) as Hown1.
    { intros Hin. by apply Hown, Hf1. }
    apply bind_Ok in H as (post' & im2 & Hv2 & H). rewrite op_Block_unfold in Hv2.
    eapply (op_Block_loop_stores own
              (λ b, C (ForLoop l lpre pre' cnd lpost b lbody body))) in Hv2
      as [Hs2 Hf2]; [|by apply (storesAt_compose own C r)|done..].
    assert (own ∉ pending (driverOf im2)) as Hown2.
    { intros Hin. by apply Hown1, Hf2. }
    apply bind_Ok in H as (body' & im3 & Hv3 & H). rewrite op_Block_unfold in Hv3.
    eapply (op_Block_loop_stores own
              (λ b, C (ForLoop l lpre pre' cnd lpost post' lbody b))) in Hv3
      as [Hs3 Hf3]; [|by apply (storesAt_compose own C r)|done..].
    injection H as <- <-. split; [done|].
    eapply framed_trans; [exact Hf1|]. by eapply framed_trans.
  - rewrite visitStatement_Block, op_Block_unfold in H.
    apply bind_Ok in H as (b' & im1 & Hv & H). injection H as <- <-.
    eapply (op_Block_loop_stores own (λ b, C (Block l b))) in Hv;
      [done|by apply (storesAt_compose own C r)|done..].
Qed.

Lemma op_Block_stores own (C : list Statement → Statement) r statements im
    statements' im' :
  storesAt own C r →
  own ∉ pending (driverOf im) →
  Driver.m_ast (driverOf im) !! own = Some (C statements) →
  InlineModifier.op_Block h cur r statements im = Ok (statements', im') →
  Driver.m_ast (driverOf im') !! own = Some (C statements')
  ∧ framed [own] (driverOf im) (driverOf im').
Proof.
  intros Hr Hown Hs H. rewrite op_Block_unfold in H.
  eapply (op_Block_loop_stores own C r statements Hr) in H; [done| |done..].
  apply Forall_forall. intros s _. apply visitStatement_stores.
Qed.
End reference_facts.

Section coherence_facts.
Local Abbreviation pending := Driver.m_functionsToVisit.

Lemma storesAt_statementRef i : storesAt i (λ s, s) (Driver.statementRef i).
Proof. by intros s d _. Qed.

Lemma storesAt_bodyRef p l name ps rs lb :
  storesAt p (λ b, FunctionDefinition l name ps rs lb b) (Driver.bodyRef p).
Proof.
  intros b d [b0 Hs]. unfold Driver.bodyRef, Driver.deref. by rewrite Hs.
Qed.

Lemma withModifier_Ok {A} (m : SE InlineModifier.t A) d a d' :
  FullInliner.withModifier m d = Ok (a, d') ↔
  ∃ b, m (InlineModifier.mk [] d) = Ok (a, InlineModifier.mk b d').
Proof.
  unfold FullInliner.withModifier. split.
  - destruct (m _) as [[a0 [b0 d0]]|why]; [|done]. intros [= -> ->]. by eexists.
  - by intros [b ->].
Qed.

(** [handleFunction] leaves alone what is not a function to visit. *)
Lemma handleFunction_nested_framed n :
  ∀ p d d', FullInliner.handleFunction_nested n p d = Ok (tt, d') → framed [] d d'.
Proof.
  induction n as [|n IH]; intros p d d' H.
  - destruct (decide (p ∈ pending d)) as [Hp|Hp].
    + simpl in H. by rewrite bool_decide_eq_true_2 in H.
    + rewrite handleFunction_nested_skip in H by done. injection H as <-.
      apply framed_refl.
  - destruct (decide (p ∈ pending d)) as [Hp|Hp].
    2:{ rewrite handleFunction_nested_skip in H by done. injection H as <-.
        apply framed_refl. }
    rewrite handleFunction_nested_go in H by done.
    apply bind_Ok in H as ([] & d0 & He & H). injection He as <-.
    apply bind_Ok in H as (f & d1 & Hread & H).
    unfold Driver.read in Hread.
    destruct (Driver.deref p (Driver.erase p d)) as [f0|] eqn:Hf; [|done].
    injection Hread as <- <-.
    apply bind_Ok in H as (body' & d2 & Hm & H). injection H as <-.
    apply withModifier_Ok in Hm as (b & Hm).
    unfold Driver.deref in Hf. simpl in Hf.
    destruct (Driver.m_ast d !! p) as [[| | |l name ps rs lb body| |]|] eqn:Hs;
      try done.
    injection Hf as <-. simpl in Hm.
    eapply (op_Block_stores (FullInliner.handleFunction_nested n) name IH p
              (λ b, FunctionDefinition l name ps rs lb b)) in Hm as [_ [Hsub Hast]];
      [|apply storesAt_bodyRef| |exact Hs].
    2:{ simpl. intros Hin. by apply list_elem_of_filter in Hin as [Hne _]. }
    simpl in Hsub, Hast. split.
    + intros q Hq. apply Hsub in Hq. by apply list_elem_of_filter in Hq as [_ Hq].
    + intros i _ Hi. apply Hast.
      * intros Hin. apply list_elem_of_singleton in Hin as ->. done.
      * intros Hin. apply Hi. by apply list_elem_of_filter in Hin as [_ Hin].
Qed.

Lemma handleFunction_framed p d d' :
  FullInliner.handleFunction p d = Ok (tt, d') → framed [] d d'.
Proof. rewrite handleFunction_unfold. apply handleFunction_nested_framed. Qed.

(** The modifier of the pass keeps the tree in step with what it returns:
    after the visit of a node, the tree holds at the reference the node
    that the visit returned, and the statements elsewhere that did not
    belong to a function to visit are as they were.  The embedding hands
    the node on by value and stores it through the reference; the two
    are the same node. *)
Lemma visit_stores_result own (C : Expression → Statement) cur r e im e' im' :
  storesAt own C r →
  own ∉ pending (InlineModifier.m_driver im) →
  Driver.m_ast (InlineModifier.m_driver im) !! own = Some (C e) →
  InlineModifier.visit FullInliner.handleFunction cur r e im = Ok (e', im') →
  Driver.m_ast (InlineModifier.m_driver im') !! own = Some (C e')
  ∧ framed [own] (InlineModifier.m_driver im) (InlineModifier.m_driver im').
Proof. apply visit_stores, handleFunction_framed. Qed.

Lemma visitStatement_stores_result own (C : Statement → Statement) cur r s im s' im' :
  storesAt own C r →
  own ∉ pending (InlineModifier.m_driver im) →
  Driver.m_ast (InlineModifier.m_driver im) !! own = Some (C s) →
  InlineModifier.visitStatement FullInliner.handleFunction cur r s im = Ok (s', im') →
  Driver.m_ast (InlineModifier.m_driver im') !! own = Some (C s')
  ∧ framed [own] (InlineModifier.m_driver im) (InlineModifier.m_driver im').
Proof. apply visitStatement_stores, handleFunction_framed. Qed.
End coherence_facts.

Section constructor_facts.
Local Abbreviation pending := Driver.m_functionsToVisit.

Lemma definesFunction_dec name s : definesFunction name s ∨ ¬ definesFunction name s.
Proof.
  destruct s as [| | |l n ps rs lb b| |];
    try (right; intros (? & ? & ? & ? & ? & ?); discriminate).
  destruct (decide (n = name)) as [->|Hne].
  - left. by eexists _, _, _, _, _.
  - right. intros (? & ? & ? & ? & ? & [= ]). done.
Qed.

Lemma lastDefinition_cons_S name s rest j :
  lastDefinition name (s :: rest) (S j) ↔ lastDefinition name rest j.
Proof.
  unfold lastDefinition. simpl. split; intros [Hs Hlast]; (split; [done|]).
  - intros k s' Hk. apply (Hlast (S k)). lia.
  - intros [|k] s' Hk; [lia|]. simpl. apply Hlast. lia.
Qed.

Lemma lastDefinition_cons_0 name s rest :
  lastDefinition name (s :: rest) 0 ↔
  definesFunction name s ∧ ∀ k s', rest !! k = Some s' → ¬ definesFunction name s'.
Proof.
  unfold lastDefinition. simpl. split.
  - intros [(s0 & [= <-] & Hd) Hlast]. split; [done|].
    intros k s' Hk. apply (Hlast (S k)); [lia|done].
  - intros [Hd Hnone]. split; [by exists s|].
    intros [|k] s' Hk; [lia|]. simpl. apply Hnone.
Qed.

Lemma lastDefinition_exists name statements :
  (∃ j, lastDefinition name statements j)
  ∨ (∀ k s', statements !! k = Some s' → ¬ definesFunction name s').
Proof.
  induction statements as [|s rest [[j Hj]|Hnone]].
  - right. by intros k s'.
  - left. exists (S j). by apply (lastDefinition_cons_S name s rest j).
  - destruct (definesFunction_dec name s) as [Hd|Hnd].
    + left. exists 0. by apply (lastDefinition_cons_0 name s rest).
    + right. intros [|k] s'; simpl; [by intros [= <-]|apply Hnone].
Qed.

Lemma collectFunctions_cons_defines i l name ps rs lb b rest fs tv :
  FullInliner.collectFunctions i (FunctionDefinition l name ps rs lb b :: rest) fs tv
  = FullInliner.collectFunctions (S i) rest (<[name := i]> fs) (tv ++ [i]).
Proof. reflexivity. Qed.

(** The table the loop of the constructor builds: a name is mapped to the
    position of the last definition of that name among the statements, or
    to what it was mapped to before if there is none. *)
Lemma collectFunctions_lookup statements :
  ∀ i fs tv name p,
    (FullInliner.collectFunctions i statements fs tv).1 !! name = Some p ↔
    (∃ j, p = i + j ∧ lastDefinition name statements j)
    ∨ (fs !! name = Some p
       ∧ ∀ k s', statements !! k = Some s' → ¬ definesFunction name s').
Proof.
  induction statements as [|s rest IH]; intros i fs tv name p.
  - simpl. split; [intros H; right; by split|].
    intros [(j & _ & (s & Hs & _) & _)|[H _]]; done.
  - assert (∀ fs' tv',
      (FullInliner.collectFunctions (S i) rest fs' tv').1 !! name = Some p ↔
      (∃ j, p = i + S j ∧ lastDefinition name (s :: rest) (S j))
      ∨ (fs' !! name = Some p
         ∧ ∀ k s', rest !! k = Some s' → ¬ definesFunction name s')) as Hrest.
    { intros fs' tv'. rewrite IH. apply or_iff_compat_r.
      split; intros (j & -> & Hj); exists j; (split; [lia|]);
        by apply (lastDefinition_cons_S name s rest j). }
    destruct (definesFunction_dec name s) as [Hd|Hnd].
    + destruct Hd as (l & ps & rs & lb & b & ->).
      rewrite collectFunctions_cons_defines, Hrest, lookup_insert_eq. split.
      * intros [(j & -> & Hj)|[[= <-] Hnone]]; left; [by exists (S j)|].
        exists 0. split; [lia|]. apply (lastDefinition_cons_0 name _ rest). split; [|done].
        by eexists _, _, _, _, _.
      * intros [(j & -> & Hj)|[_ Hnone]].
        -- destruct j as [|j]; [right|left; by exists j].
           apply lastDefinition_cons_0 in Hj as [_ Hnone]. split; [f_equal; lia|done].
        -- exfalso. apply (Hnone 0 _ eq_refl). by eexists _, _, _, _, _.
    + assert (∃ fs' tv', FullInliner.collectFunctions i (s :: rest) fs tv
                = FullInliner.collectFunctions (S i) rest fs' tv'
                ∧ fs' !! name = fs !! name) as (fs' & tv' & -> & Hfs).
      { destruct s as [| | |l n ps rs lb b| |]; try by eexists _, _.
        eexists _, _. split; [reflexivity|]. apply lookup_insert_ne.
        intros ->. apply Hnd. by eexists _, _, _, _, _. }
      rewrite Hrest, Hfs. split.
      * intros [(j & -> & Hj)|[Hp Hnone]]; [left; by exists (S j)|right].
        split; [done|]. intros [|k] s'; simpl; [by intros [= <-]|apply Hnone].
      * intros [(j & -> & Hj)|[Hp Hnone]].
        -- destruct j as [|j]; [|left; by exists j].
           apply lastDefinition_cons_0 in Hj as [Hd _]. done.
        -- right. split; [done|]. intros k s' Hk. by apply (Hnone (S k)).
Qed.

Lemma elem_of_functionPositions statements :
  ∀ i p, p ∈ functionPositions i statements ↔
         ∃ j s, p = i + j ∧ statements !! j = Some s ∧ isFunctionDefinition s = true.
Proof.
  induction statements as [|s rest IH]; intros i p.
  - simpl. split; [by intros ?%elem_of_nil|by intros (j & s & _ & ? & _)].
  - assert (p ∈ functionPositions (S i) rest ↔
            ∃ j s0, p = i + S j ∧ (s :: rest) !! S j = Some s0
                    ∧ isFunctionDefinition s0 = true) as Hrest.
    { rewrite IH. split; intros (j & s0 & -> & H); exists j, s0; (split; [lia|done]). }
    assert (p ∈ functionPositions i (s :: rest) ↔
            (p = i ∧ isFunctionDefinition s = true) ∨ p ∈ functionPositions (S i) rest)
      as ->.
    { destruct s; simpl; try (split; [by right|by intros [[_ ?]|?]]).
      rewrite elem_of_cons. split; (intros [?|?]; [left|by right]); [done|tauto]. }
    rewrite Hrest. split.
    + intros [[-> Hs]|(j & s0 & -> & H)]; [exists 0, s|by exists (S j), s0].
      split; [lia|done].
    + intros (j & s0 & -> & Hj & Hs0). destruct j as [|j]; [left|right; by exists j, s0].
      simpl in Hj. injection Hj as ->. split; [lia|done].
Qed.

Lemma functionPositions_increasing statements :
  ∀ i a b p q, functionPositions i statements !! a = Some p →
               functionPositions i statements !! b = Some q → a < b → p < q.
Proof.
  induction statements as [|s rest IH]; intros i a b p q Ha Hb Hab; simpl in *; [done|].
  destruct s; try by eapply IH.
  destruct b as [|b]; [lia|]. simpl in Hb. destruct a as [|a]; simpl in Ha.
  - injection Ha as <-. apply list_elem_of_lookup_2, functionPositions_ge in Hb. lia.
  - eapply IH; [done..|lia].
Qed.
End constructor_facts.

(** X1. The constructor (lines 42-54).  The inliner starts with the tree and
    the used names it was given; the functions it has yet to visit are exactly
    the positions of the top-level function definitions, each once and in
    the order of the tree; and the function table maps a name to the
    position of the last top-level definition of that name, so a name has
    an entry exactly if some top-level statement defines it. *)
Theorem FullInliner_new_collects_definitions (_ast : list Statement) (names : gset string) :
  let d := FullInliner.new _ast names in
  Driver.m_ast d = _ast
  ∧ Driver.m_usedNames d = names
  ∧ (∀ a b p q, Driver.m_functionsToVisit d !! a = Some p →
                Driver.m_functionsToVisit d !! b = Some q → a < b → p < q)
  ∧ (∀ p, p ∈ Driver.m_functionsToVisit d ↔
          ∃ s, _ast !! p = Some s ∧ isFunctionDefinition s = true)
  ∧ (∀ name p, Driver.m_functions d !! name = Some p ↔ lastDefinition name _ast p)
  ∧ (∀ name, is_Some (Driver.m_functions d !! name) ↔
             ∃ s, s ∈ _ast ∧ definesFunction name s).
Proof.
  intros d.
  destruct (new_toVisit _ast names) as (Hv & _ & Hast & Hused). fold d in Hv, Hast, Hused.
  assert (∀ name p, Driver.m_functions d !! name = Some p ↔ lastDefinition name _ast p)
    as Htable.
  { intros name p. subst d. unfold FullInliner.new.
    pose proof (collectFunctions_lookup _ast 0 ∅ [] name p) as H.
    destruct (FullInliner.collectFunctions 0 _ast ∅ []) as [fs tv]. simpl in *.
    rewrite H. split.
    - intros [(j & -> & Hj)|[Hp _]]; [done|]. by rewrite lookup_empty in Hp.
    - intros Hp. left. by exists p. }
  split; [done|]. split; [done|]. rewrite Hv.
  split; [apply functionPositions_increasing|].
  split.
  { intros p. rewrite elem_of_functionPositions. split.
    - intros (j & s & -> & H). by exists s.
    - intros (s & H). by exists p, s. }
  split; [done|].
  intros name. split.
  - intros [p Hp]. apply Htable in Hp as [(s & Hs & Hd) _].
    exists s. split; [by eapply list_elem_of_lookup_2|done].
  - intros (s & Hin & Hd).
    destruct (lastDefinition_exists name _ast) as [[j Hj]|Hnone].
    + exists j. by apply Htable.
    + apply list_elem_of_lookup in Hin as [k Hk]. by destruct (Hnone k s).
Qed.

Section buffer_facts.
Variable h : nat → SE Driver.t unit.
Variable cur : string.
Local Abbreviation visit := (InlineModifier.visit h cur).
Local Abbreviation IM := InlineModifier.mk.
Local Abbreviation buffer := InlineModifier.m_statementsToPrefix.
Local Abbreviation driverOf := InlineModifier.m_driver.

Lemma withPrefix_nil {A} (outcome : Result (A * InlineModifier.t)) :
  withPrefix [] outcome = outcome.
Proof. by destruct outcome as [[a [b d]]|why]. Qed.

Lemma withPrefix_app {A} saved b (outcome : Result (A * InlineModifier.t)) :
  withPrefix saved (withPrefix b outcome) = withPrefix (saved ++ b) outcome.
Proof. destruct outcome as [[a [b' d]]|why]; simpl; [|done]. by rewrite app_assoc. Qed.

Lemma appendsOnly_ret {A} (a : A) : appendsOnly (ret a).
Proof. intros saved d. simpl. unfold ret. simpl. by rewrite app_nil_r. Qed.

Lemma appendsOnly_throw {A} why : appendsOnly (@throw InlineModifier.t A why).
Proof. by intros saved d. Qed.

Lemma appendsOnly_bind {A B} (m : SE InlineModifier.t A) (k : A → SE InlineModifier.t B) :
  appendsOnly m → (∀ a, appendsOnly (k a)) → appendsOnly (bind m k).
Proof.
  intros Hm Hk saved d. unfold bind. rewrite Hm.
  destruct (m (IM [] d)) as [[a [b d1]]|why]; simpl; [|done].
  rewrite (Hk a (saved ++ b)), (Hk a b). by rewrite withPrefix_app.
Qed.

Lemma appendsOnly_driver {A} (m : SE Driver.t A) : appendsOnly (InlineModifier.driver m).
Proof.
  intros saved d. unfold InlineModifier.driver. simpl.
  destruct (m d) as [[a d1]|why]; simpl; [|done]. by rewrite app_nil_r.
Qed.

Lemma appendsOnly_append statements : appendsOnly (InlineModifier.append statements).
Proof. by intros saved d. Qed.

Lemma appendsOnly_visitRecursively (v : SE InlineModifier.t Expression) :
  appendsOnly (InlineModifier.visitRecursively v).
Proof.
  intros saved d. unfold InlineModifier.visitRecursively. simpl.
  destruct (v (IM [] d)) as [[e [b d1]]|why]; simpl; [|done]. by rewrite app_nil_r.
Qed.

Lemma appendsOnly_visitArguments_loop v r hints types rest :
  ∀ done m prefix,
    appendsOnly (InlineModifier.visitArguments_loop v r hints types done rest m prefix).
Proof.
  induction rest as [|arg rest IH]; intros done m prefix; simpl.
  - apply appendsOnly_ret.
  - apply appendsOnly_bind; [apply appendsOnly_visitRecursively|].
    intros [arg1 ip]. destruct (negb (InlineModifier.isEmpty ip)); [apply IH|].
    destruct m; [|apply IH].
    apply appendsOnly_bind; [apply appendsOnly_driver|]. intros var.
    apply appendsOnly_bind; [apply appendsOnly_driver|]. intros _. apply IH.
Qed.

Lemma appendsOnly_visitArguments v r args hints types m :
  appendsOnly (InlineModifier.visitArguments v r args hints types m).
Proof.
  apply appendsOnly_bind; [apply appendsOnly_visitArguments_loop|].
  intros [args' prefix].
  apply appendsOnly_bind; [apply appendsOnly_append|]. intros _. apply appendsOnly_ret.
Qed.

Lemma appendsOnly_inlineCall r l p args :
  appendsOnly (InlineModifier.inlineCall r l p args).
Proof.
  unfold InlineModifier.inlineCall.
  apply appendsOnly_bind; [apply appendsOnly_driver|]. intros f.
  apply appendsOnly_bind.
  { destruct (_ !! 0); [apply appendsOnly_ret|apply appendsOnly_throw]. }
  intros rv.
  apply appendsOnly_bind.
  { destruct (InlineModifier.bindParameters _ _ _ _);
      [apply appendsOnly_ret|apply appendsOnly_throw]. }
  intros repl.
  apply appendsOnly_bind; [apply appendsOnly_driver|]. intros result.
  apply appendsOnly_bind; [apply appendsOnly_append|]. intros _.
  apply appendsOnly_bind; [apply appendsOnly_driver|]. intros f'.
  apply appendsOnly_bind; [apply appendsOnly_driver|]. intros copy.
  apply appendsOnly_bind; [apply appendsOnly_append|]. intros _.
  apply appendsOnly_bind; [apply appendsOnly_driver|]. intros _.
  apply appendsOnly_ret.
Qed.

Lemma appendsOnly_visit r e : appendsOnly (visit r e).
Proof.
  destruct e as [l i args|l f args|l n|l v ty].
  - rewrite (visit_FunctionalInstruction h cur).
    apply appendsOnly_bind; [apply appendsOnly_visitArguments|].
    intros args'. apply appendsOnly_ret.
  - rewrite (visit_FunctionCall h cur). cbn zeta.
    apply appendsOnly_bind; [apply appendsOnly_driver|]. intros p.
    apply appendsOnly_bind; [apply appendsOnly_driver|]. intros _.
    apply appendsOnly_bind; [apply appendsOnly_driver|]. intros fd.
    apply appendsOnly_bind; [apply appendsOnly_visitArguments|]. intros args'.
    destruct (negb _); [apply appendsOnly_ret|apply appendsOnly_inlineCall].
  - apply appendsOnly_ret.
  - apply appendsOnly_ret.
Qed.
End buffer_facts.

(** X2. [visit(Expression&)] and [visitArguments] (lines 117-197) never look at
    the statements already waiting in [m_statementsToPrefix] and never drop
    or reorder them: run with any statements [saved] in the buffer, either
    of them fails or returns exactly as it does on the empty buffer, and
    leaves [saved] followed by the statements it leaves there.  So what
    [visitRecursively] hands back is what the visit would have appended. *)
Theorem visit_only_appends_to_buffer
    (h : nat → SE Driver.t unit) (cur : string) (saved : list Statement) (d : Driver.t) :
  (∀ (r : Driver.Ref Expression) (e : Expression),
     InlineModifier.visit h cur r e (InlineModifier.mk saved d)
     = withPrefix saved (InlineModifier.visit h cur r e (InlineModifier.mk [] d)))
  ∧ (∀ (r : Driver.Ref (list Expression)) (args : list Expression)
       (hints types : list string) (m : bool),
       InlineModifier.visitArguments (InlineModifier.visit h cur) r args hints types m
         (InlineModifier.mk saved d)
       = withPrefix saved
           (InlineModifier.visitArguments (InlineModifier.visit h cur) r args hints types m
              (InlineModifier.mk [] d)))
  ∧ (∀ (r : Driver.Ref Expression) (e e' : Expression) (b' : list Statement)
       (d' : Driver.t),
       InlineModifier.visit h cur r e (InlineModifier.mk saved d)
         = Ok (e', InlineModifier.mk b' d') ↔
       ∃ added,
         InlineModifier.visitRecursively (InlineModifier.visit h cur r e)
           (InlineModifier.mk saved d) = Ok ((e', added), InlineModifier.mk saved d')
         ∧ b' = saved ++ added).
Proof.
  split; [intros r e; apply appendsOnly_visit|].
  split; [intros r args hints types m; apply appendsOnly_visitArguments|].
  intros r e e' b' d'. rewrite (appendsOnly_visit h cur r e saved d).
  unfold InlineModifier.visitRecursively. simpl.
  destruct (InlineModifier.visit h cur r e (InlineModifier.mk [] d)) as [[e1 [b1 d1]]|why];
    simpl; split.
  - intros [= -> <- ->]. by exists b1.
  - intros (added & [= -> -> ->] & ->). done.
  - done.
  - by intros (added & ? & _).
Qed.

Lemma visit_only_appends_to_buffer_witness :
  InlineModifier.visit FullInliner.handleFunction "" Sample.identity_initializer
    (Sample.call "id" [Sample.num "5"])
    (InlineModifier.mk [Sample.set "r" (Sample.num "0")]
       (FullInliner.new Sample.identity Sample.identity_names))
  = withPrefix [Sample.set "r" (Sample.num "0")]
      (InlineModifier.visit FullInliner.handleFunction "" Sample.identity_initializer
         (Sample.call "id" [Sample.num "5"])
         (InlineModifier.mk [] (FullInliner.new Sample.identity Sample.identity_names))).
Proof.
  exact (proj1 (visit_only_appends_to_buffer FullInliner.handleFunction ""
                  [Sample.set "r" (Sample.num "0")]
                  (FullInliner.new Sample.identity Sample.identity_names))
           Sample.identity_initializer (Sample.call "id" [Sample.num "5"])).
Defined.

Section argument_facts.
Variable h : nat → SE Driver.t unit.
Variable cur : string.
Local Abbreviation visit := (InlineModifier.visit h cur).
Local Abbreviation IM := InlineModifier.mk.
Local Abbreviation buffer := InlineModifier.m_statementsToPrefix.
Local Abbreviation driverOf := InlineModifier.m_driver.
Local Abbreviation used := Driver.m_usedNames.
Local Abbreviation loop := (InlineModifier.visitArguments_loop visit).

Lemma visitRecursively_callFree r e im :
  callFree e = true →
  InlineModifier.visitRecursively (visit r e) im = Ok ((e, []), im).
Proof.
  intros He. unfold InlineModifier.visitRecursively.
  rewrite (visit_callFree h cur e He). by destruct im.
Qed.

(** What the loop of [visitArguments] does to the arguments in general:
    their number stays, those already passed stay, the statements gathered
    stay, and under the order to move to the front an argument without a
    call becomes an identifier declared among the statements. *)
Lemma visitArguments_loop_shape r hints types rest :
  ∀ done m prefix im args' prefix' im',
    loop r hints types done rest m prefix im = Ok ((args', prefix'), im') →
    length args' = length done + length rest
    ∧ take (length done) args' = done
    ∧ (∃ q, prefix' = q ++ prefix)
    ∧ buffer im' = buffer im
    ∧ (m = true → ∀ j a, rest !! j = Some a → callFree a = true →
         ∃ v, args' !! (length done + j) = Some (Identifier (locationOf a) v)
              ∧ argumentDeclaration types (length done + j) a v ∈ prefix').
Proof.
  induction rest as [|arg rest IH]; intros done m prefix im args' prefix' im' H.
  - rewrite (visitArguments_loop_nil h cur) in H. injection H as <- <- <-.
    simpl. split; [lia|]. split; [by rewrite firstn_all|].
    split; [by exists []|]. split; [done|]. by intros _ j a.
  - rewrite (visitArguments_loop_cons h cur) in H. cbn zeta in H.
    apply bind_Ok in H as ([arg1 ip] & im1 & Hrec & H).
    assert (buffer im1 = buffer im) as Hb1.
    { apply visitRecursively_Ok in Hrec as (d' & _ & ->). done. }
    assert (∀ x m0 pf im0,
              loop r hints types (done ++ [x]) rest m0 pf im0 = Ok ((args', prefix'), im') →
              length args' = length done + length (arg :: rest)
              ∧ take (length done) args' = done
              ∧ args' !! length done = Some x
              ∧ (∃ q, prefix' = q ++ pf)
              ∧ buffer im' = buffer im0
              ∧ (m0 = true → ∀ j a, rest !! j = Some a → callFree a = true →
                   ∃ v, args' !! (length done + S j) = Some (Identifier (locationOf a) v)
                        ∧ argumentDeclaration types (length done + S j) a v ∈ prefix'))
      as Hnext.
    { intros x m0 pf im0 Hl. apply IH in Hl as (Hlen & Htake & Hq & Hbuf & Hm).
      rewrite length_app in Hlen, Htake, Hm. simpl in *.
      split; [lia|]. split; [|split; [|split; [done|split; [done|]]]].
      - apply (f_equal (take (length done))) in Htake.
        rewrite take_take, take_app_length in Htake.
        by replace (length done `min` (length done + 1)) with (length done) in Htake by lia.
      - apply (f_equal (λ l, l !! length done)) in Htake.
        rewrite lookup_take_lt in Htake by lia.
        rewrite Htake. by rewrite lookup_app_r, Nat.sub_diag by lia.
      - intros Hm0 j a Ha Hcf. destruct (Hm Hm0 j a Ha Hcf) as (v & Hv & Hin).
        exists v. by replace (length done + S j) with (length done + 1 + j) by lia. }
    destruct (InlineModifier.isEmpty ip) eqn:Hip; simpl in H.
    + destruct m.
      * apply bind_Ok in H as (var & im2 & Hvar & H).
        rewrite newName_Ok in Hvar. cbv zeta in Hvar. injection Hvar as Hvar <-.
        apply bind_Ok in H as ([] & im3 & Hass & H).
        rewrite assign_Ok in Hass. injection Hass as <-.
        apply Hnext in H as (Hlen & Htake & Hx & [q ->] & Hbuf & Hm).
        split; [done|]. split; [done|].
        split; [exists (q ++ [VariableDeclaration (locationOf arg1)
                               [mkTypedName (locationOf arg1) var
                                  (default "" (types !! length done))] (Some arg1)]);
                by rewrite <- app_assoc|].
        split; [by rewrite Hbuf|].
        intros _ [|j] a Ha Hcf; [|by apply Hm].
        simpl in Ha. injection Ha as ->.
        rewrite (visitRecursively_callFree _ _ _ Hcf) in Hrec. injection Hrec as <- _ _.
        exists var. rewrite Nat.add_0_r. split; [done|].
        apply elem_of_app. right. apply elem_of_cons. by left.
      * apply Hnext in H as (Hlen & Htake & Hx & Hq & Hbuf & Hm).
        split; [done|]. split; [done|]. split; [done|]. split; [congruence|]. done.
    + apply Hnext in H as (Hlen & Htake & Hx & [q ->] & Hbuf & Hm).
      split; [done|]. split; [done|].
      split; [exists (q ++ ip); by rewrite <- app_assoc|].
      split; [congruence|].
      intros _ [|j] a Ha Hcf; [|by apply Hm].
      simpl in Ha. injection Ha as ->.
      rewrite (visitRecursively_callFree _ _ _ Hcf) in Hrec. by injection Hrec as _ <- _.
Qed.

(** The loop on arguments without calls, under the order to move them to
    the front: each is named afresh and declared, the last one first. *)
Lemma visitArguments_loop_moves r hints types rest :
  writesTree r →
  forallb callFree rest = true →
  ∀ done prefix im,
    ∃ names im',
      loop r hints types done rest true prefix im
      = Ok ((done ++ zip_with (λ a v, Identifier (locationOf a) v) rest names,
             reverse (imap (λ i av, argumentDeclaration types (length done + i) av.1 av.2)
                        (zip rest names)) ++ prefix), im')
      ∧ length names = length rest
      ∧ NoDup names
      ∧ (∀ v, v ∈ names → v ≠ "" ∧ v ∉ used (driverOf im))
      ∧ used (driverOf im') = list_to_set names ∪ used (driverOf im)
      ∧ buffer im' = buffer im.
Proof.
  intros Hr. induction rest as [|arg rest IH]; intros Hcf done prefix im.
  - exists [], im. rewrite (visitArguments_loop_nil h cur). simpl.
    rewrite app_nil_r. split; [done|]. split; [done|]. split; [constructor|].
    split; [intros v Hv; by apply elem_of_nil in Hv|].
    split; [by rewrite (left_id_L ∅ (∪))|done].
  - simpl in Hcf. apply andb_true_iff in Hcf as [Harg Hrest].
    rewrite (visitArguments_loop_cons h cur). cbn zeta.
    rewrite (bind_step _ _ _ _ _ (visitRecursively_callFree _ arg im Harg)).
    cbn [negb InlineModifier.isEmpty]. cbv iota.
    rewrite (bind_step _ _ _ _ _ (newName_Ok _ _)). cbv zeta.
    rewrite (bind_step _ _ _ _ _ (assign_Ok _ _ _)).
    set (var := newName_name (used (driverOf im)) (default "" (hints !! length done))).
    destruct (newName_name_fresh (used (driverOf im)) (default "" (hints !! length done)))
      as [Hne Hfresh]. fold var in Hne, Hfresh.
    match goal with |- context [loop _ _ _ _ _ _ ?pf ?im2] =>
      destruct (IH Hrest (done ++ [Identifier (locationOf arg) var]) pf im2)
        as (names & im' & Hloop & Hlen & Hnd & Hnames & Hused & Hbuf)
    end.
    simpl in Hnames, Hused, Hbuf.
    destruct (Hr (done ++ Identifier (locationOf arg) var :: rest)
                (Driver.set_usedNames ({[var]} ∪ used (driverOf im)) (driverOf im)))
      as [ast Hast].
    rewrite Hast in Hnames, Hused. simpl in Hnames, Hused.
    exists (var :: names), im'. rewrite Hloop. simpl.
    split.
    { f_equal. f_equal. f_equal; [by rewrite <- app_assoc|].
      rewrite reverse_cons, <- app_assoc. simpl. rewrite Nat.add_0_r.
      f_equal. f_equal. apply imap_ext. intros i [a v] _. simpl.
      rewrite length_app. simpl. f_equal. lia. }
    split; [by rewrite Hlen|].
    split.
    { constructor; [|done]. intros Hin. apply Hnames in Hin as [_ Hin].
      apply Hin, elem_of_union_l, elem_of_singleton. done. }
    split.
    { intros v [->|Hv]%elem_of_cons; [done|].
      apply Hnames in Hv as [? Hv]. split; [done|].
      intros Hin. by apply Hv, elem_of_union_r. }
    split; [|done]. rewrite Hused.
    change (list_to_set names ∪ ({[var]} ∪ used (driverOf im))
            = {[var]} ∪ list_to_set names ∪ used (driverOf im)).
    by rewrite (assoc_L (∪)), (comm_L (∪) (list_to_set names)).
Qed.
End argument_facts.

(** X3. [visitArguments] (lines 162-197) keeps the number of the arguments
    and the statements already in the buffer, to which it only appends.
    Entered with the order to move the arguments to the front, it leaves
    every argument in which no call occurs as an identifier at the
    argument's location, and among the statements it appends is the
    declaration of that identifier, of the type given for the position (or
    the empty type when none is given), initialized with the argument. *)
Theorem visitArguments_keeps_count_moves_callFree
    (h : nat → SE Driver.t unit) (cur : string) (r : Driver.Ref (list Expression))
    (args : list Expression) (hints types : list string) (moveToFront : bool)
    (im : InlineModifier.t) (args' : list Expression) (im' : InlineModifier.t) :
  InlineModifier.visitArguments (InlineModifier.visit h cur) r args hints types
    moveToFront im = Ok (args', im') →
  length args' = length args
  ∧ ∃ added,
      InlineModifier.m_statementsToPrefix im'
      = InlineModifier.m_statementsToPrefix im ++ added
      ∧ (moveToFront = true →
         ∀ i a, args !! i = Some a → callFree a = true →
           ∃ v, args' !! i = Some (Identifier (locationOf a) v)
                ∧ argumentDeclaration types i a v ∈ added).
Proof.
  intros H. apply (visitArguments_Ok h cur) in H as (prefix & im1 & Hloop & ->).
  apply visitArguments_loop_shape in Hloop as (Hlen & _ & _ & Hbuf & Hm).
  split; [done|]. exists prefix. simpl. split; [by rewrite Hbuf|]. exact Hm.
Qed.

Lemma visitArguments_keeps_count_moves_callFree_witness :
  ∃ args' im',
    InlineModifier.visitArguments (InlineModifier.visit FullInliner.handleFunction "")
      Sample.threeArguments_reference Sample.threeArguments_arguments
      ["f_a"; "f_b"; "f_c"] [""; ""; ""] true
      (InlineModifier.mk []
         (FullInliner.new Sample.threeArgumentsInlined Sample.threeArgumentsInlined_names))
    = Ok (args', im')
    ∧ length args' = 3
    ∧ ∃ v, args' !! 2 = Some (Identifier Sample.at0 v).
Proof.
  eexists _, _. split; [vm_compute; reflexivity|].
  edestruct (visitArguments_keeps_count_moves_callFree FullInliner.handleFunction ""
               Sample.threeArguments_reference Sample.threeArguments_arguments
               ["f_a"; "f_b"; "f_c"] [""; ""; ""] true
               (InlineModifier.mk []
                  (FullInliner.new Sample.threeArgumentsInlined
                     Sample.threeArgumentsInlined_names)))
    as (Hlen & added & _ & Hmoved); [vm_compute; reflexivity|].
  split; [exact Hlen|].
  destruct (Hmoved eq_refl 2 (Sample.num "30") eq_refl eq_refl) as (v & Hv & _).
  exists v. exact Hv.
Defined.

(** X4. [visitArguments] (lines 162-197) on arguments in which no call
    occurs, entered with the order to move them to the front, always
    returns: every argument is replaced by an identifier at its location,
    the names are new, non-empty and pairwise different, they are what the
    used names have grown by, and the buffer has grown by the declarations
    of the identifiers, that of the last argument first. *)
Theorem visitArguments_moves_all_callFree
    (h : nat → SE Driver.t unit) (cur : string) (r : Driver.Ref (list Expression))
    (args : list Expression) (hints types : list string) (im : InlineModifier.t) :
  writesTree r →
  forallb callFree args = true →
  ∃ names im',
    InlineModifier.visitArguments (InlineModifier.visit h cur) r args hints types true im
    = Ok (zip_with (λ a v, Identifier (locationOf a) v) args names, im')
    ∧ length names = length args
    ∧ NoDup names
    ∧ (∀ v, v ∈ names →
         v ≠ "" ∧ v ∉ Driver.m_usedNames (InlineModifier.m_driver im))
    ∧ Driver.m_usedNames (InlineModifier.m_driver im')
      = list_to_set names ∪ Driver.m_usedNames (InlineModifier.m_driver im)
    ∧ InlineModifier.m_statementsToPrefix im'
      = InlineModifier.m_statementsToPrefix im
        ++ reverse (imap (λ i av, argumentDeclaration types i av.1 av.2) (zip args names)).
Proof.
  intros Hr Hcf.
  destruct (visitArguments_loop_moves h cur r hints types args Hr Hcf [] [] im)
    as (names & im1 & Hloop & Hlen & Hnd & Hnames & Hused & Hbuf).
  exists names, (InlineModifier.mk (InlineModifier.m_statementsToPrefix im1 ++
      reverse (imap (λ i av, argumentDeclaration types i av.1 av.2) (zip args names)))
      (InlineModifier.m_driver im1)).
  split.
  { apply (visitArguments_Ok h cur). eexists _, im1. split; [exact Hloop|].
    simpl. by rewrite app_nil_r. }
  simpl. rewrite Hbuf. done.
Qed.

Lemma visitArguments_moves_all_callFree_witness :
  ∃ names im',
    InlineModifier.visitArguments (InlineModifier.visit FullInliner.handleFunction "")
      Sample.threeArguments_reference [Sample.num "10"; Sample.var "x"]
      ["f_a"; ""] ["u256"] true
      (InlineModifier.mk []
         (FullInliner.new Sample.threeArgumentsInlined Sample.threeArgumentsInlined_names))
    = Ok (zip_with (λ a v, Identifier (locationOf a) v)
            [Sample.num "10"; Sample.var "x"] names, im')
    ∧ length names = 2
    ∧ NoDup names.
Proof.
  edestruct (visitArguments_moves_all_callFree FullInliner.handleFunction ""
               Sample.threeArguments_reference [Sample.num "10"; Sample.var "x"]
               ["f_a"; ""] ["u256"]
               (InlineModifier.mk []
                  (FullInliner.new Sample.threeArgumentsInlined
                     Sample.threeArgumentsInlined_names)))
    as (names & im' & Hv & Hlen & Hnd & _).
  - intros a d. eexists. reflexivity.
  - reflexivity.
  - exists names, im'. split; [exact Hv|]. split; [exact Hlen|exact Hnd].
Defined.

Section copier_facts.
Variable pfx : string.
Local Abbreviation usedOf := BodyCopier.m_nameDispenser.
Local Abbreviation replOf := BodyCopier.m_variableReplacements.

Lemma dispensed_nil used : dispensed used [] used.
Proof.
  split; [constructor|]. split; [intros x Hx; by apply elem_of_nil in Hx|].
  simpl. by rewrite (left_id_L ∅ (∪)).
Qed.

Lemma dispensed_app used names1 used1 names2 used2 :
  dispensed used names1 used1 → dispensed used1 names2 used2 →
  dispensed used (names1 ++ names2) used2.
Proof.
  intros (Hnd1 & Hf1 & ->) (Hnd2 & Hf2 & ->). split; [|split].
  - apply NoDup_app. split; [done|]. split; [|done].
    intros x Hx1 Hx2. apply Hf2 in Hx2 as [_ Hx2]. apply Hx2.
    apply elem_of_union_l. by apply elem_of_list_to_set.
  - intros x [Hx|Hx]%elem_of_app; [by apply Hf1|].
    apply Hf2 in Hx as [? Hx]. split; [done|]. intros ?. by apply Hx, elem_of_union_r.
  - rewrite list_to_set_app_L. apply set_eq. intros x. rewrite !elem_of_union. tauto.
Qed.

Lemma dispensed_subseteq used names used' : dispensed used names used' → used ⊆ used'.
Proof. intros (_ & _ & ->). apply union_subseteq_r. Qed.

Lemma registerVariables_cons v vs c :
  BodyCopier.registerVariables pfx (v :: vs) c =
  BodyCopier.registerVariables pfx vs
    (BodyCopier.mk (<[tn_name v := newName_name (usedOf c) (pfx +:+ tn_name v)]> (replOf c))
       ({[newName_name (usedOf c) (pfx +:+ tn_name v)]} ∪ usedOf c)).
Proof. reflexivity. Qed.

(** The loop of the copier on a declaration of pairwise different names:
    the names they are mapped to afterwards are exactly what has been
    dispensed. *)
Lemma registerVariables_dispensed variables :
  ∀ c c',
    BodyCopier.registerVariables pfx variables c = Ok (tt, c') →
    NoDup (map tn_name variables) →
    dispensed (usedOf c)
      (map (λ v, BodyCopier.translateIdentifier (replOf c') (tn_name v)) variables)
      (usedOf c').
Proof.
  induction variables as [|v vs IH]; intros c c' H Hnd.
  - injection H as <-. apply dispensed_nil.
  - rewrite registerVariables_cons in H. simpl in Hnd. apply NoDup_cons in Hnd as [Hv Hnd].
    set (fresh := newName_name (usedOf c) (pfx +:+ tn_name v)) in *.
    destruct (newName_name_fresh (usedOf c) (pfx +:+ tn_name v)) as [Hne Hfresh].
    fold fresh in Hne, Hfresh.
    pose proof (registerVariables_spec _ _ _ _ H) as (_ & _ & Hother).
    specialize (Hother (tn_name v) Hv). simpl in Hother.
    rewrite lookup_insert_eq in Hother.
    apply IH in H; [|done]. simpl in H. simpl.
    unfold BodyCopier.translateIdentifier at 1. rewrite Hother.
    apply (dispensed_app _ [fresh] ({[fresh]} ∪ usedOf c)); [|done].
    split; [apply NoDup_singleton|]. split.
    + by intros x ->%list_elem_of_singleton.
    + simpl. by rewrite (right_id_L ∅ (∪)).
Qed.

Lemma translateVector_cons_Ok (translate : Statement → SE BodyCopier.t Statement)
    s rest c ss' c' :
  BodyCopier.translateVector translate (s :: rest) c = Ok (ss', c') ↔
  ∃ s' c1 rest',
    translate s c = Ok (s', c1)
    ∧ BodyCopier.translateVector translate rest c1 = Ok (rest', c')
    ∧ ss' = s' :: rest'.
Proof.
  simpl. split.
  - intros H. apply bind_Ok in H as (s' & c1 & Hs & H).
    apply bind_Ok in H as (rest' & c2 & Hrest & H). injection H as <- <-.
    by exists s', c1, rest'.
  - intros (s' & c1 & rest' & Hs & Hrest & ->).
    rewrite (bind_step _ _ _ _ _ Hs). by rewrite (bind_step _ _ _ _ _ Hrest).
Qed.

Lemma translateVector_dispensed ss :
  Forall (λ s, ∀ c s' c',
            declaresDistinct s = true →
            BodyCopier.translateStatement pfx s c = Ok (s', c') →
            dispensed (usedOf c) (declaredNames s') (usedOf c')
            ∧ length (declaredNames s') = length (declaredNames s)) ss →
  ∀ c ss' c',
    forallb declaresDistinct ss = true →
    BodyCopier.translateVector (BodyCopier.translateStatement pfx) ss c = Ok (ss', c') →
    dispensed (usedOf c) (concat (map declaredNames ss')) (usedOf c')
    ∧ length (concat (map declaredNames ss')) = length (concat (map declaredNames ss)).
Proof.
  induction 1 as [|s ss Hs _ IH]; intros c ss' c' Hd H.
  - injection H as <- <-. split; [apply dispensed_nil|done].
  - simpl in Hd. apply andb_true_iff in Hd as [Hd Hds].
    apply translateVector_cons_Ok in H as (s' & c1 & rest' & H1 & Hrest & ->).
    destruct (Hs _ _ _ Hd H1) as [Hdisp1 Hlen1].
    destruct (IH _ _ _ Hds Hrest) as [Hdisp2 Hlen2].
    simpl. split; [by eapply dispensed_app|].
    rewrite !length_app. congruence.
Qed.

Lemma translateStatement_dispensed s :
  ∀ c s' c',
    declaresDistinct s = true →
    BodyCopier.translateStatement pfx s c = Ok (s', c') →
    dispensed (usedOf c) (declaredNames s') (usedOf c')
    ∧ length (declaredNames s') = length (declaredNames s).
Proof.
  induction s as [l e|l names v|l vars v|l n ps rs lb body IH
    |l lpre pre cnd lpost post lbody body IHpre IHpost IHbody|l ss IH]
    using Statement_nested_ind; intros c s' c' Hd H; simpl in H.
  - injection H as <- <-. split; [apply dispensed_nil|done].
  - injection H as <- <-. split; [apply dispensed_nil|done].
  - unfold BodyCopier.op_VariableDeclaration in H.
    apply bind_Ok in H as ([] & c1 & Hreg & H). injection H as <- <-.
    simpl in Hd. apply bool_decide_eq_true in Hd.
    apply registerVariables_dispensed in Hreg; [|done]. simpl.
    rewrite map_map. simpl. split; [done|]. by rewrite !length_map.
  - done.
  - simpl in Hd. apply andb_true_iff in Hd as [Hd Hdbody].
    apply andb_true_iff in Hd as [Hdpre Hdpost].
    apply bind_Ok in H as (pre' & c1 & Hpre & H).
    apply bind_Ok in H as (repl & c1' & Hg & H). injection Hg as <- <-.
    apply bind_Ok in H as (post' & c2 & Hpost & H).
    apply bind_Ok in H as (body' & c3 & Hbody & H). injection H as <- <-.
    destruct (translateVector_dispensed _ IHpre _ _ _ Hdpre Hpre) as [D1 L1].
    destruct (translateVector_dispensed _ IHpost _ _ _ Hdpost Hpost) as [D2 L2].
    destruct (translateVector_dispensed _ IHbody _ _ _ Hdbody Hbody) as [D3 L3].
    simpl. split.
    + eapply dispensed_app; [done|]. by eapply dispensed_app.
    + rewrite !length_app. congruence.
  - apply bind_Ok in H as (ss' & c1 & Hss & H). injection H as <- <-.
    simpl in Hd. simpl. by eapply translateVector_dispensed.
Qed.
End copier_facts.

(** X5. [BodyCopier] on a declaration (lines 213-218) and on a body.  The
    loop over the declared variables leaves the entries of the other names
    as they were; when the declaration declares no name twice, the names
    its variables are mapped to are exactly what the dispenser has handed
    out in between: non-empty, not in use before, pairwise different.
    Hence the copy of any statement none of whose declarations declares a
    name twice declares as many variables as the statement, all of them by
    names that are new and pairwise different, and the used names have
    grown by exactly those. *)
Theorem BodyCopier_declares_fresh_distinct_names (pfx : string) (c c' : BodyCopier.t) :
  (∀ variables,
     BodyCopier.registerVariables pfx variables c = Ok (tt, c') →
     (∀ x, x ∉ map tn_name variables →
           BodyCopier.m_variableReplacements c' !! x
           = BodyCopier.m_variableReplacements c !! x)
     ∧ (NoDup (map tn_name variables) →
        dispensed (BodyCopier.m_nameDispenser c)
          (map (λ v, BodyCopier.translateIdentifier
                       (BodyCopier.m_variableReplacements c') (tn_name v)) variables)
          (BodyCopier.m_nameDispenser c')))
  ∧ (∀ s s',
       declaresDistinct s = true →
       BodyCopier.translateStatement pfx s c = Ok (s', c') →
       dispensed (BodyCopier.m_nameDispenser c) (declaredNames s')
         (BodyCopier.m_nameDispenser c')
       ∧ length (declaredNames s') = length (declaredNames s)).
Proof.
  split.
  - intros variables H. split.
    + destruct (registerVariables_spec _ _ _ _ H) as (_ & _ & Hother). exact Hother.
    + intros Hnd. by apply (registerVariables_dispensed pfx variables c c').
  - intros s s'. apply translateStatement_dispensed.
Qed.

Lemma BodyCopier_declares_fresh_distinct_names_witness :
  ∃ s' c',
    BodyCopier.translateStatement "f_"
      (Block Sample.at0 [Sample.declare "x" (Sample.num "1");
                         Sample.declare "x" (Sample.var "x")])
      (BodyCopier.mk ∅ {["x"; "f_x"]}) = Ok (s', c')
    ∧ declaredNames s' = ["f_x_1"; "f_x_2"]
    ∧ NoDup (declaredNames s').
Proof.
  eexists _, _. split; [vm_compute; reflexivity|]. split; [reflexivity|].
  refine (proj1 (proj1 (proj2 (BodyCopier_declares_fresh_distinct_names "f_"
                                  (BodyCopier.mk ∅ {["x"; "f_x"]}) _)
                          (Block Sample.at0 [Sample.declare "x" (Sample.num "1");
                                             Sample.declare "x" (Sample.var "x")])
                          _ eq_refl _))).
  vm_compute; reflexivity.
Defined.

Section pointer_facts.
Local Abbreviation pending := Driver.m_functionsToVisit.
Local Abbreviation IM := InlineModifier.mk.
Local Abbreviation buffer := InlineModifier.m_statementsToPrefix.
Local Abbreviation driverOf := InlineModifier.m_driver.

Lemma sameHeader_refl s : sameHeader s s.
Proof. destruct s; simpl; tauto. Qed.

Lemma sameHeader_sym s s' : sameHeader s s' → sameHeader s' s.
Proof. destruct s, s'; simpl; try done; intuition congruence. Qed.

Lemma sameHeader_trans s1 s2 s3 : sameHeader s1 s2 → sameHeader s2 s3 → sameHeader s1 s3.
Proof.
  destruct s1, s2; simpl; try done; destruct s3; simpl; try done; intuition congruence.
Qed.

Lemma sameHeader_definesFunction name s s' :
  sameHeader s s' → definesFunction name s → definesFunction name s'.
Proof.
  intros H (l & ps & rs & lb & b & ->). destruct s'; try done.
  simpl in H. destruct H as (<- & <- & <- & <- & <-). by eexists _, _, _, _, _.
Qed.

Lemma sameHeader_isFunctionDefinition s s' :
  sameHeader s s' → isFunctionDefinition s = true → isFunctionDefinition s' = true.
Proof. by destruct s, s'. Qed.

Lemma sameHeader_validTopLevel s s' :
  sameHeader s s' → validTopLevel s' = validTopLevel s.
Proof. by destruct s, s'. Qed.

Lemma sameHeaders_refl statements : Forall2 sameHeader statements statements.
Proof. apply Forall_Forall2_diag, Forall_forall. intros s _. apply sameHeader_refl. Qed.

Lemma preserved_refl d : preserved d d.
Proof.
  split; [done|]. split; [done|]. split; [done|]. split; [apply sameHeaders_refl|].
  by split.
Qed.

Lemma preserved_trans d1 d2 d3 : preserved d1 d2 → preserved d2 d3 → preserved d1 d3.
Proof.
  intros (Hf1 & Hu1 & Hp1 & Ha1 & Hl1 & Hk1) (Hf2 & Hu2 & Hp2 & Ha2 & Hl2 & Hk2).
  split; [congruence|]. split; [by etrans|]. split; [by auto|].
  split; [eapply Forall2_trans; [|done..]; apply sameHeader_trans|].
  split; [lia|]. intros p Hp. rewrite (Hk2 p Hp). by apply Hk1, Hp2.
Qed.

Lemma preserved_lookup d d' i s :
  preserved d d' → Driver.m_ast d !! i = Some s →
  ∃ s', Driver.m_ast d' !! i = Some s' ∧ sameHeader s s'.
Proof. intros (_ & _ & _ & Ha & _) Hs. by eapply Forall2_lookup_l. Qed.

Lemma preserved_set_usedNames d used' :
  Driver.m_usedNames d ⊆ used' → preserved d (Driver.set_usedNames used' d).
Proof.
  intros Hu. split; [done|]. split; [done|]. split; [done|].
  split; [apply sameHeaders_refl|]. by split.
Qed.

Lemma preserved_erase p d : preserved d (Driver.erase p d).
Proof.
  split; [done|]. split; [done|]. split.
  { intros q Hq. simpl in Hq. by apply list_elem_of_filter in Hq as [_ Hq]. }
  split; [apply sameHeaders_refl|]. split; [apply length_filter|done].
Qed.

Lemma preserved_insert d i s0 s :
  i ∉ pending d →
  Driver.m_ast d !! i = Some s0 → sameHeader s0 s →
  preserved d (Driver.set_ast (λ ast, <[i := s]> ast) d).
Proof.
  intros Hi H0 Hs. split; [done|]. split; [done|]. split; [done|]. simpl. split.
  { rewrite <- (list_insert_id (Driver.m_ast d) i s0 H0) at 1.
    apply Forall2_insert; [apply sameHeaders_refl|done]. }
  split; [done|]. intros p Hp. apply list_lookup_insert_ne. by intros ->.
Qed.

Lemma wellFormed_stable : stable wellFormed.
Proof.
  intros d d' [Ht Hp] Hpres. pose proof Hpres as (Hf & _ & Hpend & _). split.
  - intros name p Hn. rewrite Hf in Hn. destruct (Ht _ _ Hn) as (s & Hs & Hd).
    destruct (preserved_lookup _ _ _ _ Hpres Hs) as (s' & Hs' & Hh).
    exists s'. split; [done|]. by eapply sameHeader_definesFunction.
  - intros p Hin. destruct (Hp _ (Hpend _ Hin)) as (s & Hs & Hd).
    destruct (preserved_lookup _ _ _ _ Hpres Hs) as (s' & Hs' & Hh).
    exists s'. split; [done|]. by eapply sameHeader_isFunctionDefinition.
Qed.

Lemma deref_is_Some p d :
  is_Some (Driver.deref p d) ↔
  ∃ s, Driver.m_ast d !! p = Some s ∧ isFunctionDefinition s = true.
Proof.
  unfold Driver.deref. split.
  - intros [f Hf]. destruct (Driver.m_ast d !! p) as [s|]; [|done].
    exists s. split; [done|]. by destruct s.
  - intros (s & -> & Hs). by destruct s.
Qed.

Lemma definesFunction_isFunctionDefinition name s :
  definesFunction name s → isFunctionDefinition s = true.
Proof. by intros (? & ? & ? & ? & ? & ->). Qed.

Section generic.
Context {S : Type} (driverOf : S → Driver.t).

Lemma preserves_ret {A} J (a : A) : preserves driverOf J (ret a).
Proof. intros s _. apply preserved_refl. Qed.

Lemma preserves_throw {A} J why :
  why ≠ InvalidPointer → preserves driverOf J (@throw S A why).
Proof. by intros Hw s _. Qed.

Lemma preserves_gets {A} J (f : S → A) : preserves driverOf J (gets f).
Proof. intros s _. apply preserved_refl. Qed.

Lemma preserves_learn {A B} J (J' : A → Driver.t → Prop) (m : SE S A) (k : A → SE S B) :
  (∀ s, J (driverOf s) →
        match m s with
        | Ok (a, s') => preserved (driverOf s) (driverOf s') ∧ J' a (driverOf s')
        | Fatal why => why ≠ InvalidPointer
        end) →
  (∀ a, preserves driverOf (J' a) (k a)) →
  preserves driverOf J (bind m k).
Proof.
  intros Hm Hk s Hs. unfold bind. specialize (Hm s Hs).
  destruct (m s) as [[a s1]|why]; [|done]. destruct Hm as [Hp HJ'].
  specialize (Hk a s1 HJ'). destruct (k a s1) as [[b s2]|why]; [|done].
  by eapply preserved_trans.
Qed.

Lemma preserves_bind {A B} J (m : SE S A) (k : A → SE S B) :
  stable J → preserves driverOf J m → (∀ a, preserves driverOf J (k a)) →
  preserves driverOf J (bind m k).
Proof.
  intros HJ Hm Hk. apply (preserves_learn J (λ _, J)); [|done].
  intros s Hs. specialize (Hm s Hs). destruct (m s) as [[a s1]|why]; [|done].
  split; [done|]. by eapply HJ.
Qed.

Lemma preserves_weaken {A} (J J' : Driver.t → Prop) (m : SE S A) :
  (∀ d, J d → J' d) → preserves driverOf J' m → preserves driverOf J m.
Proof. intros HJ Hm s Hs. apply Hm, HJ, Hs. Qed.

Lemma preserves_if {A} J (b : bool) (m1 m2 : SE S A) :
  preserves driverOf J m1 → preserves driverOf J m2 →
  preserves driverOf J (if b then m1 else m2).
Proof. by destruct b. Qed.
End generic.

(** The copier never gives up a used name. *)
Lemma translateVector_grows pfx ss :
  Forall (λ s, ∀ c s' c', BodyCopier.translateStatement pfx s c = Ok (s', c') →
                BodyCopier.m_nameDispenser c ⊆ BodyCopier.m_nameDispenser c') ss →
  ∀ c ss' c',
    BodyCopier.translateVector (BodyCopier.translateStatement pfx) ss c = Ok (ss', c') →
    BodyCopier.m_nameDispenser c ⊆ BodyCopier.m_nameDispenser c'.
Proof.
  induction 1 as [|s ss Hs _ IH]; intros c ss' c' H.
  - by injection H as _ <-.
  - apply translateVector_cons_Ok in H as (s' & c1 & rest' & H1 & Hrest & _).
    etrans; [by eapply Hs|by eapply IH].
Qed.

Lemma translateStatement_grows pfx s :
  ∀ c s' c', BodyCopier.translateStatement pfx s c = Ok (s', c') →
             BodyCopier.m_nameDispenser c ⊆ BodyCopier.m_nameDispenser c'.
Proof.
  induction s as [l e|l names v|l vars v|l n ps rs lb body IH
    |l lpre pre cnd lpost post lbody body IHpre IHpost IHbody|l ss IH]
    using Statement_nested_ind; intros c s' c' H; simpl in H.
  - by injection H as _ <-.
  - by injection H as _ <-.
  - unfold BodyCopier.op_VariableDeclaration in H.
    apply bind_Ok in H as ([] & c1 & Hreg & H). injection H as _ <-.
    by apply registerVariables_spec in Hreg as [? _].
  - done.
  - apply bind_Ok in H as (pre' & c1 & Hpre & H).
    apply bind_Ok in H as (repl & c1' & Hg & H). injection Hg as _ <-.
    apply bind_Ok in H as (post' & c2 & Hpost & H).
    apply bind_Ok in H as (body' & c3 & Hbody & H). injection H as _ <-.
    etrans; [exact (translateVector_grows _ _ IHpre _ _ _ Hpre)|].
    etrans; [exact (translateVector_grows _ _ IHpost _ _ _ Hpost)|].
    exact (translateVector_grows _ _ IHbody _ _ _ Hbody).
  - apply bind_Ok in H as (ss' & c1 & Hss & H). injection H as _ <-.
    exact (translateVector_grows _ _ IH _ _ _ Hss).
Qed.

Lemma bindParameters_not_InvalidPointer ps args :
  ∀ i m, InlineModifier.bindParameters ps args i m ≠ Fatal InvalidPointer.
Proof.
  induction args as [|a rest IH]; intros i m H; simpl in H; [done|].
  destruct a; try done. destruct (ps !! i); [|done]. by eapply IH.
Qed.

(** References that keep the headers of the tree. *)
Section modifier.
Variable h : nat → SE Driver.t unit.
Variable cur : string.
Hypothesis h_preserves : ∀ p, preserves id wellFormed (h p).
Local Abbreviation visit := (InlineModifier.visit h cur).
Local Abbreviation visitStatement := (InlineModifier.visitStatement h cur).

Section invariant.
Variable J : Driver.t → Prop.
Hypothesis J_stable : stable J.
Hypothesis J_wellFormed : ∀ d, J d → wellFormed d.
Local Abbreviation preservesM := (preserves InlineModifier.m_driver J).

Lemma preserves_driver {A} (m : SE Driver.t A) :
  preserves id J m → preservesM (InlineModifier.driver m).
Proof.
  intros Hm im Him. unfold InlineModifier.driver. specialize (Hm (driverOf im) Him).
  by destruct (m (driverOf im)) as [[a d]|why].
Qed.

Lemma preserves_read p :
  (∀ d, J d → is_Some (Driver.deref p d)) →
  preservesM (InlineModifier.driver (Driver.read p)).
Proof.
  intros Hp. apply preserves_driver. intros d Hd. unfold Driver.read.
  destruct (Hp d Hd) as [f ->]. apply preserved_refl.
Qed.

Lemma preserves_assign {A} (r : Driver.Ref A) a :
  (∀ d, J d → preserved d (r a d)) → preservesM (InlineModifier.assign r a).
Proof. intros Hr im Him. rewrite assign_Ok. simpl. by apply Hr. Qed.

Lemma preserves_append statements : preservesM (InlineModifier.append statements).
Proof. intros im _. rewrite append_Ok. apply preserved_refl. Qed.

Lemma preserves_clear : preservesM InlineModifier.clear.
Proof. intros im _. rewrite clear_Ok. apply preserved_refl. Qed.

Lemma preserves_newName pfx : preservesM (InlineModifier.newName pfx).
Proof.
  intros im _. rewrite newName_Ok. simpl. apply preserved_set_usedNames.
  apply union_subseteq_r.
Qed.

Lemma preserves_copyBody pfx repl l statements :
  preservesM (InlineModifier.copyBody pfx repl l statements).
Proof.
  intros im _.
  destruct (InlineModifier.copyBody pfx repl l statements im) as [[s im']|why] eqn:H.
  - apply copyBody_Ok in H as (c' & Hc & ->). simpl. apply preserved_set_usedNames.
    by apply translateStatement_grows in Hc.
  - pose proof (copyBody_outcome pfx repl l statements im) as Ho.
    rewrite H in Ho. destruct Ho as [-> _]. done.
Qed.

Lemma preserves_visitRecursively (v : SE InlineModifier.t Expression) :
  preservesM v → preservesM (InlineModifier.visitRecursively v).
Proof.
  intros Hv im Him. unfold InlineModifier.visitRecursively.
  specialize (Hv (IM [] (driverOf im)) Him).
  by destruct (v _) as [[e im']|why].
Qed.

Lemma preserves_inlineCall r l p args :
  (∀ d, J d → is_Some (Driver.deref p d)) →
  (∀ a d, J d → preserved d (r a d)) →
  preservesM (InlineModifier.inlineCall r l p args).
Proof.
  intros Hp Hr. unfold InlineModifier.inlineCall.
  apply preserves_bind; [done|by apply preserves_read|]. intros f.
  apply preserves_bind; [done| |].
  { destruct (_ !! 0); [apply preserves_ret|by apply preserves_throw]. }
  intros rv. apply preserves_bind; [done| |].
  { destruct (InlineModifier.bindParameters _ _ _ _) as [m|why] eqn:H.
    - apply preserves_ret.
    - apply preserves_throw. intros ->. by apply bindParameters_not_InvalidPointer in H. }
  intros repl.
  apply preserves_bind; [done|apply preserves_newName|]. intros result.
  apply preserves_bind; [done|apply preserves_append|]. intros _.
  apply preserves_bind; [done|by apply preserves_read|]. intros f'.
  apply preserves_bind; [done|apply preserves_copyBody|]. intros copy.
  apply preserves_bind; [done|apply preserves_append|]. intros _.
  apply preserves_bind; [done|apply preserves_assign; intros d; apply Hr|]. intros _.
  apply preserves_ret.
Qed.

Lemma preserves_visitArguments_loop r hints types rest :
  (∀ a d, J d → preserved d (r a d)) →
  Forall (λ e, ∀ r, (∀ a d, J d → preserved d (r a d)) → preservesM (visit r e)) rest →
  ∀ done m prefix,
    preservesM (InlineModifier.visitArguments_loop visit r hints types done rest m prefix).
Proof.
  intros Hr. induction 1 as [|arg rest Harg _ IH]; intros done m prefix.
  - rewrite (visitArguments_loop_nil h cur). apply preserves_ret.
  - rewrite (visitArguments_loop_cons h cur). cbn zeta.
    apply preserves_bind; [done| |].
    { apply preserves_visitRecursively, Harg. intros a d. apply Hr. }
    intros [arg1 ip]. apply preserves_if; [apply IH|].
    apply preserves_if; [|apply IH].
    apply preserves_bind; [done|apply preserves_newName|]. intros var.
    apply preserves_bind; [done| |intros _; apply IH].
    apply preserves_assign. intros d. apply Hr.
Qed.

Lemma preserves_visitArguments r args hints types m :
  (∀ a d, J d → preserved d (r a d)) →
  Forall (λ e, ∀ r, (∀ a d, J d → preserved d (r a d)) → preservesM (visit r e)) args →
  preservesM (InlineModifier.visitArguments visit r args hints types m).
Proof.
  intros Hr Hargs. unfold InlineModifier.visitArguments.
  apply preserves_bind; [done|by apply preserves_visitArguments_loop|].
  intros [args' prefix].
  apply preserves_bind; [done|apply preserves_append|]. intros _. apply preserves_ret.
Qed.
End invariant.

Lemma preserves_visit e :
  ∀ J, stable J → (∀ d, J d → wellFormed d) →
  ∀ r, (∀ a d, J d → preserved d (r a d)) →
       preserves InlineModifier.m_driver J (visit r e).
Proof.
  induction e as [l i args IH|l f args IH|l x|l v ty] using Expression_nested_ind;
    intros J HJ Hwf r Hr.
  - rewrite (visit_FunctionalInstruction h cur).
    apply preserves_bind; [done| |intros args'; apply preserves_ret].
    apply preserves_visitArguments; [done|intros a d; apply Hr|].
    eapply Forall_impl; [exact IH|]. intros e He r' Hr'. by apply He.
  - rewrite (visit_FunctionCall h cur). cbn zeta.
    apply (preserves_learn _ J (λ p d, J d ∧ Driver.m_functions d !! f = Some p)).
    { intros im Him. unfold InlineModifier.driver, Driver.function.
      destruct (Driver.m_functions (driverOf im) !! f) as [p|] eqn:Hp; [|done].
      simpl. split; [apply preserved_refl|done]. }
    intros p.
    assert (stable (λ d, J d ∧ Driver.m_functions d !! f = Some p)) as HJ'.
    { intros d d' [Hd Hp] Hpres. split; [by eapply HJ|].
      destruct Hpres as [-> _]. done. }
    assert (∀ d, J d ∧ Driver.m_functions d !! f = Some p → wellFormed d) as Hwf'.
    { intros d [Hd _]. by apply Hwf. }
    assert (∀ d, J d ∧ Driver.m_functions d !! f = Some p → is_Some (Driver.deref p d))
      as Hderef.
    { intros d [Hd Hp]. apply deref_is_Some.
      destruct (Hwf d Hd) as [Ht _]. destruct (Ht _ _ Hp) as (s & Hs & Hdef).
      exists s. split; [done|]. by eapply definesFunction_isFunctionDefinition. }
    assert (∀ a d, J d ∧ Driver.m_functions d !! f = Some p → preserved d (r a d)) as Hr'.
    { intros a d [Hd _]. by apply Hr. }
    apply preserves_bind; [done| |]. 
    { apply preserves_driver. eapply preserves_weaken; [|apply h_preserves]. exact Hwf'. }
    intros _.
    apply preserves_bind; [done|by apply preserves_read|]. intros fd.
    apply preserves_bind; [done| |].
    { apply preserves_visitArguments; [done|intros a d; apply Hr'|].
      eapply Forall_impl; [exact IH|]. intros e He r0 Hr0. by apply He. }
    intros args'. apply preserves_if; [apply preserves_ret|].
    by apply preserves_inlineCall.
  - apply preserves_ret.
  - apply preserves_ret.
Qed.

Lemma preserves_op_Block_loop J r rest :
  stable J →
  (∀ a d, J d → preserved d (r a d)) →
  Forall (λ s, ∀ r, (∀ a d, J d → preserved d (r a d)) →
               preserves InlineModifier.m_driver J (visitStatement r s)) rest →
  ∀ done,
    preserves InlineModifier.m_driver J
      (InlineModifier.op_Block_loop visitStatement r done rest).
Proof.
  intros HJ Hr. induction 1 as [|s rest Hs _ IH]; intros done.
  - rewrite (op_Block_loop_nil h cur). apply preserves_ret.
  - rewrite (op_Block_loop_cons h cur).
    apply preserves_bind; [done|apply Hs; intros a d; apply Hr|]. intros s'.
    apply preserves_bind; [done|apply preserves_gets|]. intros prefix.
    apply preserves_if; [|apply IH].
    apply preserves_bind; [done|apply preserves_assign; intros d; apply Hr|]. intros _.
    apply preserves_bind; [done|apply preserves_clear|]. intros _. apply IH.
Qed.

(** A statement is visited through a reference that is stored to only
    with statements of the same header: what is asked of the reference is
    asked for those only. *)
Lemma preserves_visitStatement s :
  ∀ J, stable J → (∀ d, J d → wellFormed d) →
  ∀ r, (∀ s' d, sameHeader s s' → J d → preserved d (r s' d)) →
       preserves InlineModifier.m_driver J (visitStatement r s).
Proof.
  induction s as [l e|l names v|l vars v|l name ps rs lb body IH
    |l lpre pre cnd lpost post lbody body IHpre IHpost IHbody|l ss IH]
    using Statement_nested_ind; intros J HJ Hwf r Hr.
  - rewrite (visitStatement_ExpressionStatement h cur).
    apply preserves_bind; [done| |intros; apply preserves_ret].
    apply preserves_visit; [done..|]. intros a d. by apply Hr.
  - rewrite (visitStatement_Assignment h cur).
    apply preserves_bind; [done| |intros; apply preserves_ret].
    apply preserves_visit; [done..|]. intros a d. by apply Hr.
  - destruct v as [v|].
    + rewrite (visitStatement_VariableDeclaration_Some h cur).
      apply preserves_bind; [done| |intros; apply preserves_ret].
      apply preserves_visit; [done..|]. intros a d. apply Hr. simpl.
      split; [done|]. split; [done|]. split; intros _; by eexists.
    + apply preserves_ret.
  - rewrite (visitStatement_FunctionDefinition h cur).
    apply preserves_bind; [done| |intros; apply preserves_ret].
    apply preserves_op_Block_loop; [done|intros a d; by apply Hr|].
    eapply Forall_impl; [exact IH|]. intros s Hs r' Hr'. apply Hs; [done..|].
    intros s' d _. apply Hr'.
  - rewrite (visitStatement_ForLoop h cur), (op_ForLoop_unfold h cur).
    apply preserves_bind; [done| |].
    { apply preserves_op_Block_loop; [done|intros a d; by apply Hr|].
      eapply Forall_impl; [exact IHpre|]. intros s Hs r' Hr'. apply Hs; [done..|].
      intros s' d _. apply Hr'. }
    intros pre'. apply preserves_bind; [done| |].
    { apply preserves_op_Block_loop; [done|intros a d; by apply Hr|].
      eapply Forall_impl; [exact IHpost|]. intros s Hs r' Hr'. apply Hs; [done..|].
      intros s' d _. apply Hr'. }
    intros post'. apply preserves_bind; [done| |intros; apply preserves_ret].
    apply preserves_op_Block_loop; [done|intros a d; by apply Hr|].
    eapply Forall_impl; [exact IHbody|]. intros s Hs r' Hr'. apply Hs; [done..|].
    intros s' d _. apply Hr'.
  - rewrite (visitStatement_Block h cur).
    apply preserves_bind; [done| |intros; apply preserves_ret].
    apply preserves_op_Block_loop; [done|intros a d; by apply Hr|].
    eapply Forall_impl; [exact IH|]. intros s Hs r' Hr'. apply Hs; [done..|].
    intros s' d _. apply Hr'.
Qed.

Lemma preserves_op_Block J r statements :
  stable J → (∀ d, J d → wellFormed d) →
  (∀ a d, J d → preserved d (r a d)) →
  preserves InlineModifier.m_driver J (InlineModifier.op_Block h cur r statements).
Proof.
  intros HJ Hwf Hr. apply preserves_op_Block_loop; [done..|].
  apply Forall_forall. intros s _ r' Hr'. apply preserves_visitStatement; [done..|].
  intros s' d _. apply Hr'.
Qed.
End modifier.

Lemma preserves_withModifier {A} J (m : SE InlineModifier.t A) :
  preserves InlineModifier.m_driver J m → preserves id J (FullInliner.withModifier m).
Proof.
  intros Hm d Hd. unfold FullInliner.withModifier.
  specialize (Hm (IM [] d) Hd). by destruct (m _) as [[a im]|why].
Qed.

Lemma preserved_bodyRef p b d : p ∉ pending d → preserved d (Driver.bodyRef p b d).
Proof.
  intros Hp. unfold Driver.bodyRef, Driver.deref.
  destruct (Driver.m_ast d !! p) as [s|] eqn:Hs; [|apply preserved_refl].
  destruct s; try apply preserved_refl.
  unfold Driver.statementRef. eapply preserved_insert; [done..|]. simpl. tauto.
Qed.

Lemma preserves_handleFunction_nested n :
  ∀ p, preserves id wellFormed (FullInliner.handleFunction_nested n p).
Proof.
  induction n as [|n IH]; intros p d Hd.
  - simpl. destruct (negb _); [apply preserved_refl|done].
  - destruct (decide (p ∈ pending d)) as [Hp|Hp].
    2:{ rewrite handleFunction_nested_skip by done. apply preserved_refl. }
    rewrite handleFunction_nested_go by done.
    unfold bind at 1, modify at 1.
    pose proof (preserved_erase p d) as Herase.
    set (J := λ d : Driver.t,
           wellFormed d ∧ is_Some (Driver.deref p d) ∧ p ∉ pending d).
    assert (stable J) as HJ.
    { intros d1 d2 (Hwf & Hf & Hnot) Hpres. split; [by eapply wellFormed_stable|].
      split.
      - apply deref_is_Some in Hf as (s & Hs & Hdef).
        destruct (preserved_lookup _ _ _ _ Hpres Hs) as (s' & Hs' & Hh).
        apply deref_is_Some. exists s'. split; [done|].
        by eapply sameHeader_isFunctionDefinition.
      - intros Hin. apply Hnot. by apply Hpres. }
    assert (J (Driver.erase p d)) as HJe.
    { split; [by eapply wellFormed_stable|]. split.
      - apply deref_is_Some. destruct Hd as [_ Hpend]. exact (Hpend p Hp).
      - simpl. intros Hin. by apply list_elem_of_filter in Hin as [? _]. }
    assert (preserves id J
              (let* f := Driver.read p in
               FullInliner.withModifier
                 (InlineModifier.op_Block (FullInliner.handleFunction_nested n)
                    (Driver.fun_name f) (Driver.bodyRef p) (Driver.fun_body f));;
               ret tt)) as Hbody.
    { apply preserves_bind; [done| |].
      { intros d1 (_ & [f Hf] & _). unfold id in *. unfold Driver.read. rewrite Hf.
        apply preserved_refl. }
      intros f. apply preserves_bind; [done| |intros; apply preserves_ret].
      apply preserves_withModifier, preserves_op_Block; [done|done|by intros ? []|].
      intros b d1 (_ & _ & Hnot). by apply preserved_bodyRef. }
    specialize (Hbody (Driver.erase p d) HJe). unfold id in Hbody.
    destruct (bind _ _ (Driver.erase p d)) as [[[] d']|why]; [|done].
    by eapply preserved_trans.
Qed.

Lemma preserves_handleFunction p : preserves id wellFormed (FullInliner.handleFunction p).
Proof.
  intros d Hd. rewrite handleFunction_unfold.
  by apply (preserves_handleFunction_nested (length (pending d)) p d).
Qed.

Lemma preserves_topLevelBlock i l statements :
  preserves id
    (λ d, wellFormed d
          ∧ ∃ s', Driver.m_ast d !! i = Some s' ∧ sameHeader (Block l statements) s')
    (FullInliner.withModifier
       (InlineModifier.visitStatement FullInliner.handleFunction ""
          (Driver.statementRef i) (Block l statements))).
Proof.
  apply preserves_withModifier, preserves_visitStatement.
  - intros p. apply preserves_handleFunction.
  - intros d1 d2 [Hwf (s1 & Hs1 & Hh1)] Hpres. split; [by eapply wellFormed_stable|].
    destruct (preserved_lookup _ _ _ _ Hpres Hs1) as (s2 & Hs2 & Hh2).
    exists s2. split; [done|]. by eapply sameHeader_trans.
  - by intros ? [].
  - intros s' d Hs' [Hwf0 (s0 & Hs0 & Hh0)].
    unfold Driver.statementRef. eapply preserved_insert; [|done|].
    { intros Hin. destruct Hwf0 as [_ Hpend]. destruct (Hpend _ Hin) as (sf & Hsf & Hdef).
      rewrite Hs0 in Hsf. injection Hsf as <-. by destruct s0. }
    eapply sameHeader_trans; [by apply sameHeader_sym|done].
Qed.

(** The first loop of [run] does not get past a statement that is
    neither a block nor a function definition. *)
Lemma run_statements_invalid n :
  ∀ i d j s,
    wellFormed d → i ≤ j < i + n →
    Driver.m_ast d !! j = Some s → validTopLevel s = false →
    ∃ why, FullInliner.run_statements n i d = Fatal why.
Proof.
  induction n as [|n IH]; intros i d j s Hwf Hj Hs Hinv; [lia|].
  rewrite run_statements_S. unfold bind at 1, gets at 1.
  destruct (Driver.m_ast d !! i) as [si|] eqn:Hsi; [|by eexists].
  destruct si as [| | |l0 n0 ps rs lb b| |l statements]; try by eexists.
  - destruct (decide (j = i)) as [->|Hne]; [by simplify_eq|].
    apply (IH (S i) d j s); [done|lia|done..].
  - destruct (decide (j = i)) as [->|Hne]; [by simplify_eq|].
    pose proof (preserves_topLevelBlock i l statements d) as Hvisit.
    unfold id in Hvisit. unfold bind.
    destruct (FullInliner.withModifier _ d) as [[s1 d1]|why]; [|by eexists].
    assert (preserved d d1) as Hpres.
    { apply Hvisit. split; [done|]. exists (Block l statements). split; [done|].
      apply sameHeader_refl. }
    destruct (preserved_lookup _ _ _ _ Hpres Hs) as (s' & Hs' & Hh).
    apply (IH (S i) d1 j s'); [by eapply wellFormed_stable|lia|done|].
    by rewrite (sameHeader_validTopLevel _ _ Hh).
Qed.

(** With function definitions only before it, a statement that is
    neither a block nor a function definition fails the assertion. *)
Lemma run_statements_first_invalid n :
  ∀ i d j s,
    i ≤ j < i + n →
    (∀ k, i ≤ k < j →
          ∃ s, Driver.m_ast d !! k = Some s ∧ isFunctionDefinition s = true) →
    Driver.m_ast d !! j = Some s → validTopLevel s = false →
    FullInliner.run_statements n i d
    = Fatal (AssertionFailure
               "Invalid top-level element. Inline requires function hoister and grouper.").
Proof.
  induction n as [|n IH]; intros i d j s Hj Hdefs Hs Hinv; [lia|].
  rewrite run_statements_S. unfold bind at 1, gets at 1.
  destruct (decide (j = i)) as [->|Hne].
  - rewrite Hs. by destruct s.
  - destruct (Hdefs i) as (si & -> & Hsi); [lia|]. destruct si; try done.
    apply (IH (S i) d j s); [lia| |done..]. intros k Hk. apply Hdefs. lia.
Qed.

Lemma preserves_run_statements n :
  ∀ i, preserves id wellFormed (FullInliner.run_statements n i).
Proof.
  induction n as [|n IH]; intros i; [apply preserves_ret|].
  rewrite run_statements_S.
  apply (preserves_learn _ wellFormed
           (λ a d, wellFormed d
                   ∧ match a with
                     | Some s => ∃ s', Driver.m_ast d !! i = Some s' ∧ sameHeader s s'
                     | None => True
                     end)).
  { intros d Hd. simpl. split; [apply preserved_refl|]. split; [done|].
    destruct (Driver.m_ast d !! i) as [s|]; [|done]. exists s. split; [done|].
    apply sameHeader_refl. }
  intros [s|]; [|by apply preserves_throw].
  destruct s as [| | |l0 n0 ps rs lb b| |l statements]; try (by apply preserves_throw).
  { eapply preserves_weaken; [|apply IH]. by intros d []. }
  set (J := λ d : Driver.t,
         wellFormed d ∧ ∃ s', Driver.m_ast d !! i = Some s'
                              ∧ sameHeader (Block l statements) s').
  assert (stable J) as HJ.
  { intros d1 d2 [Hwf (s1 & Hs1 & Hh1)] Hpres. split; [by eapply wellFormed_stable|].
    destruct (preserved_lookup _ _ _ _ Hpres Hs1) as (s2 & Hs2 & Hh2).
    exists s2. split; [done|]. by eapply sameHeader_trans. }
  apply preserves_bind; [done| |].
  - apply preserves_withModifier, preserves_visitStatement;
      [intros p; apply preserves_handleFunction|done|by intros ? []|].
    intros s' d Hs' [Hwf0 (s0 & Hs0 & Hh0)].
    unfold Driver.statementRef. eapply preserved_insert; [|done|].
    { intros Hin. destruct Hwf0 as [_ Hpend]. destruct (Hpend _ Hin) as (sf & Hsf & Hdef).
      rewrite Hs0 in Hsf. injection Hsf as <-. by destruct s0. }
    eapply sameHeader_trans; [by apply sameHeader_sym|done].
  - intros _. eapply preserves_weaken; [|apply IH]. by intros d [].
Qed.

Lemma preserves_run_functions rounds :
  preserves id wellFormed (FullInliner.run_functions rounds).
Proof.
  induction rounds as [|rounds IH]; intros d Hd; simpl.
  - destruct (pending d); [apply preserved_refl|done].
  - destruct (pending d) as [|p ps]; [apply preserved_refl|].
    apply (preserves_bind id wellFormed (FullInliner.handleFunction p)
             (λ _, FullInliner.run_functions rounds) wellFormed_stable
             (preserves_handleFunction p) (λ _, IH) d Hd).
Qed.

Lemma preserves_run : preserves id wellFormed FullInliner.run.
Proof.
  unfold FullInliner.run. apply preserves_bind; [apply wellFormed_stable| |].
  - intros d Hd. by apply preserves_run_statements.
  - intros _ d Hd. by apply preserves_run_functions.
Qed.

Lemma wellFormed_new _ast names : wellFormed (FullInliner.new _ast names).
Proof.
  destruct (new_toVisit _ast names) as (Hv & _ & Hast & _). split.
  - intros name p Hp. rewrite Hast. revert Hp. unfold FullInliner.new.
    pose proof (collectFunctions_lookup _ast 0 ∅ [] name p) as H.
    destruct (FullInliner.collectFunctions 0 _ast ∅ []) as [fs tv]. simpl in *.
    intros Hp. apply H in Hp as [(j & -> & Hj & _)|[Hp _]]; [done|].
    by rewrite lookup_empty in Hp.
  - intros p Hp. rewrite Hv in Hp. rewrite Hast.
    apply elem_of_functionPositions in Hp as (j & s & -> & Hs & Hdef). by exists s.
Qed.
End pointer_facts.

(** X6. [run] from the state the constructor leaves (lines 42-78 and the
    modifier it runs).  The pass follows no invalid pointer: the functions
    it reads through the function table and through the set of the
    functions to visit are top-level function definitions at every moment.
    When it returns, the function table is the one the constructor built
    and still points to definitions of the names it maps, no used name has
    been given up, and the root block has as many statements as before,
    each with the header it had: a function keeps its name, its parameters
    and its return variables, a block stays a block. *)
Theorem run_keeps_pointers_valid (_ast : list Statement) (names : gset string) :
  match FullInliner.run (FullInliner.new _ast names) with
  | Ok (_, d') =>
      Driver.m_functions d' = Driver.m_functions (FullInliner.new _ast names)
      ∧ names ⊆ Driver.m_usedNames d'
      ∧ Forall2 sameHeader _ast (Driver.m_ast d')
      ∧ wellFormed d'
  | Fatal why => why ≠ InvalidPointer
  end.
Proof.
  pose proof (wellFormed_new _ast names) as Hwf.
  pose proof (preserves_run (FullInliner.new _ast names) Hwf) as H. unfold id in H.
  destruct (FullInliner.run _) as [[[] d']|why]; [|done].
  pose proof (wellFormed_stable _ _ Hwf H) as Hwf'.
  destruct H as (Hf & Hu & _ & Ha & _).
  destruct (new_toVisit _ast names) as (_ & _ & Hast & Hused).
  rewrite Hast in Ha. rewrite Hused in Hu. done.
Qed.

(** X7. [handleFunction] (lines 72-78) in a state with valid pointers.  It
    follows no invalid pointer, and when it returns the pointers are still
    valid, the function table is unchanged, no used name has been given
    up, every top-level statement has the header it had, no function has
    been put into the set of the functions to visit, the functions still
    to visit are exactly as they were, and so are the top-level statements
    that were not functions to visit. *)
Theorem handleFunction_keeps_pointers_valid (p : nat) (d : Driver.t) :
  wellFormed d →
  match FullInliner.handleFunction p d with
  | Ok (_, d') =>
      preserved d d'
      ∧ wellFormed d'
      ∧ ∀ i, i ∉ Driver.m_functionsToVisit d → Driver.m_ast d' !! i = Driver.m_ast d !! i
  | Fatal why => why ≠ InvalidPointer
  end.
Proof.
  intros Hwf. pose proof (preserves_handleFunction p d Hwf) as H. unfold id in H.
  destruct (FullInliner.handleFunction p d) as [[[] d']|why] eqn:Hh; [|done].
  split; [done|]. split; [by eapply wellFormed_stable|].
  apply handleFunction_framed in Hh as [_ Hframe].
  intros i Hi. apply Hframe; [apply not_elem_of_nil|done].
Qed.

Lemma handleFunction_keeps_pointers_valid_witness :
  match FullInliner.handleFunction 0
          (FullInliner.new Sample.nestedArgument Sample.nestedArgument_names) with
  | Ok (_, d') =>
      preserved (FullInliner.new Sample.nestedArgument Sample.nestedArgument_names) d'
      ∧ wellFormed d'
      ∧ ∀ i, i ∉ Driver.m_functionsToVisit
                   (FullInliner.new Sample.nestedArgument Sample.nestedArgument_names) →
             Driver.m_ast d' !! i
             = Driver.m_ast
                 (FullInliner.new Sample.nestedArgument Sample.nestedArgument_names) !! i
  | Fatal why => why ≠ InvalidPointer
  end.
Proof.
  apply (handleFunction_keeps_pointers_valid 0
           (FullInliner.new Sample.nestedArgument Sample.nestedArgument_names)).
  apply wellFormed_new.
Defined.

(** X8. The assertion of [run] on the top-level statements (lines 58-67).
    When some top-level statement is neither a block nor a function
    definition, the pass run from the state the constructor leaves does
    not return; and when all the statements before it are function
    definitions, the pass aborts with the assertion "Invalid top-level
    element. Inline requires function hoister and grouper." *)
Theorem run_rejects_invalid_top_level
    (_ast : list Statement) (names : gset string) (j : nat) (s : Statement) :
  _ast !! j = Some s → validTopLevel s = false →
  (∃ why, FullInliner.run (FullInliner.new _ast names) = Fatal why)
  ∧ (Forall (λ s, isFunctionDefinition s = true) (take j _ast) →
     FullInliner.run (FullInliner.new _ast names)
     = Fatal (AssertionFailure
                "Invalid top-level element. Inline requires function hoister and grouper.")).
Proof.
  intros Hs Hinv.
  destruct (new_toVisit _ast names) as (_ & _ & Hast & _).
  assert (j < length _ast) as Hj by (by eapply lookup_lt_Some).
  unfold FullInliner.run. rewrite <- Hast in Hs, Hj. split.
  - destruct (run_statements_invalid (length (Driver.m_ast (FullInliner.new _ast names)))
                0 (FullInliner.new _ast names) j s) as [why Hwhy];
      [apply wellFormed_new|lia|done..|].
    exists why. by apply bind_abort.
  - intros Hdefs. apply bind_abort.
    apply (run_statements_first_invalid _ 0 _ j s); [lia| |done..].
    intros k Hk. rewrite Hast.
    destruct (lookup_lt_is_Some_2 (take j _ast) k) as [sk Hsk].
    { rewrite length_take. rewrite Hast in Hj. lia. }
    exists sk. split.
    + rewrite lookup_take_lt in Hsk by lia. done.
    + by eapply (Forall_lookup_1 _ _ _ _ Hdefs).
Qed.

Lemma run_rejects_invalid_top_level_witness :
  FullInliner.run
    (FullInliner.new
       [Sample.function "id" ["x"] ["y"] [Sample.set "y" (Sample.var "x")];
        Sample.declare "r" (Sample.call "id" [Sample.num "5"])]
       Sample.identity_names)
  = Fatal (AssertionFailure
             "Invalid top-level element. Inline requires function hoister and grouper.").
Proof.
  apply (proj2 (run_rejects_invalid_top_level
                  [Sample.function "id" ["x"] ["y"] [Sample.set "y" (Sample.var "x")];
                   Sample.declare "r" (Sample.call "id" [Sample.num "5"])]
                  Sample.identity_names 1
                  (Sample.declare "r" (Sample.call "id" [Sample.num "5"]))
                  eq_refl eq_refl)).
  repeat constructor.
Defined.

Section callFree_run_facts.
Local Abbreviation pending := Driver.m_functionsToVisit.
Local Abbreviation IM := InlineModifier.mk.
Local Abbreviation buffer := InlineModifier.m_statementsToPrefix.
Local Abbreviation driverOf := InlineModifier.m_driver.

(** Where no call occurs there is nothing to inline: the first loop of
    [run] leaves the driver as it is. *)
Lemma run_statements_callFree n :
  ∀ i d,
    (∀ k, i ≤ k < i + n →
          ∃ s, Driver.m_ast d !! k = Some s
               ∧ validTopLevel s = true ∧ callFreeStatement s = true) →
    FullInliner.run_statements n i d = Ok (tt, d).
Proof.
  induction n as [|n IH]; intros i d Hall; [done|].
  rewrite run_statements_S. unfold bind at 1, gets at 1.
  destruct (Hall i) as (s & -> & Hvalid & Hcf); [lia|].
  assert (FullInliner.run_statements n (S i) d = Ok (tt, d)) as Hrest.
  { apply IH. intros k Hk. apply Hall. lia. }
  destruct s as [| | |l0 n0 ps rs lb b| |l statements]; try done.
  unfold bind, FullInliner.withModifier.
  by rewrite (visitStatement_callFree FullInliner.handleFunction "" _ Hcf).
Qed.

Lemma handleFunction_callFree p d l name ps rs lb body :
  p ∈ pending d →
  Driver.m_ast d !! p = Some (FunctionDefinition l name ps rs lb body) →
  forallb callFreeStatement body = true →
  FullInliner.handleFunction p d = Ok (tt, Driver.erase p d).
Proof.
  intros Hp Hs Hcf. rewrite (handleFunction_go p d Hp).
  unfold bind at 1, modify at 1.
  assert (Driver.read p (Driver.erase p d)
          = Ok (Driver.mkFun l name ps rs lb body, Driver.erase p d)) as Hread.
  { unfold Driver.read, Driver.deref. simpl. by rewrite Hs. }
  rewrite (bind_step _ _ _ _ _ Hread). simpl Driver.fun_body. simpl Driver.fun_name.
  unfold bind, FullInliner.withModifier.
  by rewrite (op_Block_callFree FullInliner.handleFunction name body Hcf).
Qed.

Lemma run_functions_callFree rounds :
  ∀ d,
    length (pending d) ≤ rounds →
    (∀ p, p ∈ pending d →
          ∃ l name ps rs lb body,
            Driver.m_ast d !! p = Some (FunctionDefinition l name ps rs lb body)
            ∧ forallb callFreeStatement body = true) →
    ∃ d', FullInliner.run_functions rounds d = Ok (tt, d')
          ∧ Driver.m_ast d' = Driver.m_ast d
          ∧ Driver.m_usedNames d' = Driver.m_usedNames d
          ∧ Driver.m_functions d' = Driver.m_functions d
          ∧ pending d' = [].
Proof.
  induction rounds as [|rounds IH]; intros d Hlen Hall.
  - destruct (pending d) eqn:Hp; [|simpl in Hlen; lia].
    exists d. simpl. by rewrite Hp.
  - simpl. destruct (pending d) as [|p ps] eqn:Hp; [by exists d|].
    rewrite <- Hp in Hall, Hlen.
    assert (p ∈ pending d) as Hin by (rewrite Hp; apply elem_of_cons; by left).
    destruct (Hall p Hin) as (l & name & prs & rs & lb & body & Hs & Hcf).
    rewrite (bind_step _ _ _ _ _ (handleFunction_callFree _ _ _ _ _ _ _ _ Hin Hs Hcf)).
    destruct (IH (Driver.erase p d)) as (d' & Hrun & Hast & Hused & Hfs & Hnil).
    + simpl. pose proof (length_filter_elem p _ Hin). lia.
    + intros q Hq. simpl in Hq. apply list_elem_of_filter in Hq as [_ Hq].
      apply (Hall q Hq).
    + exists d'. by rewrite Hrun.
Qed.
End callFree_run_facts.

(** X9. A module without calls is left as it is.  When every top-level
    statement is a block or a function definition and no call occurs in
    any of them, [run] (lines 56-70) from the state the constructor leaves
    returns, with the tree, the used names and the function table as they
    were and no function left to visit. *)
Theorem run_callFree_identity (_ast : list Statement) (names : gset string) :
  Forall (λ s, validTopLevel s = true ∧ callFreeStatement s = true) _ast →
  ∃ d',
    FullInliner.run (FullInliner.new _ast names) = Ok (tt, d')
    ∧ Driver.m_ast d' = _ast
    ∧ Driver.m_usedNames d' = names
    ∧ Driver.m_functions d' = Driver.m_functions (FullInliner.new _ast names)
    ∧ Driver.m_functionsToVisit d' = [].
Proof.
  intros Hall. set (d := FullInliner.new _ast names).
  destruct (new_toVisit _ast names) as (Hv & _ & Hast & Hused). fold d in Hv, Hast, Hused.
  assert (FullInliner.run_statements (length (Driver.m_ast d)) 0 d = Ok (tt, d)) as H1.
  { apply run_statements_callFree. intros k Hk. rewrite Hast in Hk |- *.
    destruct (lookup_lt_is_Some_2 _ast k) as [s Hs]; [lia|].
    exists s. split; [done|]. by apply (Forall_lookup_1 _ _ _ _ Hall Hs). }
  destruct (run_functions_callFree (length (Driver.m_functionsToVisit d)) d (le_n _))
    as (d' & H2 & Hast' & Hused' & Hfs' & Hnil).
  { intros p Hp. rewrite Hv in Hp.
    apply elem_of_functionPositions in Hp as (j & s & -> & Hs & Hdef).
    destruct (Forall_lookup_1 _ _ _ _ Hall Hs) as [_ Hcf].
    destruct s as [| | |l n ps rs lb body| |]; try done.
    exists l, n, ps, rs, lb, body. rewrite Hast. done. }
  exists d'. unfold FullInliner.run, bind. rewrite H1. split; [exact H2|].
  by rewrite Hast', Hused', Hast, Hused.
Qed.

Lemma run_callFree_identity_witness :
  ∃ d',
    FullInliner.run
      (FullInliner.new
         [Sample.function "id" ["x"] ["y"] [Sample.set "y" (Sample.var "x")];
          Block Sample.at0 [Sample.declare "r" (Sample.add (Sample.num "1") (Sample.num "2"))]]
         Sample.identity_names) = Ok (tt, d')
    ∧ Driver.m_ast d'
      = [Sample.function "id" ["x"] ["y"] [Sample.set "y" (Sample.var "x")];
         Block Sample.at0 [Sample.declare "r" (Sample.add (Sample.num "1") (Sample.num "2"))]].
Proof.
  destruct (run_callFree_identity
              [Sample.function "id" ["x"] ["y"] [Sample.set "y" (Sample.var "x")];
               Block Sample.at0
                 [Sample.declare "r" (Sample.add (Sample.num "1") (Sample.num "2"))]]
              Sample.identity_names) as (d' & Hrun & Hast & _).
  - repeat constructor.
  - exists d'. split; [exact Hrun|exact Hast].
Defined.

Section block_facts.
Variable h : nat → SE Driver.t unit.
Variable cur : string.
Local Abbreviation visit := (InlineModifier.visit h cur).
Local Abbreviation visitStatement := (InlineModifier.visitStatement h cur).
Local Abbreviation op_Block := (InlineModifier.op_Block h cur).
Local Abbreviation IM := InlineModifier.mk.
Local Abbreviation buffer := InlineModifier.m_statementsToPrefix.
Local Abbreviation driverOf := InlineModifier.m_driver.

(** The visit of a statement rewrites expressions and the statements of
    blocks, and nothing else of the statement. *)
Lemma visitStatement_sameHeader r s im s' im' :
  visitStatement r s im = Ok (s', im') → sameHeader s s'.
Proof.
  destruct s as [l e|l names v|l vars [v|]|l name ps rs lb body
    |l lpre pre cnd lpost post lbody body|l ss]; intros H.
  - rewrite (visitStatement_ExpressionStatement h cur) in H.
    apply bind_Ok in H as (e' & im1 & _ & H). by injection H as <- _.
  - rewrite (visitStatement_Assignment h cur) in H.
    apply bind_Ok in H as (e' & im1 & _ & H). by injection H as <- _.
  - rewrite (visitStatement_VariableDeclaration_Some h cur) in H.
    apply bind_Ok in H as (e' & im1 & _ & H). injection H as <- _. simpl.
    split; [done|]. split; [done|]. split; intros _; by eexists.
  - rewrite (visitStatement_VariableDeclaration_None h cur) in H.
    injection H as <- _. simpl. tauto.
  - rewrite (visitStatement_FunctionDefinition h cur) in H.
    apply bind_Ok in H as (b' & im1 & _ & H). by injection H as <- _.
  - rewrite (visitStatement_ForLoop h cur), (op_ForLoop_unfold h cur) in H.
    apply bind_Ok in H as (pre' & im1 & _ & H).
    apply bind_Ok in H as (post' & im2 & _ & H).
    apply bind_Ok in H as (body' & im3 & _ & H). by injection H as <- _.
  - rewrite (visitStatement_Block h cur) in H.
    apply bind_Ok in H as (b' & im1 & _ & H). by injection H as <- _.
Qed.

Lemma op_Block_loop_shape r rest :
  ∀ done im statements' im',
    InlineModifier.op_Block_loop visitStatement r done rest im = Ok (statements', im') →
    (rest = [] → im' = im)
    ∧ (rest ≠ [] → buffer im' = [])
    ∧ ∃ prefixes visited,
        length prefixes = length rest
        ∧ Forall2 sameHeader rest visited
        ∧ statements' = done ++ concat (zip_with (λ p s, p ++ [s]) prefixes visited).
Proof.
  induction rest as [|s rest IH]; intros done im statements' im' H.
  - rewrite (op_Block_loop_nil h cur) in H. injection H as <- <-.
    split; [done|]. split; [done|]. exists [], []. simpl.
    split; [done|]. split; [constructor|]. by rewrite app_nil_r.
  - rewrite (op_Block_loop_cons h cur) in H.
    apply bind_Ok in H as (s1 & im1 & Hs & H).
    apply visitStatement_sameHeader in Hs as Hh.
    apply bind_Ok in H as (prefix & im1' & Hg & H). injection Hg as <- <-.
    split; [done|].
    assert (∀ im2 p,
              buffer im2 = [] →
              InlineModifier.op_Block_loop visitStatement r (done ++ p ++ [s1]) rest im2
                = Ok (statements', im') →
              buffer im' = []
              ∧ ∃ prefixes visited,
                  length prefixes = length (s :: rest)
                  ∧ Forall2 sameHeader (s :: rest) visited
                  ∧ statements' = done ++ concat (zip_with (λ p s, p ++ [s]) prefixes visited))
      as Hnext.
    { intros im2 p Hb2 Hl. apply IH in Hl as (Hnil & Hcons & prefixes & visited & Hlen & Hv & ->).
      split.
      - destruct rest as [|s2 rest]; [by rewrite Hnil|by apply Hcons].
      - exists (p :: prefixes), (s1 :: visited). simpl.
        split; [by rewrite Hlen|]. split; [by constructor|].
        by rewrite <- !app_assoc. }
    destruct (InlineModifier.isEmpty (buffer im1)) eqn:Hempty; simpl in H.
    + apply (Hnext im1 []) in H as [Hb Hshape]; [by split|].
      by destruct (buffer im1).
    + apply bind_Ok in H as ([] & im2 & Hassign & H).
      rewrite assign_Ok in Hassign. injection Hassign as <-.
      apply bind_Ok in H as ([] & im3 & Hclear & H).
      rewrite clear_Ok in Hclear. injection Hclear as <-.
      apply (Hnext _ (buffer im1)) in H as [Hb Hshape]; [by split|done].
Qed.
End block_facts.

(** X10. [operator()(Block&)] (lines 98-115).  When the visit of a block
    returns, the block holds as many rewritten statements as it had
    statements, in the same order and each with the header of the
    statement it comes from, and each directly preceded by the statements
    inserted before it, if any: nothing is dropped and nothing is
    reordered.  The buffer is empty afterwards unless the block is empty,
    in which case nothing at all has happened. *)
Theorem op_Block_inserts_in_place
    (h : nat → SE Driver.t unit) (cur : string) (r : Driver.Ref (list Statement))
    (statements : list Statement) (im : InlineModifier.t)
    (statements' : list Statement) (im' : InlineModifier.t) :
  InlineModifier.op_Block h cur r statements im = Ok (statements', im') →
  (statements = [] → statements' = [] ∧ im' = im)
  ∧ (statements ≠ [] → InlineModifier.m_statementsToPrefix im' = [])
  ∧ ∃ prefixes visited,
      length prefixes = length statements
      ∧ Forall2 sameHeader statements visited
      ∧ statements' = concat (zip_with (λ p s, p ++ [s]) prefixes visited).
Proof.
  intros H. rewrite (op_Block_unfold h cur) in H.
  pose proof H as Hnil.
  apply op_Block_loop_shape in H as (Hsame & Hbuf & Hshape).
  split; [|by split].
  intros ->. rewrite (op_Block_loop_nil h cur) in Hnil. injection Hnil as <- <-. done.
Qed.

Lemma op_Block_inserts_in_place_witness :
  ∃ statements' im',
    InlineModifier.op_Block FullInliner.handleFunction ""
      (λ b, Driver.statementRef 1 (Block Sample.at0 b))
      [Sample.declare "r" (Sample.call "id" [Sample.num "5"])]
      (InlineModifier.mk [] (FullInliner.new Sample.identity Sample.identity_names))
    = Ok (statements', im')
    ∧ length statements' = 4
    ∧ InlineModifier.m_statementsToPrefix im' = [].
Proof.
  eexists _, _. split; [vm_compute; reflexivity|]. split; [reflexivity|].
  refine (proj1 (proj2 (op_Block_inserts_in_place FullInliner.handleFunction ""
                          (λ b, Driver.statementRef 1 (Block Sample.at0 b))
                          [Sample.declare "r" (Sample.call "id" [Sample.num "5"])]
                          (InlineModifier.mk []
                             (FullInliner.new Sample.identity Sample.identity_names))
                          _ _ _)) _).
  - vm_compute; reflexivity.
  - discriminate.
Defined.

Section failure_facts.
Local Abbreviation pending := Driver.m_functionsToVisit.
Local Abbreviation IM := InlineModifier.mk.
Local Abbreviation buffer := InlineModifier.m_statementsToPrefix.
Local Abbreviation driverOf := InlineModifier.m_driver.

Section generic.
Context {S : Type} (allowed : Exception → Prop).

Lemma failsOnlyWith_ret {A} (a : A) : failsOnlyWith allowed (@ret S A a).
Proof. by intros s why. Qed.

Lemma failsOnlyWith_throw {A} why : allowed why → failsOnlyWith allowed (@throw S A why).
Proof. by intros Hw s why' [= <-]. Qed.

Lemma failsOnlyWith_gets {A} (f : S → A) : failsOnlyWith allowed (gets f).
Proof. by intros s why. Qed.

Lemma failsOnlyWith_modify (f : S → S) : failsOnlyWith allowed (modify f).
Proof. by intros s why. Qed.

Lemma failsOnlyWith_bind {A B} (m : SE S A) (k : A → SE S B) :
  failsOnlyWith allowed m → (∀ a, failsOnlyWith allowed (k a)) →
  failsOnlyWith allowed (bind m k).
Proof.
  intros Hm Hk s why H. apply bind_Fatal in H as [H|(a & s1 & _ & H)].
  - by eapply Hm.
  - by eapply Hk.
Qed.

Lemma failsOnlyWith_if {A} (b : bool) (m1 m2 : SE S A) :
  failsOnlyWith allowed m1 → failsOnlyWith allowed m2 →
  failsOnlyWith allowed (if b then m1 else m2).
Proof. by destruct b. Qed.
End generic.

Lemma knownAssertion_hoisting : knownAssertion hoistingAssertion.
Proof. intros msg [= <-]. by right. Qed.

Section modifier.
Variable h : nat → SE Driver.t unit.
Variable cur : string.
Variable allowed : Exception → Prop.
Hypothesis allowed_OutOfRange : allowed OutOfRange.
Hypothesis allowed_InvalidPointer : allowed InvalidPointer.
Hypothesis allowed_IndexOutOfBounds : allowed IndexOutOfBounds.
Hypothesis allowed_BadGet : allowed BadGet.
Hypothesis allowed_hoisting : allowed hoistingAssertion.
Hypothesis h_fails : ∀ p, failsOnlyWith allowed (h p).
Local Abbreviation visit := (InlineModifier.visit h cur).
Local Abbreviation visitStatement := (InlineModifier.visitStatement h cur).
Local Abbreviation failsM := (@failsOnlyWith InlineModifier.t _ allowed).

Lemma failsOnlyWith_driver {A} (m : SE Driver.t A) :
  failsOnlyWith allowed m → failsM (InlineModifier.driver m).
Proof.
  intros Hm im why. unfold InlineModifier.driver.
  destruct (m (driverOf im)) as [[a d]|why'] eqn:H; [done|].
  intros [= <-]. by eapply Hm.
Qed.

Lemma failsOnlyWith_read p : failsOnlyWith allowed (Driver.read p).
Proof.
  intros d why. unfold Driver.read. destruct (Driver.deref p d); [done|].
  by intros [= <-].
Qed.

Lemma failsOnlyWith_function name : failsOnlyWith allowed (Driver.function name).
Proof.
  intros d why. unfold Driver.function. destruct (Driver.m_functions d !! name); [done|].
  by intros [= <-].
Qed.

Lemma failsOnlyWith_copyBody pfx repl l statements :
  failsM (InlineModifier.copyBody pfx repl l statements).
Proof.
  intros im why H. pose proof (copyBody_outcome pfx repl l statements im) as Ho.
  rewrite H in Ho. by destruct Ho as [-> _].
Qed.

Lemma failsOnlyWith_visitRecursively (v : SE InlineModifier.t Expression) :
  failsM v → failsM (InlineModifier.visitRecursively v).
Proof.
  intros Hv im why. unfold InlineModifier.visitRecursively.
  destruct (v _) as [[e im']|why'] eqn:H; [done|]. intros [= <-]. by eapply Hv.
Qed.

Lemma bindParameters_fails ps args :
  ∀ i m why, InlineModifier.bindParameters ps args i m = Fatal why →
             why = IndexOutOfBounds ∨ why = BadGet.
Proof.
  induction args as [|a rest IH]; intros i m why H; simpl in H; [done|].
  destruct a; try (injection H as <-; by right).
  destruct (ps !! i); [|injection H as <-; by left]. by eapply IH.
Qed.

Lemma failsOnlyWith_inlineCall r l p args :
  failsM (InlineModifier.inlineCall r l p args).
Proof.
  unfold InlineModifier.inlineCall.
  apply failsOnlyWith_bind; [apply failsOnlyWith_driver, failsOnlyWith_read|]. intros f.
  apply failsOnlyWith_bind.
  { destruct (_ !! 0); [apply failsOnlyWith_ret|by apply failsOnlyWith_throw]. }
  intros rv. apply failsOnlyWith_bind.
  { destruct (InlineModifier.bindParameters _ _ _ _) as [m|why] eqn:H.
    - apply failsOnlyWith_ret.
    - apply failsOnlyWith_throw.
      by apply bindParameters_fails in H as [->| ->]. }
  intros repl. apply failsOnlyWith_bind; [by intros im why|]. intros result.
  apply failsOnlyWith_bind; [by intros im why|]. intros _.
  apply failsOnlyWith_bind; [apply failsOnlyWith_driver, failsOnlyWith_read|]. intros f'.
  apply failsOnlyWith_bind; [apply failsOnlyWith_copyBody|]. intros copy.
  apply failsOnlyWith_bind; [by intros im why|]. intros _.
  apply failsOnlyWith_bind; [by intros im why|]. intros _.
  apply failsOnlyWith_ret.
Qed.

Lemma failsOnlyWith_visitArguments_loop r hints types rest :
  Forall (λ e, ∀ r, failsM (visit r e)) rest →
  ∀ done m prefix,
    failsM (InlineModifier.visitArguments_loop visit r hints types done rest m prefix).
Proof.
  induction 1 as [|arg rest Harg _ IH]; intros done m prefix.
  - rewrite (visitArguments_loop_nil h cur). apply failsOnlyWith_ret.
  - rewrite (visitArguments_loop_cons h cur). cbn zeta.
    apply failsOnlyWith_bind; [apply failsOnlyWith_visitRecursively, Harg|].
    intros [arg1 ip]. apply failsOnlyWith_if; [apply IH|].
    apply failsOnlyWith_if; [|apply IH].
    apply failsOnlyWith_bind; [by intros im why|]. intros var.
    apply failsOnlyWith_bind; [by intros im why|intros _; apply IH].
Qed.

Lemma failsOnlyWith_visitArguments r args hints types m :
  Forall (λ e, ∀ r, failsM (visit r e)) args →
  failsM (InlineModifier.visitArguments visit r args hints types m).
Proof.
  intros Hargs. unfold InlineModifier.visitArguments.
  apply failsOnlyWith_bind; [by apply failsOnlyWith_visitArguments_loop|].
  intros [args' prefix].
  apply failsOnlyWith_bind; [by intros im why|]. intros _. apply failsOnlyWith_ret.
Qed.

Lemma failsOnlyWith_visit e : ∀ r, failsM (visit r e).
Proof.
  induction e as [l i args IH|l f args IH|l x|l v ty] using Expression_nested_ind;
    intros r.
  - rewrite (visit_FunctionalInstruction h cur).
    apply failsOnlyWith_bind; [by apply failsOnlyWith_visitArguments|].
    intros args'. apply failsOnlyWith_ret.
  - rewrite (visit_FunctionCall h cur). cbn zeta.
    apply failsOnlyWith_bind; [apply failsOnlyWith_driver, failsOnlyWith_function|].
    intros p.
    apply failsOnlyWith_bind; [apply failsOnlyWith_driver, h_fails|]. intros _.
    apply failsOnlyWith_bind; [apply failsOnlyWith_driver, failsOnlyWith_read|].
    intros fd.
    apply failsOnlyWith_bind; [by apply failsOnlyWith_visitArguments|].
    intros args'. apply failsOnlyWith_if; [apply failsOnlyWith_ret|].
    apply failsOnlyWith_inlineCall.
  - apply failsOnlyWith_ret.
  - apply failsOnlyWith_ret.
Qed.

Lemma failsOnlyWith_op_Block_loop r rest :
  Forall (λ s, ∀ r, failsM (visitStatement r s)) rest →
  ∀ done, failsM (InlineModifier.op_Block_loop visitStatement r done rest).
Proof.
  induction 1 as [|s rest Hs _ IH]; intros done.
  - rewrite (op_Block_loop_nil h cur). apply failsOnlyWith_ret.
  - rewrite (op_Block_loop_cons h cur).
    apply failsOnlyWith_bind; [apply Hs|]. intros s'.
    apply failsOnlyWith_bind; [apply failsOnlyWith_gets|]. intros prefix.
    apply failsOnlyWith_if; [|apply IH].
    apply failsOnlyWith_bind; [by intros im why|]. intros _.
    apply failsOnlyWith_bind; [by intros im why|]. intros _. apply IH.
Qed.

Lemma failsOnlyWith_visitStatement s : ∀ r, failsM (visitStatement r s).
Proof.
  induction s as [l e|l names v|l vars v|l name ps rs lb body IH
    |l lpre pre cnd lpost post lbody body IHpre IHpost IHbody|l ss IH]
    using Statement_nested_ind; intros r.
  - rewrite (visitStatement_ExpressionStatement h cur).
    apply failsOnlyWith_bind; [apply failsOnlyWith_visit|intros; apply failsOnlyWith_ret].
  - rewrite (visitStatement_Assignment h cur).
    apply failsOnlyWith_bind; [apply failsOnlyWith_visit|intros; apply failsOnlyWith_ret].
  - destruct v as [v|].
    + rewrite (visitStatement_VariableDeclaration_Some h cur).
      apply failsOnlyWith_bind; [apply failsOnlyWith_visit|intros; apply failsOnlyWith_ret].
    + apply failsOnlyWith_ret.
  - rewrite (visitStatement_FunctionDefinition h cur).
    apply failsOnlyWith_bind; [|intros; apply failsOnlyWith_ret].
    by apply failsOnlyWith_op_Block_loop.
  - rewrite (visitStatement_ForLoop h cur), (op_ForLoop_unfold h cur).
    apply failsOnlyWith_bind; [by apply failsOnlyWith_op_Block_loop|]. intros pre'.
    apply failsOnlyWith_bind; [by apply failsOnlyWith_op_Block_loop|]. intros post'.
    apply failsOnlyWith_bind; [by apply failsOnlyWith_op_Block_loop|].
    intros; apply failsOnlyWith_ret.
  - rewrite (visitStatement_Block h cur).
    apply failsOnlyWith_bind; [|intros; apply failsOnlyWith_ret].
    by apply failsOnlyWith_op_Block_loop.
Qed.

Lemma failsOnlyWith_op_Block r statements :
  failsM (InlineModifier.op_Block h cur r statements).
Proof.
  apply failsOnlyWith_op_Block_loop, Forall_forall. intros s _.
  apply failsOnlyWith_visitStatement.
Qed.
End modifier.

Lemma failsOnlyWith_withModifier {A} allowed (m : SE InlineModifier.t A) :
  failsOnlyWith allowed m → failsOnlyWith allowed (FullInliner.withModifier m).
Proof.
  intros Hm d why. unfold FullInliner.withModifier.
  destruct (m _) as [[a im]|why'] eqn:H; [done|]. intros [= <-]. by eapply Hm.
Qed.

Lemma failsOnlyWith_handleFunction_nested n :
  ∀ p, failsOnlyWith knownAssertion (FullInliner.handleFunction_nested n p).
Proof.
  induction n as [|n IH]; intros p d why H; simpl in H.
  - destruct (negb _); [done|]. by injection H as <-.
  - destruct (negb _); [done|]. revert H.
    apply failsOnlyWith_bind; [apply failsOnlyWith_modify|]. intros _.
    apply failsOnlyWith_bind; [apply failsOnlyWith_read; by intros msg|]. intros f.
    apply failsOnlyWith_bind; [|intros; apply failsOnlyWith_ret].
    apply failsOnlyWith_withModifier, failsOnlyWith_op_Block;
      try done; try (by intros msg).
    apply knownAssertion_hoisting.
Qed.

Lemma failsOnlyWith_handleFunction p :
  failsOnlyWith knownAssertion (FullInliner.handleFunction p).
Proof. intros d why. rewrite handleFunction_unfold. apply failsOnlyWith_handleFunction_nested. Qed.

Lemma knownAssertion_invalid :
  knownAssertion (AssertionFailure
    "Invalid top-level element. Inline requires function hoister and grouper.").
Proof. intros msg [= <-]. by left. Qed.

Lemma failsOnlyWith_run_statements n :
  ∀ i, failsOnlyWith knownAssertion (FullInliner.run_statements n i).
Proof.
  induction n as [|n IH]; intros i; [apply failsOnlyWith_ret|].
  rewrite run_statements_S.
  apply failsOnlyWith_bind; [apply failsOnlyWith_gets|].
  intros [s|]; [|by apply failsOnlyWith_throw].
  destruct s; try (apply failsOnlyWith_throw, knownAssertion_invalid); [apply IH|].
  apply failsOnlyWith_bind; [|intros; apply IH].
  apply failsOnlyWith_withModifier, failsOnlyWith_visitStatement;
    try done; try (by intros msg).
  - apply knownAssertion_hoisting.
  - apply failsOnlyWith_handleFunction.
Qed.

Lemma failsOnlyWith_run_functions rounds :
  failsOnlyWith knownAssertion (FullInliner.run_functions rounds).
Proof.
  induction rounds as [|rounds IH]; intros d why H; simpl in H.
  - destruct (pending d); [done|]. by injection H as <-.
  - destruct (pending d) as [|p ps]; [done|]. revert H.
    apply failsOnlyWith_bind; [apply failsOnlyWith_handleFunction|]. by intros _.
Qed.

Lemma failsOnlyWith_run : failsOnlyWith knownAssertion FullInliner.run.
Proof.
  unfold FullInliner.run. apply failsOnlyWith_bind.
  - intros d why. apply failsOnlyWith_run_statements.
  - intros _ d why. apply failsOnlyWith_run_functions.
Qed.
End failure_facts.

(** X11. The ways the pass fails.  The overload of the modifier for a call
    (lines 85-88) is never reached: no visit of an expression, of a
    statement or of a block fails with "Should be handled in visit()
    instead.", whatever the driver does when asked to handle a function,
    as long as that does not fail so.  And when [run], from the state the
    constructor leaves, does not return, it has failed in one of five
    ways: the assertion on a top-level statement, the assertion of the
    copier on a function definition, a call of a name without top-level
    definition, an argument taken for an identifier that is none, or an
    index out of range. *)
Theorem run_fails_only_as_expected :
  (∀ h cur,
     (∀ p d, h p d ≠ Fatal (AssertionFailure "Should be handled in visit() instead.")) →
     (∀ r e im, InlineModifier.visit h cur r e im
                ≠ Fatal (AssertionFailure "Should be handled in visit() instead."))
     ∧ (∀ r s im, InlineModifier.visitStatement h cur r s im
                  ≠ Fatal (AssertionFailure "Should be handled in visit() instead."))
     ∧ (∀ r statements im, InlineModifier.op_Block h cur r statements im
                  ≠ Fatal (AssertionFailure "Should be handled in visit() instead.")))
  ∧ (∀ _ast names why,
       FullInliner.run (FullInliner.new _ast names) = Fatal why → runFailure why).
Proof.
  split.
  - intros h cur Hh.
    set (allowed := λ why, why ≠ AssertionFailure "Should be handled in visit() instead.").
    assert (∀ p, failsOnlyWith allowed (h p)) as Hh'.
    { intros p d why H ->. by apply (Hh p d). }
    split; [|split].
    + intros r e im H.
      by apply (failsOnlyWith_visit h cur allowed) in H.
    + intros r s im H.
      by apply (failsOnlyWith_visitStatement h cur allowed) in H.
    + intros r statements im H.
      by apply (failsOnlyWith_op_Block h cur allowed) in H.
  - intros _ast names why H.
    pose proof (failsOnlyWith_run _ _ H) as Hknown.
    pose proof (preserves_run (FullInliner.new _ast names) (wellFormed_new _ast names))
      as Hptr. unfold id in Hptr.
    pose proof (run_spec (FullInliner.new _ast names)) as Hfuel.
    rewrite H in Hptr, Hfuel.
    destruct why as [msg| | | | |]; unfold runFailure, hoistingAssertion; try tauto.
    destruct (Hknown msg eq_refl) as [->| ->]; tauto.
Qed.

Lemma run_fails_only_as_expected_witness :
  FullInliner.run (FullInliner.new Sample.nestedArgument Sample.nestedArgument_names)
    = Fatal BadGet
  ∧ runFailure BadGet.
Proof.
  split; [vm_compute; reflexivity|].
  apply (proj2 run_fails_only_as_expected Sample.nestedArgument
           Sample.nestedArgument_names BadGet).
  vm_compute; reflexivity.
Defined.

Section completeness_facts.
Variable h : nat → SE Driver.t unit.
Variable cur : string.
Hypothesis h_preserves : ∀ p, preserves id wellFormed (h p).
Local Abbreviation visit := (InlineModifier.visit h cur).
Local Abbreviation IM := InlineModifier.mk.
Local Abbreviation buffer := InlineModifier.m_statementsToPrefix.
Local Abbreviation driverOf := InlineModifier.m_driver.

Lemma deref_preserved d d' p fd' :
  preserved d d' → Driver.deref p d' = Some fd' →
  ∃ fd, Driver.deref p d = Some fd
        ∧ Driver.fun_returnVariables fd = Driver.fun_returnVariables fd'.
Proof.
  intros (_ & _ & _ & Ha & _) Hfd. unfold Driver.deref in *.
  destruct (Driver.m_ast d' !! p) as [s'|] eqn:Hs'; [|done].
  destruct (Forall2_lookup_r _ _ _ _ _ Ha Hs') as (s & -> & Hh).
  destruct s'; try done. injection Hfd as <-.
  destruct s; try done. simpl in Hh. destruct Hh as (_ & _ & _ & -> & _).
  by eexists.
Qed.

Lemma inlinable_preserved d d' f :
  preserved d d' → inlinable cur d' f → inlinable cur d f.
Proof.
  intros Hpres [Hne (p & fd' & Hp & Hfd & Hlen)]. split; [done|].
  destruct (deref_preserved _ _ _ _ Hpres Hfd) as (fd & Hfd0 & Hrv).
  exists p, fd. destruct Hpres as (Hf & _). rewrite <- Hf. split; [done|].
  split; [done|]. by rewrite Hrv.
Qed.

Lemma notInlinable_preserved d d' e :
  preserved d d' →
  (∀ f, f ∈ calledNames e → ¬ inlinable cur d f) →
  ∀ f, f ∈ calledNames e → ¬ inlinable cur d' f.
Proof. intros Hpres Hq f Hf Hin. by eapply Hq, inlinable_preserved. Qed.

(** What is asked of the visit of one expression. *)
Local Abbreviation complete := (λ e : Expression,
  ∀ J r im e' im',
    stable J → (∀ d, J d → wellFormed d) →
    (∀ a d, J d → preserved d (r a d)) →
    J (driverOf im) →
    visit r e im = Ok (e', im') →
    ∀ f, f ∈ calledNames e' → ¬ inlinable cur (driverOf im') f).

Lemma visit_preserved e J r im e' im' :
  stable J → (∀ d, J d → wellFormed d) →
  (∀ a d, J d → preserved d (r a d)) →
  J (driverOf im) →
  visit r e im = Ok (e', im') →
  preserved (driverOf im) (driverOf im').
Proof.
  intros HJ Hwf Hr Him H.
  pose proof (preserves_visit h cur h_preserves e J HJ Hwf r Hr im Him) as Hp.
  by rewrite H in Hp.
Qed.

Lemma visitArguments_loop_complete J r hints types rest :
  stable J → (∀ d, J d → wellFormed d) →
  (∀ a d, J d → preserved d (r a d)) →
  Forall complete rest →
  ∀ done m prefix im args' prefix' im',
    J (driverOf im) →
    (∀ f, f ∈ concat (map calledNames done) → ¬ inlinable cur (driverOf im) f) →
    InlineModifier.visitArguments_loop visit r hints types done rest m prefix im
      = Ok ((args', prefix'), im') →
    preserved (driverOf im) (driverOf im')
    ∧ ∀ f, f ∈ concat (map calledNames args') → ¬ inlinable cur (driverOf im') f.
Proof.
  intros HJ Hwf Hr. induction 1 as [|arg rest Harg _ IH];
    intros done m prefix im args' prefix' im' Him Hdone H.
  - rewrite (visitArguments_loop_nil h cur) in H. injection H as <- _ <-.
    split; [apply preserved_refl|done].
  - rewrite (visitArguments_loop_cons h cur) in H. cbn zeta in H.
    apply bind_Ok in H as ([arg1 ip] & im1 & Hrec & H).
    apply visitRecursively_Ok in Hrec as (d1 & Hv & ->).
    assert (∀ a d, J d → preserved d (r (done ++ a :: rest) d)) as Hr'.
    { intros a d. apply Hr. }
    pose proof (visit_preserved arg J _ (IM [] (driverOf im)) _ _ HJ Hwf Hr' Him Hv) as Hp1.
    pose proof (Harg J _ (IM [] (driverOf im)) _ _ HJ Hwf Hr' Him Hv) as Hq1.
    simpl in Hp1, Hq1.
    assert (J d1) as Hd1 by (by eapply HJ).
    assert (∀ x m0 pf im2,
              preserved d1 (driverOf im2) →
              (∀ f, f ∈ calledNames x → ¬ inlinable cur d1 f) →
              InlineModifier.visitArguments_loop visit r hints types (done ++ [x]) rest
                m0 pf im2 = Ok ((args', prefix'), im') →
              preserved (driverOf im) (driverOf im')
              ∧ ∀ f, f ∈ concat (map calledNames args') → ¬ inlinable cur (driverOf im') f)
      as Hnext.
    { intros x m0 pf im2 Hp2 Hx Hl.
      apply IH in Hl as [Hp3 Hq3].
      - split; [|done]. eapply preserved_trans; [exact Hp1|].
        by eapply preserved_trans.
      - by eapply HJ.
      - intros f Hf. rewrite map_app, concat_app in Hf. simpl in Hf.
        rewrite app_nil_r in Hf. apply elem_of_app in Hf as [Hf|Hf].
        + intros Hin. apply (Hdone f Hf).
          eapply inlinable_preserved; [|exact Hin]. by eapply preserved_trans.
        + intros Hin. apply (Hx f Hf). by eapply inlinable_preserved. }
    destruct (InlineModifier.isEmpty ip) eqn:Hip; simpl in H.
    + destruct m.
      * apply bind_Ok in H as (var & im2 & Hvar & H).
        rewrite newName_Ok in Hvar. cbv zeta in Hvar. injection Hvar as Hvar <-.
        apply bind_Ok in H as ([] & im3 & Hass & H).
        rewrite assign_Ok in Hass. injection Hass as <-.
        apply Hnext in H; [done| |by intros f ?%elem_of_nil]. simpl.
        eapply preserved_trans; [apply preserved_set_usedNames, union_subseteq_r|].
        apply Hr. eapply HJ; [exact Hd1|].
        apply preserved_set_usedNames, union_subseteq_r.
      * apply Hnext in H; [done|apply preserved_refl|done].
    + apply Hnext in H; [done|apply preserved_refl|done].
Qed.

Lemma visitArguments_complete J r args hints types m im args' im' :
  stable J → (∀ d, J d → wellFormed d) →
  (∀ a d, J d → preserved d (r a d)) →
  Forall complete args →
  J (driverOf im) →
  InlineModifier.visitArguments visit r args hints types m im = Ok (args', im') →
  preserved (driverOf im) (driverOf im')
  ∧ ∀ f, f ∈ concat (map calledNames args') → ¬ inlinable cur (driverOf im') f.
Proof.
  intros HJ Hwf Hr Hargs Him H.
  apply (visitArguments_Ok h cur) in H as (prefix & im1 & Hloop & ->). simpl.
  eapply visitArguments_loop_complete in Hloop; try done.
  by intros f ?%elem_of_nil.
Qed.

Lemma visit_complete e : complete e.
Proof.
  induction e as [l i args IH|l fn args IH|l x|l v ty] using Expression_nested_ind;
    intros J r im e' im' HJ Hwf Hr Him H.
  - rewrite (visit_FunctionalInstruction h cur) in H.
    apply bind_Ok in H as (args' & im1 & Hargs & H). injection H as <- <-.
    eapply visitArguments_complete in Hargs as [_ Hq]; try done.
    intros a d. apply Hr.
  - apply (visit_FunctionCall_Ok h cur) in H
      as (p & d1 & fd & args' & im2 & Hp & Hh & Hfd & Hargs & H).
    pose proof (h_preserves p (driverOf im) (Hwf _ Him)) as Hp1.
    unfold id in Hp1. rewrite Hh in Hp1.
    assert (J d1) as Hd1 by (by eapply HJ).
    eapply (visitArguments_complete J) in Hargs as [Hp2 Hq2]; try done.
    2:{ intros a d. apply Hr. }
    simpl in Hp2.
    destruct (InlineModifier.doInline cur fn (Driver.fun_returnVariables fd)) eqn:Hdo.
    + apply inlineCall_Ok in H as (? & ? & ? & ? & ? & _ & _ & _ & _ & -> & _).
      by intros f ?%elem_of_nil.
    + destruct H as [-> ->]. intros f Hf. simpl in Hf.
      apply elem_of_cons in Hf as [->|Hf]; [|by apply Hq2].
      intros Hin. apply (inlinable_preserved _ _ _ Hp2) in Hin.
      destruct Hin as [Hne (p' & fd' & Hp' & Hfd' & Hlen)].
      destruct Hp1 as (Hf1 & _). rewrite Hf1, Hp in Hp'. injection Hp' as <-.
      rewrite Hfd in Hfd'. injection Hfd' as <-.
      apply (conj Hne), doInline_true in Hlen. congruence.
  - injection H as <- <-. by intros f ?%elem_of_nil.
  - injection H as <- <-. by intros f ?%elem_of_nil.
Qed.
End completeness_facts.

(** X12. [visit(Expression&)] (lines 117-160) leaves no call it would
    inline.  Run by the driver in a state with valid pointers, on an
    expression of the top-level statement at position [own], a block or
    a function no longer to visit, through a reference that stores into
    that statement and keeps its header, for the function [cur], a visit
    that returns leaves an expression in which every call left is a call
    of [cur] itself or of a function that has not exactly one return
    variable. *)
Theorem visit_leaves_no_inlinable_call
    (cur : string) (own : nat) (s0 : Statement) (r : Driver.Ref Expression)
    (e : Expression) (im : InlineModifier.t) (e' : Expression)
    (im' : InlineModifier.t) :
  wellFormed (InlineModifier.m_driver im) →
  holdsAt own s0 (InlineModifier.m_driver im) →
  (∀ a d, wellFormed d → holdsAt own s0 d → preserved d (r a d)) →
  InlineModifier.visit FullInliner.handleFunction cur r e im = Ok (e', im') →
  ∀ f, f ∈ calledNames e' → ¬ inlinable cur (InlineModifier.m_driver im') f.
Proof.
  intros Hwf Hown Hr H.
  apply (visit_complete FullInliner.handleFunction cur preserves_handleFunction e
           (λ d, wellFormed d ∧ holdsAt own s0 d) r im e' im').
  - intros d d' [Hd [Hnot (s & Hs & Hh)]] Hpres. split; [by eapply wellFormed_stable|].
    split.
    + intros Hin. by apply Hnot, Hpres.
    + destruct (preserved_lookup _ _ _ _ Hpres Hs) as (s' & Hs' & Hh').
      exists s'. split; [done|]. by eapply sameHeader_trans.
  - by intros d [].
  - intros a d [Hd Hholds]. by apply Hr.
  - done.
  - done.
Qed.

Lemma visit_leaves_no_inlinable_call_witness :
  ∃ e' im',
    InlineModifier.visit FullInliner.handleFunction ""
      (λ e, Driver.statementRef 2 (Block Sample.at0 [Sample.declare "r" e]))
      (Sample.add (Sample.call "g" [Sample.call "f" [Sample.num "1"]]) (Sample.num "1"))
      (InlineModifier.mk [] (FullInliner.new Sample.twoCallees Sample.twoCallees_names))
    = Ok (e', im')
    ∧ e' = Sample.add (Sample.call "g" [Sample.var "f_y"]) (Sample.var "_1")
    ∧ ¬ inlinable "" (InlineModifier.m_driver im') "g".
Proof.
  eexists _, _. split; [vm_compute; reflexivity|]. split; [reflexivity|].
  eapply (visit_leaves_no_inlinable_call "" 2
            (Block Sample.at0
               [Sample.declare "r"
                  (Sample.add (Sample.call "g" [Sample.call "f" [Sample.num "1"]])
                     (Sample.num "1"))])
            (λ e, Driver.statementRef 2 (Block Sample.at0 [Sample.declare "r" e]))
            (Sample.add (Sample.call "g" [Sample.call "f" [Sample.num "1"]]) (Sample.num "1"))
            (InlineModifier.mk []
               (FullInliner.new Sample.twoCallees Sample.twoCallees_names))).
  - apply wellFormed_new.
  - split; [intros Hin%list_elem_of_In; simpl in Hin; by destruct Hin as [|[|[]]]|].
    eexists. split; [reflexivity|done].
  - intros a d _ [Hnot (s & Hs & Hh)]. unfold Driver.statementRef.
    eapply preserved_insert; [done|exact Hs|]. by destruct s.
  - vm_compute; reflexivity.
  - apply list_elem_of_here.
Defined.

Section inlining_facts.
Variable h : nat → SE Driver.t unit.
Variable cur : string.
Local Abbreviation visit := (InlineModifier.visit h cur).
Local Abbreviation IM := InlineModifier.mk.
Local Abbreviation buffer := InlineModifier.m_statementsToPrefix.
Local Abbreviation driverOf := InlineModifier.m_driver.
Local Abbreviation used := Driver.m_usedNames.

Lemma declaredNames_argumentDeclarations types (args : list Expression) :
  ∀ i names,
    length names = length args →
    concat (map declaredNames
              (imap (λ j av, argumentDeclaration types (i + j) av.1 av.2) (zip args names)))
    = names.
Proof.
  induction args as [|a args IH]; intros i [|v names] Hlen; try done.
  simpl. f_equal. rewrite <- (IH (S i) names) at 2 by (simpl in Hlen; lia).
  f_equal. f_equal. apply imap_ext. intros j [a' v'] _. simpl. f_equal. lia.
Qed.

Lemma concat_map_reverse {A B} (f : A → list B) (l : list A) :
  concat (map f (reverse l)) ≡ₚ concat (map f l).
Proof.
  induction l as [|x l IH]; [done|].
  rewrite reverse_cons, map_app, concat_app. simpl. rewrite app_nil_r, IH.
  apply Permutation_app_comm.
Qed.

Lemma dispensed_Permutation u names names' u' :
  names ≡ₚ names' → dispensed u names u' → dispensed u names' u'.
Proof.
  intros Hp (Hnd & Hf & ->). split; [by rewrite <- Hp|]. split.
  - intros x Hx. apply Hf. by rewrite Hp.
  - apply set_eq. intros x. rewrite !elem_of_union, !elem_of_list_to_set.
    by rewrite Hp.
Qed.

(** A property of the driver that no store through the reference and no
    change of the used names touches holds after the loop on arguments
    without calls as before. *)
Lemma visitArguments_loop_callFree_invariant (Q : Driver.t → Prop) r hints types rest :
  (∀ a d, Q d → Q (r a d)) →
  (∀ u d, Q d → Q (Driver.set_usedNames u d)) →
  forallb callFree rest = true →
  ∀ done m prefix im res im',
    InlineModifier.visitArguments_loop visit r hints types done rest m prefix im
      = Ok (res, im') →
    Q (driverOf im) → Q (driverOf im').
Proof.
  intros Hr Hu. induction rest as [|arg rest IH]; intros Hcf done m prefix im res im' H HQ.
  - rewrite (visitArguments_loop_nil h cur) in H. by injection H as _ <-.
  - simpl in Hcf. apply andb_true_iff in Hcf as [Harg Hrest].
    rewrite (visitArguments_loop_cons h cur) in H. cbn zeta in H.
    rewrite (bind_step _ _ _ _ _ (visitRecursively_callFree h cur _ arg im Harg)) in H.
    cbn [negb InlineModifier.isEmpty] in H. cbv iota in H.
    destruct m.
    + rewrite (bind_step _ _ _ _ _ (newName_Ok _ _)) in H. cbv zeta in H.
      rewrite (bind_step _ _ _ _ _ (assign_Ok _ _ _)) in H.
      apply (IH Hrest) in H; [done|]. simpl. by apply Hr, Hu.
    + by apply (IH Hrest) in H.
Qed.
End inlining_facts.

(** X13. Inlining a call whose arguments hold no call (lines 117-160).
    When [visit] replaces such a call, through a reference that stores
    into the tree only and not into the function called, and no
    declaration of the body of that function declares a name twice, then
    the variables the hoisted statements declare (the temporaries of the
    arguments, the result variable and the variables of the copy of the
    body) are exactly the names dispensed since the driver has handled
    the function: non-empty, not in use before, pairwise different. *)
Theorem visit_inlined_call_declares_fresh_names
    (h : nat → SE Driver.t unit) (cur : string) (r : Driver.Ref Expression)
    (l : SourceLocation) (fn : string) (args : list Expression)
    (im : InlineModifier.t) (e' : Expression) (im' : InlineModifier.t)
    (p : nat) (d1 : Driver.t) (f : Driver.FunctionDefinition_) :
  writesTree r →
  (∀ a d, Driver.deref p (r a d) = Driver.deref p d) →
  forallb callFree args = true →
  Driver.m_functions (InlineModifier.m_driver im) !! fn = Some p →
  h p (InlineModifier.m_driver im) = Ok (tt, d1) →
  Driver.deref p d1 = Some f →
  InlineModifier.doInline cur fn (Driver.fun_returnVariables f) = true →
  forallb declaresDistinct (Driver.fun_body f) = true →
  InlineModifier.visit h cur r (FunctionCall l fn args) im = Ok (e', im') →
  ∃ added result,
    e' = Identifier l result
    ∧ InlineModifier.m_statementsToPrefix im'
      = InlineModifier.m_statementsToPrefix im ++ added
    ∧ result ∈ concat (map declaredNames added)
    ∧ length (concat (map declaredNames added))
      = length args + 1 + length (concat (map declaredNames (Driver.fun_body f)))
    ∧ dispensed (Driver.m_usedNames d1) (concat (map declaredNames added))
        (Driver.m_usedNames (InlineModifier.m_driver im')).
Proof.
  intros Hr Hrp Hcf Hp Hh Hf Hdo Hdist H.
  apply (visit_FunctionCall_Ok h cur) in H
    as (p' & d1' & f' & args' & im2 & Hp' & Hh' & Hf' & Hargs & H).
  rewrite Hp in Hp'. injection Hp' as <-. rewrite Hh in Hh'. injection Hh' as <-.
  rewrite Hf in Hf'. injection Hf' as <-. rewrite Hdo in Hargs, H.
  apply (visitArguments_Ok h cur) in Hargs as (prefix & im1 & Hloop & ->).
  assert (writesTree (λ a, r (FunctionCall l fn a))) as Hr'.
  { intros a d. apply Hr. }
  destruct (visitArguments_loop_moves h cur _ (argNames f) (argTypes f) args Hr' Hcf
              [] [] (InlineModifier.mk (InlineModifier.m_statementsToPrefix im) d1))
    as (names & im1' & Hloop' & Hlen & Hnd & Hnames & Hused & Hbuf).
  rewrite Hloop in Hloop'. injection Hloop' as -> -> <-.
  simpl in Hnames, Hused, Hbuf.
  assert (Driver.deref p (InlineModifier.m_driver im1) = Some f) as Hf1.
  { apply (visitArguments_loop_callFree_invariant h cur
             (λ d, Driver.deref p d = Some f) _ _ _ _) in Hloop; try done.
    intros a d Hd. by rewrite Hrp. }
  apply inlineCall_Ok in H as (f2 & rv & repl & copy & c' & Hf2 & Hrv & Hrepl & H).
  simpl in Hf2. rewrite Hf1 in Hf2. injection Hf2 as <-.
  cbv zeta in H. destruct H as (Hcopy & -> & ->). simpl in Hcopy. simpl.
  set (result := newName_name (Driver.m_usedNames (InlineModifier.m_driver im1))
                   (Driver.fun_name f +:+ "_" +:+ tn_name rv)) in *.
  destruct (newName_name_fresh (Driver.m_usedNames (InlineModifier.m_driver im1))
              (Driver.fun_name f +:+ "_" +:+ tn_name rv)) as [Hne Hfresh].
  fold result in Hne, Hfresh.
  apply (translateStatement_dispensed _ (Block (Driver.fun_bodyLocation f) (Driver.fun_body f)))
    in Hcopy as [Hdcopy Hlcopy]; [|done].
  simpl in Hdcopy, Hlcopy.
  eexists _, result. split; [done|]. rewrite Hbuf, app_nil_r, <- app_assoc.
  split; [done|].
  rewrite map_app, concat_app. simpl. rewrite app_nil_r.
  split; [apply elem_of_app; right; apply elem_of_cons; by left|].
  assert (concat (map declaredNames
                    (reverse (imap (λ i av, argumentDeclaration (argTypes f) (0 + i) av.1 av.2)
                                (zip args names)))) ≡ₚ names) as Hperm.
  { rewrite concat_map_reverse. by rewrite declaredNames_argumentDeclarations. }
  split.
  { rewrite length_app. simpl. rewrite Hperm, Hlcopy, Hlen. lia. }
  destruct (Hr (Identifier l result)
              (Driver.set_usedNames (BodyCopier.m_nameDispenser c')
                 (InlineModifier.m_driver im1))) as [ast ->]. simpl.
  eapply dispensed_app.
  - eapply dispensed_Permutation; [symmetry; exact Hperm|].
    split; [done|]. split; [done|]. exact Hused.
  - apply (dispensed_app _ [result]
             ({[result]} ∪ Driver.m_usedNames (InlineModifier.m_driver im1))); [|done].
    split; [apply NoDup_singleton|]. split.
    + by intros x ->%list_elem_of_singleton.
    + simpl. by rewrite (right_id_L ∅ (∪)).
Qed.

Lemma visit_inlined_call_declares_fresh_names_witness :
  ∃ e' im' added,
    InlineModifier.visit FullInliner.handleFunction "" Sample.identity_initializer
      (FunctionCall Sample.at0 "id" [Sample.num "5"])
      (InlineModifier.mk [] (FullInliner.new Sample.identity Sample.identity_names))
    = Ok (e', im')
    ∧ InlineModifier.m_statementsToPrefix im' = [] ++ added
    ∧ length (concat (map declaredNames added)) = 2
    ∧ NoDup (concat (map declaredNames added)).
Proof.
  assert (∃ d1 f,
            FullInliner.handleFunction 0
              (FullInliner.new Sample.identity Sample.identity_names) = Ok (tt, d1)
            ∧ Driver.deref 0 d1 = Some f
            ∧ InlineModifier.doInline "" "id" (Driver.fun_returnVariables f) = true
            ∧ forallb declaresDistinct (Driver.fun_body f) = true
            ∧ length (concat (map declaredNames (Driver.fun_body f))) = 0)
    as (d1 & f & Hh & Hf & Hdo & Hdist & Hlen).
  { eexists _, _. split; [vm_compute; reflexivity|].
    split; [vm_compute; reflexivity|]. split; [reflexivity|]. split; reflexivity. }
  assert (∃ e' im',
            InlineModifier.visit FullInliner.handleFunction "" Sample.identity_initializer
              (FunctionCall Sample.at0 "id" [Sample.num "5"])
              (InlineModifier.mk [] (FullInliner.new Sample.identity Sample.identity_names))
            = Ok (e', im')) as (e' & im' & Hv).
  { eexists _, _. vm_compute; reflexivity. }
  destruct (visit_inlined_call_declares_fresh_names FullInliner.handleFunction ""
              Sample.identity_initializer Sample.at0 "id" [Sample.num "5"]
              (InlineModifier.mk [] (FullInliner.new Sample.identity Sample.identity_names))
              e' im' 0 d1 f)
    as (added & result & _ & Hbuf & _ & Hcount & (Hnd & _)).
  - intros a d. eexists. reflexivity.
  - intros a d. unfold Driver.deref. simpl. by rewrite list_lookup_insert_ne.
  - reflexivity.
  - vm_compute; reflexivity.
  - exact Hh.
  - exact Hf.
  - exact Hdo.
  - exact Hdist.
  - exact Hv.
  - exists e', im', added. split; [exact Hv|]. split; [exact Hbuf|].
    split; [|exact Hnd]. rewrite Hcount, Hlen. reflexivity.
Defined.

Section success_facts.
Local Abbreviation pending := Driver.m_functionsToVisit.
Local Abbreviation IM := InlineModifier.mk.
Local Abbreviation buffer := InlineModifier.m_statementsToPrefix.
Local Abbreviation driverOf := InlineModifier.m_driver.

Lemma callable_preserved d d' fn n :
  preserved d d' → callable d fn n = true → callable d' fn n = true.
Proof.
  intros (Hf & _ & _ & Ha & _). unfold callable, Driver.deref. rewrite Hf.
  destruct (Driver.m_functions d !! fn) as [p|]; [|done].
  destruct (Driver.m_ast d !! p) as [s|] eqn:Hs; [|done].
  destruct (Forall2_lookup_l _ _ _ _ _ Ha Hs) as (s' & -> & Hh).
  destruct s; try done. destruct s'; try done.
  simpl in Hh. by destruct Hh as (_ & _ & <- & _).
Qed.

Lemma ready_stable ok : stable (ready ok).
Proof.
  intros d d' (Hwf & Hok & Hpend) Hpres. split; [by eapply wellFormed_stable|]. split.
  - intros fn n Hn. eapply callable_preserved; [done|]. by apply Hok.
  - intros p Hp. destruct Hpres as (_ & _ & Hsub & _ & _ & Hsame).
    destruct (Hpend p (Hsub p Hp)) as (f & Hf & Hflat). exists f. split; [|done].
    unfold Driver.deref in *. by rewrite (Hsame p Hp).
Qed.

Lemma hoisted_set_usedNames u d : hoisted d → hoisted (Driver.set_usedNames u d).
Proof. intros H p f. apply H. Qed.

Lemma definitionFree_existsb statements :
  Forall definitionFree statements ↔ existsb containsFunctionDefinition statements = false.
Proof.
  induction statements as [|s ss IH]; simpl; [done|].
  rewrite Forall_cons, orb_false_iff, IH. done.
Qed.

Lemma flatStatement_definitionFree ok s : flatStatement ok s = true → definitionFree s.
Proof.
  unfold definitionFree.
  induction s as [l e|l names v|l vars v|l n ps rs lb body IH
    |l lpre pre cnd lpost post lbody body IHpre IHpost IHbody|l ss IH]
    using Statement_nested_ind; simpl; try done.
  - intros H. apply andb_true_iff in H as [H Hbody]. apply andb_true_iff in H as [Hpre Hpost].
    assert (∀ ss, Forall (λ s, flatStatement ok s = true → containsFunctionDefinition s = false) ss →
                  forallb (flatStatement ok) ss = true →
                  existsb containsFunctionDefinition ss = false) as Hall.
    { clear. induction 1 as [|s ss Hs _ IH]; simpl; [done|].
      intros [H1 H2]%andb_true_iff. by rewrite Hs, IH. }
    by rewrite !Hall.
  - revert IH. induction 1 as [|s ss Hs _ IH]; simpl; [done|].
    intros [H1 H2]%andb_true_iff. by rewrite Hs, IH.
Qed.

Lemma flatStatements_definitionFree ok statements :
  forallb (flatStatement ok) statements = true → Forall definitionFree statements.
Proof.
  intros H. apply Forall_forall. intros s Hs.
  apply (flatStatement_definitionFree ok). rewrite forallb_forall in H.
  apply H. by apply list_elem_of_In.
Qed.

(** A copy holds no function definition. *)
Lemma translateVector_definitionFree pfx ss :
  Forall (λ s, ∀ c s' c', BodyCopier.translateStatement pfx s c = Ok (s', c') →
                definitionFree s') ss →
  ∀ c ss' c',
    BodyCopier.translateVector (BodyCopier.translateStatement pfx) ss c = Ok (ss', c') →
    existsb containsFunctionDefinition ss' = false.
Proof.
  induction 1 as [|s ss Hs _ IH]; intros c ss' c' H.
  - by injection H as <- _.
  - apply translateVector_cons_Ok in H as (s' & c1 & rest' & H1 & Hrest & ->).
    simpl. apply Hs in H1. apply IH in Hrest. unfold definitionFree in H1.
    by rewrite H1, Hrest.
Qed.

Lemma translateStatement_definitionFree pfx s :
  ∀ c s' c', BodyCopier.translateStatement pfx s c = Ok (s', c') → definitionFree s'.
Proof.
  unfold definitionFree.
  induction s as [l e|l names v|l vars v|l n ps rs lb body IH
    |l lpre pre cnd lpost post lbody body IHpre IHpost IHbody|l ss IH]
    using Statement_nested_ind; intros c s' c' H; simpl in H.
  - by injection H as <- _.
  - by injection H as <- _.
  - unfold BodyCopier.op_VariableDeclaration in H.
    apply bind_Ok in H as ([] & c1 & Hreg & H). by injection H as <- _.
  - done.
  - apply bind_Ok in H as (pre' & c1 & Hpre & H).
    apply bind_Ok in H as (repl & c1' & Hg & H). injection Hg as _ <-.
    apply bind_Ok in H as (post' & c2 & Hpost & H).
    apply bind_Ok in H as (body' & c3 & Hbody & H). injection H as <- _. simpl.
    rewrite (translateVector_definitionFree _ _ IHpre _ _ _ Hpre).
    rewrite (translateVector_definitionFree _ _ IHpost _ _ _ Hpost).
    by rewrite (translateVector_definitionFree _ _ IHbody _ _ _ Hbody).
  - apply bind_Ok in H as (ss' & c1 & Hss & H). injection H as <- _. simpl.
    exact (translateVector_definitionFree _ _ IH _ _ _ Hss).
Qed.

Lemma bindParameters_identifiers parameters arguments :
  Forall (λ a, isIdentifier a = true) arguments →
  ∀ i m, i + length arguments ≤ length parameters →
         ∃ m', InlineModifier.bindParameters parameters arguments i m = Ok m'.
Proof.
  induction 1 as [|a rest Ha _ IH]; intros i m Hlen; simpl; [by eexists|].
  simpl in Hlen. destruct a; try done.
  destruct (lookup_lt_is_Some_2 parameters i) as [p ->]; [lia|]. apply IH. lia.
Qed.

Lemma deref_preserved_forward d d' p f :
  preserved d d' → Driver.deref p d = Some f →
  ∃ f', Driver.deref p d' = Some f'
        ∧ Driver.fun_name f' = Driver.fun_name f
        ∧ Driver.fun_parameters f' = Driver.fun_parameters f
        ∧ Driver.fun_returnVariables f' = Driver.fun_returnVariables f.
Proof.
  intros (_ & _ & _ & Ha & _) Hf. unfold Driver.deref in *.
  destruct (Driver.m_ast d !! p) as [s|] eqn:Hs; [|done].
  destruct (Forall2_lookup_l _ _ _ _ _ Ha Hs) as (s' & -> & Hh).
  destruct s; try done. injection Hf as <-. destruct s'; try done.
  simpl in Hh. destruct Hh as (_ & <- & <- & <- & _). by eexists.
Qed.

Section arguments.
Variable h : nat → SE Driver.t unit.
Variable cur : string.
Local Abbreviation visit := (InlineModifier.visit h cur).

(** On arguments without calls the loop of [visitArguments] always
    returns, and gathers declarations only. *)
Lemma visitArguments_loop_callFree_Ok r hints types rest :
  forallb callFree rest = true →
  ∀ done m prefix im,
    ∃ res im',
      InlineModifier.visitArguments_loop visit r hints types done rest m prefix im
        = Ok (res, im')
      ∧ (Forall definitionFree prefix → Forall definitionFree res.2).
Proof.
  induction rest as [|arg rest IH]; intros Hcf done m prefix im.
  - rewrite (visitArguments_loop_nil h cur). by eexists _, _.
  - simpl in Hcf. apply andb_true_iff in Hcf as [Harg Hrest].
    rewrite (visitArguments_loop_cons h cur). cbn zeta.
    rewrite (bind_step _ _ _ _ _ (visitRecursively_callFree h cur _ arg im Harg)).
    cbn [negb InlineModifier.isEmpty]. cbv iota.
    destruct m; [|apply (IH Hrest)].
    rewrite (bind_step _ _ _ _ _ (newName_Ok _ _)). cbv zeta.
    rewrite (bind_step _ _ _ _ _ (assign_Ok _ _ _)).
    match goal with |- context [InlineModifier.visitArguments_loop _ _ _ _ ?dn _ _ ?pf ?im2] =>
      destruct (IH Hrest dn true pf im2) as (res & im' & Hloop & Hfree)
    end.
    exists res, im'. split; [done|]. intros Hp. apply Hfree. by constructor.
Qed.
End arguments.

Section succeed.
Variable h : nat → SE Driver.t unit.
Variable cur : string.
Variable ok : string → nat → bool.
Variable N : nat.
Hypothesis h_preserves : ∀ p, preserves id wellFormed (h p).
Hypothesis h_succeeds :
  ∀ p d, length (pending d) ≤ N → ready ok d → hoisted d →
         ∃ d', h p d = Ok (tt, d') ∧ hoisted d'.
Variable J : Driver.t → Prop.
Hypothesis J_stable : stable J.
Hypothesis J_ready : ∀ d, J d → ready ok d ∧ length (pending d) ≤ N.
Local Abbreviation visit := (InlineModifier.visit h cur).
Local Abbreviation visitStatement := (InlineModifier.visitStatement h cur).

Lemma J_wellFormed d : J d → wellFormed d.
Proof. intros Hd. by destruct (J_ready d Hd) as [[? _] _]. Qed.

Lemma succeeds_ret {A} (V : A → Prop) a : V a → succeeds J V (ret a).
Proof. intros Ha im _ Hh Hb. by exists a, im. Qed.

Lemma succeeds_bind {A B} (V : A → Prop) (V' : B → Prop)
    (m : SE InlineModifier.t A) (k : A → SE InlineModifier.t B) :
  preserves InlineModifier.m_driver J m → succeeds J V m →
  (∀ a, V a → succeeds J V' (k a)) →
  succeeds J V' (bind m k).
Proof.
  intros Hp Hm Hk im HJ Hh Hb.
  destruct (Hm im HJ Hh Hb) as (a & im1 & Hrun & Ha & Hh1 & Hb1).
  specialize (Hp im HJ). rewrite Hrun in Hp. rewrite (bind_step _ _ _ _ _ Hrun).
  apply (Hk a Ha); [by eapply J_stable|done..].
Qed.

Lemma succeeds_newName pfx : succeeds J (λ _, True) (InlineModifier.newName pfx).
Proof.
  intros im _ Hh Hb. rewrite newName_Ok. eexists _, _. split; [done|].
  split; [done|]. split; [by apply hoisted_set_usedNames|done].
Qed.

Lemma succeeds_append statements :
  Forall definitionFree statements → succeeds J (λ _, True) (InlineModifier.append statements).
Proof.
  intros Hs im _ Hh Hb. rewrite append_Ok. eexists _, _. split; [done|].
  split; [done|]. split; [done|]. by apply Forall_app.
Qed.

Lemma succeeds_clear : succeeds J (λ _, True) InlineModifier.clear.
Proof. intros im _ Hh Hb. rewrite clear_Ok. by eexists _, _. Qed.

Lemma succeeds_assign {A} (r : Driver.Ref A) a :
  (∀ d, hoisted d → hoisted (r a d)) → succeeds J (λ _, True) (InlineModifier.assign r a).
Proof.
  intros Hr im _ Hh Hb. rewrite assign_Ok. eexists _, _. split; [done|].
  split; [done|]. split; [by apply Hr|done].
Qed.

Lemma succeeds_gets_buffer : succeeds J (Forall definitionFree) (gets buffer).
Proof. intros im _ Hh Hb. by exists (buffer im), im. Qed.

Lemma succeeds_visitRecursively (v : SE InlineModifier.t Expression) :
  succeeds J (λ _, True) v →
  succeeds J (λ res, Forall definitionFree res.2) (InlineModifier.visitRecursively v).
Proof.
  intros Hv im HJ Hh Hb. unfold InlineModifier.visitRecursively.
  destruct (Hv (IM [] (driverOf im)) HJ Hh (Forall_nil_2 _)) as (e & [b d'] & -> & _ & Hh' & Hb').
  by eexists _, _.
Qed.

Local Abbreviation keeps := (λ (A : Type) (r : Driver.Ref A), ∀ a d, J d → preserved d (r a d)).
Local Abbreviation good := (λ (A : Type) (r : Driver.Ref A), ∀ a d, hoisted d → hoisted (r a d)).

(** What is asked of the visit of one expression. *)
Local Abbreviation through := (λ e : Expression,
  flatCalls ok e = true →
  ∀ r : Driver.Ref Expression, keeps _ r → good _ r → succeeds J (λ _, True) (visit r e)).

Lemma succeeds_visitArguments_loop r hints types rest :
  keeps _ r → good _ r →
  Forall through rest →
  forallb (flatCalls ok) rest = true →
  ∀ done m prefix,
    Forall definitionFree prefix →
    succeeds J (λ res, Forall definitionFree res.2)
      (InlineModifier.visitArguments_loop visit r hints types done rest m prefix).
Proof.
  intros Hr Hg. induction 1 as [|arg rest Harg _ IH]; intros Hflat done m prefix Hprefix.
  - rewrite (visitArguments_loop_nil h cur). by apply succeeds_ret.
  - simpl in Hflat. apply andb_true_iff in Hflat as [Hfarg Hfrest].
    rewrite (visitArguments_loop_cons h cur). cbn zeta.
    assert (keeps _ (λ a, r (done ++ a :: rest))) as Hr' by (intros a d; apply Hr).
    assert (good _ (λ a, r (done ++ a :: rest))) as Hg' by (intros a d; apply Hg).
    eapply succeeds_bind.
    { apply preserves_visitRecursively.
      apply (preserves_visit h cur h_preserves arg J J_stable J_wellFormed _ Hr'). }
    { apply succeeds_visitRecursively. by apply Harg. }
    intros [arg1 ip] Hip. simpl in Hip.
    destruct (negb (InlineModifier.isEmpty ip)).
    { apply (IH Hfrest). by apply Forall_app. }
    destruct m; [|by apply (IH Hfrest)].
    eapply succeeds_bind; [apply preserves_newName|apply succeeds_newName|].
    intros var _.
    eapply succeeds_bind.
    { apply preserves_assign. intros d; apply Hr'. }
    { apply succeeds_assign. intros d; apply Hg'. }
    intros _ _. apply (IH Hfrest). by constructor.
Qed.

Lemma succeeds_visit_FunctionalInstruction r l i args :
  keeps _ r → good _ r →
  Forall through args → forallb (flatCalls ok) args = true →
  succeeds J (λ _, True) (visit r (FunctionalInstruction l i args)).
Proof.
  intros Hr Hg Hargs Hflat. rewrite (visit_FunctionalInstruction h cur).
  assert (keeps _ (λ a, r (FunctionalInstruction l i a))) as Hr' by (intros a d; apply Hr).
  assert (good _ (λ a, r (FunctionalInstruction l i a))) as Hg' by (intros a d; apply Hg).
  eapply succeeds_bind with (V := λ _, True); [| |intros; by apply succeeds_ret].
  { apply preserves_visitArguments; [done|exact Hr'|].
    apply Forall_forall. intros e _ r0 Hr0.
    by apply (preserves_visit h cur h_preserves e J J_stable J_wellFormed). }
  unfold InlineModifier.visitArguments.
  eapply succeeds_bind.
  { apply preserves_visitArguments_loop; [done|exact Hr'|].
    apply Forall_forall. intros e _ r0 Hr0.
    by apply (preserves_visit h cur h_preserves e J J_stable J_wellFormed). }
  { by apply succeeds_visitArguments_loop. }
  intros [args' prefix] Hprefix. simpl in Hprefix.
  eapply succeeds_bind; [apply preserves_append|by apply succeeds_append|].
  intros _ _. by apply succeeds_ret.
Qed.

Lemma succeeds_visit_FunctionCall r l fn args :
  keeps _ r → good _ r →
  ok fn (length args) = true → forallb callFree args = true →
  succeeds J (λ _, True) (visit r (FunctionCall l fn args)).
Proof.
  intros Hr Hg Hok Hcf im HJ Hh Hb.
  destruct (J_ready _ HJ) as [Hready Hlen].
  pose proof Hready as (Hwf & Hcall & _).
  pose proof (Hcall fn _ Hok) as Hc.
  destruct (Driver.m_functions (driverOf im) !! fn) as [p|] eqn:Hp;
    [|by unfold callable in Hc; rewrite Hp in Hc].
  destruct (h_succeeds p (driverOf im) Hlen Hready Hh) as (d1 & Hh1 & Hhoist1).
  pose proof (h_preserves p (driverOf im) Hwf) as Hp1. unfold id in Hp1.
  rewrite Hh1 in Hp1.
  assert (J d1) as HJ1 by (by eapply J_stable).
  pose proof (callable_preserved _ _ fn _ Hp1 Hc) as Hc1. unfold callable in Hc1.
  assert (Driver.m_functions d1 !! fn = Some p) as Hp'.
  { destruct Hp1 as [-> _]. done. }
  rewrite Hp' in Hc1. destruct (Driver.deref p d1) as [f|] eqn:Hf; [|done].
  apply Nat.leb_le in Hc1.
  remember (InlineModifier.doInline cur fn (Driver.fun_returnVariables f)) as m eqn:Hm.
  assert (keeps _ (λ a, r (FunctionCall l fn a))) as Hr' by (intros a d; apply Hr).
  destruct (visitArguments_loop_callFree_Ok h cur (λ a, r (FunctionCall l fn a))
              (argNames f) (argTypes f) args Hcf [] m [] (IM (buffer im) d1))
    as ([args' prefix] & im1 & Hloop & Hfree).
  simpl in Hfree. specialize (Hfree (Forall_nil_2 _)).
  pose proof (visitArguments_loop_shape h cur _ _ _ _ _ _ _ _ _ _ _ Hloop)
    as (Hlen' & _ & _ & Hbuf & Hids). simpl in Hlen', Hbuf.
  assert (hoisted (driverOf im1)) as Hhoist2.
  { exact (visitArguments_loop_callFree_invariant h cur hoisted
             (λ a, r (FunctionCall l fn a)) _ _ _
             (λ a d, Hg (FunctionCall l fn a) d) hoisted_set_usedNames Hcf
             _ _ _ _ _ _ Hloop Hhoist1). }
  assert (preserved d1 (driverOf im1)) as Hp2.
  { pose proof (preserves_visitArguments_loop h cur J J_stable
                  (λ a, r (FunctionCall l fn a)) (argNames f) (argTypes f) args Hr'
                  (proj2 (Forall_forall _ _)
                     (λ e _ r0 Hr0, preserves_visit h cur h_preserves e J J_stable
                                      J_wellFormed r0 Hr0))
                  [] m [] (IM (buffer im) d1) HJ1) as Hpres.
    by rewrite Hloop in Hpres. }
  assert (J (driverOf im1)) as HJ2 by (by eapply J_stable).
  assert (InlineModifier.visitArguments visit (λ a, r (FunctionCall l fn a)) args
            (argNames f) (argTypes f) m (IM (buffer im) d1)
          = Ok (args', IM (buffer im1 ++ prefix) (driverOf im1))) as Hargs.
  { apply (visitArguments_Ok h cur). by exists prefix, im1. }
  destruct m.
  - (* the call is inlined *)
    destruct (deref_preserved_forward _ _ _ _ Hp2 Hf) as (f2 & Hf2 & Hname & Hparams & Hrets).
    pose proof (proj1 (doInline_true cur fn _) (eq_sym Hm)) as [Hne Hone].
    destruct (Driver.fun_returnVariables f2) as [|rv [|]] eqn:Hrv;
      try (rewrite <- Hrets in Hone; simpl in Hone; lia).
    assert (Forall (λ a, isIdentifier a = true) args') as Hid.
    { apply Forall_lookup. intros i a' Ha'.
      destruct (lookup_lt_is_Some_2 args i) as [a Ha].
      { apply lookup_lt_Some in Ha'. lia. }
      destruct (Hids eq_refl i a Ha) as (v & Hv & _).
      { rewrite forallb_forall in Hcf. apply Hcf. by eapply list_elem_of_In, list_elem_of_lookup_2. }
      simpl in Hv. rewrite Ha' in Hv. by injection Hv as ->. }
    destruct (bindParameters_identifiers (Driver.fun_parameters f2) args' Hid 0 ∅)
      as [repl Hrepl].
    { rewrite Hparams. simpl. lia. }
    set (result := newName_name (Driver.m_usedNames (driverOf im1))
                     (Driver.fun_name f2 +:+ "_" +:+ tn_name rv)).
    pose proof (translateStatement_outcome (Driver.fun_name f2 +:+ "_")
                  (Block (Driver.fun_bodyLocation f2) (Driver.fun_body f2))
                  (BodyCopier.mk (<[tn_name rv := result]> repl)
                     ({[result]} ∪ Driver.m_usedNames (driverOf im1)))) as Hcopy.
    destruct (BodyCopier.translateStatement _ _ _) as [[copy c']|why] eqn:Hrun; simpl in Hcopy.
    2:{ destruct Hcopy as [_ Hdef]. by rewrite (Hhoist2 p f2 Hf2) in Hdef. }
    eexists (Identifier l result), _. split.
    { apply (visit_FunctionCall_Ok h cur). exists p, d1, f, args', (IM (buffer im1 ++ prefix) (driverOf im1)).
      split; [done|]. split; [done|]. split; [done|]. rewrite <- Hm. split; [exact Hargs|].
      apply inlineCall_Ok.
      exists f2, rv, repl, copy, c'. split; [done|]. split; [by rewrite Hrv|].
      split; [done|]. cbv zeta. split; [exact Hrun|]. split; reflexivity. }
    split; [done|]. simpl. split.
    + apply Hg. by apply hoisted_set_usedNames.
    + rewrite Hbuf. apply Forall_app. split; [by apply Forall_app|].
      constructor; [done|]. constructor; [|constructor].
      by eapply translateStatement_definitionFree.
  - (* the call stays *)
    eexists (FunctionCall l fn args'), _. split.
    { apply (visit_FunctionCall_Ok h cur). exists p, d1, f, args', (IM (buffer im1 ++ prefix) (driverOf im1)).
      split; [done|]. split; [done|]. split; [done|]. rewrite <- Hm. split; [exact Hargs|].
      done. }
    split; [done|]. simpl. split; [done|]. rewrite Hbuf. by apply Forall_app.
Qed.

Lemma succeeds_visit e : through e.
Proof.
  induction e as [l i args IH|l fn args IH|l x|l v ty] using Expression_nested_ind;
    intros Hflat r Hr Hg.
  - by apply succeeds_visit_FunctionalInstruction.
  - simpl in Hflat. apply andb_true_iff in Hflat as [Hok Hcf].
    by apply succeeds_visit_FunctionCall.
  - by apply succeeds_ret.
  - by apply succeeds_ret.
Qed.


(** What is asked of the visit of one statement. *)
Local Abbreviation throughS := (λ s : Statement,
  flatStatement ok s = true →
  ∀ r : Driver.Ref Statement,
    (∀ s' d, sameHeader s s' → J d → preserved d (r s' d)) →
    (∀ s' d, definitionFree s' → hoisted d → hoisted (r s' d)) →
    succeeds J definitionFree (visitStatement r s)).

Lemma succeeds_op_Block_loop r rest :
  keeps _ r →
  (∀ b d, Forall definitionFree b → hoisted d → hoisted (r b d)) →
  Forall throughS rest →
  forallb (flatStatement ok) rest = true →
  ∀ done,
    Forall definitionFree done →
    succeeds J (Forall definitionFree)
      (InlineModifier.op_Block_loop visitStatement r done rest).
Proof.
  intros Hr Hg. induction 1 as [|s rest Hs _ IH]; intros Hflat done Hdone.
  - rewrite (op_Block_loop_nil h cur). by apply succeeds_ret.
  - simpl in Hflat. apply andb_true_iff in Hflat as [Hfs Hfrest].
    pose proof (flatStatements_definitionFree ok rest Hfrest) as Hrest.
    rewrite (op_Block_loop_cons h cur).
    eapply succeeds_bind.
    { apply (preserves_visitStatement h cur h_preserves s J J_stable J_wellFormed).
      intros s' d _. apply Hr. }
    { apply (Hs Hfs).
      - intros s' d _. apply Hr.
      - intros s' d Hs' Hd. apply Hg; [|done].
        apply Forall_app. split; [done|]. by constructor. }
    intros s1 Hs1.
    eapply succeeds_bind; [apply preserves_gets|apply succeeds_gets_buffer|].
    intros prefix Hprefix.
    destruct (negb (InlineModifier.isEmpty prefix)).
    + eapply succeeds_bind.
      { apply preserves_assign. intros d. apply Hr. }
      { apply succeeds_assign. intros d Hd. apply Hg; [|done].
        apply Forall_app. split; [done|]. apply Forall_app. split; [done|].
        by constructor. }
      intros _ _.
      eapply succeeds_bind; [apply preserves_clear|apply succeeds_clear|].
      intros _ _. apply (IH Hfrest).
      apply Forall_app. split; [done|]. apply Forall_app. split; [done|].
      by constructor.
    + apply (IH Hfrest). apply Forall_app. split; [done|]. by constructor.
Qed.

Lemma succeeds_op_Block r statements :
  keeps _ r →
  (∀ b d, Forall definitionFree b → hoisted d → hoisted (r b d)) →
  Forall throughS statements →
  forallb (flatStatement ok) statements = true →
  succeeds J (Forall definitionFree) (InlineModifier.op_Block h cur r statements).
Proof.
  intros Hr Hg Hall Hflat. rewrite (op_Block_unfold h cur).
  by apply succeeds_op_Block_loop.
Qed.

Lemma definitionFree_ForLoop l lpre pre c lpost post lbody body :
  Forall definitionFree pre → Forall definitionFree post → Forall definitionFree body →
  definitionFree (ForLoop l lpre pre c lpost post lbody body).
Proof.
  intros Hpre%definitionFree_existsb Hpost%definitionFree_existsb
    Hbody%definitionFree_existsb.
  unfold definitionFree. simpl. by rewrite Hpre, Hpost, Hbody.
Qed.

Lemma definitionFree_Block l statements :
  Forall definitionFree statements → definitionFree (Block l statements).
Proof. intros H%definitionFree_existsb. done. Qed.

Lemma succeeds_visitStatement s : throughS s.
Proof.
  induction s as [l e|l names v|l vars v|l name ps rs lb body IH
    |l lpre pre cnd lpost post lbody body IHpre IHpost IHbody|l ss IH]
    using Statement_nested_ind; intros Hflat r Hr Hg; simpl in Hflat.
  - rewrite (visitStatement_ExpressionStatement h cur).
    eapply succeeds_bind; [| |intros e' _; by apply succeeds_ret].
    + apply (preserves_visit h cur h_preserves e J J_stable J_wellFormed).
      intros a d. by apply Hr.
    + apply (succeeds_visit e Hflat).
      * intros a d. by apply Hr.
      * intros a d. by apply Hg.
  - rewrite (visitStatement_Assignment h cur).
    eapply succeeds_bind; [| |intros e' _; by apply succeeds_ret].
    + apply (preserves_visit h cur h_preserves v J J_stable J_wellFormed).
      intros a d. by apply Hr.
    + apply (succeeds_visit v Hflat).
      * intros a d. by apply Hr.
      * intros a d. by apply Hg.
  - destruct v as [v|]; [|by apply succeeds_ret].
    rewrite (visitStatement_VariableDeclaration_Some h cur).
    assert (∀ a, sameHeader (VariableDeclaration l vars (Some v))
                   (VariableDeclaration l vars (Some a))) as Hsame.
    { intros a. simpl. split; [done|]. split; [done|]. split; intros _; by eexists. }
    eapply succeeds_bind; [| |intros e' _; by apply succeeds_ret].
    + apply (preserves_visit h cur h_preserves v J J_stable J_wellFormed).
      intros a d. by apply Hr.
    + apply (succeeds_visit v Hflat).
      * intros a d. by apply Hr.
      * intros a d. by apply Hg.
  - done.
  - apply andb_true_iff in Hflat as [Hflat Hfbody].
    apply andb_true_iff in Hflat as [Hfpre Hfpost].
    pose proof (flatStatements_definitionFree ok pre Hfpre) as Hdpre.
    pose proof (flatStatements_definitionFree ok post Hfpost) as Hdpost.
    pose proof (flatStatements_definitionFree ok body Hfbody) as Hdbody.
    rewrite (visitStatement_ForLoop h cur), (op_ForLoop_unfold h cur).
    eapply succeeds_bind.
    { apply (preserves_op_Block h cur h_preserves J _ pre J_stable J_wellFormed).
      intros a d. by apply Hr. }
    { apply succeeds_op_Block; [intros a d; by apply Hr| |done..].
      intros b d Hb Hd. apply Hg; [|done]. by apply definitionFree_ForLoop. }
    intros pre' Hpre'.
    eapply succeeds_bind.
    { apply (preserves_op_Block h cur h_preserves J _ post J_stable J_wellFormed).
      intros a d. by apply Hr. }
    { apply succeeds_op_Block; [intros a d; by apply Hr| |done..].
      intros b d Hb Hd. apply Hg; [|done]. by apply definitionFree_ForLoop. }
    intros post' Hpost'.
    eapply succeeds_bind.
    { apply (preserves_op_Block h cur h_preserves J _ body J_stable J_wellFormed).
      intros a d. by apply Hr. }
    { apply succeeds_op_Block; [intros a d; by apply Hr| |done..].
      intros b d Hb Hd. apply Hg; [|done]. by apply definitionFree_ForLoop. }
    intros body' Hbody'. apply succeeds_ret. by apply definitionFree_ForLoop.
  - rewrite (visitStatement_Block h cur).
    eapply succeeds_bind.
    { apply (preserves_op_Block h cur h_preserves J _ ss J_stable J_wellFormed).
      intros a d. by apply Hr. }
    { apply succeeds_op_Block; [intros a d; by apply Hr| |done..].
      intros b d Hb Hd. apply Hg; [|done]. by apply definitionFree_Block. }
    intros ss' Hss'. apply succeeds_ret. by apply definitionFree_Block.
Qed.

Lemma succeeds_op_Block_flat r statements :
  keeps _ r →
  (∀ b d, Forall definitionFree b → hoisted d → hoisted (r b d)) →
  forallb (flatStatement ok) statements = true →
  succeeds J (Forall definitionFree) (InlineModifier.op_Block h cur r statements).
Proof.
  intros Hr Hg Hflat. apply succeeds_op_Block; [done..| |done].
  apply Forall_forall. intros s _. apply succeeds_visitStatement.
Qed.

End succeed.

Lemma hoisted_bodyRef p b d :
  Forall definitionFree b → hoisted d → hoisted (Driver.bodyRef p b d).
Proof.
  intros Hb Hd q f. unfold Driver.bodyRef.
  destruct (Driver.deref p d) as [fp|] eqn:Hfp; [|apply Hd].
  unfold Driver.statementRef, Driver.deref. simpl.
  destruct (decide (q = p)) as [->|Hne].
  - unfold Driver.deref in Hfp.
    destruct (Driver.m_ast d !! p) as [sp|] eqn:Hsp; [|done].
    rewrite list_lookup_insert_eq by (by eapply lookup_lt_Some).
    intros [= <-]. simpl. by apply definitionFree_existsb.
  - rewrite list_lookup_insert_ne by done. apply Hd.
Qed.

Lemma hoisted_statementRef i s d :
  definitionFree s → hoisted d → hoisted (Driver.statementRef i s d).
Proof.
  intros Hs Hd q f. unfold Driver.statementRef, Driver.deref. simpl.
  destruct (decide (q = i)) as [->|Hne].
  - destruct (decide (i < length (Driver.m_ast d))) as [Hlt|Hge].
    + rewrite list_lookup_insert_eq by done. by destruct s.
    + rewrite list_insert_ge by lia. apply Hd.
  - rewrite list_lookup_insert_ne by done. apply Hd.
Qed.

Lemma handleFunction_skip p d :
  p ∉ pending d → FullInliner.handleFunction p d = Ok (tt, d).
Proof. intros Hp. rewrite handleFunction_unfold. by apply handleFunction_nested_skip. Qed.

(** With the driver ready, [handleFunction] returns. *)
Lemma handleFunction_succeeds ok N :
  ∀ p d, length (pending d) ≤ N → ready ok d → hoisted d →
         ∃ d', FullInliner.handleFunction p d = Ok (tt, d') ∧ hoisted d'.
Proof.
  induction N as [|N IH]; intros p d Hlen Hready Hh.
  - exists d. split; [|done]. apply handleFunction_skip.
    destruct (pending d); [apply not_elem_of_nil|simpl in Hlen; lia].
  - destruct (decide (p ∈ pending d)) as [Hp|Hp].
    2:{ exists d. split; [|done]. by apply handleFunction_skip. }
    rewrite (handleFunction_go p d Hp). unfold bind at 1, modify at 1.
    pose proof Hready as (Hwf & Hcall & Hpend).
    destruct (Hpend p Hp) as (f & Hf & Hflat).
    assert (Driver.read p (Driver.erase p d) = Ok (f, Driver.erase p d)) as Hread.
    { unfold Driver.read, Driver.deref in *. simpl. by rewrite Hf. }
    rewrite (bind_step _ _ _ _ _ Hread).
    set (J := λ d' : Driver.t, ready ok d' ∧ length (pending d') ≤ N ∧ p ∉ pending d').
    assert (stable J) as HJ.
    { intros d1 d2 (Hr1 & Hl1 & Hn1) Hpres. split; [by eapply ready_stable|].
      destruct Hpres as (_ & _ & Hsub & _ & Hl & _). split; [lia|].
      intros Hin. by apply Hn1, Hsub. }
    assert (J (Driver.erase p d)) as HJe.
    { split; [eapply ready_stable; [done|apply preserved_erase]|]. split.
      - simpl. pose proof (length_filter_elem p _ Hp). lia.
      - simpl. intros Hin. by apply list_elem_of_filter in Hin as [? _]. }
    destruct (succeeds_op_Block_flat FullInliner.handleFunction (Driver.fun_name f) ok N
                preserves_handleFunction IH J HJ (λ d' Hd', conj (proj1 Hd') (proj1 (proj2 Hd')))
                (Driver.bodyRef p) (Driver.fun_body f)
                (λ b d' Hd', preserved_bodyRef p b d' (proj2 (proj2 Hd')))
                (hoisted_bodyRef p) Hflat
                (IM [] (Driver.erase p d)) HJe Hh (Forall_nil_2 _))
      as (b' & im' & Hrun & _ & Hh' & _).
    unfold bind, FullInliner.withModifier. rewrite Hrun. by eexists.
Qed.

Lemma run_functions_succeeds ok rounds :
  ∀ d, length (pending d) ≤ rounds → ready ok d → hoisted d →
       ∃ d', FullInliner.run_functions rounds d = Ok (tt, d').
Proof.
  induction rounds as [|rounds IH]; intros d Hlen Hready Hh.
  - destruct (pending d) eqn:Hp; [|simpl in Hlen; lia]. exists d. simpl. by rewrite Hp.
  - simpl. destruct (pending d) as [|p ps] eqn:Hp; [by exists d|].
    rewrite <- Hp in Hlen.
    destruct (handleFunction_succeeds ok _ p d (le_n _) Hready Hh) as (d1 & Hrun & Hh1).
    rewrite (bind_step _ _ _ _ _ Hrun).
    pose proof (preserves_handleFunction p d (proj1 Hready)) as Hpres.
    unfold id in Hpres. rewrite Hrun in Hpres.
    apply IH; [|by eapply ready_stable|done].
    pose proof (handleFunction_progress _ _ _ Hrun) as (l & _ & Hv & _).
    pose proof (handleFunction_done _ _ _ Hrun) as Hdone.
    rewrite Hv in Hdone |- *.
    assert (p ∈ pending d) as Hin by (rewrite Hp; apply elem_of_cons; by left).
    pose proof (length_filter_lt _ _ _ Hin Hdone) as Hlt. lia.
Qed.

Lemma run_statements_succeeds ok ast0 n :
  Forall (λ s, flatTopLevel ok s = true) ast0 →
  ∀ i d,
    i + n = length ast0 →
    ready ok d → hoisted d →
    Forall2 sameHeader ast0 (Driver.m_ast d) →
    (∀ k s, i ≤ k → ast0 !! k = Some s → isFunctionDefinition s = false →
            Driver.m_ast d !! k = Some s) →
    ∃ d', FullInliner.run_statements n i d = Ok (tt, d') ∧ ready ok d' ∧ hoisted d'.
Proof.
  intros Hflat. induction n as [|n IH]; intros i d Hin Hready Hh Hheaders Hblocks.
  - by exists d.
  - rewrite run_statements_S. unfold bind at 1, gets at 1.
    destruct (lookup_lt_is_Some_2 ast0 i) as [s0 Hs0]; [lia|].
    pose proof (Forall_lookup_1 _ _ _ _ Hflat Hs0) as Hf0.
    destruct (Forall2_lookup_l _ _ _ _ _ Hheaders Hs0) as (s & Hs & Hsame).
    destruct s0 as [| | |l0 n0 ps rs lb b| |l statements]; try done.
    + rewrite Hs. destruct s; try done. apply IH; [lia|done..|].
      intros k sk Hk. apply Hblocks. lia.
    + rewrite (Hblocks i _ (le_n _) Hs0 eq_refl) in Hs |- *. injection Hs as <-.
      pose proof (Hblocks i _ (le_n _) Hs0 eq_refl) as Hs.
      pose proof Hready as (Hwf & _).
      assert (i ∉ pending d) as Hi.
      { intros Hp. destruct Hwf as [_ Hpend]. destruct (Hpend i Hp) as (sf & Hsf & Hdef).
        rewrite Hs in Hsf. by injection Hsf as <-. }
      set (J := λ d' : Driver.t,
             ready ok d' ∧ length (pending d') ≤ length (pending d)
             ∧ ∃ s', Driver.m_ast d' !! i = Some s' ∧ sameHeader (Block l statements) s').
      assert (stable J) as HJ.
      { intros d1 d2 (Hr1 & Hl1 & s1 & Hs1 & Hh1) Hpres. split; [by eapply ready_stable|].
        destruct (preserved_lookup _ _ _ _ Hpres Hs1) as (s2 & Hs2 & Hh2).
        destruct Hpres as (_ & _ & _ & _ & Hl & _). split; [lia|].
        exists s2. split; [done|]. by eapply sameHeader_trans. }
      assert (J d) as HJd.
      { split; [done|]. split; [done|]. exists (Block l statements). split; [done|].
        apply sameHeader_refl. }
      destruct (succeeds_visitStatement FullInliner.handleFunction "" ok (length (pending d))
                  preserves_handleFunction (handleFunction_succeeds ok _) J HJ
                  (λ d' Hd', conj (proj1 Hd') (proj1 (proj2 Hd')))
                  (Block l statements) Hf0 (Driver.statementRef i))
        with (im := IM [] d) as (s1 & im1 & Hrun & _ & Hh1 & _); try done.
      { intros s' d' Hs' (Hr' & _ & s2 & Hs2 & Hh2).
        unfold Driver.statementRef. eapply preserved_insert; [|done|].
        - intros Hp. destruct Hr' as [[_ Hpend] _].
          destruct (Hpend i Hp) as (sf & Hsf & Hdef).
          rewrite Hs2 in Hsf. injection Hsf as <-. by destruct s2.
        - eapply sameHeader_trans; [by apply sameHeader_sym|done]. }
      { intros s' d'. apply hoisted_statementRef. }
      pose proof (preserves_topLevelBlock i l statements d) as Hpres.
      unfold id in Hpres. unfold bind, FullInliner.withModifier in Hpres |- *.
      rewrite Hrun in Hpres |- *.
      assert (preserved d (driverOf im1)) as Hp1.
      { apply Hpres. split; [done|]. exists (Block l statements). split; [done|].
        apply sameHeader_refl. }
      apply (visitStatement_stores_result i (λ s, s)) in Hrun as [_ [_ Hframe]];
        [|apply storesAt_statementRef|done|done].
      apply IH; [lia|by eapply ready_stable|done| |].
      * destruct Hp1 as (_ & _ & _ & Ha & _).
        eapply Forall2_trans; [|done..]. apply sameHeader_trans.
      * intros k sk Hk Hsk Hnf. simpl in Hframe. rewrite Hframe.
        -- apply Hblocks; [lia|done..].
        -- intros Hin'%list_elem_of_singleton. lia.
        -- intros Hp. destruct Hwf as [_ Hpend].
           destruct (Hpend k Hp) as (sf & Hsf & Hdef).
           rewrite (Hblocks k sk) in Hsf by (done || lia). injection Hsf as <-. congruence.
Qed.
End success_facts.

(** X14. When the pass succeeds.  If every top-level statement is a block
    or a function definition, no function is defined inside another
    statement, and every call the pass reaches (all but those in the
    conditions of loops) names a top-level function, has no more arguments
    than that function has parameters, and has arguments in which no call
    occurs, then [run] (lines 56-70), from the state the constructor
    leaves, returns. *)
Theorem run_succeeds_on_flat_calls (_ast : list Statement) (names : gset string) :
  Forall (λ s, flatTopLevel (callable (FullInliner.new _ast names)) s = true) _ast →
  ∃ d', FullInliner.run (FullInliner.new _ast names) = Ok (tt, d').
Proof.
  intros Hflat. set (d := FullInliner.new _ast names) in *.
  set (ok := callable d) in *.
  destruct (new_toVisit _ast names) as (Hv & _ & Hast & _). fold d in Hv, Hast.
  assert (∀ p f, Driver.deref p d = Some f →
                 forallb (flatStatement ok) (Driver.fun_body f) = true) as Hbodies.
  { intros p f Hf. unfold Driver.deref in Hf. rewrite Hast in Hf.
    destruct (_ast !! p) as [s|] eqn:Hs; [|done].
    pose proof (Forall_lookup_1 _ _ _ _ Hflat Hs) as Hfs.
    destruct s; try done. by injection Hf as <-. }
  assert (ready ok d) as Hready.
  { split; [apply wellFormed_new|]. split; [done|].
    intros p Hp. destruct (wellFormed_new _ast names) as [_ Hpend].
    destruct (Hpend p Hp) as (s & Hs & Hdef).
    assert (is_Some (Driver.deref p d)) as [f Hf].
    { apply deref_is_Some. by exists s. }
    exists f. split; [done|]. by eapply Hbodies. }
  assert (hoisted d) as Hh.
  { intros p f Hf. apply definitionFree_existsb.
    eapply flatStatements_definitionFree. by eapply Hbodies. }
  destruct (run_statements_succeeds ok _ast (length (Driver.m_ast d)) Hflat 0 d)
    as (d1 & Hrun1 & Hready1 & Hh1); try done.
  { by rewrite Hast. }
  { rewrite Hast. apply sameHeaders_refl. }
  { intros k s _ Hs _. by rewrite Hast. }
  destruct (run_functions_succeeds ok (length (Driver.m_functionsToVisit d1)) d1 (le_n _)
              Hready1 Hh1)
    as (d2 & Hrun2).
  exists d2. unfold FullInliner.run, bind. by rewrite Hrun1.
Qed.

Lemma run_succeeds_on_flat_calls_witness :
  ∃ d', FullInliner.run (FullInliner.new Sample.identity Sample.identity_names)
        = Ok (tt, d').
Proof.
  apply (run_succeeds_on_flat_calls Sample.identity Sample.identity_names).
  repeat constructor.
Defined.

Section argument_order_facts.
Variable h : nat → SE Driver.t unit.
Variable cur : string.
Local Abbreviation visit := (InlineModifier.visit h cur).
Local Abbreviation IM := InlineModifier.mk.
Local Abbreviation buffer := InlineModifier.m_statementsToPrefix.
Local Abbreviation driverOf := InlineModifier.m_driver.

Lemma movedAt_0 m steps : movedAt m steps 0 = m.
Proof. unfold movedAt. simpl. by destruct m. Qed.

Lemma movedAt_S m step steps j :
  movedAt m (step :: steps) (S j) = movedAt (m || hoists step) steps j.
Proof. unfold movedAt. simpl. by rewrite orb_assoc. Qed.

(** The loop of [visitArguments], argument by argument. *)
Lemma visitArguments_loop_steps r hints types rest :
  ∀ done m prefix im args' prefix' im',
    InlineModifier.visitArguments_loop visit r hints types done rest m prefix im
      = Ok ((args', prefix'), im') →
    ∃ steps : list ArgumentStep,
      length steps = length rest
      ∧ args' = done ++ imap (λ j, argumentAfter hints (movedAt m steps j)
                                     (length done + j)) steps
      ∧ prefix' = concat (reverse (imap (λ j, hoistedFor hints types (movedAt m steps j)
                                                 (length done + j)) steps))
                  ++ prefix
      ∧ (∀ j a step, rest !! j = Some a → steps !! j = Some step →
           visit (λ x, r (take (length done + j) args' ++ x :: drop (S j) rest)) a
             (IM [] (before step))
           = Ok (visited step, IM (hoistedBy step) (after step))
           ∧ before step
             = entered (driverOf im)
                 (imap (λ j, driverAfter
                               (λ x, r (take (length done + j) args' ++ x :: drop (S j) rest))
                               hints (movedAt m steps j) (length done + j)) steps) j)
      ∧ driverOf im'
        = entered (driverOf im)
            (imap (λ j, driverAfter
                          (λ x, r (take (length done + j) args' ++ x :: drop (S j) rest))
                          hints (movedAt m steps j) (length done + j)) steps)
            (length steps).
Proof.
  induction rest as [|arg rest IH]; intros done m prefix im args' prefix' im' H.
  - rewrite (visitArguments_loop_nil h cur) in H. injection H as <- <- <-.
    exists []. simpl. rewrite app_nil_r. by repeat split.
  - rewrite (visitArguments_loop_cons h cur) in H. cbn zeta in H.
    apply bind_Ok in H as ([arg1 ip] & im1 & Hrec & H).
    apply visitRecursively_Ok in Hrec as (d1 & Hv & ->).
    set (step0 := mkStep (driverOf im) arg1 ip d1).
    assert (∀ x m' pf im2,
              InlineModifier.visitArguments_loop visit r hints types (done ++ [x]) rest
                m' pf im2 = Ok ((args', prefix'), im') →
              m' = m || hoists step0 →
              x = argumentAfter hints m (length done) step0 →
              pf = hoistedFor hints types m (length done) step0 ++ prefix →
              driverOf im2
              = driverAfter (λ x, r (done ++ x :: rest)) hints m (length done) step0 →
              ∃ steps : list ArgumentStep,
                length steps = length (arg :: rest)
                ∧ args' = done ++ imap (λ j, argumentAfter hints (movedAt m steps j)
                                               (length done + j)) steps
                ∧ prefix' = concat (reverse (imap (λ j, hoistedFor hints types
                                                          (movedAt m steps j)
                                                          (length done + j)) steps))
                            ++ prefix
                ∧ (∀ j a step, (arg :: rest) !! j = Some a → steps !! j = Some step →
                     visit (λ x, r (take (length done + j) args' ++ x
                                      :: drop (S j) (arg :: rest))) a
                       (IM [] (before step))
                     = Ok (visited step, IM (hoistedBy step) (after step))
                     ∧ before step
                       = entered (driverOf im)
                           (imap (λ j, driverAfter
                                         (λ x, r (take (length done + j) args' ++ x
                                                    :: drop (S j) (arg :: rest)))
                                         hints (movedAt m steps j) (length done + j))
                              steps) j)
                ∧ driverOf im'
                  = entered (driverOf im)
                      (imap (λ j, driverAfter
                                    (λ x, r (take (length done + j) args' ++ x
                                               :: drop (S j) (arg :: rest)))
                                    hints (movedAt m steps j) (length done + j)) steps)
                      (length steps)) as Hnext.
    { intros x m' pf im2 Hl -> Hx -> Him2.
      apply IH in Hl as (steps & Hlen & Hargs & -> & Hvisits & Hfinal).
      assert (length (done ++ [x]) = S (length done)) as Hdone
        by (rewrite length_app; simpl; lia).
      assert (∀ j, length (done ++ [x]) + j = length done + S j) as Hidx
        by (intros j; rewrite Hdone; lia).
      assert (take (length done) args' = done) as Htake.
      { rewrite Hargs, <- app_assoc. by rewrite take_app_length. }
      assert (imap (λ j, driverAfter
                           (λ x0, r (take (length (done ++ [x]) + j) args' ++ x0
                                       :: drop (S j) rest))
                           hints (movedAt (m || hoists step0) steps j)
                           (length (done ++ [x]) + j)) steps
              = imap ((λ j, driverAfter
                              (λ x0, r (take (length done + j) args' ++ x0
                                          :: drop (S j) (arg :: rest)))
                              hints (movedAt m (step0 :: steps) j) (length done + j))
                      ∘ S) steps) as Hafters.
      { apply imap_ext. intros j step _. simpl. by rewrite movedAt_S, Hidx. }
      exists (step0 :: steps). split; [simpl; by rewrite Hlen|]. split.
      { rewrite Hargs, <- app_assoc. simpl. rewrite movedAt_0, Nat.add_0_r, <- Hx.
        f_equal. f_equal. apply imap_ext. intros j step _. simpl.
        by rewrite movedAt_S, Hidx. }
      split.
      { simpl. rewrite reverse_cons, concat_app. simpl.
        rewrite app_nil_r, movedAt_0, Nat.add_0_r, <- app_assoc. f_equal. f_equal. f_equal.
        apply imap_ext. intros j step _. simpl. by rewrite movedAt_S, Hidx. }
      split.
      { intros [|j] a step Ha Hstep; simpl in Ha, Hstep.
        - injection Ha as <-. injection Hstep as <-. simpl.
          rewrite Nat.add_0_r, Htake. by rewrite drop_0.
        - destruct (Hvisits j a step Ha Hstep) as [Hvj Hbj].
          rewrite Hidx in Hvj. split; [exact Hvj|].
          rewrite Hbj, Hafters. simpl.
          rewrite movedAt_0, Nat.add_0_r, Htake, drop_0, <- Him2. done. }
      rewrite Hfinal, Hafters. simpl.
      rewrite movedAt_0, Nat.add_0_r, Htake, drop_0, <- Him2. done. }
    destruct (InlineModifier.isEmpty ip) eqn:Hip; simpl in H.
    + destruct m.
      * apply bind_Ok in H as (var & im2 & Hvar & H).
        rewrite newName_Ok in Hvar. cbv zeta in Hvar. injection Hvar as <- <-.
        apply bind_Ok in H as ([] & im3 & Hass & H).
        rewrite assign_Ok in Hass. injection Hass as <-.
        eapply Hnext; [exact H|..];
          unfold argumentAfter, hoistedFor, driverAfter, argumentDeclaration, temporary,
            hoists; simpl; rewrite ?Hip; simpl; done.
      * eapply Hnext; [exact H|..];
          unfold argumentAfter, hoistedFor, driverAfter, hoists; simpl; rewrite ?Hip;
          simpl; done.
    + eapply Hnext; [exact H|..];
        unfold argumentAfter, hoistedFor, driverAfter, hoists; simpl; rewrite ?Hip; simpl;
        rewrite ?orb_true_r; done.
Qed.
End argument_order_facts.

(** X15. [visitArguments] (lines 162-197), argument by argument.  When it
    returns, every argument has been visited once, through the reference
    to its place among the arguments, on an empty buffer and with the
    driver as the step before has left it.  An argument whose visit has
    hoisted statements is left as that visit has left it.  Another
    argument is left as it is unless the loop was entered with the order to
    move the arguments to the front or an argument before it has hoisted
    statements; then it is replaced, in the tree too, by an identifier of
    the name [NameDispenser::newName] gives for its hint when the visit
    has returned, the name is used from then on, and a declaration of the
    name with the argument as its value is gathered.  The buffer grows by
    what has been hoisted or gathered for the arguments, the statements of
    the last argument first: the arguments are evaluated from right to
    left; the driver is left as the last step has left it. *)
Theorem visitArguments_right_to_left
    (h : nat → SE Driver.t unit) (cur : string) (r : Driver.Ref (list Expression))
    (args : list Expression) (hints types : list string) (moveToFront : bool)
    (im : InlineModifier.t) (args' : list Expression) (im' : InlineModifier.t) :
  InlineModifier.visitArguments (InlineModifier.visit h cur) r args hints types
    moveToFront im = Ok (args', im') →
  ∃ steps : list ArgumentStep,
    length steps = length args
    ∧ args' = imap (λ i, argumentAfter hints (movedAt moveToFront steps i) i) steps
    ∧ InlineModifier.m_statementsToPrefix im'
      = InlineModifier.m_statementsToPrefix im
        ++ concat (reverse (imap (λ i, hoistedFor hints types
                                         (movedAt moveToFront steps i) i) steps))
    ∧ (∀ i a step, args !! i = Some a → steps !! i = Some step →
         InlineModifier.visit h cur (λ x, r (take i args' ++ x :: drop (S i) args)) a
           (InlineModifier.mk [] (before step))
         = Ok (visited step, InlineModifier.mk (hoistedBy step) (after step))
         ∧ before step
           = entered (InlineModifier.m_driver im)
               (imap (λ i, driverAfter (λ x, r (take i args' ++ x :: drop (S i) args))
                             hints (movedAt moveToFront steps i) i) steps) i)
    ∧ InlineModifier.m_driver im'
      = entered (InlineModifier.m_driver im)
          (imap (λ i, driverAfter (λ x, r (take i args' ++ x :: drop (S i) args))
                        hints (movedAt moveToFront steps i) i) steps)
          (length steps).
Proof.
  intros H. apply (visitArguments_Ok h cur) in H as (prefix & im1 & Hloop & ->).
  pose proof (visitArguments_loop_shape h cur _ _ _ _ _ _ _ _ _ _ _ Hloop)
    as (_ & _ & _ & Hbuf & _).
  apply visitArguments_loop_steps in Hloop
    as (steps & Hlen & Hargs & -> & Hvisits & Hfinal).
  exists steps. simpl in *. rewrite app_nil_r.
  split; [done|]. split; [done|]. split; [by rewrite Hbuf|]. split; [done|]. done.
Qed.

Lemma visitArguments_right_to_left_witness :
  ∃ args' im' d1 d2 d3,
    InlineModifier.visitArguments (InlineModifier.visit FullInliner.handleFunction "")
      Sample.threeArguments_reference Sample.threeArguments_arguments
      ["f_a"; "f_b"; "f_c"] [""; ""; ""] false
      (InlineModifier.mk [] (FullInliner.new Sample.threeArguments Sample.threeArguments_names))
    = Ok (args', im')
    ∧ args' = [Sample.num "10"; Sample.var "g_q"; Sample.var "f_c"]
    ∧ InlineModifier.m_statementsToPrefix im'
      = [Sample.declare "f_c" (Sample.num "30"); d1; d2; d3].
Proof.
  assert (∃ args' im',
            InlineModifier.visitArguments
              (InlineModifier.visit FullInliner.handleFunction "")
              Sample.threeArguments_reference Sample.threeArguments_arguments
              ["f_a"; "f_b"; "f_c"] [""; ""; ""] false
              (InlineModifier.mk []
                 (FullInliner.new Sample.threeArguments Sample.threeArguments_names))
            = Ok (args', im')
            ∧ args' = [Sample.num "10"; Sample.var "g_q"; Sample.var "f_c"]
            ∧ ∃ d1 d2 d3, InlineModifier.m_statementsToPrefix im'
              = [Sample.declare "f_c" (Sample.num "30"); d1; d2; d3])
    as (args' & im' & Hrun & Hargs & d1 & d2 & d3 & Hbuf).
  { eexists _, _. split; [vm_compute; reflexivity|]. split; [reflexivity|].
    eexists _, _, _. reflexivity. }
  destruct (visitArguments_right_to_left FullInliner.handleFunction ""
              Sample.threeArguments_reference Sample.threeArguments_arguments
              ["f_a"; "f_b"; "f_c"] [""; ""; ""] false
              (InlineModifier.mk []
                 (FullInliner.new Sample.threeArguments Sample.threeArguments_names))
              args' im' Hrun) as (steps & _).
  by exists args', im', d1, d2, d3.
Defined.

Section abort_facts.
Local Abbreviation pending := Driver.m_functionsToVisit.
Local Abbreviation IM := InlineModifier.mk.
Local Abbreviation buffer := InlineModifier.m_statementsToPrefix.
Local Abbreviation driverOf := InlineModifier.m_driver.

Lemma calledNames_callFree e : callFree e = true → calledNames e = [].
Proof.
  induction e as [l i args IH|l fn args IH|l x|l v ty] using Expression_nested_ind;
    simpl; try done.
  induction IH as [|a args Ha _ IHargs]; simpl; [done|].
  intros [H1 H2]%andb_true_iff. by rewrite Ha, IHargs.
Qed.

Lemma calledNames_callFree_all args :
  forallb callFree args = true → concat (map calledNames args) = [].
Proof.
  induction args as [|a args IH]; simpl; [done|].
  intros [H1 H2]%andb_true_iff. by rewrite calledNames_callFree, IH.
Qed.

Lemma reachedCalls_callFree s : callFreeStatement s = true → reachedCalls s = [].
Proof.
  assert (∀ ss, Forall (λ s, callFreeStatement s = true → reachedCalls s = []) ss →
                forallb callFreeStatement ss = true →
                concat (map reachedCalls ss) = []) as Hall.
  { induction 1 as [|s0 ss Hs _ IH]; simpl; [done|].
    intros [H1 H2]%andb_true_iff. by rewrite Hs, IH. }
  induction s as [l e|l names v|l vars v|l n ps rs lb body IH
    |l lpre pre cnd lpost post lbody body IHpre IHpost IHbody|l ss IH]
    using Statement_nested_ind; simpl.
  - apply calledNames_callFree.
  - apply calledNames_callFree.
  - destruct v as [v|]; [apply calledNames_callFree|done].
  - by apply Hall.
  - intros H. apply andb_true_iff in H as [H Hbody].
    apply andb_true_iff in H as [H Hpost]. apply andb_true_iff in H as [Hpre _].
    by rewrite !Hall.
  - by apply Hall.
Qed.

Lemma reachedCalls_callFree_all ss :
  forallb callFreeStatement ss = true → concat (map reachedCalls ss) = [].
Proof.
  induction ss as [|s ss IH]; simpl; [done|].
  intros [H1 H2]%andb_true_iff. by rewrite reachedCalls_callFree, IH.
Qed.

Lemma prepared_stable ok : stable (prepared ok).
Proof.
  intros d d' (Hwf & Hok & Hpend) Hpres. split; [by eapply wellFormed_stable|]. split.
  - intros fn n Hn. eapply callable_preserved; [done|]. by apply Hok.
  - intros p Hp. destruct Hpres as (_ & _ & Hsub & _ & _ & Hsame).
    destruct (Hpend p (Hsub p Hp)) as (f & Hf & Hflat). exists f. split; [|done].
    unfold Driver.deref in *. by rewrite (Hsame p Hp).
Qed.

Lemma offender_preserved bad d d' q :
  preserved d d' → q ∈ pending d' → offender bad d q → offender bad d' q.
Proof.
  intros (_ & _ & _ & _ & _ & Hsame) Hq (f & fn & Hf & Hfn). exists f, fn.
  split; [|done]. unfold Driver.deref in *. by rewrite (Hsame q Hq).
Qed.

Lemma copiesDefinition_set_usedNames u d fn :
  copiesDefinition d fn → copiesDefinition (Driver.set_usedNames u d) fn.
Proof. intros (p & f & H). by exists p, f. Qed.

Lemma copiesDefinition_erase q d fn :
  copiesDefinition d fn → copiesDefinition (Driver.erase q d) fn.
Proof. intros (p & f & H). by exists p, f. Qed.

Lemma copiesDefinition_insert i s d fn :
  Driver.m_functions d !! fn ≠ Some i →
  copiesDefinition d fn →
  copiesDefinition (Driver.set_ast (λ ast, <[i := s]> ast) d) fn.
Proof.
  intros Hne (p & f & Hp & Hf & H). exists p, f. split; [done|]. split; [|done].
  unfold Driver.deref in *. simpl. rewrite list_lookup_insert_ne; [done|].
  intros ->. by apply Hne.
Qed.

Lemma copiesDefinition_bodyRef p b d fn :
  Driver.m_functions d !! fn ≠ Some p →
  copiesDefinition d fn → copiesDefinition (Driver.bodyRef p b d) fn.
Proof.
  intros Hne H. unfold Driver.bodyRef. destruct (Driver.deref p d); [|done].
  by apply copiesDefinition_insert.
Qed.

(** The copy of a body that holds a function definition aborts the part
    of [visit] that inlines the call. *)
Lemma inlineCall_outcome r l p args im f rv repl :
  Driver.deref p (driverOf im) = Some f →
  Driver.fun_returnVariables f !! 0 = Some rv →
  InlineModifier.bindParameters (Driver.fun_parameters f) args 0 ∅ = Ok repl →
  (InlineModifier.inlineCall r l p args im = Fatal hoistingAssertion
   ∧ existsb containsFunctionDefinition (Driver.fun_body f) = true)
  ∨ (∃ e' u,
       InlineModifier.inlineCall r l p args im
       = Ok (e', IM (buffer im
                      ++ [VariableDeclaration l
                            [mkTypedName l
                               (newName_name (Driver.m_usedNames (driverOf im))
                                  (Driver.fun_name f +:+ "_" +:+ tn_name rv))
                               (tn_type rv)] None;
                          u.1])
                   (r e' (Driver.set_usedNames u.2 (driverOf im))))
       ∧ existsb containsFunctionDefinition (Driver.fun_body f) = false).
Proof.
  intros Hf Hrv Hrepl. unfold InlineModifier.inlineCall.
  rewrite (bind_step _ _ _ f im) by (by apply driver_read_Ok).
  rewrite Hrv. rewrite (bind_step (ret rv) _ im rv im) by done.
  rewrite Hrepl. rewrite (bind_step (ret repl) _ im repl im) by done.
  rewrite (bind_step _ _ _ _ _ (newName_Ok _ _)).
  rewrite (bind_step _ _ _ _ _ (append_Ok _ _)).
  erewrite (bind_step _ _ _ f); [|by apply driver_read_Ok].
  match goal with |- context [bind (InlineModifier.copyBody ?pfx ?rp ?lb ?b) _ ?im0] =>
    pose proof (copyBody_outcome pfx rp lb b im0) as Ho;
    destruct (InlineModifier.copyBody pfx rp lb b im0) as [[copy im1]|why] eqn:Hcopy
  end.
  - right. simpl in Ho. rewrite (bind_step _ _ _ _ _ Hcopy).
    apply copyBody_Ok in Hcopy as (c' & Hc & ->).
    eexists _, (copy, BodyCopier.m_nameDispenser c'). split; [|done].
    rewrite (bind_step _ _ _ _ _ (append_Ok _ _)).
    rewrite (bind_step _ _ _ _ _ (assign_Ok _ _ _)).
    unfold ret. simpl. by rewrite <- app_assoc.
  - left. simpl in Ho. destruct Ho as [-> Hdef]. split; [|done].
    by rewrite (bind_abort _ _ _ _ Hcopy).
Qed.

Lemma spares_nil bad cur : spares bad cur [].
Proof. by intros fn ?%elem_of_nil. Qed.

Lemma spares_app bad cur l1 l2 :
  spares bad cur (l1 ++ l2) ↔ spares bad cur l1 ∧ spares bad cur l2.
Proof.
  unfold spares. split.
  - intros H. split; intros fn Hfn; apply H, elem_of_app; [by left|by right].
  - intros [H1 H2] fn [Hfn|Hfn]%elem_of_app; [by apply H1|by apply H2].
Qed.

Section calls.
Variable h : nat → SE Driver.t unit.
Variable cur : string.
Local Abbreviation visit := (InlineModifier.visit h cur).

Lemma visit_FunctionCall_run r l fn args im p d1 f args' im2 :
  Driver.m_functions (driverOf im) !! fn = Some p →
  h p (driverOf im) = Ok (tt, d1) →
  Driver.deref p d1 = Some f →
  InlineModifier.visitArguments visit (λ a, r (FunctionCall l fn a)) args
    (argNames f) (argTypes f)
    (InlineModifier.doInline cur fn (Driver.fun_returnVariables f))
    (IM (buffer im) d1) = Ok (args', im2) →
  visit r (FunctionCall l fn args) im
  = if InlineModifier.doInline cur fn (Driver.fun_returnVariables f)
    then InlineModifier.inlineCall r l p args' im2
    else Ok (FunctionCall l fn args', im2).
Proof.
  intros Hp Hh Hf Hargs. rewrite (visit_FunctionCall h cur). cbn zeta.
  erewrite bind_step; [|by apply driver_function_Ok].
  erewrite bind_step; [|apply driver_Ok; eauto].
  erewrite bind_step; [|by apply driver_read_Ok].
  fold (argNames f) (argTypes f).
  rewrite (bind_step _ _ _ _ _ Hargs).
  by destruct (InlineModifier.doInline _ _ _).
Qed.

Lemma visit_FunctionCall_abort r l fn args im p why :
  Driver.m_functions (driverOf im) !! fn = Some p →
  h p (driverOf im) = Fatal why →
  visit r (FunctionCall l fn args) im = Fatal why.
Proof.
  intros Hp Hh. rewrite (visit_FunctionCall h cur). cbn zeta.
  erewrite bind_step; [|by apply driver_function_Ok].
  apply bind_abort. unfold InlineModifier.driver. by rewrite Hh.
Qed.
End calls.

Section asserting.
Variable h : nat → SE Driver.t unit.
Variable cur : string.
Variable ok : string → nat → bool.
Variable bad : string → Prop.
Variables J T : Driver.t → Prop.
Hypothesis h_preserves : ∀ p, preserves id wellFormed (h p).
Hypothesis h_asserts :
  ∀ p d, J d → T d →
         h p d = Fatal hoistingAssertion ∨ ∃ d', h p d = Ok (tt, d') ∧ T d'.
Hypothesis J_stable : stable J.
Hypothesis J_wellFormed : ∀ d, J d → wellFormed d.
Hypothesis J_callable : ∀ d fn n, J d → ok fn n = true → callable d fn n = true.
Hypothesis T_bad : ∀ d fn, T d → bad fn → copiesDefinition d fn.
Hypothesis T_usedNames : ∀ u d, T d → T (Driver.set_usedNames u d).
Local Abbreviation visit := (InlineModifier.visit h cur).
Local Abbreviation visitStatement := (InlineModifier.visitStatement h cur).
Local Abbreviation asserts := (λ (A : Type) (V : Prop) (m : SE InlineModifier.t A),
  assertsOr J T (λ _ : A, V) m).

Lemma asserts_ret {A} (V : Prop) (a : A) : V → asserts _ V (ret a).
Proof. intros HV im _ HT. right. by exists a, im. Qed.

Lemma asserts_bind {A B} (V V' : Prop)
    (m : SE InlineModifier.t A) (k : A → SE InlineModifier.t B) :
  preserves InlineModifier.m_driver J m → asserts _ V m →
  (∀ a, V → asserts _ V' (k a)) →
  asserts _ V' (bind m k).
Proof.
  intros Hp Hm Hk im HJ HT.
  destruct (Hm im HJ HT) as [Hfail|(a & im1 & Hrun & Ha & HT1)].
  { left. by apply bind_abort. }
  specialize (Hp im HJ). rewrite Hrun in Hp. rewrite (bind_step _ _ _ _ _ Hrun).
  apply (Hk a Ha); [by eapply J_stable|done].
Qed.

Lemma asserts_weaken {A} (V V' : Prop) (m : SE InlineModifier.t A) :
  (V → V') → asserts _ V m → asserts _ V' m.
Proof.
  intros HV Hm im HJ HT. destruct (Hm im HJ HT) as [Hfail|(a & im1 & Hrun & Ha & HT1)];
    [by left|right]. exists a, im1. split; [done|]. split; [by apply HV|done].
Qed.

Lemma asserts_newName pfx : asserts _ True (InlineModifier.newName pfx).
Proof.
  intros im _ HT. right. rewrite newName_Ok. eexists _, _. split; [done|].
  split; [done|]. by apply T_usedNames.
Qed.

Lemma asserts_append statements : asserts _ True (InlineModifier.append statements).
Proof. intros im _ HT. right. rewrite append_Ok. by eexists _, _. Qed.

Lemma asserts_clear : asserts _ True InlineModifier.clear.
Proof. intros im _ HT. right. rewrite clear_Ok. by eexists _, _. Qed.

Lemma asserts_assign {A} (r : Driver.Ref A) a :
  (∀ d, T d → T (r a d)) → asserts _ True (InlineModifier.assign r a).
Proof.
  intros Hr im _ HT. right. rewrite assign_Ok. eexists _, _. split; [done|].
  split; [done|]. by apply Hr.
Qed.

Lemma asserts_gets_buffer : asserts _ True (gets buffer).
Proof. intros im _ HT. right. by exists (buffer im), im. Qed.

Lemma asserts_visitRecursively (V : Prop) (v : SE InlineModifier.t Expression) :
  asserts _ V v → asserts _ V (InlineModifier.visitRecursively v).
Proof.
  intros Hv im HJ HT. unfold InlineModifier.visitRecursively.
  destruct (Hv (IM [] (driverOf im)) HJ HT) as [->|(e & [b d'] & -> & HV & HT')];
    [by left|right]. by eexists _, _.
Qed.

Local Abbreviation keeps := (λ (A : Type) (r : Driver.Ref A), ∀ a d, J d → preserved d (r a d)).
Local Abbreviation good := (λ (A : Type) (r : Driver.Ref A), ∀ a d, T d → T (r a d)).

(** What is asked of the visit of one expression. *)
Local Abbreviation through := (λ e : Expression,
  flatCalls ok e = true →
  ∀ r : Driver.Ref Expression, keeps _ r → good _ r →
    asserts _ (spares bad cur (calledNames e)) (visit r e)).

Lemma asserts_visitArguments_loop r hints types rest :
  keeps _ r → good _ r →
  Forall through rest →
  forallb (flatCalls ok) rest = true →
  ∀ done m prefix,
    asserts _ (spares bad cur (concat (map calledNames rest)))
      (InlineModifier.visitArguments_loop visit r hints types done rest m prefix).
Proof.
  intros Hr Hg. induction 1 as [|arg rest Harg _ IH]; intros Hflat done m prefix.
  - rewrite (visitArguments_loop_nil h cur). apply asserts_ret, spares_nil.
  - simpl in Hflat. apply andb_true_iff in Hflat as [Hfarg Hfrest].
    rewrite (visitArguments_loop_cons h cur). cbn zeta.
    assert (keeps _ (λ a, r (done ++ a :: rest))) as Hr' by (intros a d; apply Hr).
    assert (good _ (λ a, r (done ++ a :: rest))) as Hg' by (intros a d; apply Hg).
    eapply asserts_bind.
    { apply preserves_visitRecursively.
      apply (preserves_visit h cur h_preserves arg J J_stable J_wellFormed _ Hr'). }
    { apply asserts_visitRecursively. by apply Harg. }
    intros [arg1 ip] Hsp. simpl. simpl concat.
    assert (spares bad cur (concat (map calledNames rest)) →
            spares bad cur (calledNames arg ++ concat (map calledNames rest))) as Hall.
    { intros Hrest. by apply spares_app. }
    destruct (negb (InlineModifier.isEmpty ip)).
    { eapply asserts_weaken; [exact Hall|]. apply (IH Hfrest). }
    destruct m; [|eapply asserts_weaken; [exact Hall|]; apply (IH Hfrest)].
    eapply asserts_bind; [apply preserves_newName|apply asserts_newName|].
    intros var _.
    eapply asserts_bind.
    { apply preserves_assign. intros d; apply Hr'. }
    { apply asserts_assign. intros d; apply Hg'. }
    intros _ _. eapply asserts_weaken; [exact Hall|]. apply (IH Hfrest).
Qed.

Lemma asserts_visit_FunctionalInstruction r l i args :
  keeps _ r → good _ r →
  Forall through args → forallb (flatCalls ok) args = true →
  asserts _ (spares bad cur (calledNames (FunctionalInstruction l i args)))
    (visit r (FunctionalInstruction l i args)).
Proof.
  intros Hr Hg Hargs Hflat. rewrite (visit_FunctionalInstruction h cur).
  assert (keeps _ (λ a, r (FunctionalInstruction l i a))) as Hr' by (intros a d; apply Hr).
  assert (good _ (λ a, r (FunctionalInstruction l i a))) as Hg' by (intros a d; apply Hg).
  eapply asserts_bind; [| |intros; by apply asserts_ret].
  { apply preserves_visitArguments; [done|exact Hr'|].
    apply Forall_forall. intros e _ r0 Hr0.
    by apply (preserves_visit h cur h_preserves e J J_stable J_wellFormed). }
  unfold InlineModifier.visitArguments.
  eapply asserts_bind.
  { apply preserves_visitArguments_loop; [done|exact Hr'|].
    apply Forall_forall. intros e _ r0 Hr0.
    by apply (preserves_visit h cur h_preserves e J J_stable J_wellFormed). }
  { by apply asserts_visitArguments_loop. }
  intros [args' prefix] Hsp.
  eapply asserts_bind; [apply preserves_append|apply asserts_append|].
  intros _ _. by apply asserts_ret.
Qed.

Lemma asserts_visit_FunctionCall r l fn args :
  keeps _ r → good _ r →
  ok fn (length args) = true → forallb callFree args = true →
  asserts _ (spares bad cur (calledNames (FunctionCall l fn args)))
    (visit r (FunctionCall l fn args)).
Proof.
  intros Hr Hg Hok Hcf im HJ HT.
  assert ((bad fn → fn = cur) → spares bad cur (calledNames (FunctionCall l fn args)))
    as Hsp.
  { simpl. rewrite (calledNames_callFree_all _ Hcf).
    intros H x Hx%list_elem_of_singleton. by subst. }
  pose proof (J_callable _ fn _ HJ Hok) as Hc.
  destruct (Driver.m_functions (driverOf im) !! fn) as [p|] eqn:Hp;
    [|by unfold callable in Hc; rewrite Hp in Hc].
  destruct (h_asserts p (driverOf im) HJ HT) as [Hfail|(d1 & Hh1 & HT1)].
  { left. by eapply visit_FunctionCall_abort. }
  pose proof (h_preserves p (driverOf im) (J_wellFormed _ HJ)) as Hp1. unfold id in Hp1.
  rewrite Hh1 in Hp1.
  assert (J d1) as HJ1 by (by eapply J_stable).
  pose proof (callable_preserved _ _ fn _ Hp1 Hc) as Hc1. unfold callable in Hc1.
  assert (Driver.m_functions d1 !! fn = Some p) as Hp'.
  { destruct Hp1 as [-> _]. done. }
  rewrite Hp' in Hc1. destruct (Driver.deref p d1) as [f|] eqn:Hf; [|done].
  apply Nat.leb_le in Hc1.
  remember (InlineModifier.doInline cur fn (Driver.fun_returnVariables f)) as m eqn:Hm.
  assert (keeps _ (λ a, r (FunctionCall l fn a))) as Hr' by (intros a d; apply Hr).
  destruct (visitArguments_loop_callFree_Ok h cur (λ a, r (FunctionCall l fn a))
              (argNames f) (argTypes f) args Hcf [] m [] (IM (buffer im) d1))
    as ([args' prefix] & im1 & Hloop & _).
  pose proof (visitArguments_loop_shape h cur _ _ _ _ _ _ _ _ _ _ _ Hloop)
    as (Hlen' & _ & _ & Hbuf & Hids). simpl in Hlen', Hbuf.
  assert (T (driverOf im1)) as HT2.
  { exact (visitArguments_loop_callFree_invariant h cur T
             (λ a, r (FunctionCall l fn a)) _ _ _
             (λ a d, Hg (FunctionCall l fn a) d) T_usedNames Hcf
             _ _ _ _ _ _ Hloop HT1). }
  assert (preserved d1 (driverOf im1)) as Hp2.
  { pose proof (preserves_visitArguments_loop h cur J J_stable
                  (λ a, r (FunctionCall l fn a)) (argNames f) (argTypes f) args Hr'
                  (proj2 (Forall_forall _ _)
                     (λ e _ r0 Hr0, preserves_visit h cur h_preserves e J J_stable
                                      J_wellFormed r0 Hr0))
                  [] m [] (IM (buffer im) d1) HJ1) as Hpres.
    by rewrite Hloop in Hpres. }
  assert (InlineModifier.visitArguments visit (λ a, r (FunctionCall l fn a)) args
            (argNames f) (argTypes f) m (IM (buffer im) d1)
          = Ok (args', IM (buffer im1 ++ prefix) (driverOf im1))) as Hargs.
  { apply (visitArguments_Ok h cur). by exists prefix, im1. }
  rewrite Hm in Hargs.
  rewrite (visit_FunctionCall_run h cur r l fn args im p d1 f args' _ Hp Hh1 Hf Hargs).
  rewrite <- Hm. destruct m.
  - (* the call is inlined *)
    destruct (deref_preserved_forward _ _ _ _ Hp2 Hf) as (f2 & Hf2 & Hname & Hparams & Hrets).
    pose proof (proj1 (doInline_true cur fn _) (eq_sym Hm)) as [Hne Hone].
    destruct (Driver.fun_returnVariables f2) as [|rv [|]] eqn:Hrv;
      try (rewrite <- Hrets in Hone; simpl in Hone; lia).
    assert (Forall (λ a, isIdentifier a = true) args') as Hid.
    { apply Forall_lookup. intros i a' Ha'.
      destruct (lookup_lt_is_Some_2 args i) as [a Ha].
      { apply lookup_lt_Some in Ha'. lia. }
      destruct (Hids eq_refl i a Ha) as (v & Hv & _).
      { rewrite forallb_forall in Hcf. apply Hcf. by eapply list_elem_of_In, list_elem_of_lookup_2. }
      simpl in Hv. rewrite Ha' in Hv. by injection Hv as ->. }
    destruct (bindParameters_identifiers (Driver.fun_parameters f2) args' Hid 0 ∅)
      as [repl Hrepl].
    { rewrite Hparams. simpl. lia. }
    destruct (inlineCall_outcome r l p args' (IM (buffer im1 ++ prefix) (driverOf im1))
                f2 rv repl Hf2) as [[Hfatal Hdef]|(e' & u & Hrun & Hdef)];
      [by rewrite Hrv|done|by left|].
    right. eexists _, _. split; [exact Hrun|]. split.
    + apply Hsp. intros Hbad.
      destruct (T_bad _ _ HT2 Hbad) as (p0 & f0 & Hp0 & Hf0 & _ & Hdef0).
      assert (Driver.m_functions (driverOf im1) !! fn = Some p) as Hp2'.
      { destruct Hp2 as [-> _]. done. }
      rewrite Hp2' in Hp0. injection Hp0 as <-. rewrite Hf2 in Hf0. injection Hf0 as <-.
      congruence.
    + simpl. apply Hg. by apply T_usedNames.
  - (* the call stays *)
    right. eexists _, _. split; [done|]. split; [|done].
    apply Hsp. intros Hbad.
    destruct (T_bad _ _ HT1 Hbad) as (p0 & f0 & Hp0 & Hf0 & Hone & _).
    rewrite Hp' in Hp0. injection Hp0 as <-. rewrite Hf in Hf0. injection Hf0 as <-.
    destruct (decide (fn = cur)) as [|Hne]; [done|].
    pose proof (proj2 (doInline_true cur fn _) (conj Hne Hone)). congruence.
Qed.

Lemma asserts_visit e : through e.
Proof.
  induction e as [l i args IH|l fn args IH|l x|l v ty] using Expression_nested_ind;
    intros Hflat r Hr Hg.
  - by apply asserts_visit_FunctionalInstruction.
  - simpl in Hflat. apply andb_true_iff in Hflat as [Hok Hcf].
    by apply asserts_visit_FunctionCall.
  - apply asserts_ret, spares_nil.
  - apply asserts_ret, spares_nil.
Qed.

(** What is asked of the visit of one statement. *)
Local Abbreviation throughS := (λ s : Statement,
  flatStatement ok s = true →
  ∀ r : Driver.Ref Statement,
    (∀ s' d, sameHeader s s' → J d → preserved d (r s' d)) →
    (∀ s' d, sameHeader s s' → T d → T (r s' d)) →
    asserts _ (spares bad cur (reachedCalls s)) (visitStatement r s)).

Lemma asserts_op_Block_loop r rest :
  keeps _ r → good _ r →
  Forall throughS rest →
  forallb (flatStatement ok) rest = true →
  ∀ done,
    asserts _ (spares bad cur (concat (map reachedCalls rest)))
      (InlineModifier.op_Block_loop visitStatement r done rest).
Proof.
  intros Hr Hg. induction 1 as [|s rest Hs _ IH]; intros Hflat done.
  - rewrite (op_Block_loop_nil h cur). apply asserts_ret, spares_nil.
  - simpl in Hflat. apply andb_true_iff in Hflat as [Hfs Hfrest].
    rewrite (op_Block_loop_cons h cur).
    eapply asserts_bind.
    { apply (preserves_visitStatement h cur h_preserves s J J_stable J_wellFormed).
      intros s' d _. apply Hr. }
    { apply (Hs Hfs).
      - intros s' d _. apply Hr.
      - intros s' d _. apply Hg. }
    intros s1 Hs1. simpl concat.
    assert (spares bad cur (concat (map reachedCalls rest)) →
            spares bad cur (reachedCalls s ++ concat (map reachedCalls rest))) as Hall.
    { intros Hrest. by apply spares_app. }
    eapply asserts_bind; [apply preserves_gets|apply asserts_gets_buffer|].
    intros prefix _.
    destruct (negb (InlineModifier.isEmpty prefix)).
    + eapply asserts_bind.
      { apply preserves_assign. intros d. apply Hr. }
      { apply asserts_assign. intros d. apply Hg. }
      intros _ _.
      eapply asserts_bind; [apply preserves_clear|apply asserts_clear|].
      intros _ _. eapply asserts_weaken; [exact Hall|]. apply (IH Hfrest).
    + eapply asserts_weaken; [exact Hall|]. apply (IH Hfrest).
Qed.

Lemma asserts_op_Block r statements :
  keeps _ r → good _ r →
  Forall throughS statements →
  forallb (flatStatement ok) statements = true →
  asserts _ (spares bad cur (concat (map reachedCalls statements)))
    (InlineModifier.op_Block h cur r statements).
Proof.
  intros Hr Hg Hall Hflat. rewrite (op_Block_unfold h cur).
  by apply asserts_op_Block_loop.
Qed.

Lemma asserts_visitStatement s : throughS s.
Proof.
  induction s as [l e|l names v|l vars v|l name ps rs lb body IH
    |l lpre pre cnd lpost post lbody body IHpre IHpost IHbody|l ss IH]
    using Statement_nested_ind; intros Hflat r Hr Hg; simpl in Hflat.
  - rewrite (visitStatement_ExpressionStatement h cur).
    eapply asserts_bind; [| |intros e' He'; apply asserts_ret, He'].
    + apply (preserves_visit h cur h_preserves e J J_stable J_wellFormed).
      intros a d. by apply Hr.
    + apply (asserts_visit e Hflat).
      * intros a d. by apply Hr.
      * intros a d. by apply Hg.
  - rewrite (visitStatement_Assignment h cur).
    eapply asserts_bind; [| |intros e' He'; apply asserts_ret, He'].
    + apply (preserves_visit h cur h_preserves v J J_stable J_wellFormed).
      intros a d. by apply Hr.
    + apply (asserts_visit v Hflat).
      * intros a d. by apply Hr.
      * intros a d. by apply Hg.
  - destruct v as [v|]; [|apply asserts_ret, spares_nil].
    rewrite (visitStatement_VariableDeclaration_Some h cur).
    assert (∀ a, sameHeader (VariableDeclaration l vars (Some v))
                   (VariableDeclaration l vars (Some a))) as Hsame.
    { intros a. simpl. split; [done|]. split; [done|]. split; intros _; by eexists. }
    eapply asserts_bind; [| |intros e' He'; apply asserts_ret, He'].
    + apply (preserves_visit h cur h_preserves v J J_stable J_wellFormed).
      intros a d. by apply Hr.
    + apply (asserts_visit v Hflat).
      * intros a d. by apply Hr.
      * intros a d. by apply Hg.
  - done.
  - apply andb_true_iff in Hflat as [Hflat Hfbody].
    apply andb_true_iff in Hflat as [Hfpre Hfpost].
    rewrite (visitStatement_ForLoop h cur), (op_ForLoop_unfold h cur).
    eapply asserts_bind.
    { apply (preserves_op_Block h cur h_preserves J _ pre J_stable J_wellFormed).
      intros a d. by apply Hr. }
    { apply asserts_op_Block; [intros a d; by apply Hr|intros a d; by apply Hg|done..]. }
    intros pre' Hpre'.
    eapply asserts_bind.
    { apply (preserves_op_Block h cur h_preserves J _ post J_stable J_wellFormed).
      intros a d. by apply Hr. }
    { apply asserts_op_Block; [intros a d; by apply Hr|intros a d; by apply Hg|done..]. }
    intros post' Hpost'.
    eapply asserts_bind.
    { apply (preserves_op_Block h cur h_preserves J _ body J_stable J_wellFormed).
      intros a d. by apply Hr. }
    { apply asserts_op_Block; [intros a d; by apply Hr|intros a d; by apply Hg|done..]. }
    intros body' Hbody'. apply asserts_ret. simpl.
    apply spares_app. split; [done|]. by apply spares_app.
  - rewrite (visitStatement_Block h cur).
    eapply asserts_bind.
    { apply (preserves_op_Block h cur h_preserves J _ ss J_stable J_wellFormed).
      intros a d. by apply Hr. }
    { apply asserts_op_Block; [intros a d; by apply Hr|intros a d; by apply Hg|done..]. }
    intros ss' Hss'. by apply asserts_ret.
Qed.

Lemma asserts_op_Block_flat r statements :
  keeps _ r → good _ r →
  forallb (flatStatement ok) statements = true →
  asserts _ (spares bad cur (concat (map reachedCalls statements)))
    (InlineModifier.op_Block h cur r statements).
Proof.
  intros Hr Hg Hflat. apply asserts_op_Block; [done..| |done].
  apply Forall_forall. intros s _. apply asserts_visitStatement.
Qed.
End asserting.

Lemma bodyRef_frame p b d :
  Driver.m_functions (Driver.bodyRef p b d) = Driver.m_functions d
  ∧ pending (Driver.bodyRef p b d) = pending d.
Proof. unfold Driver.bodyRef. by destruct (Driver.deref p d). Qed.

Lemma deref_FunctionDefinition p d f :
  Driver.deref p d = Some f →
  Driver.m_ast d !! p
  = Some (FunctionDefinition (Driver.fun_location f) (Driver.fun_name f)
            (Driver.fun_parameters f) (Driver.fun_returnVariables f)
            (Driver.fun_bodyLocation f) (Driver.fun_body f)).
Proof.
  unfold Driver.deref. destruct (Driver.m_ast d !! p) as [s|]; [|done].
  destruct s; try done. by intros [= <-].
Qed.

(** [handleFunction] on a driver that is prepared: it returns, or the
    assertion of the copier has aborted it; and it does not return from a
    function that reaches a call that copies a function definition. *)
Lemma handleFunction_asserts ok (bad : string → Prop) q0 N :
  ∀ p d, length (pending d) ≤ N → prepared ok d →
         (∀ fn, bad fn → copiesDefinition d fn) →
         (q0 ∈ pending d → offender bad d q0) →
         FullInliner.handleFunction p d = Fatal hoistingAssertion
         ∨ ∃ d', FullInliner.handleFunction p d = Ok (tt, d')
                 ∧ (∀ fn, bad fn → copiesDefinition d' fn)
                 ∧ (q0 ∈ pending d → q0 ∈ pending d').
Proof.
  induction N as [|N IH]; intros p d Hlen Hprep Hbad Hq.
  - right. exists d. split; [|done]. apply handleFunction_skip.
    destruct (pending d); [apply not_elem_of_nil|simpl in Hlen; lia].
  - destruct (decide (p ∈ pending d)) as [Hp|Hp].
    2:{ right. exists d. split; [by apply handleFunction_skip|done]. }
    pose proof Hprep as (Hwf & Hcall & Hpend).
    destruct (Hpend p Hp) as (f & Hf & Hkind).
    destruct (forallb callFreeStatement (Driver.fun_body f)) eqn:Hcf.
    + (* nothing is called in the body *)
      right. exists (Driver.erase p d). split.
      { eapply handleFunction_callFree; [done|by apply deref_FunctionDefinition|done]. }
      split.
      * intros fn Hfn. by apply copiesDefinition_erase, Hbad.
      * intros Hq0. simpl. apply list_elem_of_filter. split; [|done]. intros ->.
        destruct (Hq Hq0) as (f0 & fn & Hf0 & Hfn & _).
        rewrite Hf in Hf0. injection Hf0 as <-.
        rewrite (reachedCalls_callFree_all _ Hcf) in Hfn. by apply elem_of_nil in Hfn.
    + (* the body is flat *)
      rewrite orb_false_r in Hkind.
      assert (Driver.read p (Driver.erase p d) = Ok (f, Driver.erase p d)) as Hread.
      { unfold Driver.read, Driver.deref in *. simpl. by rewrite Hf. }
      assert (FullInliner.handleFunction p d
              = match InlineModifier.op_Block FullInliner.handleFunction (Driver.fun_name f)
                        (Driver.bodyRef p) (Driver.fun_body f) (IM [] (Driver.erase p d)) with
                | Ok (_, im') => Ok (tt, driverOf im')
                | Fatal why => Fatal why
                end) as Heq.
      { rewrite (handleFunction_go p d Hp). unfold bind at 1, modify at 1.
        rewrite (bind_step _ _ _ _ _ Hread). unfold bind, FullInliner.withModifier.
        by destruct (InlineModifier.op_Block _ _ _ _ _) as [[b im']|why]. }
      set (J := λ d' : Driver.t,
             prepared ok d' ∧ length (pending d') ≤ N ∧ (p ∉ pending d')
             ∧ (q0 ∈ pending d' → offender bad d' q0)).
      set (T := λ d' : Driver.t,
             (∀ fn, bad fn → copiesDefinition d' fn)
             ∧ (∀ fn, bad fn → Driver.m_functions d' !! fn ≠ Some p)
             ∧ (q0 ∈ pending (Driver.erase p d) → q0 ∈ pending d')).
      assert (stable J) as HJ.
      { intros d1 d2 (Hr1 & Hl1 & Hn1 & Hq1) Hpres. split; [by eapply prepared_stable|].
        pose proof Hpres as (_ & _ & Hsub & _ & Hl & _). split; [lia|]. split.
        - intros Hin. by apply Hn1, Hsub.
        - intros Hin. eapply offender_preserved; [done..|]. by apply Hq1, Hsub. }
      assert (∀ p' d', J d' → T d' →
                FullInliner.handleFunction p' d' = Fatal hoistingAssertion
                ∨ ∃ d'', FullInliner.handleFunction p' d' = Ok (tt, d'') ∧ T d'') as Hh.
      { intros p' d' (Hr' & Hl' & _ & Hq') (Hb' & HF' & Hk').
        destruct (IH p' d' Hl' Hr' Hb' Hq') as [Hfail|(d'' & Hrun & Hb'' & Hk'')];
          [by left|right].
        exists d''. split; [done|]. split; [done|].
        pose proof (preserves_handleFunction p' d' (proj1 Hr')) as Hpres.
        unfold id in Hpres. rewrite Hrun in Hpres. destruct Hpres as (Hfn & _).
        split; [intros fn Hfn'; rewrite Hfn; by apply HF'|].
        intros Hin. by apply Hk'', Hk'. }
      assert (J (Driver.erase p d)) as HJe.
      { split; [eapply prepared_stable; [done|apply preserved_erase]|]. split.
        - simpl. pose proof (length_filter_elem p _ Hp). lia.
        - split.
          + simpl. intros Hin. by apply list_elem_of_filter in Hin as [? _].
          + simpl. intros Hin. apply list_elem_of_filter in Hin as [_ Hin].
            destruct (Hq Hin) as (f0 & fn & H0). by exists f0, fn. }
      assert (T (Driver.erase p d)) as HTe.
      { split; [intros fn Hfn; by apply copiesDefinition_erase, Hbad|]. split; [|done].
        intros fn Hfn Heqp. simpl in Heqp.
        destruct (Hbad fn Hfn) as (p0 & f0 & Hp0 & Hf0 & _ & Hdef).
        rewrite Heqp in Hp0. injection Hp0 as <-. rewrite Hf in Hf0. injection Hf0 as <-.
        pose proof (flatStatements_definitionFree ok _ Hkind) as Hfree.
        apply definitionFree_existsb in Hfree. congruence. }
      destruct (asserts_op_Block_flat FullInliner.handleFunction (Driver.fun_name f) ok bad
                  J T preserves_handleFunction Hh HJ
                  (λ d' Hd', proj1 (proj1 Hd'))
                  (λ d' fn n Hd', proj1 (proj2 (proj1 Hd')) fn n)
                  (λ d' fn Hd', proj1 Hd' fn)
                  (λ u d' Hd', conj (λ fn Hfn, copiesDefinition_set_usedNames u d' fn
                                                 (proj1 Hd' fn Hfn)) (proj2 Hd'))
                  (Driver.bodyRef p) (Driver.fun_body f)
                  (λ b d' Hd', preserved_bodyRef p b d' (proj1 (proj2 (proj2 Hd'))))
                  (λ b d' Hd',
                     conj (λ fn Hfn, copiesDefinition_bodyRef p b d' fn
                                       (proj1 (proj2 Hd') fn Hfn) (proj1 Hd' fn Hfn))
                       (conj (λ fn Hfn, eq_ind_r (λ m, m !! fn ≠ Some p)
                                          (proj1 (proj2 Hd') fn Hfn)
                                          (proj1 (bodyRef_frame p b d')))
                          (λ Hin, eq_ind_r (λ l, q0 ∈ l) (proj2 (proj2 Hd') Hin)
                                    (proj2 (bodyRef_frame p b d')))))
                  Hkind (IM [] (Driver.erase p d)) HJe HTe)
        as [Hfail|(b & im' & Hrun & HV & HT')].
      * left. by rewrite Heq, Hfail.
      * right. exists (driverOf im'). rewrite Heq, Hrun. split; [done|].
        destruct HT' as (Hb' & _ & Hk'). split; [done|].
        intros Hq0. destruct (decide (p = q0)) as [->|Hne].
        -- exfalso. destruct (Hq Hq0) as (f0 & fn & Hf0 & Hfn & Hbadfn & Hnot).
           rewrite Hf in Hf0. injection Hf0 as <-. by apply Hnot, (HV fn).
        -- apply Hk'. simpl. apply list_elem_of_filter. by split.
Qed.

(** The second loop of [run] does not get past such a function. *)
Lemma run_functions_asserts ok (bad : string → Prop) q0 rounds :
  ∀ d, length (pending d) ≤ rounds → prepared ok d →
       (∀ fn, bad fn → copiesDefinition d fn) →
       q0 ∈ pending d → offender bad d q0 →
       FullInliner.run_functions rounds d = Fatal hoistingAssertion.
Proof.
  induction rounds as [|rounds IH]; intros d Hlen Hprep Hbad Hq0 Hoff.
  - destruct (pending d); [by apply elem_of_nil in Hq0|simpl in Hlen; lia].
  - simpl. destruct (pending d) as [|p ps] eqn:Hp; [by apply elem_of_nil in Hq0|].
    rewrite <- Hp in Hlen, Hq0.
    destruct (handleFunction_asserts ok bad q0 _ p d (le_n _) Hprep Hbad (λ _, Hoff))
      as [Hfail|(d1 & Hrun & Hbad1 & Hq1)].
    { by apply bind_abort. }
    rewrite (bind_step _ _ _ _ _ Hrun).
    pose proof (preserves_handleFunction p d (proj1 Hprep)) as Hpres.
    unfold id in Hpres. rewrite Hrun in Hpres.
    apply IH; [|by eapply prepared_stable|done|by apply Hq1|].
    + pose proof (handleFunction_progress _ _ _ Hrun) as (l & _ & Hv & _).
      pose proof (handleFunction_done _ _ _ Hrun) as Hdone.
      rewrite Hv in Hdone |- *.
      assert (p ∈ pending d) as Hin by (rewrite Hp; apply elem_of_cons; by left).
      pose proof (length_filter_lt _ _ _ Hin Hdone) as Hlt. lia.
    + eapply offender_preserved; [done|by apply Hq1|done].
Qed.

(** The first loop of [run]. *)
Lemma run_statements_asserts ok (bad : string → Prop) q0 ast0 n :
  Forall (λ s, flatOrCallFree ok s = true) ast0 →
  ∀ i d,
    i + n = length ast0 →
    prepared ok d →
    (∀ fn, bad fn → copiesDefinition d fn) →
    (q0 ∈ pending d → offender bad d q0) →
    Forall2 sameHeader ast0 (Driver.m_ast d) →
    (∀ k s, i ≤ k → ast0 !! k = Some s → isFunctionDefinition s = false →
            Driver.m_ast d !! k = Some s) →
    FullInliner.run_statements n i d = Fatal hoistingAssertion
    ∨ ∃ d', FullInliner.run_statements n i d = Ok (tt, d')
            ∧ prepared ok d'
            ∧ (∀ fn, bad fn → copiesDefinition d' fn)
            ∧ preserved d d'
            ∧ (q0 ∈ pending d → q0 ∈ pending d')
            ∧ (∀ k s, i ≤ k → ast0 !! k = Some s → isFunctionDefinition s = false →
                      spares bad "" (reachedCalls s)).
Proof.
  intros Hflat. induction n as [|n IH]; intros i d Hin Hprep Hbad Hq Hheaders Hblocks.
  - right. exists d. split; [done|]. split; [done|]. split; [done|].
    split; [apply preserved_refl|]. split; [done|].
    intros k s Hk Hs. apply lookup_lt_Some in Hs. lia.
  - destruct (lookup_lt_is_Some_2 ast0 i) as [s0 Hs0]; [lia|].
    pose proof (Forall_lookup_1 _ _ _ _ Hflat Hs0) as Hf0.
    destruct (Forall2_lookup_l _ _ _ _ _ Hheaders Hs0) as (s & Hs & Hsame).
    destruct s0 as [| | |l0 n0 ps rs lb b| |l statements]; try done.
    + assert (FullInliner.run_statements (S n) i d = FullInliner.run_statements n (S i) d)
        as Hstep.
      { rewrite run_statements_S. unfold bind at 1, gets at 1. rewrite Hs.
        by destruct s. }
      rewrite Hstep.
      destruct (IH (S i) d) as [Hfail|(d' & Hrun & Hp' & Hb' & Hpres & Hq' & Hsp)];
        [lia|done..| |by left|].
      { intros k sk Hk. apply Hblocks. lia. }
      right. exists d'. split; [done|]. split; [done|]. split; [done|].
      split; [done|]. split; [done|].
      intros k sk Hk Hsk Hnf. destruct (decide (k = i)) as [->|Hne].
      * rewrite Hs0 in Hsk. by injection Hsk as <-.
      * apply (Hsp k sk); [lia|done..].
    + rewrite (Hblocks i _ (le_n _) Hs0 eq_refl) in Hs. injection Hs as <-.
      pose proof (Hblocks i _ (le_n _) Hs0 eq_refl) as Hs.
      assert (FullInliner.run_statements (S n) i d
              = (FullInliner.withModifier
                   (InlineModifier.visitStatement FullInliner.handleFunction ""
                      (Driver.statementRef i) (Block l statements));;
                 FullInliner.run_statements n (S i)) d) as Hstep.
      { rewrite run_statements_S. unfold bind at 1, gets at 1. by rewrite Hs. }
      rewrite Hstep.
      unfold flatOrCallFree in Hf0. simpl in Hf0. rewrite orb_false_r in Hf0.
      pose proof Hprep as (Hwf & _).
      assert (∀ d', wellFormed d' → (∃ l' b', Driver.m_ast d' !! i = Some (Block l' b')) →
                    i ∉ pending d') as Hnot.
      { intros d' [_ Hpend] (l' & b' & Hb') Hp. destruct (Hpend i Hp) as (sf & Hsf & Hdef).
        rewrite Hb' in Hsf. by injection Hsf as <-. }
      set (J := λ d' : Driver.t,
             prepared ok d' ∧ (q0 ∈ pending d' → offender bad d' q0)
             ∧ ∃ s', Driver.m_ast d' !! i = Some s' ∧ sameHeader (Block l statements) s').
      set (T := λ d' : Driver.t,
             (∀ fn, bad fn → copiesDefinition d' fn)
             ∧ (∃ l' b', Driver.m_ast d' !! i = Some (Block l' b'))
             ∧ (q0 ∈ pending d → q0 ∈ pending d')).
      assert (stable J) as HJ.
      { intros d1 d2 (Hr1 & Hq1 & s1 & Hs1 & Hh1) Hpres. split; [by eapply prepared_stable|].
        split.
        - intros Hin'. eapply offender_preserved; [done..|].
          apply Hq1. by apply Hpres.
        - destruct (preserved_lookup _ _ _ _ Hpres Hs1) as (s2 & Hs2 & Hh2).
          exists s2. split; [done|]. by eapply sameHeader_trans. }
      assert (J d) as HJd.
      { split; [done|]. split; [done|]. exists (Block l statements). split; [done|].
        apply sameHeader_refl. }
      assert (T d) as HTd.
      { split; [done|]. split; [by exists l, statements|done]. }
      assert (∀ p' d', J d' → T d' →
                FullInliner.handleFunction p' d' = Fatal hoistingAssertion
                ∨ ∃ d'', FullInliner.handleFunction p' d' = Ok (tt, d'') ∧ T d'') as Hh.
      { intros p' d' (Hr' & Hq' & _) (Hb' & (l' & b' & Hblk) & Hk').
        destruct (handleFunction_asserts ok bad q0 _ p' d' (le_n _) Hr' Hb' Hq')
          as [Hfail|(d'' & Hrun & Hb'' & Hk'')]; [by left|right].
        exists d''. split; [done|]. split; [done|].
        pose proof (preserves_handleFunction p' d' (proj1 Hr')) as Hpres.
        unfold id in Hpres. rewrite Hrun in Hpres.
        split.
        - destruct (preserved_lookup _ _ _ _ Hpres Hblk) as (s2 & Hs2 & Hh2).
          destruct s2; try done. by eexists _, _.
        - intros Hin'. by apply Hk'', Hk'. }
      destruct (asserts_visitStatement FullInliner.handleFunction "" ok bad
                  J T preserves_handleFunction Hh HJ
                  (λ d' Hd', proj1 (proj1 Hd'))
                  (λ d' fn n Hd', proj1 (proj2 (proj1 Hd')) fn n)
                  (λ d' fn Hd', proj1 Hd' fn)
                  (λ u d' Hd', conj (λ fn Hfn, copiesDefinition_set_usedNames u d' fn
                                                 (proj1 Hd' fn Hfn)) (proj2 Hd'))
                  (Block l statements) Hf0 (Driver.statementRef i))
        with (im := IM [] d) as [Hfail|(s1 & im1 & Hrun & HV & HT1)]; try done.
      { intros s' d' Hs' (Hr' & _ & s2 & Hs2 & Hh2).
        unfold Driver.statementRef. eapply preserved_insert; [|done|].
        - apply Hnot; [apply Hr'|]. destruct s2; try done. by eexists _, _.
        - eapply sameHeader_trans; [by apply sameHeader_sym|done]. }
      { intros s' d' Hs' (Hb' & (l' & b' & Hblk) & Hk'). split; [|split; [|done]].
        - intros fn Hfn. apply copiesDefinition_insert; [|by apply Hb'].
          intros Hi. destruct (Hb' fn Hfn) as (p0 & f0 & Hp0 & Hf0' & _).
          rewrite Hi in Hp0. injection Hp0 as <-.
          unfold Driver.deref in Hf0'. by rewrite Hblk in Hf0'.
        - destruct s'; try done. exists location, statements0. simpl.
          apply list_lookup_insert_eq. by eapply lookup_lt_Some. }
      { left. apply bind_abort. unfold FullInliner.withModifier. by rewrite Hfail. }
      assert (FullInliner.withModifier
                (InlineModifier.visitStatement FullInliner.handleFunction ""
                   (Driver.statementRef i) (Block l statements)) d
              = Ok (s1, driverOf im1)) as HrunW.
      { unfold FullInliner.withModifier. by rewrite Hrun. }
      rewrite (bind_step _ _ _ _ _ HrunW).
      pose proof (preserves_topLevelBlock i l statements d) as Hpres.
      unfold id in Hpres. rewrite HrunW in Hpres.
      assert (preserved d (driverOf im1)) as Hp1.
      { apply Hpres. split; [done|]. exists (Block l statements). split; [done|].
        apply sameHeader_refl. }
      destruct HT1 as (Hb1 & _ & Hk1).
      assert (i ∉ pending d) as Hi by (apply Hnot; [done|by eexists _, _]).
      apply (visitStatement_stores_result i (λ s, s)) in Hrun as [_ [_ Hframe]];
        [|apply storesAt_statementRef|done|done].
      destruct (IH (S i) (driverOf im1))
        as [Hfail|(d' & Hrun' & Hp' & Hb' & Hpres' & Hq' & Hsp)]; [lia| | | | | |by left|].
      * by eapply prepared_stable.
      * done.
      * intros Hin'. eapply offender_preserved; [done..|]. by apply Hq, Hp1.
      * destruct Hp1 as (_ & _ & _ & Ha & _).
        eapply Forall2_trans; [|done..]. apply sameHeader_trans.
      * intros k sk Hk Hsk Hnf. simpl in Hframe. rewrite Hframe.
        -- apply Hblocks; [lia|done..].
        -- intros Hin'%list_elem_of_singleton. lia.
        -- intros Hp. destruct Hwf as [_ Hpend].
           destruct (Hpend k Hp) as (sf & Hsf & Hdef).
           rewrite (Hblocks k sk) in Hsf by (done || lia). injection Hsf as <-. congruence.
      * right. exists d'. split; [done|]. split; [done|]. split; [done|].
        split; [by eapply preserved_trans|]. split; [by intros Hin'; apply Hq', Hk1|].
        intros k sk Hk Hsk Hnf. destruct (decide (k = i)) as [->|Hne].
        -- rewrite Hs0 in Hsk. by injection Hsk as <-.
        -- apply (Hsp k sk); [lia|done..].
Qed.

(** [run] does not get past a call that copies a function definition. *)
Lemma run_asserts ast names i s fn :
  Forall (λ s, flatOrCallFree (callable (FullInliner.new ast names)) s = true) ast →
  ast !! i = Some s →
  fn ∈ reachedCalls s → fn ≠ currentFunction s →
  copiesDefinition (FullInliner.new ast names) fn →
  FullInliner.run (FullInliner.new ast names) = Fatal hoistingAssertion.
Proof.
  intros Hflat Hs Hfn Hne Hcopy.
  set (d := FullInliner.new ast names) in *.
  set (ok := callable d) in *. set (bad := λ x : string, x = fn).
  destruct (new_toVisit ast names) as (Hv & _ & Hast & _). fold d in Hv, Hast.
  assert (prepared ok d) as Hprep.
  { split; [apply wellFormed_new|]. split; [done|].
    intros p Hp. destruct (wellFormed_new ast names) as [_ Hpend].
    destruct (Hpend p Hp) as (sp & Hsp & Hdef). fold d in Hsp. rewrite Hast in Hsp.
    pose proof (Forall_lookup_1 _ _ _ _ Hflat Hsp) as Hk.
    destruct sp as [| | |l0 n0 ps rs lb b| |]; try done.
    exists (Driver.mkFun l0 n0 ps rs lb b). split.
    { unfold Driver.deref. by rewrite Hast, Hsp. }
    exact Hk. }
  assert (∀ x, bad x → copiesDefinition d x) as Hbad by (by intros x ->).
  assert (i ∈ pending d → offender bad d i) as Hoff.
  { intros Hi. destruct (wellFormed_new ast names) as [_ Hpend].
    destruct (Hpend i Hi) as (si & Hsi & Hdef). fold d in Hsi.
    rewrite Hast, Hs in Hsi. injection Hsi as <-.
    destruct s as [| | |l0 n0 ps rs lb b| |]; try done.
    exists (Driver.mkFun l0 n0 ps rs lb b), fn. split.
    { unfold Driver.deref. by rewrite Hast, Hs. }
    done. }
  destruct (run_statements_asserts ok bad i ast (length (Driver.m_ast d)) Hflat 0 d)
    as [Hfail|(d1 & Hrun1 & Hprep1 & Hbad1 & Hpres1 & Hq1 & Hsp)]; try done.
  { by rewrite Hast. }
  { rewrite Hast. apply sameHeaders_refl. }
  { intros k sk _ Hsk _. by rewrite Hast. }
  { unfold FullInliner.run, bind. by rewrite Hfail. }
  unfold FullInliner.run, bind. rewrite Hrun1.
  destruct (isFunctionDefinition s) eqn:Hdef.
  - assert (i ∈ pending d) as Hi.
    { rewrite Hv. apply elem_of_functionPositions. by exists i, s. }
    apply (run_functions_asserts ok bad i); [done..|by apply Hq1|].
    eapply offender_preserved; [done|by apply Hq1|by apply Hoff].
  - exfalso. apply Hne. rewrite (Hsp i s (Nat.le_0_l _) Hs Hdef fn Hfn eq_refl).
    by destruct s.
Qed.

(** When the first loop of [run] is aborted, the visit of one top-level
    statement is aborted, started in the state the visits of the
    statements before have left; and the other way round. *)
Lemma run_statements_aborted n :
  ∀ i d why,
    FullInliner.run_statements n i d = Fatal why ↔
    ∃ j d1, j < n
            ∧ FullInliner.run_statements j i d = Ok (tt, d1)
            ∧ FullInliner.run_statements 1 (i + j) d1 = Fatal why.
Proof.
  induction n as [|n IH]; intros i d why.
  { split; [done|]. intros (j & d1 & Hj & _). lia. }
  assert (∀ k d0, FullInliner.run_statements (S k) i d0
                  = (FullInliner.run_statements 1 i;; FullInliner.run_statements k (S i)) d0)
    as Hsplit.
  { intros k d0. rewrite (run_statements_S k), (run_statements_S 0).
    unfold bind, gets, throw.
    destruct (Driver.m_ast d0 !! i) as [s|]; [|done].
    destruct s; try done.
    by destruct (FullInliner.withModifier _ d0) as [[s1 d1]|]. }
  rewrite Hsplit. split.
  - intros H. apply bind_Fatal in H as [H|([] & d0 & H0 & H)].
    + exists 0, d. split; [lia|]. split; [done|]. by rewrite Nat.add_0_r.
    + apply IH in H as (j & d1 & Hj & Hrun & Hfail).
      exists (S j), d1. split; [lia|]. split.
      * rewrite Hsplit. by rewrite (bind_step _ _ _ _ _ H0).
      * by rewrite <- Nat.add_succ_comm.
  - intros ([|j] & d1 & Hj & Hrun & Hfail).
    + injection Hrun as <-. rewrite Nat.add_0_r in Hfail. by apply bind_abort.
    + rewrite Hsplit in Hrun. apply bind_Ok in Hrun as ([] & d0 & H0 & Hrun).
      rewrite (bind_step _ _ _ _ _ H0). apply IH. exists j, d1.
      split; [lia|]. split; [done|]. by rewrite Nat.add_succ_comm.
Qed.
End abort_facts.

(** C7.  The two assertions, and what they do to the pass.  The overload
    of the modifier for a call, to which the generic dispatch takes a
    call, is the assertion "Should be handled in visit() instead." in
    every state.  The copy of a body by the copier is aborted by the
    assertion "Function hoisting has to be done before function inlining."
    exactly when a function definition occurs in the body, and so is the
    part of [visit] that inlines a call of a function with such a body.
    Nothing in the pass catches the exception.  With the driver prepared
    (valid pointers, calls with arguments without calls to functions with
    parameters enough, in the functions to visit that call anything),
    [handleFunction] is aborted by the assertion of the copier on a
    function to visit whose body reaches a call, not of the function
    itself, of a function with exactly one return variable whose body holds
    a function definition; and so is [run], from the state the constructor
    leaves on such a module, whenever a top-level statement reaches such a
    call.  And [run] is aborted exactly when, the visits of the top-level
    statements before having returned, the visit of one top-level
    statement is aborted in the state they have left, or when the second
    loop is aborted in the state the first has left: the exception is
    raised with the tree as rewritten up to there. *)
Theorem assertions_abort_run :
  (∀ h cur r l f args im,
     InlineModifier.ASTModifier_visit_with (InlineModifier.visit h cur) r
       (FunctionCall l f args) im
     = Fatal (AssertionFailure "Should be handled in visit() instead."))
  ∧ (∀ pfx repl l body im,
       copyOutcome (existsb containsFunctionDefinition body)
         (InlineModifier.copyBody pfx repl l body im))
  ∧ (∀ r l p args im f rv repl,
       Driver.deref p (InlineModifier.m_driver im) = Some f →
       Driver.fun_returnVariables f !! 0 = Some rv →
       InlineModifier.bindParameters (Driver.fun_parameters f) args 0 ∅ = Ok repl →
       existsb containsFunctionDefinition (Driver.fun_body f) = true →
       InlineModifier.inlineCall r l p args im = Fatal hoistingAssertion)
  ∧ (∀ ok p d f fn,
       prepared ok d →
       p ∈ Driver.m_functionsToVisit d → Driver.deref p d = Some f →
       fn ∈ concat (map reachedCalls (Driver.fun_body f)) → fn ≠ Driver.fun_name f →
       copiesDefinition d fn →
       FullInliner.handleFunction p d = Fatal hoistingAssertion)
  ∧ (∀ ast names i s fn,
       Forall (λ s, flatOrCallFree (callable (FullInliner.new ast names)) s = true) ast →
       ast !! i = Some s →
       fn ∈ reachedCalls s → fn ≠ currentFunction s →
       copiesDefinition (FullInliner.new ast names) fn →
       FullInliner.run (FullInliner.new ast names) = Fatal hoistingAssertion)
  ∧ (∀ d why,
       FullInliner.run d = Fatal why ↔
       (∃ j d1, j < length (Driver.m_ast d)
                ∧ FullInliner.run_statements j 0 d = Ok (tt, d1)
                ∧ FullInliner.run_statements 1 j d1 = Fatal why)
       ∨ (∃ d1, FullInliner.run_statements (length (Driver.m_ast d)) 0 d = Ok (tt, d1)
                ∧ FullInliner.run_functions (length (Driver.m_functionsToVisit d1)) d1
                  = Fatal why)).
Proof.
  split; [done|]. split; [apply copyBody_outcome|]. split.
  { intros r l p args im f rv repl Hf Hrv Hrepl Hdef.
    destruct (inlineCall_outcome r l p args im f rv repl Hf Hrv Hrepl)
      as [[Hfail _]|(e' & u & _ & Hfree)]; [done|congruence]. }
  split.
  { intros ok p d f fn Hprep Hp Hf Hfn Hne Hcopy.
    destruct (handleFunction_asserts ok (λ x, x = fn) p (length (Driver.m_functionsToVisit d))
                p d (le_n _) Hprep)
      as [Hfail|(d' & Hrun & _ & Hq)]; [by intros x ->|by intros _; exists f, fn|done|].
    exfalso. apply (handleFunction_done _ _ _ Hrun). by apply Hq. }
  split; [apply run_asserts|].
  intros d why. unfold FullInliner.run. rewrite bind_Fatal, run_statements_aborted.
  split.
  - intros [(j & d1 & Hj & Hrun & Hfail)|([] & d1 & Hrun & Hfail)].
    + left. by exists j, d1.
    + right. by exists d1.
  - intros [(j & d1 & Hj & Hrun & Hfail)|(d1 & Hrun & Hfail)].
    + left. by exists j, d1.
    + right. by exists tt, d1.
Qed.

Lemma assertions_abort_run_witness :
  FullInliner.run (FullInliner.new Sample.nestedDefinition Sample.nestedDefinition_names)
  = Fatal hoistingAssertion.
Proof.
  apply (proj1 (proj2 (proj2 (proj2 (proj2 assertions_abort_run))))
           Sample.nestedDefinition Sample.nestedDefinition_names 3
           (Block Sample.at0 [Sample.declare "b" (Sample.call "g" [Sample.num "2"])]) "g").
  - repeat constructor.
  - reflexivity.
  - apply list_elem_of_here.
  - done.
  - exists 1, (Driver.mkFun Sample.at0 "g" [Sample.typed "x"] [Sample.typed "y"] Sample.at0
                 [Sample.function "k" [] [] []; Sample.set "y" (Sample.var "x")]).
    split; [reflexivity|]. split; [reflexivity|]. split; reflexivity.
Defined.

(** A run that the assertion of the copier aborts, and the tree it leaves.
    The first block has been visited, and holds the inlined call of f.
    In the second block the argument of the call of g has been replaced by
    the temporary g_x, whose declaration is in the buffer of the modifier
    only, when the copy of the body of g is aborted; the buffer goes with
    the modifier, and the tree stays as it is. *)
Lemma abort_leaves_tree_rewritten :
  ∃ d1 d2 args' im2,
    FullInliner.run_statements 3 0
      (FullInliner.new Sample.nestedDefinition Sample.nestedDefinition_names)
    = Ok (tt, d1)
    ∧ Driver.m_ast d1 !! 2 = Some Sample.nestedDefinition_inlined
    ∧ Sample.nestedDefinition !! 2 ≠ Some Sample.nestedDefinition_inlined
    ∧ FullInliner.handleFunction 1 d1 = Ok (tt, d2)
    ∧ InlineModifier.visitArguments (InlineModifier.visit FullInliner.handleFunction "")
        (λ a, Driver.statementRef 3
                (Block Sample.at0 [Sample.declare "b" (Sample.call "g" a)]))
        [Sample.num "2"] ["g_x"] [""] true (InlineModifier.mk [] d2)
      = Ok (args', im2)
    ∧ Driver.m_ast (InlineModifier.m_driver im2) !! 3
      = Some (Block Sample.at0
                [Sample.declare "b" (Sample.call "g" [Sample.var "g_x"])])
    ∧ InlineModifier.m_statementsToPrefix im2 = [Sample.declare "g_x" (Sample.num "2")]
    ∧ InlineModifier.inlineCall
        (λ e, Driver.statementRef 3 (Block Sample.at0 [Sample.declare "b" e]))
        Sample.at0 1 args' im2
      = Fatal hoistingAssertion
    ∧ FullInliner.run_statements 1 3 d1 = Fatal hoistingAssertion
    ∧ FullInliner.run
        (FullInliner.new Sample.nestedDefinition Sample.nestedDefinition_names)
      = Fatal hoistingAssertion.
Proof.
  eexists _, _, _, _.
  split; [vm_compute; reflexivity|].
  split; [vm_compute; reflexivity|].
  split; [done|].
  split; [vm_compute; reflexivity|].
  split; [vm_compute; reflexivity|].
  split; [vm_compute; reflexivity|].
  split; [vm_compute; reflexivity|].
  split; [vm_compute; reflexivity|].
  split; vm_compute; reflexivity.
Qed.
